(** * Maze generation and pathfinding: a shallow embedding

    The TypeScript library under [src/lib/maze] is embedded function by
    function.  A maze is the [number[][]] matrix of the source ([0] is a
    path, [1] is a wall), coordinates are pairs of integers, the [Set<string>]
    and [Map<string, _>] objects keyed by ["r,c"] are finite sets and maps
    keyed by the coordinate pair, and every call of [Math.random] reads the
    next value of an explicit oracle.  Loops that the source writes as
    [while] run on fuel; running out of fuel is an outcome of its own and is
    never confused with a returned value. *)

From Stdlib Require Import ZArith Lia Bool.
From stdpp Require Import base option list gmap.

Local Open Scope Z_scope.

(** ** Outcomes of a call *)

(** [Returned a]: the call returns [a].  [Fault]: the call leaves the
    modelled fragment of the language: it raises a [TypeError] (a property
    of [undefined] is read) or it reads or writes outside an array.
    [OutOfFuel]: the model's iteration budget ran out before the call
    returned. *)
Inductive outcome (A : Type) : Type :=
  | Returned (a : A)
  | Fault
  | OutOfFuel.
Arguments Returned {A} a.
Arguments Fault {A}.
Arguments OutOfFuel {A}.

Definition outcome_map {A B} (f : A -> B) (o : outcome A) : outcome B :=
  match o with
  | Returned a => Returned (f a)
  | Fault => Fault
  | OutOfFuel => OutOfFuel
  end.

Definition outcome_bind {A B} (f : A -> outcome B) (o : outcome A)
  : outcome B :=
  match o with
  | Returned a => f a
  | Fault => Fault
  | OutOfFuel => OutOfFuel
  end.

#[global] Instance outcome_mbind : MBind outcome := @outcome_bind.
#[global] Instance outcome_mret : MRet outcome := @Returned.

(** A [for] loop over a list whose body may fail. *)
Fixpoint foldM {A B : Type} (f : B -> A -> outcome B) (l : list A) (b : B)
  : outcome B :=
  match l with
  | [] => Returned b
  | x :: l' => b' ← f b x; foldM f l' b'
  end.

(** A [while] loop: [step] either continues with a new state or leaves the
    loop with the value computed after it. *)
Fixpoint loop {St R : Type} (step : St -> St + outcome R) (fuel : nat)
    (s : St) : outcome R :=
  match fuel with
  | O => OutOfFuel
  | S n =>
      match step s with
      | inl s' => loop step n s'
      | inr r => r
      end
  end.

(** ** Grid codec *)

Definition Coord : Type := Z * Z.
Abbreviation Grid := (list (list Z)).

Definition Path : Z := 0.
Definition Wall : Z := 1.

(** [maze.length] *)
Definition numRows (maze : Grid) : Z := Z.of_nat (length maze).

(** [maze[0].length]; [maze[0]] is [undefined] for an empty matrix and
    reading its [length] throws. *)
Definition numCols (maze : Grid) : option Z :=
  match maze with
  | [] => None
  | row :: _ => Some (Z.of_nat (length row))
  end.

(** [maze[r][c]], [None] standing for [undefined]. *)
Definition cellAt (maze : Grid) (r c : Z) : option Z :=
  if (r <? 0) || (c <? 0) then None
  else match maze !! Z.to_nat r with
       | Some row => row !! Z.to_nat c
       | None => None
       end.

(** [maze[r][c] === v] *)
Definition cellIs (maze : Grid) (r c v : Z) : bool :=
  match cellAt maze r c with
  | Some x => x =? v
  | None => false
  end.

(** [maze[r][c] = v].  Outside the matrix the assignment would raise (there
    is no such row) or lengthen a row (there is no such column); the model
    stops with [Fault] at either. *)
Definition setCell (maze : Grid) (r c v : Z) : outcome Grid :=
  if (r <? 0) || (c <? 0) then Fault
  else match maze !! Z.to_nat r with
       | Some row =>
           if (Z.to_nat c <? length row)%nat
           then Returned (<[Z.to_nat r := <[Z.to_nat c := v]> row]> maze)
           else Fault
       | None => Fault
       end.

(** The four moves, in the order of the source's [directions] arrays. *)
Definition directions : list (Z * Z) := [(-1, 0); (1, 0); (0, -1); (0, 1)].

(** The guard every pathfinder opens with: an endpoint out of bounds or on a
    wall. *)
Definition invalidEndpoint (maze : Grid) (nr nc : Z) (p : Coord) : bool :=
  (p.1 <? 0) || (p.1 >=? nr) || (p.2 <? 0) || (p.2 >=? nc)
  || cellIs maze p.1 p.2 Wall.

(** The neighbour test of the search loops: inside the matrix and a path. *)
Definition passable (maze : Grid) (nr nc : Z) (p : Coord) : bool :=
  (p.1 >=? 0) && (p.1 <? nr) && (p.2 >=? 0) && (p.2 <? nc)
  && cellIs maze p.1 p.2 Path.

Definition move (p : Coord) (d : Z * Z) : Coord := (p.1 + d.1, p.2 + d.2).

(** ** Results of a search *)

Record PathResult : Type := mkResult {
  path : option (list Coord);
  visitedOrder : list Coord
}.

(** The result together with the trace of cells taken out of the frontier as
    the current cell, in order.  The trace is not part of what the source
    returns; it is kept to state when a cell enters [visitedOrder]. *)
Record Traced : Type := mkTraced {
  result : PathResult;
  popped : list Coord
}.

(** [parentMap.get(key) || null] *)
Definition parentOf (parentMap : gmap Coord (option Coord)) (c : Coord)
  : option Coord :=
  match parentMap !! c with
  | Some (Some p) => Some p
  | _ => None
  end.

(** The reconstruction loop
    [while (current !== null) { path.push(current); current = parent || null }];
    the caller reverses the list. *)
Fixpoint reconstructPath (fuel : nat) (parentMap : gmap Coord (option Coord))
    (current : option Coord) (acc : list Coord) : outcome (list Coord) :=
  match current with
  | None => Returned acc
  | Some c =>
      match fuel with
      | O => OutOfFuel
      | S n => reconstructPath n parentMap (parentOf parentMap c) (acc ++ [c])
      end
  end.

(** ** Breadth-first search ([bfs.ts]) *)

Module BFS.

Record State : Type := mkState {
  queue : list Coord;
  visited : gset Coord;
  order : list Coord;
  parentMap : gmap Coord (option Coord);
  trace : list Coord
}.

Definition init (start : Coord) : State :=
  {| queue := [start];
     visited := {[start]};
     order := [start];
     parentMap := {[start := None]};
     trace := [] |}.

(** The body of [for (const [dr, dc] of directions)]. *)
Definition visit (maze : Grid) (nr nc : Z) (cur : Coord) (st : State)
    (d : Z * Z) : State :=
  let n := move cur d in
  if passable maze nr nc n && negb (bool_decide (n ∈ visited st)) then
    {| queue := queue st ++ [n];
       visited := {[n]} ∪ visited st;
       order := order st ++ [n];
       parentMap := <[n := Some cur]> (parentMap st);
       trace := trace st |}
  else st.

Definition step (fuel : nat) (maze : Grid) (nr nc : Z) (goal : Coord)
    (st : State) : State + outcome Traced :=
  match queue st with
  | [] => inr (Returned (mkTraced (mkResult None (order st)) (trace st)))
  | cur :: rest =>
      let tr := trace st ++ [cur] in
      if (cur.1 =? goal.1) && (cur.2 =? goal.2) then
        inr (outcome_map
               (fun p => mkTraced (mkResult (Some (rev p)) (order st)) tr)
               (reconstructPath fuel (parentMap st) (Some goal) []))
      else
        inl (fold_left (visit maze nr nc cur) directions
               {| queue := rest; visited := visited st; order := order st;
                  parentMap := parentMap st; trace := tr |})
  end.

Definition findPathTraced (fuel : nat) (maze : Grid) (start goal : Coord)
  : outcome Traced :=
  match numCols maze with
  | None => Fault
  | Some nc =>
      let nr := numRows maze in
      if invalidEndpoint maze nr nc start || invalidEndpoint maze nr nc goal
      then Returned (mkTraced (mkResult None []) [])
      else loop (step fuel maze nr nc goal) fuel (init start)
  end.

End BFS.

Definition findPathBFS (fuel : nat) (maze : Grid) (start goal : Coord)
  : outcome PathResult :=
  outcome_map result (BFS.findPathTraced fuel maze start goal).

(** ** Random choices *)

(** Every call of [Math.random] consumes the next value of the oracle; an
    exhausted oracle keeps answering [0]. *)
Definition Rand : Type := list nat.

Definition draw (rnd : Rand) : nat * Rand :=
  match rnd with
  | [] => (O, [])
  | x :: rest => (x, rest)
  end.

(** [Math.floor(Math.random() * n)] *)
Definition randomIndex (n : nat) (rnd : Rand) : nat * Rand :=
  let (x, rest) := draw rnd in
  (match n with O => O | S _ => Nat.modulo x n end, rest).

(** [Math.random() < 0.5] *)
Definition randomCoin (rnd : Rand) : bool * Rand :=
  let (x, rest) := draw rnd in (Nat.even x, rest).

Fixpoint insertAt {A : Type} (i : nat) (x : A) (l : list A) : list A :=
  match i, l with
  | O, _ => x :: l
  | S _, [] => [x]
  | S j, y :: l' => y :: insertAt j x l'
  end.

Fixpoint shuffleInto {A : Type} (l acc : list A) (rnd : Rand)
  : list A * Rand :=
  match l with
  | [] => (acc, rnd)
  | x :: l' =>
      let (i, rnd') := randomIndex (S (length acc)) rnd in
      shuffleInto l' (insertAt i x acc) rnd'
  end.

(** [arr.sort(() => Math.random() - 0.5)]: with a comparator that answers at
    random the array ends up in some permutation of its elements, whichever
    the comparisons happen to produce.  The oracle picks the permutation:
    each element in turn is placed at a drawn position among those already
    placed. *)
Definition shuffle {A : Type} (l : list A) (rnd : Rand) : list A * Rand :=
  shuffleInto l [] rnd.

(** ** Depth-first search ([dfs.ts]) *)

Module DFS.

Record State : Type := mkState {
  stack : list Coord;
  visited : gset Coord;
  order : list Coord;
  parentMap : gmap Coord (option Coord);
  dirs : list (Z * Z);
  rnd : Rand;
  trace : list Coord
}.

Definition init (start : Coord) (rnd0 : Rand) : State :=
  {| stack := [start];
     visited := {[start]};
     order := [start];
     parentMap := {[start := None]};
     dirs := directions;
     rnd := rnd0;
     trace := [] |}.

Definition visit (maze : Grid) (nr nc : Z) (cur : Coord) (st : State)
    (d : Z * Z) : State :=
  let n := move cur d in
  if passable maze nr nc n && negb (bool_decide (n ∈ visited st)) then
    {| stack := stack st ++ [n];
       visited := {[n]} ∪ visited st;
       order := order st ++ [n];
       parentMap := <[n := Some cur]> (parentMap st);
       dirs := dirs st; rnd := rnd st; trace := trace st |}
  else st.

(** After the loop: [if (pathFound) { ... }] and the [return]. *)
Definition finish (fuel : nat) (goal : Coord) (found : bool) (st : State)
    (tr : list Coord) : outcome Traced :=
  if found then
    outcome_map (fun p => mkTraced (mkResult (Some (rev p)) (order st)) tr)
      (reconstructPath fuel (parentMap st) (Some goal) [])
  else Returned (mkTraced (mkResult None (order st)) tr).

Definition step (fuel : nat) (maze : Grid) (nr nc : Z) (goal : Coord)
    (st : State) : State + outcome Traced :=
  match last (stack st) with
  | None => inr (finish fuel goal false st (trace st))
  | Some cur =>
      let tr := trace st ++ [cur] in
      if (cur.1 =? goal.1) && (cur.2 =? goal.2) then
        inr (finish fuel goal true st tr)
      else
        let (shuffled, rnd') := shuffle (dirs st) (rnd st) in
        inl (fold_left (visit maze nr nc cur) shuffled
               {| stack := removelast (stack st); visited := visited st;
                  order := order st; parentMap := parentMap st;
                  dirs := shuffled; rnd := rnd'; trace := tr |})
  end.

Definition findPathTraced (fuel : nat) (maze : Grid) (start goal : Coord)
    (rnd0 : Rand) : outcome Traced :=
  match numCols maze with
  | None => Fault
  | Some nc =>
      let nr := numRows maze in
      if invalidEndpoint maze nr nc start || invalidEndpoint maze nr nc goal
      then Returned (mkTraced (mkResult None []) [])
      else loop (step fuel maze nr nc goal) fuel (init start rnd0)
  end.

End DFS.

Definition findPathDFS (fuel : nat) (maze : Grid) (start goal : Coord)
    (rnd0 : Rand) : outcome PathResult :=
  outcome_map result (DFS.findPathTraced fuel maze start goal rnd0).

(** ** Priority queues kept as sorted arrays *)

(** [Math.abs(r1 - r2) + Math.abs(c1 - c2)] *)
Definition heuristic (a b : Coord) : Z := Z.abs (a.1 - b.1) + Z.abs (a.2 - b.2).

Fixpoint insertByKey {A : Type} (key : A -> Z) (x : A) (l : list A) : list A :=
  match l with
  | [] => [x]
  | y :: l' => if key x <? key y then x :: l else y :: insertByKey key x l'
  end.

(** [openSet.sort((a, b) => a[0] - b[0])]: [Array.prototype.sort] is stable,
    so entries of equal key keep their order. *)
Definition sortByKey {A : Type} (key : A -> Z) (l : list A) : list A :=
  fold_left (fun acc x => insertByKey key x acc) l [].

(** ** A-star ([aStar.ts]) *)

Module AStar.

(** An entry [[f, g, row, col]] of the open set. *)
Record Entry : Type := mkEntry { fCost : Z; gCost : Z; cell : Coord }.

Record State : Type := mkState {
  openSet : list Entry;
  visited : gset Coord;
  order : list Coord;
  gCosts : gmap Coord Z;
  parentMap : gmap Coord (option Coord);
  trace : list Coord
}.

Definition init (start goal : Coord) : State :=
  {| openSet := [mkEntry (heuristic start goal) 0 start];
     visited := ∅;
     order := [];
     gCosts := {[start := 0]};
     parentMap := {[start := None]};
     trace := [] |}.

(** [openSet.findIndex(item => item[2] === r && item[3] === c)] *)
Fixpoint findIndex (n : Coord) (l : list Entry) : option nat :=
  match l with
  | [] => None
  | e :: l' =>
      if bool_decide (cell e = n) then Some O
      else match findIndex n l' with Some i => Some (S i) | None => None end
  end.

(** [tentativeGCost < (gCosts.get(key) ?? Infinity)] *)
Definition below (g : Z) (known : option Z) : bool :=
  match known with
  | Some k => g <? k
  | None => true
  end.

Definition visit (maze : Grid) (nr nc : Z) (goal cur : Coord) (currentG : Z)
    (st : State) (d : Z * Z) : State :=
  let n := move cur d in
  if passable maze nr nc n then
    let tentativeG := currentG + 1 in
    if negb (bool_decide (n ∈ visited st)) || below tentativeG (gCosts st !! n)
    then
      let gCosts' := <[n := tentativeG]> (gCosts st) in
      let parentMap' := <[n := Some cur]> (parentMap st) in
      let neighborF := tentativeG + heuristic n goal in
      let openSet' :=
        match findIndex n (openSet st) with
        | Some i =>
            match openSet st !! i with
            | Some e =>
                if gCost e >? tentativeG
                then <[i := mkEntry neighborF tentativeG (cell e)]> (openSet st)
                else openSet st
            | None => openSet st
            end
        | None => openSet st ++ [mkEntry neighborF tentativeG n]
        end in
      {| openSet := openSet'; visited := visited st; order := order st;
         gCosts := gCosts'; parentMap := parentMap'; trace := trace st |}
    else st
  else st.

Definition step (fuel : nat) (maze : Grid) (nr nc : Z) (goal : Coord)
    (st : State) : State + outcome Traced :=
  match sortByKey fCost (openSet st) with
  | [] => inr (Returned (mkTraced (mkResult None (order st)) (trace st)))
  | e :: rest =>
      let cur := cell e in
      let tr := trace st ++ [cur] in
      if bool_decide (cur ∈ visited st) then
        inl {| openSet := rest; visited := visited st; order := order st;
               gCosts := gCosts st; parentMap := parentMap st; trace := tr |}
      else
        let order' := order st ++ [cur] in
        if (cur.1 =? goal.1) && (cur.2 =? goal.2) then
          inr (outcome_map
                 (fun p => mkTraced (mkResult (Some (rev p)) order') tr)
                 (reconstructPath fuel (parentMap st) (Some goal) []))
        else
          inl (fold_left (visit maze nr nc goal cur (gCost e)) directions
                 {| openSet := rest; visited := {[cur]} ∪ visited st;
                    order := order'; gCosts := gCosts st;
                    parentMap := parentMap st; trace := tr |})
  end.

Definition findPathTraced (fuel : nat) (maze : Grid) (start goal : Coord)
  : outcome Traced :=
  match numCols maze with
  | None => Fault
  | Some nc =>
      let nr := numRows maze in
      if invalidEndpoint maze nr nc start || invalidEndpoint maze nr nc goal
      then Returned (mkTraced (mkResult None []) [])
      else loop (step fuel maze nr nc goal) fuel (init start goal)
  end.

End AStar.

Definition findPathAStar (fuel : nat) (maze : Grid) (start goal : Coord)
  : outcome PathResult :=
  outcome_map result (AStar.findPathTraced fuel maze start goal).

(** ** Greedy best-first search ([greedy.ts]) *)

Module Greedy.

(** An entry [[h, row, col]] of the open set. *)
Record Entry : Type := mkEntry { hCost : Z; cell : Coord }.

Record State : Type := mkState {
  openSet : list Entry;
  visited : gset Coord;
  order : list Coord;
  parentMap : gmap Coord (option Coord);
  trace : list Coord
}.

Definition init (start goal : Coord) : State :=
  {| openSet := [mkEntry (heuristic start goal) start];
     visited := ∅;
     order := [];
     parentMap := {[start := None]};
     trace := [] |}.

Definition visit (maze : Grid) (nr nc : Z) (goal cur : Coord) (st : State)
    (d : Z * Z) : State :=
  let n := move cur d in
  if passable maze nr nc n && negb (bool_decide (n ∈ visited st)) then
    {| openSet := openSet st ++ [mkEntry (heuristic n goal) n];
       visited := visited st; order := order st;
       parentMap := <[n := Some cur]> (parentMap st);
       trace := trace st |}
  else st.

Definition step (fuel : nat) (maze : Grid) (nr nc : Z) (goal : Coord)
    (st : State) : State + outcome Traced :=
  match sortByKey hCost (openSet st) with
  | [] => inr (Returned (mkTraced (mkResult None (order st)) (trace st)))
  | e :: rest =>
      let cur := cell e in
      let tr := trace st ++ [cur] in
      if bool_decide (cur ∈ visited st) then
        inl {| openSet := rest; visited := visited st; order := order st;
               parentMap := parentMap st; trace := tr |}
      else
        let order' := order st ++ [cur] in
        if (cur.1 =? goal.1) && (cur.2 =? goal.2) then
          inr (outcome_map
                 (fun p => mkTraced (mkResult (Some (rev p)) order') tr)
                 (reconstructPath fuel (parentMap st) (Some goal) []))
        else
          inl (fold_left (visit maze nr nc goal cur) directions
                 {| openSet := rest; visited := {[cur]} ∪ visited st;
                    order := order'; parentMap := parentMap st;
                    trace := tr |})
  end.

Definition findPathTraced (fuel : nat) (maze : Grid) (start goal : Coord)
  : outcome Traced :=
  match numCols maze with
  | None => Fault
  | Some nc =>
      let nr := numRows maze in
      if invalidEndpoint maze nr nc start || invalidEndpoint maze nr nc goal
      then Returned (mkTraced (mkResult None []) [])
      else loop (step fuel maze nr nc goal) fuel (init start goal)
  end.

End Greedy.

Definition findPathGreedy (fuel : nat) (maze : Grid) (start goal : Coord)
  : outcome PathResult :=
  outcome_map result (Greedy.findPathTraced fuel maze start goal).

(** ** Random mouse ([randomMouse.ts]) *)

Module Mouse.

Record State : Type := mkState {
  walk : list Coord;
  visitedCheck : gset Coord;
  order : list Coord;
  current : Coord;
  steps : Z;
  rnd : Rand
}.

Definition init (start : Coord) (rnd0 : Rand) : State :=
  {| walk := [start];
     visitedCheck := {[start]};
     order := [start];
     current := start;
     steps := 0;
     rnd := rnd0 |}.

(** The code after the loop. *)
Definition finish (goal : Coord) (st : State) : PathResult :=
  if (current st).1 =? goal.1 then
    if (current st).2 =? goal.2 then mkResult (Some (walk st)) (order st)
    else mkResult None (order st)
  else mkResult None (order st).

(** [path.length > 1 ? path[path.length - 2] : null] *)
Definition previousCell (w : list Coord) : option Coord :=
  if (1 <? length w)%nat then w !! (length w - 2)%nat else None.

Definition notPrevious (prev : option Coord) (p : Coord) : bool :=
  match prev with
  | Some q => negb ((p.1 =? q.1) && (p.2 =? q.2))
  | None => true
  end.

Definition step (maze : Grid) (nr nc : Z) (goal : Coord) (maxSteps : Z)
    (st : State) : State + outcome PathResult :=
  let cur := current st in
  if (negb (cur.1 =? goal.1) || negb (cur.2 =? goal.2))
     && (steps st <? maxSteps) then
    let steps' := steps st + 1 in
    let possibleMoves := filter (fun p => passable maze nr nc p = true)
                           (map (move cur) directions) in
    let unvisitedMoves := filter (fun p => p ∉ visitedCheck st) possibleMoves in
    if (0 <? length unvisitedMoves)%nat then
      let (i, rnd') := randomIndex (length unvisitedMoves) (rnd st) in
      match unvisitedMoves !! i with
      | Some next =>
          inl {| walk := walk st ++ [next];
                 visitedCheck := {[next]} ∪ visitedCheck st;
                 order := order st ++ [next];
                 current := next; steps := steps'; rnd := rnd' |}
      | None => inr Fault
      end
    else if (1 <? length possibleMoves)%nat then
      let backtrackMoves :=
        filter (fun p => notPrevious (previousCell (walk st)) p = true)
          possibleMoves in
      if (0 <? length backtrackMoves)%nat then
        let (i, rnd') := randomIndex (length backtrackMoves) (rnd st) in
        match backtrackMoves !! i with
        | Some next =>
            inl {| walk := walk st ++ [next];
                   visitedCheck := visitedCheck st; order := order st;
                   current := next; steps := steps'; rnd := rnd' |}
        | None => inr Fault
        end
      else inr (Returned (finish goal st))
    else if (length possibleMoves =? 1)%nat && (1 <? length (walk st))%nat then
      let walk' := removelast (walk st) in
      match last walk' with
      | Some back =>
          inl {| walk := walk'; visitedCheck := visitedCheck st;
                 order := order st; current := back; steps := steps';
                 rnd := rnd st |}
      | None => inr (Returned (finish goal st))
      end
    else inr (Returned (finish goal st))
  else inr (Returned (finish goal st)).

End Mouse.

(** The loop runs while [steps < maxSteps], and [steps] grows by one in every
    round: [maxSteps] rounds and the final test are all it can take. *)
Definition findPathRandomMouse (maze : Grid) (start goal : Coord)
    (maxSteps : Z) (rnd0 : Rand) : outcome PathResult :=
  match numCols maze with
  | None => Fault
  | Some nc =>
      let nr := numRows maze in
      if invalidEndpoint maze nr nc start || invalidEndpoint maze nr nc goal
      then Returned (mkResult None [])
      else loop (Mouse.step maze nr nc goal maxSteps)
             (S (Z.to_nat maxSteps)) (Mouse.init start rnd0)
  end.

(** ** Maze generators: shared pieces *)

(** [Array(gridHeight).fill(null).map(() => Array(gridWidth).fill(v))] *)
Definition newGrid (gridHeight gridWidth v : Z) : Grid :=
  replicate (Z.to_nat gridHeight) (replicate (Z.to_nat gridWidth) v).

(** The last two statements of every generator:
    [maze[1][0] = 0; maze[gridHeight - 2][gridWidth - 1] = 0]. *)
Definition openEnds (gridHeight gridWidth : Z) (maze : Grid) : outcome Grid :=
  m ← setCell maze 1 0 Path;
  setCell m (gridHeight - 2) (gridWidth - 1) Path.

(** The helper [isCell] / [isGridCell] of the generators that work in grid
    coordinates; [%] is the remainder that takes the sign of the dividend. *)
Definition isGridCell (gridHeight gridWidth r c : Z) : bool :=
  (r >? 0) && (r <? gridHeight - 1) && (c >? 0) && (c <? gridWidth - 1)
  && (Z.rem r 2 =? 1) && (Z.rem c 2 =? 1).

(** The bounds test written out wherever a wall position is examined. *)
Definition isInner (gridHeight gridWidth r c : Z) : bool :=
  (r >? 0) && (r <? gridHeight - 1) && (c >? 0) && (c <? gridWidth - 1).

(** Moves between neighbouring cells, two grid positions apart. *)
Definition cellDirections : list (Z * Z) := [(-2, 0); (2, 0); (0, -2); (0, 2)].

(** [cellToGrid] *)
Definition cellToGrid (p : Coord) : Coord := (p.1 * 2 + 1, p.2 * 2 + 1).

(** [gridToCell]; only applied to odd positions, where the halving is exact. *)
Definition gridToCell (p : Coord) : Coord := ((p.1 - 1) / 2, (p.2 - 1) / 2).

(** ** Recursive division ([recursiveDivision.ts]) *)

Module Division.

(** [for (let c = c1; c <= c2; c++) if (c !== passageCol) maze[wallRow][c] = 1] *)
Definition drawHorizontal (wallRow c1 c2 passageCol : Z) (maze : Grid)
  : outcome Grid :=
  foldM (fun m c => if c =? passageCol then Returned m
                    else setCell m wallRow c Wall)
    (seqZ c1 (c2 - c1 + 1)) maze.

(** [for (let r = r1; r <= r2; r++) if (r !== passageRow) maze[r][wallCol] = 1] *)
Definition drawVertical (wallCol r1 r2 passageRow : Z) (maze : Grid)
  : outcome Grid :=
  foldM (fun m r => if r =? passageRow then Returned m
                    else setCell m r wallCol Wall)
    (seqZ r1 (r2 - r1 + 1)) maze.

(** The nested function [divide].  Its arguments are odd on every call the
    generator makes, so the halvings of [r2 - r1] and [c2 - c1] are exact.
    The fuel bounds the depth of the recursion. *)
Fixpoint divide (fuel : nat) (r1 c1 r2 c2 : Z) (maze : Grid) (rnd : Rand)
  : outcome (Grid * Rand) :=
  match fuel with
  | O => OutOfFuel
  | S n =>
      if (r2 - r1 <? 4) || (c2 - c1 <? 4) then Returned (maze, rnd)
      else
        let '(divideHorizontally, rnd1) :=
          if r2 - r1 >? c2 - c1 then (true, rnd)
          else if r2 - r1 =? c2 - c1 then randomCoin rnd
          else (false, rnd) in
        if divideHorizontally then
          let wallRowOptions := (r2 - r1) / 2 in
          let (i, rnd2) := randomIndex (Z.to_nat wallRowOptions) rnd1 in
          let wallRow := r1 + 1 + 2 * Z.of_nat i in
          let passageColOptions := (c2 - c1) / 2 + 1 in
          let (j, rnd3) := randomIndex (Z.to_nat passageColOptions) rnd2 in
          let passageCol := c1 + 2 * Z.of_nat j in
          maze1 ← drawHorizontal wallRow c1 c2 passageCol maze;
          '(maze2, rnd4) ← divide n r1 c1 (wallRow - 1) c2 maze1 rnd3;
          divide n (wallRow + 1) c1 r2 c2 maze2 rnd4
        else
          let wallColOptions := (c2 - c1) / 2 in
          let (i, rnd2) := randomIndex (Z.to_nat wallColOptions) rnd1 in
          let wallCol := c1 + 1 + 2 * Z.of_nat i in
          let passageRowOptions := (r2 - r1) / 2 + 1 in
          let (j, rnd3) := randomIndex (Z.to_nat passageRowOptions) rnd2 in
          let passageRow := r1 + 2 * Z.of_nat j in
          maze1 ← drawVertical wallCol r1 r2 passageRow maze;
          '(maze2, rnd4) ← divide n r1 c1 r2 (wallCol - 1) maze1 rnd3;
          divide n r1 (wallCol + 1) r2 c2 maze2 rnd4
  end.

(** The two loops that add the outer walls. *)
Definition outerWalls (gridHeight gridWidth : Z) (maze : Grid)
  : outcome Grid :=
  m1 ← foldM (fun m r => m' ← setCell m r 0 Wall;
                         setCell m' r (gridWidth - 1) Wall)
         (seqZ 0 gridHeight) maze;
  foldM (fun m c => m' ← setCell m 0 c Wall;
                    setCell m' (gridHeight - 1) c Wall)
    (seqZ 0 gridWidth) m1.

End Division.

Definition generateRecursiveDivisionMaze (fuel : nat) (width height : Z)
    (rnd : Rand) : outcome Grid :=
  let gridHeight := height * 2 + 1 in
  let gridWidth := width * 2 + 1 in
  maze ← Division.outerWalls gridHeight gridWidth
           (newGrid gridHeight gridWidth Path);
  '(maze', _) ← Division.divide fuel 1 1 (gridHeight - 2) (gridWidth - 2)
                  maze rnd;
  openEnds gridHeight gridWidth maze'.

(** ** Binary tree ([binaryTree.ts]) *)

Module BinaryTree.

(** The odd indices [1, 3, ..., 2 n - 1] the two [for] loops run over. *)
Definition oddIndices (n : Z) : list Z :=
  map (fun i => 2 * i + 1) (seqZ 0 n).

(** The body of the inner loop. *)
Definition carveCell (r : Z) (st : Grid * Rand) (c : Z)
  : outcome (Grid * Rand) :=
  let (maze, rnd) := st in
  maze1 ← setCell maze r c Path;
  let canMoveUp := r >? 1 in
  let canMoveLeft := c >? 1 in
  if canMoveUp && canMoveLeft then
    let (up, rnd') := randomCoin rnd in
    if up then maze2 ← setCell maze1 (r - 1) c Path; Returned (maze2, rnd')
    else maze2 ← setCell maze1 r (c - 1) Path; Returned (maze2, rnd')
  else if canMoveUp then
    maze2 ← setCell maze1 (r - 1) c Path; Returned (maze2, rnd)
  else if canMoveLeft then
    maze2 ← setCell maze1 r (c - 1) Path; Returned (maze2, rnd)
  else Returned (maze1, rnd).

Definition carveRow (width : Z) (st : Grid * Rand) (r : Z)
  : outcome (Grid * Rand) :=
  foldM (carveCell r) (oddIndices width) st.

End BinaryTree.

Definition generateBinaryTreeMaze (width height : Z) (rnd : Rand)
  : outcome Grid :=
  let gridHeight := height * 2 + 1 in
  let gridWidth := width * 2 + 1 in
  '(maze, _) ← foldM (BinaryTree.carveRow width) (BinaryTree.oddIndices height)
                 (newGrid gridHeight gridWidth Wall, rnd);
  openEnds gridHeight gridWidth maze.

(** ** Recursive backtracker ([recursiveBacktracker.ts]) *)

Module Backtracker.

(** The grid, the one [directions] array every activation of [carvePath]
    sorts in place and iterates over, and the oracle. *)
Record State : Type := mkState {
  maze : Grid;
  dirs : list (Z * Z);
  rnd : Rand
}.

(** The [for ... of] loop of [carvePath] at the cell [(r, c)]; [rec] is
    [carvePath] itself, for the calls the loop makes.  [directions.sort(...)]
    returns the array it sorted, so [shuffledDirections] is [directions]
    itself: the loop reads the element at its index from the array as the
    calls made before have left it. *)
Fixpoint carveEach (rec : Z -> Z -> State -> outcome State)
    (gridHeight gridWidth r c : Z) (indices : list nat) (st : State)
  : outcome State :=
  match indices with
  | [] => Returned st
  | i :: rest =>
      match dirs st !! i with
      | None => Returned st
      | Some d =>
          let nr := r + d.1 in
          let nc := c + d.2 in
          if isGridCell gridHeight gridWidth nr nc
             && cellIs (maze st) nr nc Wall
          then
            maze2 ← setCell (maze st) (r + d.1 / 2) (c + d.2 / 2) Path;
            st' ← rec nr nc (mkState maze2 (dirs st) (rnd st));
            carveEach rec gridHeight gridWidth r c rest st'
          else carveEach rec gridHeight gridWidth r c rest st
      end
  end.

(** [carvePath].  The fuel bounds the depth of the recursion. *)
Fixpoint carvePath (fuel : nat) (gridHeight gridWidth r c : Z) (st : State)
  : outcome State :=
  match fuel with
  | O => OutOfFuel
  | S n =>
      maze1 ← setCell (maze st) r c Path;
      let (shuffled, rnd1) := shuffle (dirs st) (rnd st) in
      carveEach (carvePath n gridHeight gridWidth) gridHeight gridWidth r c
        (seq 0 (length shuffled)) (mkState maze1 shuffled rnd1)
  end.

End Backtracker.

Definition generateRecursiveBacktrackerMaze (fuel : nat) (width height : Z)
    (rnd : Rand) : outcome Grid :=
  let gridHeight := height * 2 + 1 in
  let gridWidth := width * 2 + 1 in
  let maze := newGrid gridHeight gridWidth Wall in
  let (i, rnd1) := randomIndex (Z.to_nat height) rnd in
  let startRow := Z.of_nat i * 2 + 1 in
  let (j, rnd2) := randomIndex (Z.to_nat width) rnd1 in
  let startCol := Z.of_nat j * 2 + 1 in
  st ← Backtracker.carvePath fuel gridHeight gridWidth startRow startCol
         (Backtracker.mkState maze cellDirections rnd2);
  openEnds gridHeight gridWidth (Backtracker.maze st).

(** ** Randomized Prim ([prims.ts]) *)

Module Prims.

Record State : Type := mkState {
  maze : Grid;
  walls : list Coord;
  rnd : Rand
}.

(** The loop that pushes the walls around a cell onto the wall list; the
    first one, around the starting cell, has no duplicate test. *)
Definition pushWalls (gridHeight gridWidth : Z) (dedupe : bool) (cell : Coord)
    (maze : Grid) (walls : list Coord) : list Coord :=
  fold_left
    (fun ws d =>
       let w := move cell d in
       if isInner gridHeight gridWidth w.1 w.2 && cellIs maze w.1 w.2 Wall
       then if dedupe && bool_decide (w ∈ ws) then ws else ws ++ [w]
       else ws)
    directions walls.

(** The scan for the two cells a wall separates: the first two neighbours,
    in the order of [wallDirections], that are cells. *)
Definition flankingCells (gridHeight gridWidth : Z) (wall : Coord)
  : list Coord :=
  filter (fun p => isGridCell gridHeight gridWidth p.1 p.2 = true)
    (map (move wall) directions).

(** The two branches that carve: the wall and the cell behind it become
    paths, and the walls around that cell join the list. *)
Definition carve (gridHeight gridWidth : Z) (maze : Grid)
    (wall fresh : Coord) (walls1 : list Coord) (rnd1 : Rand)
  : State + outcome Grid :=
  match (m1 ← setCell maze wall.1 wall.2 Path;
         setCell m1 fresh.1 fresh.2 Path) with
  | Returned m2 =>
      inl (mkState m2 (pushWalls gridHeight gridWidth true fresh m2 walls1)
             rnd1)
  | Fault => inr Fault
  | OutOfFuel => inr OutOfFuel
  end.

Definition step (gridHeight gridWidth : Z) (st : State)
  : State + outcome Grid :=
  match walls st with
  | [] => inr (Returned (maze st))
  | _ :: _ =>
      let (wallIndex, rnd1) := randomIndex (length (walls st)) (rnd st) in
      match walls st !! wallIndex with
      | None => inr Fault
      | Some wall =>
          let walls1 := delete wallIndex (walls st) in
          match flankingCells gridHeight gridWidth wall with
          | cell1 :: cell2 :: _ =>
              if cellIs (maze st) cell1.1 cell1.2 Path
                 && cellIs (maze st) cell2.1 cell2.2 Wall
              then carve gridHeight gridWidth (maze st) wall cell2 walls1 rnd1
              else if cellIs (maze st) cell1.1 cell1.2 Wall
                      && cellIs (maze st) cell2.1 cell2.2 Path
              then carve gridHeight gridWidth (maze st) wall cell1 walls1 rnd1
              else inl (mkState (maze st) walls1 rnd1)
          | _ => inl (mkState (maze st) walls1 rnd1)
          end
      end
  end.

End Prims.

Definition generatePrimsMaze (fuel : nat) (width height : Z) (rnd : Rand)
  : outcome Grid :=
  let gridHeight := height * 2 + 1 in
  let gridWidth := width * 2 + 1 in
  let maze := newGrid gridHeight gridWidth Wall in
  let (i, rnd1) := randomIndex (Z.to_nat height) rnd in
  let startRow := Z.of_nat i * 2 + 1 in
  let (j, rnd2) := randomIndex (Z.to_nat width) rnd1 in
  let startCol := Z.of_nat j * 2 + 1 in
  maze1 ← setCell maze startRow startCol Path;
  let walls := Prims.pushWalls gridHeight gridWidth false (startRow, startCol)
                 maze1 [] in
  maze2 ← loop (Prims.step gridHeight gridWidth) fuel
            (Prims.mkState maze1 walls rnd2);
  openEnds gridHeight gridWidth maze2.

(** ** Randomized Kruskal ([kruskals.ts]) *)

Module Kruskal.

(** An entry of the wall list: its grid position and the indices
    [r * width + c] of the two cells it separates. *)
Record WallEntry : Type := mkWall { wallPos : Coord; index1 : Z; index2 : Z }.

(** [findSetByIndex], with its path compression.  The fuel bounds the depth
    of the recursion. *)
Fixpoint findSetByIndex (fuel : nat) (parent : list Z) (i : Z)
  : outcome (Z * list Z) :=
  match fuel with
  | O => OutOfFuel
  | S n =>
      if i <? 0 then Fault
      else match parent !! Z.to_nat i with
           | None => Fault
           | Some p =>
               if p =? i then Returned (i, parent)
               else
                 '(root, parent') ← findSetByIndex n parent p;
                 Returned (root, <[Z.to_nat i := root]> parent')
           end
  end.

Definition rankAt (rank : list Z) (i : Z) : Z :=
  default 0 (rank !! Z.to_nat i).

(** [unionSetsByIndex] *)
Definition unionSetsByIndex (fuel : nat) (parent rank : list Z) (i j : Z)
  : outcome (list Z * list Z) :=
  '(rootI, parent1) ← findSetByIndex fuel parent i;
  '(rootJ, parent2) ← findSetByIndex fuel parent1 j;
  if rootI =? rootJ then Returned (parent2, rank)
  else if rankAt rank rootI <? rankAt rank rootJ then
    Returned (<[Z.to_nat rootI := rootJ]> parent2, rank)
  else if rankAt rank rootJ <? rankAt rank rootI then
    Returned (<[Z.to_nat rootJ := rootI]> parent2, rank)
  else
    Returned (<[Z.to_nat rootJ := rootI]> parent2,
              <[Z.to_nat rootI := rankAt rank rootI + 1]> rank).

(** The first double loop: every cell is carved. *)
Definition carveCells (width height : Z) (maze : Grid) : outcome Grid :=
  foldM (fun m r =>
           foldM (fun m' c => setCell m' (r * 2 + 1) (c * 2 + 1) Path)
             (seqZ 0 width) m)
    (seqZ 0 height) maze.

(** The wall list before it is shuffled: the walls between horizontal
    neighbours, then those between vertical neighbours. *)
Definition allWalls (width height : Z) : list WallEntry :=
  (r ← seqZ 0 height; c ← seqZ 0 (width - 1);
   [mkWall (r * 2 + 1, c * 2 + 2) (r * width + c) (r * width + (c + 1))])
  ++
  (r ← seqZ 0 (height - 1); c ← seqZ 0 width;
   [mkWall (r * 2 + 2, c * 2 + 1) (r * width + c) ((r + 1) * width + c)]).

(** The body of [for (const wall of walls)]. *)
Definition processWall (fuel : nat) (st : Grid * list Z * list Z)
    (wall : WallEntry) : outcome (Grid * list Z * list Z) :=
  let '(maze, parent, rank) := st in
  '(root1, parent1) ← findSetByIndex fuel parent (index1 wall);
  '(root2, parent2) ← findSetByIndex fuel parent1 (index2 wall);
  if root1 =? root2 then Returned (maze, parent2, rank)
  else
    maze1 ← setCell maze (wallPos wall).1 (wallPos wall).2 Path;
    '(parent3, rank1) ← unionSetsByIndex fuel parent2 rank
                           (index1 wall) (index2 wall);
    Returned (maze1, parent3, rank1).

End Kruskal.

Definition generateKruskalsMaze (fuel : nat) (width height : Z) (rnd : Rand)
  : outcome Grid :=
  let gridHeight := height * 2 + 1 in
  let gridWidth := width * 2 + 1 in
  let maze := newGrid gridHeight gridWidth Wall in
  let parent := seqZ 0 (height * width) in
  let rank := replicate (Z.to_nat (height * width)) 0 in
  maze1 ← Kruskal.carveCells width height maze;
  let (walls, _) := shuffle (Kruskal.allWalls width height) rnd in
  '(maze2, _, _) ← foldM (Kruskal.processWall fuel) walls (maze1, parent, rank);
  openEnds gridHeight gridWidth maze2.

(** ** Wilson's algorithm ([wilsons.ts]) *)

Module Wilson.

(** The [do ... while] loop that draws cells until one is unvisited. *)
Definition pickStep (width height : Z) (visitedCells : gset Coord)
    (rnd : Rand) : Rand + outcome (Coord * Rand) :=
  let (i, rnd1) := randomIndex (Z.to_nat height) rnd in
  let (j, rnd2) := randomIndex (Z.to_nat width) rnd1 in
  let g := cellToGrid (Z.of_nat i, Z.of_nat j) in
  if bool_decide (g ∈ visitedCells) then inl rnd2
  else inr (Returned (g, rnd2)).

Record Walk : Type := mkWalk {
  walk : list Coord;
  pathVisited : gset Coord;
  current : Coord;
  rnd : Rand
}.

(** [path.findIndex(...)], [-1] when nothing matches. *)
Definition findIndex (p : Coord) (l : list Coord) : Z :=
  match list_find (fun q => q = p) l with
  | Some (i, _) => Z.of_nat i
  | None => -1
  end.

(** The random walk with loop erasure. *)
Definition walkStep (gridHeight gridWidth : Z) (visitedCells : gset Coord)
    (w : Walk) : Walk + outcome Walk :=
  if bool_decide (current w ∈ visitedCells) then inr (Returned w)
  else
    let (k, rnd1) := randomIndex (length cellDirections) (rnd w) in
    match cellDirections !! k with
    | None => inr Fault
    | Some d =>
        let next := move (current w) d in
        if isGridCell gridHeight gridWidth next.1 next.2 then
          if bool_decide (next ∈ pathVisited w) then
            let keep := Z.to_nat (findIndex next (walk w) + 1) in
            inl {| walk := take keep (walk w);
                   pathVisited :=
                     pathVisited w ∖ list_to_set (drop keep (walk w));
                   current := next; rnd := rnd1 |}
          else
            inl {| walk := walk w ++ [next];
                   pathVisited := {[next]} ∪ pathVisited w;
                   current := next; rnd := rnd1 |}
        else
          inl {| walk := walk w; pathVisited := pathVisited w;
                 current := current w; rnd := rnd1 |}
    end.

(** The loop that carves the cells of the walk and the walls between
    consecutive ones. *)
Fixpoint carveWalk (prev : option Coord) (cells : list Coord)
    (st : Grid * gset Coord) : outcome (Grid * gset Coord) :=
  match cells with
  | [] => Returned st
  | p :: rest =>
      let (maze, visitedCells) := st in
      maze1 ← setCell maze p.1 p.2 Path;
      maze2 ← match prev with
              | Some q => setCell maze1 ((p.1 + q.1) / 2) ((p.2 + q.2) / 2) Path
              | None => Returned maze1
              end;
      carveWalk (Some p) rest (maze2, {[p]} ∪ visitedCells)
  end.

Record State : Type := mkState {
  maze : Grid;
  visitedCells : gset Coord;
  rndO : Rand
}.

Definition step (fuel : nat) (width height gridHeight gridWidth : Z)
    (st : State) : State + outcome Grid :=
  if Z.of_nat (size (visitedCells st)) <? width * height then
    match loop (pickStep width height (visitedCells st)) fuel (rndO st) with
    | Returned (startCell, rnd1) =>
        match loop (walkStep gridHeight gridWidth (visitedCells st)) fuel
                (mkWalk [startCell] {[startCell]} startCell rnd1) with
        | Returned w =>
            match carveWalk None (walk w) (maze st, visitedCells st) with
            | Returned (maze', visited') => inl (mkState maze' visited' (rnd w))
            | Fault => inr Fault
            | OutOfFuel => inr OutOfFuel
            end
        | Fault => inr Fault
        | OutOfFuel => inr OutOfFuel
        end
    | Fault => inr Fault
    | OutOfFuel => inr OutOfFuel
    end
  else inr (Returned (maze st)).

End Wilson.

Definition generateWilsonsMaze (fuel : nat) (width height : Z) (rnd : Rand)
  : outcome Grid :=
  let gridHeight := height * 2 + 1 in
  let gridWidth := width * 2 + 1 in
  let maze := newGrid gridHeight gridWidth Wall in
  let (i, rnd1) := randomIndex (Z.to_nat height) rnd in
  let (j, rnd2) := randomIndex (Z.to_nat width) rnd1 in
  let initial := cellToGrid (Z.of_nat i, Z.of_nat j) in
  maze1 ← setCell maze initial.1 initial.2 Path;
  maze2 ← loop (Wilson.step fuel width height gridHeight gridWidth) fuel
            (Wilson.mkState maze1 {[initial]} rnd2);
  openEnds gridHeight gridWidth maze2.

(** ** Aldous-Broder ([aldousBroder.ts]) *)

Module AldousBroder.

Record State : Type := mkState {
  maze : Grid;
  visitedCells : gset Coord;
  current : Coord;
  cellsVisitedCount : Z;
  rnd : Rand
}.

Definition step (gridHeight gridWidth totalCells : Z) (st : State)
  : State + outcome Grid :=
  if cellsVisitedCount st <? totalCells then
    let (k, rnd1) := randomIndex (length cellDirections) (rnd st) in
    match cellDirections !! k with
    | None => inr Fault
    | Some d =>
        let next := move (current st) d in
        if isGridCell gridHeight gridWidth next.1 next.2 then
          let nextCell := gridToCell next in
          if bool_decide (nextCell ∈ visitedCells st) then
            inl (mkState (maze st) (visitedCells st) next
                   (cellsVisitedCount st) rnd1)
          else
            match (m1 ← setCell (maze st) (((current st).1 + next.1) / 2)
                          (((current st).2 + next.2) / 2) Path;
                   setCell m1 next.1 next.2 Path) with
            | Returned m2 =>
                inl (mkState m2 ({[nextCell]} ∪ visitedCells st) next
                       (cellsVisitedCount st + 1) rnd1)
            | Fault => inr Fault
            | OutOfFuel => inr OutOfFuel
            end
        else
          inl (mkState (maze st) (visitedCells st) (current st)
                 (cellsVisitedCount st) rnd1)
    end
  else inr (Returned (maze st)).

End AldousBroder.

Definition generateAldousBroderMaze (fuel : nat) (width height : Z)
    (rnd : Rand) : outcome Grid :=
  let gridHeight := height * 2 + 1 in
  let gridWidth := width * 2 + 1 in
  let maze := newGrid gridHeight gridWidth Wall in
  let (i, rnd1) := randomIndex (Z.to_nat height) rnd in
  let (j, rnd2) := randomIndex (Z.to_nat width) rnd1 in
  let cell := (Z.of_nat i, Z.of_nat j) in
  let start := cellToGrid cell in
  maze1 ← setCell maze start.1 start.2 Path;
  maze2 ← loop (AldousBroder.step gridHeight gridWidth (width * height)) fuel
            (AldousBroder.mkState maze1 {[cell]} start 1 rnd2);
  openEnds gridHeight gridWidth maze2.

(** ** Growing tree ([growingTree.ts]) *)

Inductive Method : Type := newest | oldest | random.

Module GrowingTree.

Record State : Type := mkState {
  maze : Grid;
  activeCells : list Coord;
  visitedCells : gset Coord;
  rnd : Rand
}.

(** The helper [isCell], on cell coordinates. *)
Definition isCell (width height : Z) (p : Coord) : bool :=
  (p.1 >=? 0) && (p.1 <? height) && (p.2 >=? 0) && (p.2 <? width).

Definition step (method : Method) (width height : Z) (st : State)
  : State + outcome Grid :=
  match activeCells st with
  | [] => inr (Returned (maze st))
  | _ :: _ =>
      let (cellIndex, rnd1) :=
        match method with
        | newest => ((length (activeCells st) - 1)%nat, rnd st)
        | oldest => (O, rnd st)
        | random => randomIndex (length (activeCells st)) (rnd st)
        end in
      match activeCells st !! cellIndex with
      | None => inr Fault
      | Some cur =>
          let curGrid := cellToGrid cur in
          let unvisitedNeighbors :=
            filter (fun p => isCell width height p = true
                             ∧ p ∉ visitedCells st)
              (map (move cur) directions) in
          match unvisitedNeighbors with
          | _ :: _ =>
              let (k, rnd2) :=
                randomIndex (length unvisitedNeighbors) rnd1 in
              match unvisitedNeighbors !! k with
              | None => inr Fault
              | Some next =>
                  let nextGrid := cellToGrid next in
                  match (m1 ← setCell (maze st)
                                ((curGrid.1 + nextGrid.1) / 2)
                                ((curGrid.2 + nextGrid.2) / 2) Path;
                         setCell m1 nextGrid.1 nextGrid.2 Path) with
                  | Returned m2 =>
                      inl (mkState m2 (activeCells st ++ [next])
                             ({[next]} ∪ visitedCells st) rnd2)
                  | Fault => inr Fault
                  | OutOfFuel => inr OutOfFuel
                  end
              end
          | [] =>
              inl (mkState (maze st) (delete cellIndex (activeCells st))
                     (visitedCells st) rnd1)
          end
      end
  end.

End GrowingTree.

Definition generateGrowingTreeMaze (fuel : nat) (width height : Z)
    (method : Method) (rnd : Rand) : outcome Grid :=
  let gridHeight := height * 2 + 1 in
  let gridWidth := width * 2 + 1 in
  let maze := newGrid gridHeight gridWidth Wall in
  let (i, rnd1) := randomIndex (Z.to_nat height) rnd in
  let (j, rnd2) := randomIndex (Z.to_nat width) rnd1 in
  let start := (Z.of_nat i, Z.of_nat j) in
  let startGrid := cellToGrid start in
  maze1 ← setCell maze startGrid.1 startGrid.2 Path;
  maze2 ← loop (GrowingTree.step method width height) fuel
            (GrowingTree.mkState maze1 [start] {[start]} rnd2);
  openEnds gridHeight gridWidth maze2.

(** * Properties *)

(** ** Generalities *)

Lemma outcome_map_Returned {A B} (f : A -> B) (o : outcome A) (b : B) :
  outcome_map f o = Returned b -> exists a, o = Returned a /\ b = f a.
Proof. destruct o; simpl; intros H; inversion H; eauto. Qed.

Lemma bind_Returned {A B} (f : A -> outcome B) (o : outcome A) (b : B) :
  (o ≫= f) = Returned b -> exists a, o = Returned a /\ f a = Returned b.
Proof. destruct o; simpl; intros H; try discriminate; eauto. Qed.

(** An invariant of the loop body holds of whatever the loop returns. *)
Lemma loop_invariant {St R : Type} (step : St -> St + outcome R)
    (Inv : St -> Prop) (Post : R -> Prop) :
  (forall s s', Inv s -> step s = inl s' -> Inv s') ->
  (forall s r, Inv s -> step s = inr (Returned r) -> Post r) ->
  forall fuel s, Inv s -> forall r, loop step fuel s = Returned r -> Post r.
Proof.
  intros Hstep Hexit fuel.
  induction fuel as [|n IH]; intros s Hs r Hrun; simpl in Hrun.
  - discriminate.
  - destruct (step s) as [s'|o] eqn:E.
    + eapply IH; [eapply Hstep|]; eauto.
    + subst o. eapply Hexit; eauto.
Qed.

Lemma cellIs_Path_not_Wall maze r c :
  cellIs maze r c Path = true -> cellIs maze r c Wall = false.
Proof.
  unfold cellIs, Path, Wall. destruct (cellAt maze r c) as [x|]; [|done].
  intros H. apply Z.eqb_eq in H. by subst x.
Qed.

(** A valid endpoint: inside the matrix and on a path. *)
Definition validEndpoint (maze : Grid) (nc : Z) (p : Coord) : Prop :=
  0 <= p.1 < numRows maze /\ 0 <= p.2 < nc /\ cellAt maze p.1 p.2 = Some Path.

Definition outOfBounds (maze : Grid) (nc : Z) (p : Coord) : Prop :=
  p.1 < 0 \/ numRows maze <= p.1 \/ p.2 < 0 \/ nc <= p.2.

Definition onWall (maze : Grid) (p : Coord) : Prop :=
  cellAt maze p.1 p.2 = Some Wall.

Lemma validEndpoint_passes maze nc p :
  validEndpoint maze nc p -> invalidEndpoint maze (numRows maze) nc p = false.
Proof.
  intros (Hr & Hc & Hp). unfold invalidEndpoint, cellIs. rewrite Hp.
  unfold Path, Wall; simpl.
  repeat (apply orb_false_intro); try lia; done.
Qed.

Lemma invalidEndpoint_true maze nc p :
  outOfBounds maze nc p \/ onWall maze p ->
  invalidEndpoint maze (numRows maze) nc p = true.
Proof.
  unfold invalidEndpoint, outOfBounds, onWall, cellIs.
  intros [H|H].
  - destruct (p.1 <? 0) eqn:E1; [done|].
    destruct (p.1 >=? numRows maze) eqn:E2; [done|].
    destruct (p.2 <? 0) eqn:E3; [done|].
    destruct (p.2 >=? nc) eqn:E4; [done|]. lia.
  - rewrite H. unfold Wall. simpl. by rewrite !orb_true_r.
Qed.

(** ** C4: an invalid endpoint ends the call before any search *)

(** C4.  On a matrix with at least one row (every grid of the data model
    has three or more), when the start or the end is out of bounds or on a
    wall, each of the five pathfinders returns [{ path: null, visitedOrder:
    [] }].  The answer is given for every fuel, zero included, every oracle
    and every step budget: no round of a search loop is needed for it, and
    no cell has been taken out of a frontier. *)
Theorem C4_invalid_endpoint_no_search :
  forall (maze : Grid) (nc : Z) (start goal : Coord),
    numCols maze = Some nc ->
    (outOfBounds maze nc start \/ onWall maze start) \/
    (outOfBounds maze nc goal \/ onWall maze goal) ->
    forall (fuel : nat) (rnd : Rand) (maxSteps : Z),
      let nothing := Returned (mkTraced (mkResult None []) []) in
      BFS.findPathTraced fuel maze start goal = nothing /\
      DFS.findPathTraced fuel maze start goal rnd = nothing /\
      AStar.findPathTraced fuel maze start goal = nothing /\
      Greedy.findPathTraced fuel maze start goal = nothing /\
      findPathBFS fuel maze start goal = Returned (mkResult None []) /\
      findPathDFS fuel maze start goal rnd = Returned (mkResult None []) /\
      findPathAStar fuel maze start goal = Returned (mkResult None []) /\
      findPathGreedy fuel maze start goal = Returned (mkResult None []) /\
      findPathRandomMouse maze start goal maxSteps rnd
        = Returned (mkResult None []).
Proof.
  intros maze nc start goal Hnc Hbad fuel rnd maxSteps nothing.
  assert (Hguard : invalidEndpoint maze (numRows maze) nc start
                   || invalidEndpoint maze (numRows maze) nc goal = true).
  { destruct Hbad as [H|H]; apply invalidEndpoint_true in H; rewrite H;
      [done | by rewrite orb_true_r]. }
  unfold findPathBFS, findPathDFS, findPathAStar, findPathGreedy,
    findPathRandomMouse, BFS.findPathTraced, DFS.findPathTraced,
    AStar.findPathTraced, Greedy.findPathTraced.
  rewrite Hnc. cbv zeta. rewrite Hguard. by repeat split.
Qed.

Definition maze1x1 : Grid := [[1; 1; 1]; [0; 0; 0]; [1; 1; 1]].

Lemma C4_invalid_endpoint_no_search_witness :
  BFS.findPathTraced 0 maze1x1 (0, 0) (1, 2)
    = Returned (mkTraced (mkResult None []) []) /\
  findPathRandomMouse maze1x1 (0, 0) (1, 2) 10 [] = Returned (mkResult None []).
Proof.
  pose proof (C4_invalid_endpoint_no_search maze1x1 3 (0, 0) (1, 2) eq_refl
                (or_introl (or_intror eq_refl)) 0%nat [] 10) as H.
  cbv zeta in H. split; [apply H | apply H].
Defined.

(** ** C10: a search from a cell to itself *)

Lemma reconstruct_null fuel parentMap acc :
  reconstructPath fuel parentMap None acc = Returned acc.
Proof. by destruct fuel. Qed.

Lemma reconstruct_root fuel (start : Coord) :
  reconstructPath (S fuel) {[start := None]} (Some start) []
  = Returned [start].
Proof.
  simpl. unfold parentOf. rewrite lookup_singleton_eq.
  apply reconstruct_null.
Qed.

Lemma same_cell (p : Coord) : (p.1 =? p.1) && (p.2 =? p.2) = true.
Proof. by rewrite !Z.eqb_refl. Qed.

(** C10.  For a cell [s] inside the matrix and on a path, each of the five
    pathfinders called with start and end both [s] returns the path [[s]]
    and the visited order [[s]]; the search loops need one round for it, and
    the random mouse any step budget. *)
Theorem C10_start_is_end :
  forall (maze : Grid) (nc : Z) (s : Coord),
    numCols maze = Some nc ->
    validEndpoint maze nc s ->
    forall (fuel : nat) (rnd : Rand) (maxSteps : Z),
      let answer := Returned (mkResult (Some [s]) [s]) in
      findPathBFS (S fuel) maze s s = answer /\
      findPathDFS (S fuel) maze s s rnd = answer /\
      findPathAStar (S fuel) maze s s = answer /\
      findPathGreedy (S fuel) maze s s = answer /\
      findPathRandomMouse maze s s maxSteps rnd = answer.
Proof.
  intros maze nc s Hnc Hs fuel rnd maxSteps answer.
  pose proof (validEndpoint_passes _ _ _ Hs) as Hok.
  unfold findPathBFS, findPathDFS, findPathAStar, findPathGreedy,
    findPathRandomMouse, BFS.findPathTraced, DFS.findPathTraced,
    AStar.findPathTraced, Greedy.findPathTraced.
  rewrite Hnc. cbv zeta. rewrite Hok. cbn [orb].
  repeat split.
  - cbn [loop]. unfold BFS.step, BFS.init. cbn [BFS.queue BFS.parentMap BFS.order].
    rewrite same_cell, reconstruct_root. done.
  - cbn [loop]. unfold DFS.step, DFS.init, DFS.finish.
    cbn [DFS.stack last DFS.parentMap DFS.order]. 
    rewrite same_cell, reconstruct_root. done.
  - cbn [loop]. unfold AStar.step, AStar.init.
    cbn [AStar.openSet sortByKey fold_left insertByKey AStar.cell
         AStar.visited AStar.parentMap AStar.order app].
    rewrite bool_decide_eq_false_2 by set_solver.
    rewrite same_cell, reconstruct_root. done.
  - cbn [loop]. unfold Greedy.step, Greedy.init.
    cbn [Greedy.openSet sortByKey fold_left insertByKey Greedy.cell
         Greedy.visited Greedy.parentMap Greedy.order app].
    rewrite bool_decide_eq_false_2 by set_solver.
    rewrite same_cell, reconstruct_root. done.
  - cbn [loop]. unfold Mouse.step, Mouse.init, Mouse.finish.
    cbn [Mouse.current Mouse.walk Mouse.order].
    rewrite !Z.eqb_refl. done.
Qed.

Lemma C10_start_is_end_witness :
  findPathBFS 1 maze1x1 (1, 1) (1, 1) = Returned (mkResult (Some [(1, 1)]) [(1, 1)])
  /\ findPathRandomMouse maze1x1 (1, 1) (1, 1) 1 []
     = Returned (mkResult (Some [(1, 1)]) [(1, 1)]).
Proof.
  assert (Hv : validEndpoint maze1x1 3 (1, 1)).
  { unfold validEndpoint; simpl; repeat split; lia. }
  pose proof (C10_start_is_end maze1x1 3 (1, 1) eq_refl Hv 0%nat [] 1) as H.
  cbv zeta in H. split; apply H.
Defined.

(** ** C8: the random mouse with a budget of one step *)

Lemma draw_snd_randomIndex n rnd : (randomIndex n rnd).2 = (draw rnd).2.
Proof. unfold randomIndex. by destruct (draw rnd). Qed.

Lemma randomIndex_lt n rnd : (0 < n)%nat -> ((randomIndex n rnd).1 < n)%nat.
Proof.
  unfold randomIndex. destruct (draw rnd) as [x rest]. simpl.
  destruct n as [|m]; [lia|]. intros _. apply Nat.mod_upper_bound. lia.
Qed.

Lemma randomIndex_lookup {A} (l : list A) rnd :
  (0 < length l)%nat -> is_Some (l !! (randomIndex (length l) rnd).1).
Proof. intros H. apply lookup_lt_is_Some. by apply randomIndex_lt. Qed.

Lemma coord_neq (p q : Coord) :
  p <> q -> negb (p.1 =? q.1) || negb (p.2 =? q.2) = true.
Proof.
  intros Hne. destruct p as [a b], q as [c d]. simpl.
  destruct (a =? c) eqn:E1, (b =? d) eqn:E2; try done.
  apply Z.eqb_eq in E1, E2. congruence.
Qed.

Lemma mouse_finish_miss goal st :
  Mouse.current st <> goal ->
  Mouse.finish goal st = mkResult None (Mouse.order st).
Proof.
  intros Hne. unfold Mouse.finish.
  destruct (Mouse.current st) as [a b], goal as [c d]. simpl.
  destruct (a =? c) eqn:E1; [|done].
  destruct (b =? d) eqn:E2; [|done].
  apply Z.eqb_eq in E1, E2. congruence.
Qed.

(** Once the budget is used up the loop is left. *)
Lemma mouse_step_exhausted maze nr nc goal maxSteps st :
  maxSteps <= Mouse.steps st ->
  Mouse.step maze nr nc goal maxSteps st
  = inr (Returned (Mouse.finish goal st)).
Proof.
  intros H. unfold Mouse.step.
  replace (Mouse.steps st <? maxSteps) with false
    by (symmetry; apply Z.ltb_ge; lia).
  by rewrite andb_false_r.
Qed.

(** The first round of the walk ends the call or moves to a neighbour. *)
Lemma mouse_first_step maze nr nc start goal maxSteps rnd :
  match Mouse.step maze nr nc goal maxSteps (Mouse.init start rnd) with
  | inl st' =>
      Mouse.steps st' = 1 /\
      exists d, d ∈ directions /\ Mouse.current st' = move start d
  | inr o => o = Returned (Mouse.finish goal (Mouse.init start rnd))
  end.
Proof.
  unfold Mouse.step.
  set (possible := filter _ (map (move (Mouse.current _)) directions)).
  set (unvisited := filter _ possible).
  set (back := filter _ possible).
  assert (Hposs : forall p, p ∈ possible ->
            exists d, d ∈ directions /\ p = move start d).
  { intros p Hp. apply list_elem_of_filter in Hp as [_ Hp].
    apply list_elem_of_fmap in Hp as (d & -> & Hd). eauto. }
  destruct (_ && (Mouse.steps _ <? maxSteps)); [|done].
  destruct (0 <? length unvisited)%nat eqn:E1.
  { apply Nat.ltb_lt in E1.
    destruct (randomIndex (length unvisited) _) as [i rnd'] eqn:Ei.
    pose proof (randomIndex_lookup unvisited (Mouse.rnd (Mouse.init start rnd)) E1)
      as [next Hnext].
    rewrite Ei in Hnext. simpl in Hnext. rewrite Hnext. simpl.
    split; [done|]. apply Hposs.
    apply list_elem_of_lookup_2 in Hnext.
    by apply list_elem_of_filter in Hnext as [_ ?]. }
  destruct (1 <? length possible)%nat eqn:E2.
  { destruct (0 <? length back)%nat eqn:E3; [|done].
    apply Nat.ltb_lt in E3.
    destruct (randomIndex (length back) _) as [i rnd'] eqn:Ei.
    pose proof (randomIndex_lookup back (Mouse.rnd (Mouse.init start rnd)) E3)
      as [next Hnext].
    rewrite Ei in Hnext. simpl in Hnext. rewrite Hnext. simpl.
    split; [done|]. apply Hposs.
    apply list_elem_of_lookup_2 in Hnext.
    by apply list_elem_of_filter in Hnext as [_ ?]. }
  simpl. by rewrite andb_false_r.
Qed.

(** C8, as the spec states it, fails: on the 1 x 1 maze the mouse that
    starts at the entrance [(1, 0)] with one step to spend moves to its only
    neighbour [(1, 1)]; asked for that cell, it returns a path. *)
Lemma C8_counterexample :
  validEndpoint maze1x1 3 (1, 0) /\ validEndpoint maze1x1 3 (1, 1) /\
  (1, 0) <> ((1, 1) : Coord) /\
  findPathRandomMouse maze1x1 (1, 0) (1, 1) 1 []
  = Returned (mkResult (Some [(1, 0); (1, 1)]) [(1, 0); (1, 1)]).
Proof.
  repeat split; try (simpl; lia); try done.
Qed.

(** C8, amended.  For every maze, valid start and end with the end neither
    the start nor one of its four neighbours, and every outcome of the
    random choices, [findPathRandomMouse] with [maxSteps = 1] returns, and
    returns no path. *)
Theorem C8_one_step_budget :
  forall (maze : Grid) (nc : Z) (start goal : Coord) (rnd : Rand),
    numCols maze = Some nc ->
    validEndpoint maze nc start ->
    validEndpoint maze nc goal ->
    start <> goal ->
    (forall d, d ∈ directions -> move start d <> goal) ->
    exists order,
      findPathRandomMouse maze start goal 1 rnd
      = Returned (mkResult None order).
Proof.
  intros maze nc start goal rnd Hnc Hs Hg Hne Hfar.
  unfold findPathRandomMouse. rewrite Hnc. cbv zeta.
  rewrite (validEndpoint_passes _ _ _ Hs), (validEndpoint_passes _ _ _ Hg).
  cbn [orb]. change (S (Z.to_nat 1)) with 2%nat. cbn [loop].
  pose proof (mouse_first_step maze (numRows maze) nc start goal 1 rnd) as H1.
  destruct (Mouse.step maze (numRows maze) nc goal 1 (Mouse.init start rnd))
    as [st'|o].
  - destruct H1 as (Hsteps & d & Hd & Hcur).
    rewrite mouse_step_exhausted by lia.
    rewrite mouse_finish_miss by (rewrite Hcur; auto). eauto.
  - subst o. rewrite mouse_finish_miss by done. eauto.
Qed.

Definition corridor : Grid := [[0; 0; 0]].

Lemma C8_one_step_budget_witness :
  exists order,
    findPathRandomMouse corridor (0, 0) (0, 2) 1 [] = Returned (mkResult None order).
Proof.
  apply (C8_one_step_budget corridor 3 (0, 0) (0, 2) [] eq_refl).
  - unfold validEndpoint; simpl; repeat split; lia.
  - unfold validEndpoint; simpl; repeat split; lia.
  - discriminate.
  - intros d Hd. unfold directions in Hd.
    repeat (apply elem_of_cons in Hd as [-> | Hd]; [discriminate|]).
    by apply elem_of_nil in Hd.
Defined.

(** ** The visited order of the four graph searches *)

Lemma fold_left_preserves {A B : Type} (f : A -> B -> A) (P : A -> Prop)
    (l : list B) (a : A) :
  (forall a b, P a -> P (f a b)) -> P a -> P (fold_left f l a).
Proof.
  intros Hf. revert a. induction l as [|b l IH]; simpl; intros a Ha;
    [done | apply IH, Hf, Ha].
Qed.

(** The cells of a pop trace in the order of their first occurrence. *)
Definition firstVisits (tr : list Coord) : list Coord :=
  fold_left (fun acc x => if bool_decide (x ∈ acc) then acc else acc ++ [x])
    tr [].

Lemma firstVisits_snoc tr x :
  firstVisits (tr ++ [x])
  = if bool_decide (x ∈ firstVisits tr) then firstVisits tr
    else firstVisits tr ++ [x].
Proof. unfold firstVisits. by rewrite fold_left_app. Qed.

Lemma NoDup_snoc {A} (l : list A) (x : A) :
  NoDup l -> x ∉ l -> NoDup (l ++ [x]).
Proof.
  intros Hl Hx. apply NoDup_app. split; [done|]. split.
  - intros y Hy Hy'. apply list_elem_of_singleton in Hy'. by subst y.
  - apply NoDup_singleton.
Qed.

Module BFSFacts.
Import BFS.

(** What the loop keeps true: the visited order has no repetition, lists
    the members of the visited set, and consists of the cells dequeued so
    far followed by the queue. *)
Record Inv (st : State) : Prop := {
  inv_nodup : NoDup (order st);
  inv_visited : forall x, x ∈ order st <-> x ∈ visited st;
  inv_queue : order st = trace st ++ queue st
}.

Lemma bfs_init_inv start : Inv (init start).
Proof.
  split; simpl.
  - apply NoDup_singleton.
  - intros x. rewrite list_elem_of_singleton. set_solver.
  - done.
Qed.

Lemma bfs_visit_inv maze nr nc cur st d :
  Inv st -> Inv (visit maze nr nc cur st d).
Proof.
  intros [Hnd Hvis Hq]. unfold visit.
  destruct (passable maze nr nc (move cur d)); simpl; [|done].
  case_bool_decide as Hin; simpl; [done|].
  split; simpl.
  - apply NoDup_snoc; [done|]. by rewrite Hvis.
  - intros x.
    rewrite elem_of_app, list_elem_of_singleton, Hvis, elem_of_union,
      elem_of_singleton. tauto.
  - by rewrite Hq, app_assoc.
Qed.

Lemma bfs_step_inv fuel maze nr nc goal st st' :
  Inv st -> step fuel maze nr nc goal st = inl st' -> Inv st'.
Proof.
  intros [Hnd Hvis Hq]. unfold step.
  destruct (queue st) as [|cur rest] eqn:Eq; [done|].
  destruct (_ && _); [done|]. intros <-%(inj inl).
  apply fold_left_preserves; [intros; by apply bfs_visit_inv|].
  split; simpl; [done | done |]. by rewrite Hq, <- app_assoc.
Qed.

Lemma bfs_step_exit fuel maze nr nc goal st t :
  Inv st -> step fuel maze nr nc goal st = inr (Returned t) ->
  NoDup (visitedOrder (result t)) /\
  exists waiting, visitedOrder (result t) = popped t ++ waiting.
Proof.
  intros [Hnd Hvis Hq]. unfold step.
  destruct (queue st) as [|cur rest] eqn:Eq.
  - intros [= <-]. simpl. split; [done|]. exists []. by rewrite Hq.
  - destruct (_ && _); [|done]. intros [= H].
    apply outcome_map_Returned in H as (p & _ & ->). simpl.
    split; [done|]. exists rest. by rewrite Hq, <- app_assoc.
Qed.

Lemma bfs_traced_spec fuel maze start goal t :
  findPathTraced fuel maze start goal = Returned t ->
  NoDup (visitedOrder (result t)) /\
  exists waiting, visitedOrder (result t) = popped t ++ waiting.
Proof.
  unfold findPathTraced. destruct (numCols maze) as [nc|]; [|done].
  cbv zeta. destruct (_ || _).
  - intros [= <-]. simpl. split; [apply NoDup_nil_2 | by exists []].
  - revert t. apply (loop_invariant _ Inv);
      eauto using bfs_step_inv, bfs_step_exit, bfs_init_inv.
Qed.

End BFSFacts.

Module DFSFacts.
Import DFS.

(** As for the queue, but the stack is taken from its end: the visited
    order is a rearrangement of the popped cells and the stack. *)
Record Inv (st : State) : Prop := {
  inv_nodup : NoDup (order st);
  inv_visited : forall x, x ∈ order st <-> x ∈ visited st;
  inv_stack : order st ≡ₚ trace st ++ stack st
}.

Lemma dfs_init_inv start rnd : Inv (init start rnd).
Proof.
  split; simpl.
  - apply NoDup_singleton.
  - intros x. rewrite list_elem_of_singleton. set_solver.
  - done.
Qed.

Lemma dfs_visit_inv maze nr nc cur st d :
  Inv st -> Inv (visit maze nr nc cur st d).
Proof.
  intros [Hnd Hvis Hq]. unfold visit.
  destruct (passable maze nr nc (move cur d)); simpl; [|done].
  case_bool_decide as Hin; simpl; [done|].
  split; simpl.
  - apply NoDup_snoc; [done|]. by rewrite Hvis.
  - intros x.
    rewrite elem_of_app, list_elem_of_singleton, Hvis, elem_of_union,
      elem_of_singleton. tauto.
  - by rewrite Hq, app_assoc.
Qed.

Lemma dfs_pop_stack (l : list Coord) cur :
  last l = Some cur -> l = removelast l ++ [cur].
Proof.
  intros H. apply last_Some in H as [l' ->].
  by rewrite removelast_last.
Qed.

Lemma dfs_step_inv fuel maze nr nc goal st st' :
  Inv st -> step fuel maze nr nc goal st = inl st' -> Inv st'.
Proof.
  intros [Hnd Hvis Hq]. unfold step.
  destruct (last (stack st)) as [cur|] eqn:El; [|done].
  destruct (_ && _); [done|].
  destruct (shuffle (dirs st) (rnd st)) as [shuffled rnd'].
  intros <-%(inj inl).
  apply fold_left_preserves; [intros; by apply dfs_visit_inv|].
  split; simpl; [done | done |].
  rewrite Hq. rewrite (dfs_pop_stack _ _ El) at 1.
  by rewrite <- app_assoc, (Permutation_app_comm (removelast _)).
Qed.

Lemma dfs_step_exit fuel maze nr nc goal st t :
  Inv st -> step fuel maze nr nc goal st = inr (Returned t) ->
  NoDup (visitedOrder (result t)) /\
  exists waiting, visitedOrder (result t) ≡ₚ popped t ++ waiting.
Proof.
  intros [Hnd Hvis Hq]. unfold step, finish.
  destruct (last (stack st)) as [cur|] eqn:El.
  - destruct (_ && _); [|by destruct (shuffle _ _)].
    intros [= H].
    apply outcome_map_Returned in H as (p & _ & ->). simpl.
    split; [done|]. exists (removelast (stack st)).
    rewrite Hq. rewrite (dfs_pop_stack _ _ El) at 1.
    by rewrite <- app_assoc, (Permutation_app_comm (removelast _)).
  - intros [= <-]. simpl. split; [done|]. exists (stack st). by rewrite Hq.
Qed.

Lemma dfs_traced_spec fuel maze start goal rnd t :
  findPathTraced fuel maze start goal rnd = Returned t ->
  NoDup (visitedOrder (result t)) /\
  exists waiting, visitedOrder (result t) ≡ₚ popped t ++ waiting.
Proof.
  unfold findPathTraced. destruct (numCols maze) as [nc|]; [|done].
  cbv zeta. destruct (_ || _).
  - intros [= <-]. simpl. split; [apply NoDup_nil_2 | by exists []].
  - revert t. apply (loop_invariant _ Inv);
      eauto using dfs_step_inv, dfs_step_exit, dfs_init_inv.
Qed.

End DFSFacts.

Module AStarFacts.
Import AStar.

(** The visited order has no repetition, lists the closed set, and is the
    pop trace with everything but first occurrences left out. *)
Record Inv (st : State) : Prop := {
  inv_nodup : NoDup (order st);
  inv_visited : forall x, x ∈ order st <-> x ∈ visited st;
  inv_trace : order st = firstVisits (trace st)
}.

Lemma astar_init_inv start goal : Inv (init start goal).
Proof.
  split; simpl.
  - apply NoDup_nil_2.
  - intros x. set_solver.
  - done.
Qed.

Lemma astar_visit_same maze nr nc goal cur g st d :
  let st' := visit maze nr nc goal cur g st d in
  order st' = order st /\ visited st' = visited st /\ trace st' = trace st.
Proof.
  unfold visit. destruct (passable _ _ _ _); [|done].
  destruct (_ || _); done.
Qed.

Lemma astar_visit_inv maze nr nc goal cur g st d :
  Inv st -> Inv (visit maze nr nc goal cur g st d).
Proof.
  intros [Hnd Hvis Htr].
  destruct (astar_visit_same maze nr nc goal cur g st d) as (Ho & Hv & Ht).
  split; rewrite ?Ho, ?Hv, ?Ht; done.
Qed.

Lemma astar_step_inv fuel maze nr nc goal st st' :
  Inv st -> step fuel maze nr nc goal st = inl st' -> Inv st'.
Proof.
  intros [Hnd Hvis Htr]. unfold step.
  destruct (sortByKey fCost (openSet st)) as [|e rest]; [done|].
  case_bool_decide as Hin.
  - intros [= <-]. split; simpl; [done | done |].
    rewrite firstVisits_snoc, <- Htr.
    rewrite bool_decide_eq_true_2; [done | by apply Hvis].
  - destruct (_ && _); [done|]. intros <-%(inj inl).
    apply fold_left_preserves; [intros; by apply astar_visit_inv|].
    split; simpl.
    + apply NoDup_snoc; [done | by rewrite Hvis].
    + intros x.
      rewrite elem_of_app, list_elem_of_singleton, Hvis, elem_of_union,
        elem_of_singleton. tauto.
    + rewrite firstVisits_snoc, <- Htr.
      rewrite bool_decide_eq_false_2; [done | by rewrite Hvis].
Qed.

Lemma astar_step_exit fuel maze nr nc goal st t :
  Inv st -> step fuel maze nr nc goal st = inr (Returned t) ->
  NoDup (visitedOrder (result t)) /\
  visitedOrder (result t) = firstVisits (popped t).
Proof.
  intros [Hnd Hvis Htr]. unfold step.
  destruct (sortByKey fCost (openSet st)) as [|e rest].
  - intros [= <-]. done.
  - case_bool_decide as Hin; [done|].
    destruct (_ && _); [|done]. intros [= H].
    apply outcome_map_Returned in H as (p & _ & ->). simpl. split.
    + apply NoDup_snoc; [done | by rewrite Hvis].
    + rewrite firstVisits_snoc, <- Htr.
      rewrite bool_decide_eq_false_2; [done | by rewrite Hvis].
Qed.

Lemma astar_traced_spec fuel maze start goal t :
  findPathTraced fuel maze start goal = Returned t ->
  NoDup (visitedOrder (result t)) /\
  visitedOrder (result t) = firstVisits (popped t).
Proof.
  unfold findPathTraced. destruct (numCols maze) as [nc|]; [|done].
  cbv zeta. destruct (_ || _).
  - intros [= <-]. simpl. split; [apply NoDup_nil_2 | done].
  - revert t. apply (loop_invariant _ Inv);
      eauto using astar_step_inv, astar_step_exit, astar_init_inv.
Qed.

End AStarFacts.

Module GreedyFacts.
Import Greedy.

Record Inv (st : State) : Prop := {
  inv_nodup : NoDup (order st);
  inv_visited : forall x, x ∈ order st <-> x ∈ visited st;
  inv_trace : order st = firstVisits (trace st)
}.

Lemma greedy_init_inv start goal : Inv (init start goal).
Proof.
  split; simpl.
  - apply NoDup_nil_2.
  - intros x. set_solver.
  - done.
Qed.

Lemma greedy_visit_same maze nr nc goal cur st d :
  let st' := visit maze nr nc goal cur st d in
  order st' = order st /\ visited st' = visited st /\ trace st' = trace st.
Proof. unfold visit. by destruct (_ && _). Qed.

Lemma greedy_visit_inv maze nr nc goal cur st d :
  Inv st -> Inv (visit maze nr nc goal cur st d).
Proof.
  intros [Hnd Hvis Htr].
  destruct (greedy_visit_same maze nr nc goal cur st d) as (Ho & Hv & Ht).
  split; rewrite ?Ho, ?Hv, ?Ht; done.
Qed.

Lemma greedy_step_inv fuel maze nr nc goal st st' :
  Inv st -> step fuel maze nr nc goal st = inl st' -> Inv st'.
Proof.
  intros [Hnd Hvis Htr]. unfold step.
  destruct (sortByKey hCost (openSet st)) as [|e rest]; [done|].
  case_bool_decide as Hin.
  - intros [= <-]. split; simpl; [done | done |].
    rewrite firstVisits_snoc, <- Htr.
    rewrite bool_decide_eq_true_2; [done | by apply Hvis].
  - destruct (_ && _); [done|]. intros <-%(inj inl).
    apply fold_left_preserves; [intros; by apply greedy_visit_inv|].
    split; simpl.
    + apply NoDup_snoc; [done | by rewrite Hvis].
    + intros x.
      rewrite elem_of_app, list_elem_of_singleton, Hvis, elem_of_union,
        elem_of_singleton. tauto.
    + rewrite firstVisits_snoc, <- Htr.
      rewrite bool_decide_eq_false_2; [done | by rewrite Hvis].
Qed.

Lemma greedy_step_exit fuel maze nr nc goal st t :
  Inv st -> step fuel maze nr nc goal st = inr (Returned t) ->
  NoDup (visitedOrder (result t)) /\
  visitedOrder (result t) = firstVisits (popped t).
Proof.
  intros [Hnd Hvis Htr]. unfold step.
  destruct (sortByKey hCost (openSet st)) as [|e rest].
  - intros [= <-]. done.
  - case_bool_decide as Hin; [done|].
    destruct (_ && _); [|done]. intros [= H].
    apply outcome_map_Returned in H as (p & _ & ->). simpl. split.
    + apply NoDup_snoc; [done | by rewrite Hvis].
    + rewrite firstVisits_snoc, <- Htr.
      rewrite bool_decide_eq_false_2; [done | by rewrite Hvis].
Qed.

Lemma greedy_traced_spec fuel maze start goal t :
  findPathTraced fuel maze start goal = Returned t ->
  NoDup (visitedOrder (result t)) /\
  visitedOrder (result t) = firstVisits (popped t).
Proof.
  unfold findPathTraced. destruct (numCols maze) as [nc|]; [|done].
  cbv zeta. destruct (_ || _).
  - intros [= <-]. simpl. split; [apply NoDup_nil_2 | done].
  - revert t. apply (loop_invariant _ Inv);
      eauto using greedy_step_inv, greedy_step_exit, greedy_init_inv.
Qed.

End GreedyFacts.

(** ** C9: no cell twice in the visited order *)

(** C9.  Whatever the maze, the endpoints and the outcome of the random
    choices, the [visitedOrder] that [findPathBFS], [findPathDFS],
    [findPathAStar] or [findPathGreedy] returns holds no coordinate twice. *)
Theorem C9_visited_order_has_no_duplicate :
  forall (maze : Grid) (start goal : Coord) (fuel : nat) (rnd : Rand)
         (r : PathResult),
    (findPathBFS fuel maze start goal = Returned r -> NoDup (visitedOrder r)) /\
    (findPathDFS fuel maze start goal rnd = Returned r ->
     NoDup (visitedOrder r)) /\
    (findPathAStar fuel maze start goal = Returned r ->
     NoDup (visitedOrder r)) /\
    (findPathGreedy fuel maze start goal = Returned r ->
     NoDup (visitedOrder r)).
Proof.
  intros maze start goal fuel rnd r.
  unfold findPathBFS, findPathDFS, findPathAStar, findPathGreedy.
  repeat split; intros H; apply outcome_map_Returned in H as (t & Ht & ->).
  - by apply BFSFacts.bfs_traced_spec in Ht as [? _].
  - by apply DFSFacts.dfs_traced_spec in Ht as [? _].
  - by apply AStarFacts.astar_traced_spec in Ht as [? _].
  - by apply GreedyFacts.greedy_traced_spec in Ht as [? _].
Qed.

(** A room of 2 x 2 cells with its walls: the grid recursive division
    returns for [width = height = 2]. *)
Definition room : Grid :=
  [[1; 1; 1; 1; 1];
   [0; 0; 0; 0; 1];
   [1; 0; 0; 0; 1];
   [1; 0; 0; 0; 0];
   [1; 1; 1; 1; 1]].

Lemma C9_visited_order_has_no_duplicate_witness :
  NoDup [(1, 0); (1, 1); (2, 1); (1, 2); (3, 1); (2, 2); (1, 3); (3, 2);
         (2, 3); (3, 3); (3, 4)] /\
  NoDup [(1, 0); (1, 1); (2, 1); (3, 1); (3, 2); (3, 3); (3, 4)].
Proof.
  split.
  - pose proof (C9_visited_order_has_no_duplicate room (1, 0) (3, 4) 40 []
             (mkResult (Some [(1, 0); (1, 1); (1, 2); (1, 3); (2, 3); (3, 3);
                              (3, 4)])
                [(1, 0); (1, 1); (2, 1); (1, 2); (3, 1); (2, 2); (1, 3);
                 (3, 2); (2, 3); (3, 3); (3, 4)]))
      as (_ & _ & Hastar & _).
    apply Hastar. vm_compute. reflexivity.
  - pose proof (C9_visited_order_has_no_duplicate room (1, 0) (3, 4) 40 []
             (mkResult (Some [(1, 0); (1, 1); (2, 1); (3, 1); (3, 2); (3, 3);
                              (3, 4)])
                [(1, 0); (1, 1); (2, 1); (3, 1); (3, 2); (3, 3); (3, 4)]))
      as (_ & _ & _ & Hgreedy).
    apply Hgreedy. vm_compute. reflexivity.
Defined.

(** ** C5: when a cell enters the visited order *)

(** C5, as the spec states it, fails for the breadth-first search.  In a
    corridor of three cells searched from the middle for the left end, both
    neighbours are appended to [visitedOrder] when the start is expanded;
    the right end is in the returned list although it never became the
    current cell. *)
Lemma C5_counterexample :
  exists t,
    BFS.findPathTraced 5 corridor (0, 1) (0, 0) = Returned t /\
    visitedOrder (result t) = [(0, 1); (0, 0); (0, 2)] /\
    popped t = [(0, 1); (0, 0)] /\
    visitedOrder (result t) <> firstVisits (popped t).
Proof.
  eexists. split; [vm_compute; reflexivity|].
  repeat split. discriminate.
Qed.

(** The same for the depth-first search: the right end is pushed, and
    listed, before the left end is popped. *)
Lemma dfs_lists_cells_never_popped :
  exists t,
    DFS.findPathTraced 5 corridor (0, 1) (0, 0) [] = Returned t /\
    visitedOrder (result t) = [(0, 1); (0, 2); (0, 0)] /\
    popped t = [(0, 1); (0, 0)].
Proof. eexists. split; [vm_compute; reflexivity|]. done. Qed.

(** The state after [k] rounds of a loop, if it is still running then. *)
Fixpoint iterate {St R : Type} (step : St -> St + outcome R) (k : nat)
    (s : St) : option St :=
  match k with
  | O => Some s
  | S k' =>
      match step s with
      | inl s' => iterate step k' s'
      | inr _ => None
      end
  end.

(** The states in which a loop started in [s0] begins a round. *)
Definition reaches {St R : Type} (step : St -> St + outcome R) (s0 st : St)
  : Prop :=
  exists k, iterate step k s0 = Some st.

Lemma iterate_invariant {St R : Type} (step : St -> St + outcome R)
    (Inv : St -> Prop) :
  (forall s s', Inv s -> step s = inl s' -> Inv s') ->
  forall k s0 st, Inv s0 -> iterate step k s0 = Some st -> Inv st.
Proof.
  intros Hstep. induction k as [|k IH]; intros s0 st H0 H; simpl in H.
  - by injection H as <-.
  - destruct (step s0) as [s1|o] eqn:E; [|done]. eapply IH; [|exact H]. eauto.
Qed.

(** A loop that returns does so in a round it reached. *)
Lemma loop_reaches {St R : Type} (step : St -> St + outcome R) fuel :
  forall s0 r,
    loop step fuel s0 = Returned r ->
    exists st, reaches step s0 st /\ step st = inr (Returned r).
Proof.
  induction fuel as [|n IH]; intros s0 r H; simpl in H; [done|].
  destruct (step s0) as [s1|o] eqn:E.
  - destruct (IH _ _ H) as (st & [k Hk] & Hst).
    exists st. split; [|done]. exists (S k). simpl. by rewrite E.
  - subst o. exists s0. split; [by exists 0%nat | done].
Qed.

Module BFSRounds.
Import BFS.

(** The neighbours a round enqueues are the cells it appends to the visited
    order, in the same order. *)
Lemma bfs_visits_push maze nr nc cur ds :
  forall st,
    exists new,
      queue (fold_left (visit maze nr nc cur) ds st) = queue st ++ new /\
      order (fold_left (visit maze nr nc cur) ds st) = order st ++ new /\
      trace (fold_left (visit maze nr nc cur) ds st) = trace st.
Proof.
  induction ds as [|d ds IH]; intros st; simpl.
  - exists []. by rewrite !app_nil_r.
  - destruct (IH (visit maze nr nc cur st d)) as (new & Hq & Ho & Ht).
    rewrite Hq, Ho, Ht. unfold visit.
    destruct (_ && _); simpl.
    + exists (move cur d :: new). by rewrite <- !app_assoc.
    + by exists new.
Qed.

Lemma bfs_round fuel maze nr nc goal st st' :
  BFSFacts.Inv st -> step fuel maze nr nc goal st = inl st' ->
  exists cur rest new,
    queue st = cur :: rest /\ trace st' = trace st ++ [cur] /\
    queue st' = rest ++ new /\ order st' = order st ++ new /\
    NoDup new /\ forall x, x ∈ new -> x ∉ order st.
Proof.
  intros Hinv Hstep.
  pose proof (BFSFacts.bfs_step_inv _ _ _ _ _ _ _ Hinv Hstep) as [Hnd _ _].
  revert Hstep Hnd. unfold step.
  destruct (queue st) as [|cur rest] eqn:Eq; [done|].
  destruct (_ && _); [done|]. intros <-%(inj inl).
  match goal with
  | |- context [fold_left ?f ?ds ?s] =>
      destruct (bfs_visits_push maze nr nc cur ds s) as (new & Hq & Ho & Ht)
  end.
  rewrite Hq, Ho, Ht. simpl. intros Hnd.
  apply NoDup_app in Hnd as (_ & Hnew & Hnd).
  exists cur, rest, new. split_and!; try done.
  intros x Hx Hin. by apply (Hnew x).
Qed.

Lemma bfs_return fuel maze nr nc goal st t :
  BFSFacts.Inv st -> step fuel maze nr nc goal st = inr (Returned t) ->
  visitedOrder (result t) = popped t ++ tail (queue st).
Proof.
  intros [_ _ Hq]. unfold step.
  destruct (queue st) as [|cur rest] eqn:Eq.
  - intros [= <-]. simpl. by rewrite Hq.
  - destruct (_ && _); [|done]. intros H. injection H as H.
    apply outcome_map_Returned in H as (p & _ & ->). simpl.
    by rewrite Hq, <- app_assoc.
Qed.

End BFSRounds.

Module DFSRounds.
Import DFS.

Lemma dfs_visits_push maze nr nc cur ds :
  forall st,
    exists new,
      stack (fold_left (visit maze nr nc cur) ds st) = stack st ++ new /\
      order (fold_left (visit maze nr nc cur) ds st) = order st ++ new /\
      trace (fold_left (visit maze nr nc cur) ds st) = trace st.
Proof.
  induction ds as [|d ds IH]; intros st; simpl.
  - exists []. by rewrite !app_nil_r.
  - destruct (IH (visit maze nr nc cur st d)) as (new & Hq & Ho & Ht).
    rewrite Hq, Ho, Ht. unfold visit.
    destruct (_ && _); simpl.
    + exists (move cur d :: new). by rewrite <- !app_assoc.
    + by exists new.
Qed.

Lemma dfs_round fuel maze nr nc goal st st' :
  DFSFacts.Inv st -> step fuel maze nr nc goal st = inl st' ->
  exists cur new,
    last (stack st) = Some cur /\ trace st' = trace st ++ [cur] /\
    stack st' = removelast (stack st) ++ new /\
    order st' = order st ++ new /\
    NoDup new /\ forall x, x ∈ new -> x ∉ order st.
Proof.
  intros Hinv Hstep.
  pose proof (DFSFacts.dfs_step_inv _ _ _ _ _ _ _ Hinv Hstep) as [Hnd _ _].
  revert Hstep Hnd. unfold step.
  destruct (last (stack st)) as [cur|] eqn:El; [|done].
  destruct (_ && _); [done|].
  destruct (shuffle (dirs st) (rnd st)) as [shuffled rnd'].
  intros <-%(inj inl).
  match goal with
  | |- context [fold_left ?f ?ds ?s] =>
      destruct (dfs_visits_push maze nr nc cur ds s) as (new & Hq & Ho & Ht)
  end.
  rewrite Hq, Ho, Ht. simpl. intros Hnd.
  apply NoDup_app in Hnd as (_ & Hnew & Hnd).
  exists cur, new. split_and!; try done.
  intros x Hx Hin. by apply (Hnew x).
Qed.

Lemma dfs_return fuel maze nr nc goal st t :
  DFSFacts.Inv st -> step fuel maze nr nc goal st = inr (Returned t) ->
  visitedOrder (result t) ≡ₚ popped t ++ removelast (stack st).
Proof.
  intros [_ _ Hq]. unfold step, finish.
  destruct (last (stack st)) as [cur|] eqn:El.
  - destruct (_ && _); [|by destruct (shuffle _ _)].
    intros H. injection H as H.
    apply outcome_map_Returned in H as (p & _ & ->). simpl.
    rewrite Hq. rewrite (DFSFacts.dfs_pop_stack _ _ El) at 1.
    by rewrite <- app_assoc, (Permutation_app_comm (removelast _)).
  - intros [= <-]. simpl. rewrite Hq.
    apply last_None in El. by rewrite El.
Qed.

End DFSRounds.

(** C5, amended.  [findPathAStar] and [findPathGreedy] append a coordinate
    to [visitedOrder] exactly when it is taken out of the open set as the
    current cell for the first time: the returned list, and the list at the
    start of every round, is the sequence of popped cells with later
    occurrences left out.  [findPathBFS] and [findPathDFS] append the
    start before the loop and every other coordinate at the moment it is
    first pushed into the frontier.  Before
    the loop the visited order and the frontier both hold the start alone.
    A round that goes on takes the current cell out of the frontier,
    pushes some cells [new], and appends to the visited order exactly
    [new], in the order of the pushes; no cell of [new] was in the visited
    order before and none is pushed twice.  So at the start of every round
    the visited order is made of the cells popped so far and of the
    frontier, and on valid endpoints the returned [visitedOrder] is made of
    the popped cells and of what is left of the frontier in the round that
    returns, once its current cell is taken out: for the queue in this
    order, for the stack up to the order. *)
Theorem C5_when_cells_enter_visited_order :
  forall (maze : Grid) (start goal : Coord) (fuel : nat) (rnd : Rand)
         (t : Traced),
    (AStar.findPathTraced fuel maze start goal = Returned t ->
     visitedOrder (result t) = firstVisits (popped t)) /\
    (Greedy.findPathTraced fuel maze start goal = Returned t ->
     visitedOrder (result t) = firstVisits (popped t)) /\
    (forall nc st,
       numCols maze = Some nc ->
       reaches (AStar.step fuel maze (numRows maze) nc goal)
         (AStar.init start goal) st ->
       AStar.order st = firstVisits (AStar.trace st)) /\
    (forall nc st,
       numCols maze = Some nc ->
       reaches (Greedy.step fuel maze (numRows maze) nc goal)
         (Greedy.init start goal) st ->
       Greedy.order st = firstVisits (Greedy.trace st)) /\
    (forall nc, numCols maze = Some nc ->
       let step := BFS.step fuel maze (numRows maze) nc goal in
       BFS.order (BFS.init start) = [start] /\
       BFS.queue (BFS.init start) = [start] /\
       (forall st st',
          reaches step (BFS.init start) st -> step st = inl st' ->
          exists cur rest new,
            BFS.queue st = cur :: rest /\
            BFS.trace st' = BFS.trace st ++ [cur] /\
            BFS.queue st' = rest ++ new /\
            BFS.order st' = BFS.order st ++ new /\
            NoDup new /\ forall x, x ∈ new -> x ∉ BFS.order st) /\
       (forall st,
          reaches step (BFS.init start) st ->
          BFS.order st = BFS.trace st ++ BFS.queue st) /\
       (invalidEndpoint maze (numRows maze) nc start = false ->
        invalidEndpoint maze (numRows maze) nc goal = false ->
        BFS.findPathTraced fuel maze start goal = Returned t ->
        exists st,
          reaches step (BFS.init start) st /\
          step st = inr (Returned t) /\
          visitedOrder (result t) = popped t ++ tail (BFS.queue st))) /\
    (forall nc, numCols maze = Some nc ->
       let step := DFS.step fuel maze (numRows maze) nc goal in
       DFS.order (DFS.init start rnd) = [start] /\
       DFS.stack (DFS.init start rnd) = [start] /\
       (forall st st',
          reaches step (DFS.init start rnd) st -> step st = inl st' ->
          exists cur new,
            last (DFS.stack st) = Some cur /\
            DFS.trace st' = DFS.trace st ++ [cur] /\
            DFS.stack st' = removelast (DFS.stack st) ++ new /\
            DFS.order st' = DFS.order st ++ new /\
            NoDup new /\ forall x, x ∈ new -> x ∉ DFS.order st) /\
       (forall st,
          reaches step (DFS.init start rnd) st ->
          DFS.order st ≡ₚ DFS.trace st ++ DFS.stack st) /\
       (invalidEndpoint maze (numRows maze) nc start = false ->
        invalidEndpoint maze (numRows maze) nc goal = false ->
        DFS.findPathTraced fuel maze start goal rnd = Returned t ->
        exists st,
          reaches step (DFS.init start rnd) st /\
          step st = inr (Returned t) /\
          visitedOrder (result t)
          ≡ₚ popped t ++ removelast (DFS.stack st))).
Proof.
  intros maze start goal fuel rnd t. split_and!.
  - intros Ht. by apply AStarFacts.astar_traced_spec in Ht as [_ ?].
  - intros Ht. by apply GreedyFacts.greedy_traced_spec in Ht as [_ ?].
  - intros nc st _ [k Hk].
    apply (iterate_invariant _ AStarFacts.Inv) in Hk; [by destruct Hk | |].
    + intros s s'. apply AStarFacts.astar_step_inv.
    + apply AStarFacts.astar_init_inv.
  - intros nc st _ [k Hk].
    apply (iterate_invariant _ GreedyFacts.Inv) in Hk; [by destruct Hk | |].
    + intros s s'. apply GreedyFacts.greedy_step_inv.
    + apply GreedyFacts.greedy_init_inv.
  - intros nc Hnc step.
    assert (Hinv : forall st, reaches step (BFS.init start) st ->
                              BFSFacts.Inv st).
    { intros st [k Hk].
      apply (iterate_invariant step BFSFacts.Inv) in Hk; [done | |].
      - intros s s'. apply BFSFacts.bfs_step_inv.
      - apply BFSFacts.bfs_init_inv. }
    split_and!; [done | done | | |].
    + intros st st' Hst. apply BFSRounds.bfs_round. by apply Hinv.
    + intros st Hst. by destruct (Hinv st Hst).
    + intros Hs Hg. unfold BFS.findPathTraced. rewrite Hnc. cbv zeta.
      rewrite Hs, Hg. simpl. intros Hrun.
      apply loop_reaches in Hrun as (st & Hst & Hret).
      exists st. split_and!; [done | done |].
      eapply BFSRounds.bfs_return; [by apply Hinv | exact Hret].
  - intros nc Hnc step.
    assert (Hinv : forall st, reaches step (DFS.init start rnd) st ->
                              DFSFacts.Inv st).
    { intros st [k Hk].
      apply (iterate_invariant step DFSFacts.Inv) in Hk; [done | |].
      - intros s s'. apply DFSFacts.dfs_step_inv.
      - apply DFSFacts.dfs_init_inv. }
    split_and!; [done | done | | |].
    + intros st st' Hst. apply DFSRounds.dfs_round. by apply Hinv.
    + intros st Hst. by destruct (Hinv st Hst).
    + intros Hs Hg. unfold DFS.findPathTraced. rewrite Hnc. cbv zeta.
      rewrite Hs, Hg. simpl. intros Hrun.
      apply loop_reaches in Hrun as (st & Hst & Hret).
      exists st. split_and!; [done | done |].
      eapply DFSRounds.dfs_return; [by apply Hinv | exact Hret].
Qed.

Lemma C5_when_cells_enter_visited_order_witness :
  [(0, 1); (0, 0)] = firstVisits [(0, 1); (0, 0)] /\
  exists st,
    reaches (BFS.step 5 corridor (numRows corridor) 3 (0, 0))
      (BFS.init (0, 1)) st /\
    BFS.step 5 corridor (numRows corridor) 3 (0, 0) st
    = inr (Returned
             (mkTraced (mkResult (Some [(0, 1); (0, 0)])
                          [(0, 1); (0, 0); (0, 2)])
                [(0, 1); (0, 0)])) /\
    [(0, 1); (0, 0); (0, 2)] = [(0, 1); (0, 0)] ++ tail (BFS.queue st).
Proof.
  split.
  - pose proof (C5_when_cells_enter_visited_order corridor (0, 1) (0, 0) 5 []
             (mkTraced (mkResult (Some [(0, 1); (0, 0)]) [(0, 1); (0, 0)])
                [(0, 1); (0, 0)])) as (Hastar & _).
    apply Hastar. vm_compute. reflexivity.
  - pose proof (C5_when_cells_enter_visited_order corridor (0, 1) (0, 0) 5 []
             (mkTraced (mkResult (Some [(0, 1); (0, 0)])
                          [(0, 1); (0, 0); (0, 2)])
                [(0, 1); (0, 0)])) as (_ & _ & _ & _ & Hbfs & _).
    destruct (Hbfs 3 eq_refl) as (_ & _ & _ & _ & Hret).
    apply Hret; vm_compute; reflexivity.
Defined.

(** ** C7: parent pointers of the greedy search *)

(** Two rows; the wall at [(1, 2)] closes the lower one. *)
Definition zigzag : Grid := [[0; 0; 0; 0]; [0; 0; 1; 0]].

(** The parent recorded for [cell] after [k] rounds of the greedy search of
    [zigzag] from [(0, 0)] for [(1, 3)]. *)
Definition zigzagParent (k : nat) (cell : Coord) : option (option Coord) :=
  match iterate (Greedy.step 20 zigzag 2 4 (1, 3)) k
          (Greedy.init (0, 0) (1, 3)) with
  | Some st => Some (parentOf (Greedy.parentMap st) cell)
  | None => None
  end.

(** C7 fails on the code.  In [zigzag], searched from [(0, 0)] for
    [(1, 3)], the cell [(0, 1)] is first discovered from the start, which is
    recorded as its parent.  Two rounds later [(1, 1)] is expanded while
    [(0, 1)] is still in the open set, and [parentMap.set] replaces the
    parent by [(1, 1)].  The returned path follows the second pointer: it
    goes down, right and up again through [(1, 1)], seven cells long, where
    the first pointer leads straight along the upper row in five. *)
Theorem C7_greedy_overwrites_parent :
  zigzagParent 1 (0, 1) = Some (Some (0, 0)) /\
  zigzagParent 2 (0, 1) = Some (Some (0, 0)) /\
  zigzagParent 3 (0, 1) = Some (Some (1, 1)) /\
  findPathGreedy 20 zigzag (0, 0) (1, 3)
  = Returned
      (mkResult
         (Some [(0, 0); (1, 0); (1, 1); (0, 1); (0, 2); (0, 3); (1, 3)])
         [(0, 0); (1, 0); (1, 1); (0, 1); (0, 2); (0, 3); (1, 3)]) /\
  findPathBFS 20 zigzag (0, 0) (1, 3)
  = Returned
      (mkResult (Some [(0, 0); (0, 1); (0, 2); (0, 3); (1, 3)])
         [(0, 0); (1, 0); (0, 1); (1, 1); (0, 2); (0, 3); (1, 3)]).
Proof. repeat split; vm_compute; reflexivity. Qed.

(** ** C6: where recursive division stops *)

(** The number of cells of a chamber along an axis, between the odd bounds
    [lo] and [hi]: the count the source gives for the passage options. *)
Definition cellsAlong (lo hi : Z) : Z := (hi - lo) / 2 + 1.

Lemma divide_stops fuel r1 c1 r2 c2 maze rnd :
  r2 - r1 < 4 \/ c2 - c1 < 4 ->
  Division.divide (S fuel) r1 c1 r2 c2 maze rnd = Returned (maze, rnd).
Proof.
  intros H. cbn [Division.divide].
  replace ((r2 - r1 <? 4) || (c2 - c1 <? 4)) with true; [done|].
  symmetry. apply orb_true_iff. destruct H; [left | right]; lia.
Qed.

(** C6 fails on the code.  A chamber with two cells along an axis is
    returned as it came, however many cells it has along the other axis; so
    the maze generated for [width = height = 2] is the open room, with no
    wall inside, whatever the random choices. *)
Theorem C6_two_cell_chambers_stay_undivided :
  (forall fuel r1 c1 c2 maze rnd,
     cellsAlong r1 (r1 + 2) = 2 /\
     Division.divide (S fuel) r1 c1 (r1 + 2) c2 maze rnd
     = Returned (maze, rnd)) /\
  (forall fuel r1 c1 r2 maze rnd,
     cellsAlong c1 (c1 + 2) = 2 /\
     Division.divide (S fuel) r1 c1 r2 (c1 + 2) maze rnd
     = Returned (maze, rnd)) /\
  (forall fuel rnd,
     generateRecursiveDivisionMaze (S fuel) 2 2 rnd = Returned room).
Proof.
  split; [|split].
  - intros. split; [|apply divide_stops; lia].
    unfold cellsAlong. replace (r1 + 2 - r1) with 2 by lia. done.
  - intros. split; [|apply divide_stops; lia].
    unfold cellsAlong. replace (c1 + 2 - c1) with 2 by lia. done.
  - intros. unfold generateRecursiveDivisionMaze.
    change (Division.outerWalls (2 * 2 + 1) (2 * 2 + 1)
              (newGrid (2 * 2 + 1) (2 * 2 + 1) Path))
      with (Returned [[1; 1; 1; 1; 1]; [1; 0; 0; 0; 1]; [1; 0; 0; 0; 1];
                      [1; 0; 0; 0; 1]; [1; 1; 1; 1; 1]]).
    cbn [mbind outcome_mbind outcome_bind].
    rewrite divide_stops by (simpl; lia). done.
Qed.

(** ** C1: the recursive backtracker leaves cells uncarved *)

(** The grid positions of the cells of a maze of the given size. *)
Definition interiorCells (width height : Z) : list Coord :=
  r ← seqZ 0 height; c ← seqZ 0 width; [cellToGrid (r, c)].

(** How many of them are paths. *)
Definition pathCellCount (width height : Z) (maze : Grid) : Z :=
  Z.of_nat (length (filter (fun p => cellIs maze p.1 p.2 Path = true)
                      (interiorCells width height))).

(** The oracle of a failing run for [width = 1], [height = 3]: the middle
    cell is the start, the first sort leaves [directions] in the order up,
    down, left, right, and the sort made by the call for the upper cell
    exchanges up and down. *)
Definition aliasingRun : Rand := [1; 0; 0; 1; 2; 3; 0; 0; 2; 3]%nat.

(** The grid that run returns. *)
Definition gappedMaze : Grid :=
  [[1; 1; 1]; [0; 0; 1]; [1; 0; 1]; [1; 0; 1]; [1; 1; 1]; [1; 1; 0];
   [1; 1; 1]].

(** C1 fails on the code.  Every activation of [carvePath] sorts and walks
    the same [directions] array.  In the run above the start [(3, 1)] takes
    its first direction, up, and calls [carvePath(1, 1)], which sorts the
    array into down, up, left, right.  Back in the loop of the start, the
    second element read is up again; down is never tried from the start,
    and the cell [(5, 1)] stays a wall: two of the three cells are paths. *)
Theorem C1_backtracker_leaves_a_cell_uncarved :
  generateRecursiveBacktrackerMaze 10 1 3 aliasingRun = Returned gappedMaze /\
  cellAt gappedMaze 5 1 = Some Wall /\
  pathCellCount 1 3 gappedMaze = 2 /\
  pathCellCount 1 3 gappedMaze <> 1 * 3.
Proof. repeat split; try (vm_compute; reflexivity). discriminate. Qed.

(** ** C3: the outer ring *)

(** *** Reading and writing cells *)

Lemma setCell_Returned maze r c v maze' :
  setCell maze r c v = Returned maze' ->
  exists row,
    0 <= r /\ 0 <= c /\ maze !! Z.to_nat r = Some row /\
    (Z.to_nat c < length row)%nat /\
    maze' = <[Z.to_nat r := <[Z.to_nat c := v]> row]> maze.
Proof.
  unfold setCell.
  destruct ((r <? 0) || (c <? 0)) eqn:E; [done|].
  apply orb_false_elim in E as [E1 E2].
  destruct (maze !! Z.to_nat r) as [row|] eqn:Er; [|done].
  destruct (Z.to_nat c <? length row)%nat eqn:Ec; [|done].
  intros [= <-]. exists row. apply Nat.ltb_lt in Ec. repeat split; try lia; done.
Qed.

Lemma cellAt_setCell maze r c v maze' r' c' :
  setCell maze r c v = Returned maze' ->
  cellAt maze' r' c'
  = if bool_decide (r' = r /\ c' = c) then Some v else cellAt maze r' c'.
Proof.
  intros H. apply setCell_Returned in H as (row & Hr & Hc & Hrow & Hlen & ->).
  unfold cellAt.
  destruct ((r' <? 0) || (c' <? 0)) eqn:E.
  { rewrite bool_decide_eq_false_2; [done|]. intros [-> ->].
    apply orb_true_iff in E as [E|E]; lia. }
  apply orb_false_elim in E as [E1 E2].
  destruct (decide (r' = r)) as [->|Hne].
  - rewrite list_lookup_insert_eq by (by eapply lookup_lt_Some).
    rewrite Hrow.
    destruct (decide (c' = c)) as [->|Hne].
    + rewrite bool_decide_eq_true_2 by done.
      by rewrite list_lookup_insert_eq.
    + rewrite bool_decide_eq_false_2 by tauto.
      rewrite list_lookup_insert_ne; [done | lia].
  - rewrite bool_decide_eq_false_2 by tauto.
    rewrite list_lookup_insert_ne; [done | lia].
Qed.

Lemma cellAt_newGrid gridHeight gridWidth v r c :
  0 <= r < gridHeight -> 0 <= c < gridWidth ->
  cellAt (newGrid gridHeight gridWidth v) r c = Some v.
Proof.
  intros Hr Hc. unfold cellAt, newGrid.
  replace ((r <? 0) || (c <? 0)) with false
    by (symmetry; apply orb_false_intro; lia).
  rewrite lookup_replicate_2 by lia.
  by rewrite lookup_replicate_2 by lia.
Qed.

(** *** The ring and the positions inside it *)

Definition onRing (gridHeight gridWidth r c : Z) : Prop :=
  0 <= r < gridHeight /\ 0 <= c < gridWidth /\
  (r = 0 \/ r = gridHeight - 1 \/ c = 0 \/ c = gridWidth - 1).

Definition Inner (gridHeight gridWidth r c : Z) : Prop :=
  0 < r < gridHeight - 1 /\ 0 < c < gridWidth - 1.

(** The ring is all wall: what holds while a generator works. *)
Definition Sealed (gridHeight gridWidth : Z) (maze : Grid) : Prop :=
  forall r c, onRing gridHeight gridWidth r c -> cellAt maze r c = Some Wall.

(** The ring as a generator returns it: wall, but for the entrance
    [(1, 0)] and the exit [(gridHeight - 2, gridWidth - 1)], which are
    paths. *)
Definition ringAsReturned (gridHeight gridWidth : Z) (maze : Grid) : Prop :=
  forall r c,
    onRing gridHeight gridWidth r c ->
    cellAt maze r c
    = Some (if bool_decide ((r = 1 /\ c = 0) \/
                            (r = gridHeight - 2 /\ c = gridWidth - 1))
            then Path else Wall).

Lemma isGridCell_Inner gh gw r c :
  isGridCell gh gw r c = true -> Inner gh gw r c.
Proof.
  unfold isGridCell, Inner. intros H.
  repeat (apply andb_true_iff in H as [H ?]). lia.
Qed.

Lemma isInner_Inner gh gw r c : isInner gh gw r c = true -> Inner gh gw r c.
Proof.
  unfold isInner, Inner. intros H.
  repeat (apply andb_true_iff in H as [H ?]). lia.
Qed.

(** The position half-way between two inner positions is inner. *)
Lemma Inner_between gh gw r c r' c' :
  Inner gh gw r c -> Inner gh gw r' c' ->
  Inner gh gw ((r + r') / 2) ((c + c') / 2).
Proof.
  unfold Inner. intros [Hr Hc] [Hr' Hc'].
  pose proof (Z.div_le_lower_bound (r + r') 2 1 ltac:(lia) ltac:(lia)).
  pose proof (Z.div_le_lower_bound (c + c') 2 1 ltac:(lia) ltac:(lia)).
  pose proof (Z.div_lt_upper_bound (r + r') 2 (gh - 1) ltac:(lia) ltac:(lia)).
  pose proof (Z.div_lt_upper_bound (c + c') 2 (gw - 1) ltac:(lia) ltac:(lia)).
  lia.
Qed.

(** So is the position half a move away on the way to an inner position. *)
Lemma Inner_half_move gh gw r c d1 d2 :
  Inner gh gw r c -> Inner gh gw (r + d1) (c + d2) ->
  Inner gh gw (r + d1 / 2) (c + d2 / 2).
Proof.
  unfold Inner. intros [Hr Hc] [Hr' Hc'].
  assert (Hhalf : forall d, (0 <= d -> 0 <= d / 2 <= d) /\
                            (d < 0 -> d <= d / 2 <= 0)).
  { intros d. split; intros Hd.
    - split; [apply Z.div_pos; lia | apply Z.div_le_upper_bound; lia].
    - split; [apply Z.div_le_lower_bound; lia|].
      pose proof (Z.div_lt_upper_bound d 2 0 ltac:(lia) ltac:(lia)). lia. }
  destruct (Hhalf d1) as [H1 H1'], (Hhalf d2) as [H2 H2'].
  destruct (Z_lt_le_dec d1 0), (Z_lt_le_dec d2 0); lia.
Qed.

Lemma sealed_setCell_inner gh gw maze r c v maze' :
  Sealed gh gw maze -> Inner gh gw r c ->
  setCell maze r c v = Returned maze' -> Sealed gh gw maze'.
Proof.
  intros Hs Hin Hset r' c' Hring.
  rewrite (cellAt_setCell _ _ _ _ _ _ _ Hset).
  rewrite bool_decide_eq_false_2; [by apply Hs|].
  unfold onRing, Inner in *. lia.
Qed.

Lemma sealed_setCell_wall gh gw maze r c maze' :
  Sealed gh gw maze ->
  setCell maze r c Wall = Returned maze' -> Sealed gh gw maze'.
Proof.
  intros Hs Hset r' c' Hring.
  rewrite (cellAt_setCell _ _ _ _ _ _ _ Hset).
  case_bool_decide; [done | by apply Hs].
Qed.

Lemma sealed_newGrid gh gw : Sealed gh gw (newGrid gh gw Wall).
Proof. intros r c (Hr & Hc & _). by apply cellAt_newGrid. Qed.

Lemma openEnds_ring gh gw maze maze' :
  Sealed gh gw maze ->
  openEnds gh gw maze = Returned maze' -> ringAsReturned gh gw maze'.
Proof.
  intros Hs H. unfold openEnds in H.
  apply bind_Returned in H as (m1 & H1 & H2).
  intros r c Hring.
  rewrite (cellAt_setCell _ _ _ _ _ _ _ H2), (cellAt_setCell _ _ _ _ _ _ _ H1).
  repeat case_bool_decide; try done; try tauto.
  by apply Hs.
Qed.

Lemma foldM_invariant {A B : Type} (f : B -> A -> outcome B) (P : B -> Prop)
    (l : list A) :
  (forall b a b', P b -> a ∈ l -> f b a = Returned b' -> P b') ->
  forall b b', P b -> foldM f l b = Returned b' -> P b'.
Proof.
  induction l as [|x l IH]; intros Hf b b' Hb H; simpl in H.
  - by injection H as <-.
  - apply bind_Returned in H as (b1 & H1 & H2).
    eapply IH; [| |exact H2].
    + intros ? a ? ? Ha. apply Hf; [done|]. by apply elem_of_cons; right.
    + eapply Hf; [exact Hb | | exact H1]. by apply elem_of_cons; left.
Qed.

Ltac inv_outcome :=
  repeat match goal with
    | H : (_ ≫= _) = Returned _ |- _ =>
        let x := fresh "x" in
        let Hx := fresh "Hx" in
        apply bind_Returned in H as (x & Hx & H)
    | H : Returned _ = Returned _ |- _ => injection H as H
    | H : Fault = Returned _ |- _ => discriminate H
    | H : OutOfFuel = Returned _ |- _ => discriminate H
    end.

(** *** Binary tree *)

Lemma elem_of_oddIndices x n :
  x ∈ BinaryTree.oddIndices n -> 1 <= x <= 2 * n - 1.
Proof.
  unfold BinaryTree.oddIndices. intros H.
  apply list_elem_of_fmap in H as (i & -> & Hi).
  apply elem_of_seqZ in Hi. lia.
Qed.

Lemma binaryTree_carveCell gh gw r c st st' :
  Sealed gh gw st.1 -> 1 <= r < gh - 1 -> 1 <= c < gw - 1 ->
  BinaryTree.carveCell r st c = Returned st' -> Sealed gh gw st'.1.
Proof.
  intros Hs Hr Hc. unfold BinaryTree.carveCell. destruct st as [maze rnd].
  simpl in Hs. intros H. apply bind_Returned in H as (maze1 & H1 & H).
  assert (Hs1 : Sealed gh gw maze1).
  { eapply sealed_setCell_inner; [exact Hs | | exact H1]. unfold Inner; lia. }
  destruct (r >? 1) eqn:Er, (c >? 1) eqn:Ec; simpl in H.
  - destruct (randomCoin rnd) as [[] rnd']; inv_outcome; subst st'; simpl;
      (eapply sealed_setCell_inner; [exact Hs1 | | eassumption]);
      unfold Inner; lia.
  - inv_outcome; subst st'; simpl.
    eapply sealed_setCell_inner; [exact Hs1 | | eassumption].
    unfold Inner; lia.
  - inv_outcome; subst st'; simpl.
    eapply sealed_setCell_inner; [exact Hs1 | | eassumption].
    unfold Inner; lia.
  - inv_outcome. by subst st'.
Qed.

Lemma binaryTree_ring width height rnd maze :
  generateBinaryTreeMaze width height rnd = Returned maze ->
  ringAsReturned (height * 2 + 1) (width * 2 + 1) maze.
Proof.
  unfold generateBinaryTreeMaze. cbv zeta. intros H.
  apply bind_Returned in H as ([m rnd'] & Hfold & H).
  eapply openEnds_ring; [|exact H].
  change m with (m, rnd').1.
  eapply (foldM_invariant _ (fun st => Sealed _ _ st.1));
    [| |exact Hfold]; [|apply sealed_newGrid].
  intros st r st' Hst Hr Hrow. unfold BinaryTree.carveRow in Hrow.
  apply elem_of_oddIndices in Hr.
  eapply (foldM_invariant _ (fun st => Sealed _ _ st.1));
    [|exact Hst|exact Hrow].
  intros st1 c st2 Hst1 Hc Hcell. apply elem_of_oddIndices in Hc.
  eapply binaryTree_carveCell; [exact Hst1 | | | exact Hcell]; lia.
Qed.

(** *** Recursive division *)

Definition wallAt (maze : Grid) (r c : Z) : Prop := cellAt maze r c = Some Wall.

(** Walls that stay: every wall of [maze] is a wall of [maze']. *)
Definition keepsWalls (maze maze' : Grid) : Prop :=
  forall r c, wallAt maze r c -> wallAt maze' r c.

Lemma keepsWalls_refl maze : keepsWalls maze maze.
Proof. by intros r c. Qed.

Lemma keepsWalls_trans m1 m2 m3 :
  keepsWalls m1 m2 -> keepsWalls m2 m3 -> keepsWalls m1 m3.
Proof. intros H12 H23 r c H. by apply H23, H12. Qed.

Lemma setCell_wall maze r c maze' :
  setCell maze r c Wall = Returned maze' ->
  wallAt maze' r c /\ keepsWalls maze maze'.
Proof.
  intros H. split.
  - unfold wallAt. rewrite (cellAt_setCell _ _ _ _ _ _ _ H).
    by rewrite bool_decide_eq_true_2.
  - intros r' c' Hw. unfold wallAt.
    rewrite (cellAt_setCell _ _ _ _ _ _ _ H). by case_bool_decide.
Qed.

(** A loop that only adds walls leaves a wall wherever its body does, for
    every element it ran over. *)
Lemma foldM_walls {A : Type} (f : Grid -> A -> outcome Grid)
    (Q : A -> Grid -> Prop) :
  (forall m a m', f m a = Returned m' -> Q a m' /\ keepsWalls m m') ->
  (forall a m m', Q a m -> keepsWalls m m' -> Q a m') ->
  forall l m m',
    foldM f l m = Returned m' ->
    keepsWalls m m' /\ forall a, a ∈ l -> Q a m'.
Proof.
  intros Hf Hmono. induction l as [|x l IH]; intros m m' H; simpl in H.
  - injection H as <-. split; [apply keepsWalls_refl|].
    intros a Ha. by apply elem_of_nil in Ha.
  - apply bind_Returned in H as (m1 & H1 & H2).
    apply Hf in H1 as [Hx H1]. apply IH in H2 as [H2 Hl].
    split; [by eapply keepsWalls_trans|].
    intros a Ha. apply elem_of_cons in Ha as [->|Ha]; [|by apply Hl].
    by eapply Hmono.
Qed.

Lemma outerWalls_sealed gh gw maze maze' :
  Division.outerWalls gh gw maze = Returned maze' -> Sealed gh gw maze'.
Proof.
  unfold Division.outerWalls. intros H.
  apply bind_Returned in H as (m1 & Hrows & Hcols).
  apply (foldM_walls _ (fun r m => wallAt m r 0 /\ wallAt m r (gw - 1)))
    in Hrows as [_ Hrows].
  2:{ intros m r m' Hm. apply bind_Returned in Hm as (m0 & Ha & Hb).
      apply setCell_wall in Ha as [Ha Hka], Hb as [Hb Hkb].
      split; [split; [by apply Hkb | done] | by eapply keepsWalls_trans]. }
  2:{ intros r m m' [Ha Hb] Hk. split; by apply Hk. }
  apply (foldM_walls _ (fun c m => wallAt m 0 c /\ wallAt m (gh - 1) c))
    in Hcols as [Hkeep Hcols].
  2:{ intros m c m' Hm. apply bind_Returned in Hm as (m0 & Ha & Hb).
      apply setCell_wall in Ha as [Ha Hka], Hb as [Hb Hkb].
      split; [split; [by apply Hkb | done] | by eapply keepsWalls_trans]. }
  2:{ intros c m m' [Ha Hb] Hk. split; by apply Hk. }
  intros r c (Hr & Hc & Hring).
  assert (Hrow : r ∈ seqZ 0 gh) by (apply elem_of_seqZ; lia).
  assert (Hcol : c ∈ seqZ 0 gw) by (apply elem_of_seqZ; lia).
  destruct Hring as [-> | [-> | [-> | ->]]].
  - by apply Hcols.
  - by apply Hcols.
  - apply Hkeep. by apply Hrows.
  - apply Hkeep. by apply Hrows.
Qed.

Lemma sealed_keepsWalls gh gw maze maze' :
  Sealed gh gw maze -> keepsWalls maze maze' -> Sealed gh gw maze'.
Proof. intros Hs Hk r c Hring. by apply Hk, Hs. Qed.

Lemma drawHorizontal_keepsWalls wallRow c1 c2 passageCol maze maze' :
  Division.drawHorizontal wallRow c1 c2 passageCol maze = Returned maze' ->
  keepsWalls maze maze'.
Proof.
  unfold Division.drawHorizontal.
  apply (foldM_invariant _ (keepsWalls maze)); [|apply keepsWalls_refl].
  intros m c m' Hm _ Hset. destruct (c =? passageCol).
  - by injection Hset as <-.
  - apply setCell_wall in Hset as [_ Hk]. by eapply keepsWalls_trans.
Qed.

Lemma drawVertical_keepsWalls wallCol r1 r2 passageRow maze maze' :
  Division.drawVertical wallCol r1 r2 passageRow maze = Returned maze' ->
  keepsWalls maze maze'.
Proof.
  unfold Division.drawVertical.
  apply (foldM_invariant _ (keepsWalls maze)); [|apply keepsWalls_refl].
  intros m r m' Hm _ Hset. destruct (r =? passageRow).
  - by injection Hset as <-.
  - apply setCell_wall in Hset as [_ Hk]. by eapply keepsWalls_trans.
Qed.

(** [divide] only ever adds walls. *)
Lemma divide_keepsWalls fuel :
  forall r1 c1 r2 c2 maze rnd maze' rnd',
    Division.divide fuel r1 c1 r2 c2 maze rnd = Returned (maze', rnd') ->
    keepsWalls maze maze'.
Proof.
  induction fuel as [|n IH]; intros r1 c1 r2 c2 maze rnd maze' rnd' H;
    [done|].
  cbn [Division.divide] in H.
  destruct ((r2 - r1 <? 4) || (c2 - c1 <? 4)).
  { injection H as <- <-. apply keepsWalls_refl. }
  destruct (if r2 - r1 >? c2 - c1 then (true, rnd)
            else if r2 - r1 =? c2 - c1 then randomCoin rnd else (false, rnd))
    as [[] rnd1].
  - destruct (randomIndex (Z.to_nat ((r2 - r1) / 2)) rnd1) as [i rnd2].
    destruct (randomIndex (Z.to_nat ((c2 - c1) / 2 + 1)) rnd2) as [j rnd3].
    apply bind_Returned in H as (maze1 & Hdraw & H).
    apply bind_Returned in H as ([maze2 rnd4] & Hleft & Hright).
    apply drawHorizontal_keepsWalls in Hdraw.
    apply IH in Hleft, Hright.
    eauto using keepsWalls_trans.
  - destruct (randomIndex (Z.to_nat ((c2 - c1) / 2)) rnd1) as [i rnd2].
    destruct (randomIndex (Z.to_nat ((r2 - r1) / 2 + 1)) rnd2) as [j rnd3].
    apply bind_Returned in H as (maze1 & Hdraw & H).
    apply bind_Returned in H as ([maze2 rnd4] & Hleft & Hright).
    apply drawVertical_keepsWalls in Hdraw.
    apply IH in Hleft, Hright.
    eauto using keepsWalls_trans.
Qed.

Lemma division_ring fuel width height rnd maze :
  generateRecursiveDivisionMaze fuel width height rnd = Returned maze ->
  ringAsReturned (height * 2 + 1) (width * 2 + 1) maze.
Proof.
  unfold generateRecursiveDivisionMaze. cbv zeta. intros H.
  apply bind_Returned in H as (m0 & Houter & H).
  apply bind_Returned in H as ([m1 rnd'] & Hdiv & H).
  eapply openEnds_ring; [|exact H].
  eapply sealed_keepsWalls; [by eapply outerWalls_sealed|].
  by eapply divide_keepsWalls.
Qed.

(** *** Randomized Kruskal *)

Lemma elem_of_insertAt {A} (i : nat) (x y : A) (l : list A) :
  y ∈ insertAt i x l <-> y = x \/ y ∈ l.
Proof.
  revert i. induction l as [|z l IH]; intros [|i]; simpl;
    rewrite ?elem_of_cons, ?IH, ?elem_of_nil; tauto.
Qed.

Lemma elem_of_shuffleInto {A} (l acc : list A) rnd y :
  y ∈ (shuffleInto l acc rnd).1 <-> y ∈ l \/ y ∈ acc.
Proof.
  revert acc rnd. induction l as [|x l IH]; intros acc rnd; simpl.
  - rewrite elem_of_nil. tauto.
  - destruct (randomIndex (S (length acc)) rnd) as [i rnd'].
    rewrite IH, elem_of_insertAt, elem_of_cons. tauto.
Qed.

Lemma elem_of_shuffle {A} (l : list A) rnd y :
  y ∈ (shuffle l rnd).1 <-> y ∈ l.
Proof.
  unfold shuffle. rewrite elem_of_shuffleInto, elem_of_nil. tauto.
Qed.

Lemma allWalls_Inner width height wall :
  wall ∈ Kruskal.allWalls width height ->
  Inner (height * 2 + 1) (width * 2 + 1)
    (Kruskal.wallPos wall).1 (Kruskal.wallPos wall).2.
Proof.
  unfold Kruskal.allWalls. intros H.
  apply elem_of_app in H as [H|H];
    apply list_elem_of_bind in H as (r & H & Hr);
    apply list_elem_of_bind in H as (c & H & Hc);
    apply list_elem_of_singleton in H as ->;
    apply elem_of_seqZ in Hr, Hc; unfold Inner; simpl; lia.
Qed.

Lemma kruskal_carveCells width height maze maze' :
  Sealed (height * 2 + 1) (width * 2 + 1) maze ->
  Kruskal.carveCells width height maze = Returned maze' ->
  Sealed (height * 2 + 1) (width * 2 + 1) maze'.
Proof.
  unfold Kruskal.carveCells. intros Hs.
  apply (foldM_invariant _ (Sealed _ _)); [|done].
  intros m r m' Hm Hr.
  apply (foldM_invariant _ (Sealed _ _)); [|done].
  intros m1 c m2 Hm1 Hc Hset.
  apply elem_of_seqZ in Hr, Hc.
  eapply sealed_setCell_inner; [exact Hm1 | | exact Hset].
  unfold Inner; lia.
Qed.

Lemma kruskal_processWall gh gw fuel st wall st' :
  Sealed gh gw st.1.1 ->
  Inner gh gw (Kruskal.wallPos wall).1 (Kruskal.wallPos wall).2 ->
  Kruskal.processWall fuel st wall = Returned st' ->
  Sealed gh gw st'.1.1.
Proof.
  destruct st as [[maze parent] rank]. simpl. intros Hs Hin H.
  unfold Kruskal.processWall in H.
  apply bind_Returned in H as ([root1 parent1] & _ & H).
  apply bind_Returned in H as ([root2 parent2] & _ & H).
  destruct (root1 =? root2).
  - by injection H as <-.
  - apply bind_Returned in H as (maze1 & Hset & H).
    apply bind_Returned in H as ([parent3 rank1] & _ & H).
    injection H as <-. simpl. by eapply sealed_setCell_inner.
Qed.

Lemma kruskal_ring fuel width height rnd maze :
  generateKruskalsMaze fuel width height rnd = Returned maze ->
  ringAsReturned (height * 2 + 1) (width * 2 + 1) maze.
Proof.
  unfold generateKruskalsMaze. cbv zeta. intros H.
  apply bind_Returned in H as (maze1 & Hcells & H).
  destruct (shuffle (Kruskal.allWalls width height) rnd) as [walls rnd']
    eqn:Esh.
  apply bind_Returned in H as ([[maze2 parent] rank] & Hfold & H).
  eapply openEnds_ring; [|exact H].
  change maze2 with (maze2, parent, rank).1.1.
  eapply (foldM_invariant _ (fun st => Sealed _ _ st.1.1));
    [| |exact Hfold].
  - intros st wall st' Hst Hwall. eapply kruskal_processWall; [done|].
    apply allWalls_Inner. apply (elem_of_shuffle _ rnd). by rewrite Esh.
  - simpl. eapply kruskal_carveCells; [|exact Hcells]. apply sealed_newGrid.
Qed.

(** *** Recursive backtracker *)

Lemma carveEach_sealed (rec : Z -> Z -> Backtracker.State ->
                              outcome Backtracker.State) gh gw r c :
  (forall nr nc st st',
     Sealed gh gw (Backtracker.maze st) -> Inner gh gw nr nc ->
     rec nr nc st = Returned st' -> Sealed gh gw (Backtracker.maze st')) ->
  Inner gh gw r c ->
  forall indices st st',
    Sealed gh gw (Backtracker.maze st) ->
    Backtracker.carveEach rec gh gw r c indices st = Returned st' ->
    Sealed gh gw (Backtracker.maze st').
Proof.
  intros Hrec Hin. induction indices as [|i rest IH]; intros st st' Hs H;
    simpl in H.
  - by injection H as <-.
  - destruct (Backtracker.dirs st !! i) as [d|]; [|by injection H as <-].
    destruct (isGridCell gh gw (r + d.1) (c + d.2)) eqn:Ecell; simpl in H;
      [|by eapply IH].
    destruct (cellIs (Backtracker.maze st) (r + d.1) (c + d.2) Wall);
      [|by eapply IH].
    apply isGridCell_Inner in Ecell.
    apply bind_Returned in H as (maze2 & Hset & H).
    apply bind_Returned in H as (st1 & Hcall & H).
    eapply IH; [|exact H].
    eapply Hrec; [| exact Ecell | exact Hcall]. simpl.
    eapply sealed_setCell_inner; [exact Hs | | exact Hset].
    by apply Inner_half_move.
Qed.

Lemma carvePath_sealed gh gw fuel :
  forall r c st st',
    Sealed gh gw (Backtracker.maze st) -> Inner gh gw r c ->
    Backtracker.carvePath fuel gh gw r c st = Returned st' ->
    Sealed gh gw (Backtracker.maze st').
Proof.
  induction fuel as [|n IH]; intros r c st st' Hs Hin H; [done|].
  cbn [Backtracker.carvePath] in H.
  apply bind_Returned in H as (maze1 & Hset & H).
  destruct (shuffle (Backtracker.dirs st) (Backtracker.rnd st))
    as [shuffled rnd1].
  eapply carveEach_sealed; [exact IH | exact Hin | | exact H]. simpl.
  by eapply sealed_setCell_inner.
Qed.

(** The cell drawn to start from is inside the ring. *)
Lemma start_cell_Inner width height (i j : nat) :
  (i < Z.to_nat height)%nat -> (j < Z.to_nat width)%nat ->
  Inner (height * 2 + 1) (width * 2 + 1)
    (Z.of_nat i * 2 + 1) (Z.of_nat j * 2 + 1).
Proof. unfold Inner. lia. Qed.

Lemma random_cell_Inner width height rnd :
  1 <= width -> 1 <= height ->
  let (i, rnd1) := randomIndex (Z.to_nat height) rnd in
  let (j, rnd2) := randomIndex (Z.to_nat width) rnd1 in
  Inner (height * 2 + 1) (width * 2 + 1)
    (Z.of_nat i * 2 + 1) (Z.of_nat j * 2 + 1).
Proof.
  intros Hw Hh.
  pose proof (randomIndex_lt (Z.to_nat height) rnd ltac:(lia)) as Hi.
  destruct (randomIndex (Z.to_nat height) rnd) as [i rnd1].
  pose proof (randomIndex_lt (Z.to_nat width) rnd1 ltac:(lia)) as Hj.
  destruct (randomIndex (Z.to_nat width) rnd1) as [j rnd2].
  by apply start_cell_Inner.
Qed.

Lemma backtracker_ring fuel width height rnd maze :
  1 <= width -> 1 <= height ->
  generateRecursiveBacktrackerMaze fuel width height rnd = Returned maze ->
  ringAsReturned (height * 2 + 1) (width * 2 + 1) maze.
Proof.
  intros Hw Hh. unfold generateRecursiveBacktrackerMaze. cbv zeta.
  pose proof (random_cell_Inner width height rnd Hw Hh) as Hin.
  destruct (randomIndex (Z.to_nat height) rnd) as [i rnd1].
  destruct (randomIndex (Z.to_nat width) rnd1) as [j rnd2].
  intros H. apply bind_Returned in H as (st & Hcarve & H).
  eapply openEnds_ring; [|exact H].
  eapply carvePath_sealed; [| exact Hin | exact Hcarve].
  apply sealed_newGrid.
Qed.

(** *** Randomized Prim *)

Module PrimsFacts.
Import Prims.

Record Inv (gh gw : Z) (st : State) : Prop := {
  inv_sealed : Sealed gh gw (maze st);
  inv_walls : Forall (fun w => Inner gh gw w.1 w.2) (walls st)
}.

Lemma pushWalls_Inner gh gw dedupe cell maze walls :
  Forall (fun w => Inner gh gw w.1 w.2) walls ->
  Forall (fun w => Inner gh gw w.1 w.2)
    (pushWalls gh gw dedupe cell maze walls).
Proof.
  unfold pushWalls. apply fold_left_preserves. intros ws d Hws.
  destruct (isInner gh gw (move cell d).1 (move cell d).2) eqn:E;
    simpl; [|done].
  destruct (cellIs maze _ _ Wall); [|done].
  destruct (dedupe && _); [done|].
  apply Forall_app. split; [done|].
  apply Forall_singleton. by apply isInner_Inner.
Qed.

Lemma prims_step_inv gh gw st st' :
  Inv gh gw st -> step gh gw st = inl st' -> Inv gh gw st'.
Proof.
  intros [Hs Hw]. unfold step.
  destruct (walls st) as [|w0 ws] eqn:Ews; [done|].
  destruct (randomIndex (length (w0 :: ws)) (rnd st)) as [wallIndex rnd1].
  destruct ((w0 :: ws) !! wallIndex) as [wall|] eqn:Ewall; [|done].
  assert (Hwall : Inner gh gw wall.1 wall.2).
  { eapply (proj1 (Forall_lookup _ _) Hw). exact Ewall. }
  assert (Hrest : Forall (fun w => Inner gh gw w.1 w.2)
                    (delete wallIndex (w0 :: ws))) by by apply Forall_delete.
  assert (Hflank : forall p, p ∈ flankingCells gh gw wall ->
                             Inner gh gw p.1 p.2).
  { intros p Hp. apply list_elem_of_filter in Hp as [Hp _].
    by apply isGridCell_Inner. }
  assert (Hcarve : forall fresh st1,
            Inner gh gw fresh.1 fresh.2 ->
            carve gh gw (maze st) wall fresh (delete wallIndex (w0 :: ws)) rnd1
            = inl st1 -> Inv gh gw st1).
  { intros fresh st1 Hfresh H. unfold carve in H.
    destruct (m1 ← setCell (maze st) wall.1 wall.2 Path;
              setCell m1 fresh.1 fresh.2 Path) as [m2| |] eqn:Em; try done.
    injection H as <-.
    apply bind_Returned in Em as (m1 & H1 & H2).
    split; simpl.
    - eapply sealed_setCell_inner; [| exact Hfresh | exact H2].
      eapply sealed_setCell_inner; [exact Hs | exact Hwall | exact H1].
    - by apply pushWalls_Inner. }
  destruct (flankingCells gh gw wall) as [|cell1 [|cell2 more]] eqn:Ef.
  - intros [= <-]. by split.
  - intros [= <-]. by split.
  - destruct (cellIs (maze st) cell1.1 cell1.2 Path
              && cellIs (maze st) cell2.1 cell2.2 Wall).
    { apply Hcarve, Hflank.
      apply elem_of_cons; right. by apply elem_of_cons; left. }
    destruct (cellIs (maze st) cell1.1 cell1.2 Wall
              && cellIs (maze st) cell2.1 cell2.2 Path).
    { apply Hcarve, Hflank. by apply elem_of_cons; left. }
    intros [= <-]. by split.
Qed.

Lemma prims_step_exit gh gw st maze' :
  Inv gh gw st -> step gh gw st = inr (Returned maze') -> Sealed gh gw maze'.
Proof.
  intros [Hs Hw]. unfold step.
  destruct (walls st) as [|w0 ws] eqn:Ews; [by intros [= <-]|].
  destruct (randomIndex (length (w0 :: ws)) (rnd st)) as [wallIndex rnd1].
  destruct ((w0 :: ws) !! wallIndex) as [wall|]; [|done].
  destruct (flankingCells gh gw wall) as [|cell1 [|cell2 more]]; try done.
  unfold carve.
  destruct (_ && _); [by destruct (_ ≫= _)|].
  destruct (_ && _); [by destruct (_ ≫= _)|]. done.
Qed.

End PrimsFacts.

Lemma prims_ring fuel width height rnd maze :
  1 <= width -> 1 <= height ->
  generatePrimsMaze fuel width height rnd = Returned maze ->
  ringAsReturned (height * 2 + 1) (width * 2 + 1) maze.
Proof.
  intros Hw Hh. unfold generatePrimsMaze. cbv zeta.
  pose proof (random_cell_Inner width height rnd Hw Hh) as Hin.
  destruct (randomIndex (Z.to_nat height) rnd) as [i rnd1].
  destruct (randomIndex (Z.to_nat width) rnd1) as [j rnd2].
  intros H. apply bind_Returned in H as (maze1 & Hset & H).
  apply bind_Returned in H as (maze2 & Hloop & H).
  eapply openEnds_ring; [|exact H].
  clear H. revert maze2 Hloop.
  apply (loop_invariant _ (PrimsFacts.Inv (height * 2 + 1) (width * 2 + 1)));
    eauto using PrimsFacts.prims_step_inv, PrimsFacts.prims_step_exit.
  split; simpl.
  - eapply sealed_setCell_inner; [apply sealed_newGrid | exact Hin | exact Hset].
  - by apply PrimsFacts.pushWalls_Inner.
Qed.

(** *** Wilson's algorithm *)

Module WilsonFacts.
Import Wilson.

Lemma pick_Inner width height visited fuel rnd p :
  1 <= width -> 1 <= height ->
  loop (pickStep width height visited) fuel rnd = Returned p ->
  Inner (height * 2 + 1) (width * 2 + 1) p.1.1 p.1.2.
Proof.
  intros Hw Hh. revert p.
  apply (loop_invariant _ (fun _ => True)); [done | | done].
  intros rnd0 p _. unfold pickStep.
  pose proof (random_cell_Inner width height rnd0 Hw Hh) as Hin.
  destruct (randomIndex (Z.to_nat height) rnd0) as [i rnd1].
  destruct (randomIndex (Z.to_nat width) rnd1) as [j rnd2].
  case_bool_decide; [done|]. by intros [= <-].
Qed.

Definition allInner (gh gw : Z) (cells : list Coord) : Prop :=
  Forall (fun p => Inner gh gw p.1 p.2) cells.

Lemma walk_Inner gh gw visited fuel w w' :
  allInner gh gw (walk w) ->
  loop (walkStep gh gw visited) fuel w = Returned w' ->
  allInner gh gw (walk w').
Proof.
  intros Hw. revert w'.
  apply (loop_invariant _ (fun w => allInner gh gw (walk w))); [| |done].
  - intros w0 w1 Hw0. unfold walkStep.
    case_bool_decide; [done|].
    destruct (randomIndex (length cellDirections) (rnd w0)) as [k rnd1].
    destruct (cellDirections !! k) as [d|]; [|done].
    destruct (isGridCell gh gw (move (current w0) d).1 (move (current w0) d).2)
      eqn:Ecell.
    + case_bool_decide; intros [= <-]; simpl.
      * by apply Forall_take.
      * apply Forall_app. split; [done|].
        apply Forall_singleton. by apply isGridCell_Inner.
    + by intros [= <-].
  - intros w0 w1 Hw0. unfold walkStep.
    case_bool_decide.
    + by intros [= <-].
    + destruct (randomIndex (length cellDirections) (rnd w0)) as [k rnd1].
      destruct (cellDirections !! k) as [d|]; [|done].
      destruct (isGridCell _ _ _ _); [|done]. by case_bool_decide.
Qed.

Lemma carveWalk_sealed gh gw cells :
  forall prev st st',
    allInner gh gw cells ->
    (forall q, prev = Some q -> Inner gh gw q.1 q.2) ->
    Sealed gh gw st.1 ->
    carveWalk prev cells st = Returned st' ->
    Sealed gh gw st'.1.
Proof.
  induction cells as [|p rest IH]; intros prev [maze visited] st' Hcells Hprev
    Hs H; simpl in H.
  - by injection H as <-.
  - apply Forall_cons in Hcells as [Hp Hrest].
    apply bind_Returned in H as (maze1 & H1 & H).
    apply bind_Returned in H as (maze2 & H2 & H).
    eapply IH; [exact Hrest | | | exact H].
    + by intros q [= <-].
    + simpl.
      assert (Hs1 : Sealed gh gw maze1)
        by (eapply sealed_setCell_inner; [exact Hs | exact Hp | exact H1]).
      destruct prev as [q|]; [|by injection H2 as <-].
      eapply sealed_setCell_inner; [exact Hs1 | | exact H2].
      apply Inner_between; [done | by apply Hprev].
Qed.

Lemma wilson_step_inv fuel width height st st' :
  1 <= width -> 1 <= height ->
  Sealed (height * 2 + 1) (width * 2 + 1) (maze st) ->
  step fuel width height (height * 2 + 1) (width * 2 + 1) st = inl st' ->
  Sealed (height * 2 + 1) (width * 2 + 1) (maze st').
Proof.
  intros Hw Hh Hs. unfold step.
  destruct (_ <? _); [|done].
  destruct (loop (pickStep width height (visitedCells st)) fuel (rndO st))
    as [[startCell rnd1]| |] eqn:Epick; try done.
  apply pick_Inner in Epick; [|done..]. simpl in Epick.
  destruct (loop (walkStep _ _ (visitedCells st)) fuel _)
    as [w| |] eqn:Ewalk; try done.
  apply walk_Inner in Ewalk; [|by apply Forall_singleton].
  destruct (carveWalk None (walk w) (maze st, visitedCells st))
    as [[maze' visited']| |] eqn:Ecarve; try done.
  intros [= <-]. simpl.
  change maze' with (maze', visited').1.
  eapply carveWalk_sealed; [exact Ewalk | | | exact Ecarve]; done.
Qed.

Lemma wilson_step_exit fuel width height gh gw st maze' :
  Sealed gh gw (maze st) ->
  step fuel width height gh gw st = inr (Returned maze') ->
  Sealed gh gw maze'.
Proof.
  intros Hs. unfold step.
  destruct (_ <? _); [|by intros [= <-]].
  destruct (loop (pickStep _ _ _) _ _) as [[startCell rnd1]| |]; try done.
  destruct (loop (walkStep _ _ _) _ _) as [w| |]; try done.
  by destruct (carveWalk _ _ _) as [[maze1 visited']| |].
Qed.

End WilsonFacts.

Lemma wilson_ring fuel width height rnd maze :
  1 <= width -> 1 <= height ->
  generateWilsonsMaze fuel width height rnd = Returned maze ->
  ringAsReturned (height * 2 + 1) (width * 2 + 1) maze.
Proof.
  intros Hw Hh. unfold generateWilsonsMaze. cbv zeta.
  pose proof (random_cell_Inner width height rnd Hw Hh) as Hin.
  destruct (randomIndex (Z.to_nat height) rnd) as [i rnd1].
  destruct (randomIndex (Z.to_nat width) rnd1) as [j rnd2].
  intros H. apply bind_Returned in H as (maze1 & Hset & H).
  apply bind_Returned in H as (maze2 & Hloop & H).
  eapply openEnds_ring; [|exact H].
  clear H. revert maze2 Hloop.
  apply (loop_invariant _
           (fun st => Sealed (height * 2 + 1) (width * 2 + 1) (Wilson.maze st)));
    eauto using WilsonFacts.wilson_step_inv, WilsonFacts.wilson_step_exit.
  simpl. eapply sealed_setCell_inner; [apply sealed_newGrid | exact Hin | exact Hset].
Qed.

(** *** Aldous-Broder *)

Module AldousBroderFacts.
Import AldousBroder.

Record Inv (gh gw : Z) (st : State) : Prop := {
  inv_sealed : Sealed gh gw (maze st);
  inv_current : Inner gh gw (current st).1 (current st).2
}.

Lemma aldousBroder_step_inv gh gw total st st' :
  Inv gh gw st -> step gh gw total st = inl st' -> Inv gh gw st'.
Proof.
  intros [Hs Hcur]. unfold step.
  destruct (_ <? _); [|done].
  destruct (randomIndex (length cellDirections) (rnd st)) as [k rnd1].
  destruct (cellDirections !! k) as [d|]; [|done].
  destruct (isGridCell gh gw (move (current st) d).1 (move (current st) d).2)
    eqn:Ecell; [|by intros [= <-]].
  apply isGridCell_Inner in Ecell.
  case_bool_decide; [by intros [= <-]|].
  destruct (_ ≫= _) as [m2| |] eqn:Em; try done.
  intros [= <-]. apply bind_Returned in Em as (m1 & H1 & H2).
  split; simpl; [|done].
  eapply sealed_setCell_inner; [| exact Ecell | exact H2].
  eapply sealed_setCell_inner; [exact Hs | | exact H1].
  by apply Inner_between.
Qed.

Lemma aldousBroder_step_exit gh gw total st maze' :
  Inv gh gw st -> step gh gw total st = inr (Returned maze') ->
  Sealed gh gw maze'.
Proof.
  intros [Hs Hcur]. unfold step.
  destruct (_ <? _); [|by intros [= <-]].
  destruct (randomIndex (length cellDirections) (rnd st)) as [k rnd1].
  destruct (cellDirections !! k) as [d|]; [|done].
  destruct (isGridCell _ _ _ _); [|done].
  case_bool_decide; [done|]. by destruct (_ ≫= _).
Qed.

End AldousBroderFacts.

Lemma aldousBroder_ring fuel width height rnd maze :
  1 <= width -> 1 <= height ->
  generateAldousBroderMaze fuel width height rnd = Returned maze ->
  ringAsReturned (height * 2 + 1) (width * 2 + 1) maze.
Proof.
  intros Hw Hh. unfold generateAldousBroderMaze. cbv zeta.
  pose proof (random_cell_Inner width height rnd Hw Hh) as Hin.
  destruct (randomIndex (Z.to_nat height) rnd) as [i rnd1].
  destruct (randomIndex (Z.to_nat width) rnd1) as [j rnd2].
  intros H. apply bind_Returned in H as (maze1 & Hset & H).
  apply bind_Returned in H as (maze2 & Hloop & H).
  eapply openEnds_ring; [|exact H].
  clear H. revert maze2 Hloop.
  apply (loop_invariant _
           (AldousBroderFacts.Inv (height * 2 + 1) (width * 2 + 1)));
    eauto using AldousBroderFacts.aldousBroder_step_inv, AldousBroderFacts.aldousBroder_step_exit.
  split; simpl; [|done].
  eapply sealed_setCell_inner; [apply sealed_newGrid | exact Hin | exact Hset].
Qed.

(** *** Growing tree *)

Module GrowingTreeFacts.
Import GrowingTree.

Definition validCell (width height : Z) (p : Coord) : Prop :=
  0 <= p.1 < height /\ 0 <= p.2 < width.

Lemma validCell_Inner width height p :
  validCell width height p ->
  Inner (height * 2 + 1) (width * 2 + 1) (cellToGrid p).1 (cellToGrid p).2.
Proof. unfold validCell, Inner, cellToGrid. simpl. lia. Qed.

Lemma isCell_valid width height p :
  isCell width height p = true -> validCell width height p.
Proof.
  unfold isCell, validCell. intros H.
  repeat (apply andb_true_iff in H as [H ?]). lia.
Qed.

Record Inv (width height : Z) (st : State) : Prop := {
  inv_sealed : Sealed (height * 2 + 1) (width * 2 + 1) (maze st);
  inv_active : Forall (validCell width height) (activeCells st)
}.

Lemma growingTree_step_inv method width height st st' :
  Inv width height st -> step method width height st = inl st' ->
  Inv width height st'.
Proof.
  intros [Hs Hact]. unfold step.
  destruct (activeCells st) as [|a0 rest] eqn:Eact; [done|].
  destruct (match method with
            | newest => _ | oldest => _ | random => _ end)
    as [cellIndex rnd1].
  destruct ((a0 :: rest) !! cellIndex) as [cur|] eqn:Ecur; [|done].
  assert (Hcur : validCell width height cur)
    by (eapply (proj1 (Forall_lookup _ _) Hact); exact Ecur).
  destruct (filter _ (map (move cur) directions)) as [|n0 ns] eqn:Eun.
  { intros [= <-]. split; simpl; [done | by apply Forall_delete]. }
  destruct (randomIndex (length (n0 :: ns)) rnd1) as [k rnd2].
  destruct ((n0 :: ns) !! k) as [next|] eqn:Enext; [|done].
  assert (Hnext : validCell width height next).
  { apply list_elem_of_lookup_2 in Enext. rewrite <- Eun in Enext.
    apply list_elem_of_filter in Enext as [[Hn _] _].
    by apply isCell_valid. }
  destruct (_ ≫= _) as [m2| |] eqn:Em; try done.
  intros [= <-]. apply bind_Returned in Em as (m1 & H1 & H2).
  split; cbn [maze activeCells].
  - eapply sealed_setCell_inner; [| by apply validCell_Inner | exact H2].
    eapply sealed_setCell_inner; [exact Hs | | exact H1].
    apply Inner_between; by apply validCell_Inner.
  - change (a0 :: rest ++ [next]) with ((a0 :: rest) ++ [next]).
    apply Forall_app. split; [done | by apply Forall_singleton].
Qed.

Lemma growingTree_step_exit method width height st maze' :
  Inv width height st -> step method width height st = inr (Returned maze') ->
  Sealed (height * 2 + 1) (width * 2 + 1) maze'.
Proof.
  intros [Hs Hact]. unfold step.
  destruct (activeCells st) as [|a0 rest]; [by intros [= <-]|].
  destruct (match method with
            | newest => _ | oldest => _ | random => _ end)
    as [cellIndex rnd1].
  destruct ((a0 :: rest) !! cellIndex) as [cur|]; [|done].
  destruct (filter _ (map (move cur) directions)) as [|n0 ns]; [done|].
  destruct (randomIndex (length (n0 :: ns)) rnd1) as [k rnd2].
  destruct ((n0 :: ns) !! k) as [next|]; [|done].
  by destruct (_ ≫= _).
Qed.

End GrowingTreeFacts.

Lemma growingTree_ring fuel width height method rnd maze :
  1 <= width -> 1 <= height ->
  generateGrowingTreeMaze fuel width height method rnd = Returned maze ->
  ringAsReturned (height * 2 + 1) (width * 2 + 1) maze.
Proof.
  intros Hw Hh. unfold generateGrowingTreeMaze. cbv zeta.
  pose proof (randomIndex_lt (Z.to_nat height) rnd ltac:(lia)) as Hi.
  destruct (randomIndex (Z.to_nat height) rnd) as [i rnd1].
  pose proof (randomIndex_lt (Z.to_nat width) rnd1 ltac:(lia)) as Hj.
  destruct (randomIndex (Z.to_nat width) rnd1) as [j rnd2].
  simpl in Hi, Hj.
  assert (Hstart : GrowingTreeFacts.validCell width height
                     (Z.of_nat i, Z.of_nat j))
    by (unfold GrowingTreeFacts.validCell; simpl; lia).
  intros H. apply bind_Returned in H as (maze1 & Hset & H).
  apply bind_Returned in H as (maze2 & Hloop & H).
  eapply openEnds_ring; [|exact H].
  clear H. revert maze2 Hloop.
  apply (loop_invariant _ (GrowingTreeFacts.Inv width height));
    eauto using GrowingTreeFacts.growingTree_step_inv, GrowingTreeFacts.growingTree_step_exit.
  split; simpl; [|by apply Forall_singleton].
  eapply sealed_setCell_inner; [apply sealed_newGrid | | exact Hset].
  by apply (GrowingTreeFacts.validCell_Inner _ _ _ Hstart).
Qed.

(** *** All eight generators *)

(** C3.  For each of the eight generators, every [width, height >= 1] and
    every outcome of the random choices, every position of the outermost
    ring of the returned grid is a wall, except the entrance [(1, 0)] and
    the exit [(gridHeight - 2, gridWidth - 1)], which are paths. *)
Theorem C3_outer_ring :
  forall (width height : Z) (fuel : nat) (rnd : Rand) (method : Method)
         (maze : Grid),
    1 <= width -> 1 <= height ->
    generateRecursiveBacktrackerMaze fuel width height rnd = Returned maze \/
    generatePrimsMaze fuel width height rnd = Returned maze \/
    generateKruskalsMaze fuel width height rnd = Returned maze \/
    generateBinaryTreeMaze width height rnd = Returned maze \/
    generateWilsonsMaze fuel width height rnd = Returned maze \/
    generateAldousBroderMaze fuel width height rnd = Returned maze \/
    generateRecursiveDivisionMaze fuel width height rnd = Returned maze \/
    generateGrowingTreeMaze fuel width height method rnd = Returned maze ->
    ringAsReturned (height * 2 + 1) (width * 2 + 1) maze.
Proof.
  intros width height fuel rnd method maze Hw Hh H.
  destruct H as [H|[H|[H|[H|[H|[H|[H|H]]]]]]].
  - by eapply backtracker_ring.
  - by eapply prims_ring.
  - by eapply kruskal_ring.
  - by eapply binaryTree_ring.
  - by eapply wilson_ring.
  - by eapply aldousBroder_ring.
  - by eapply division_ring.
  - by eapply growingTree_ring.
Qed.

(** Runs of the eight generators for [width = height = 2]. *)
Definition someRun : Rand :=
  [1; 2; 3; 4; 5; 6; 7; 8; 9; 10; 11; 12; 13; 14; 15; 1; 3; 2; 3; 1; 3; 2; 0;
   1; 2; 3; 0; 1; 3; 1; 0; 2; 1; 2; 0]%nat.

Lemma every_generator_returns :
  generateRecursiveBacktrackerMaze 20 2 2 someRun
  = Returned [[1; 1; 1; 1; 1]; [0; 0; 0; 0; 1]; [1; 0; 1; 0; 1];
              [1; 0; 1; 0; 0]; [1; 1; 1; 1; 1]] /\
  generatePrimsMaze 20 2 2 someRun
  = Returned [[1; 1; 1; 1; 1]; [0; 0; 0; 0; 1]; [1; 0; 1; 1; 1];
              [1; 0; 0; 0; 0]; [1; 1; 1; 1; 1]] /\
  generateKruskalsMaze 20 2 2 someRun
  = Returned [[1; 1; 1; 1; 1]; [0; 0; 1; 0; 1]; [1; 0; 1; 0; 1];
              [1; 0; 0; 0; 0]; [1; 1; 1; 1; 1]] /\
  generateBinaryTreeMaze 2 2 someRun
  = Returned [[1; 1; 1; 1; 1]; [0; 0; 0; 0; 1]; [1; 0; 1; 1; 1];
              [1; 0; 0; 0; 0]; [1; 1; 1; 1; 1]] /\
  generateWilsonsMaze 20 2 2 someRun
  = Returned [[1; 1; 1; 1; 1]; [0; 0; 1; 0; 1]; [1; 0; 1; 0; 1];
              [1; 0; 0; 0; 0]; [1; 1; 1; 1; 1]] /\
  generateAldousBroderMaze 20 2 2 [0; 0; 3; 1; 2]%nat
  = Returned [[1; 1; 1; 1; 1]; [0; 0; 0; 0; 1]; [1; 1; 1; 0; 1];
              [1; 0; 0; 0; 0]; [1; 1; 1; 1; 1]] /\
  generateRecursiveDivisionMaze 20 2 2 someRun = Returned room /\
  generateGrowingTreeMaze 20 2 2 random someRun
  = Returned [[1; 1; 1; 1; 1]; [0; 0; 0; 0; 1]; [1; 0; 1; 1; 1];
              [1; 0; 0; 0; 0]; [1; 1; 1; 1; 1]].
Proof. repeat split; vm_compute; reflexivity. Qed.

Lemma C3_outer_ring_witness :
  ringAsReturned 5 5 [[1; 1; 1; 1; 1]; [0; 0; 1; 0; 1]; [1; 0; 1; 0; 1];
                      [1; 0; 0; 0; 0]; [1; 1; 1; 1; 1]].
Proof.
  apply (C3_outer_ring 2 2 20 someRun newest); [lia | lia |].
  right; right; left. vm_compute. reflexivity.
Defined.

(** ** C2: paths between the entrance and the exit *)

(** The length of the path a call returns, if it returns one. *)
Definition pathLength (o : outcome PathResult) : option nat :=
  match o with
  | Returned r => length <$> path r
  | _ => None
  end.


(** Apart from that defect: on the grids of every generator but recursive
    division there is one route only between two positions, and the
    searches that return a path return that route, as shown further down;
    for recursive division the development neither proves nor refutes the
    equality of the two lengths.  It does not hold on arbitrary grids:
    between pillars [findPathAStar] can return a path two cells longer than
    the one [findPathBFS] returns, because a neighbour still in the open
    set has its parent replaced by whichever cell is expanded next to it
    last. *)
Definition pillars : Grid :=
  [[0; 0; 1; 0; 0; 0];
   [0; 0; 0; 0; 1; 0];
   [0; 1; 0; 1; 0; 0];
   [0; 1; 0; 0; 0; 0]].

Lemma astar_not_shortest_between_pillars :
  pathLength (findPathBFS 100 pillars (1, 5) (2, 0)) = Some 9%nat /\
  pathLength (findPathAStar 100 pillars (1, 5) (2, 0)) = Some 11%nat.
Proof. split; vm_compute; reflexivity. Qed.

(** ** Which searches return *)

(** A loop whose body lowers a measure is over before the measure is used
    up. *)
Lemma loop_terminates {St R : Type} (step : St -> St + outcome R)
    (Inv : St -> Prop) (measure : St -> nat) :
  (forall s s', Inv s -> step s = inl s' ->
                Inv s' /\ (measure s' < measure s)%nat) ->
  (forall s o, Inv s -> step s = inr o -> exists r, o = Returned r) ->
  forall fuel s, Inv s -> (measure s < fuel)%nat ->
                 exists r, loop step fuel s = Returned r.
Proof.
  intros Hstep Hexit. induction fuel as [|n IH]; intros s Hs Hm; [lia|].
  simpl. destruct (step s) as [s'|o] eqn:E.
  - destruct (Hstep _ _ Hs E) as [Hs' Hlt]. apply IH; [done | lia].
  - by eapply Hexit.
Qed.

(** The positions of a matrix of [nr] rows and [nc] columns. *)
Definition universe (nr nc : Z) : gset Coord :=
  list_to_set (r ← seqZ 0 nr; c ← seqZ 0 nc; [(r, c)]).

Lemma elem_of_universe nr nc p :
  p ∈ universe nr nc <-> 0 <= p.1 < nr /\ 0 <= p.2 < nc.
Proof.
  unfold universe. rewrite elem_of_list_to_set, list_elem_of_bind.
  split.
  - intros (r & H & Hr). apply list_elem_of_bind in H as (c & H & Hc).
    apply list_elem_of_singleton in H as ->.
    apply elem_of_seqZ in Hr, Hc. simpl. lia.
  - intros [Hr Hc]. exists p.1. split; [|apply elem_of_seqZ; lia].
    apply list_elem_of_bind. exists p.2. split; [|apply elem_of_seqZ; lia].
    apply list_elem_of_singleton. by destruct p.
Qed.

Lemma passable_universe maze nr nc p :
  passable maze nr nc p = true -> p ∈ universe nr nc.
Proof.
  unfold passable. intros H. repeat (apply andb_true_iff in H as [H ?]).
  apply elem_of_universe. lia.
Qed.

Lemma endpoint_universe maze nr nc p :
  invalidEndpoint maze nr nc p = false -> p ∈ universe nr nc.
Proof.
  unfold invalidEndpoint. intros H.
  repeat (apply orb_false_elim in H as [H ?]).
  apply elem_of_universe. lia.
Qed.

(** Marking one more position of the universe leaves fewer unmarked. *)
Lemma size_unmarked (U V : gset Coord) (n : Coord) :
  n ∈ U -> n ∉ V -> (size (U ∖ ({[n]} ∪ V)) < size (U ∖ V))%nat.
Proof.
  intros HU HV. apply subset_size. split.
  - intros x. rewrite !elem_of_difference, elem_of_union. tauto.
  - intros Hsub. specialize (Hsub n).
    rewrite !elem_of_difference, elem_of_union, elem_of_singleton in Hsub.
    tauto.
Qed.

Lemma length_le_universe (l : list Coord) (U : gset Coord) :
  NoDup l -> (forall x, x ∈ l -> x ∈ U) -> (length l <= size U)%nat.
Proof.
  intros Hnd Hsub. rewrite <- (size_list_to_set (C := gset Coord) l Hnd).
  apply subseteq_size. intros x Hx. apply Hsub.
  by apply elem_of_list_to_set in Hx.
Qed.

(** Parent pointers that lead to cells listed earlier: following them from a
    listed cell ends. *)
Definition ranked (order : list Coord) (pm : gmap Coord (option Coord))
  : Prop :=
  forall i n p,
    order !! i = Some n -> parentOf pm n = Some p ->
    exists j, (j < i)%nat /\ order !! j = Some p.

Lemma reconstruct_returns order pm :
  ranked order pm ->
  forall i n fuel acc,
    order !! i = Some n -> (i < fuel)%nat ->
    exists p, reconstructPath fuel pm (Some n) acc = Returned p.
Proof.
  intros Hrank i. induction i as [i IH] using lt_wf_ind.
  intros n fuel acc Hi Hfuel. destruct fuel as [|fuel]; [lia|]. simpl.
  destruct (parentOf pm n) as [p|] eqn:Ep.
  - destruct (Hrank _ _ _ Hi Ep) as (j & Hj & Hp).
    eapply IH; [exact Hj | exact Hp | lia].
  - rewrite reconstruct_null. eauto.
Qed.

Lemma parentOf_insert_ne pm (n m : Coord) v :
  n <> m -> parentOf (<[n := v]> pm) m = parentOf pm m.
Proof. intros H. unfold parentOf. by rewrite lookup_insert_ne. Qed.

Lemma parentOf_insert_eq pm (n cur : Coord) :
  parentOf (<[n := Some cur]> pm) n = Some cur.
Proof. unfold parentOf. by rewrite lookup_insert_eq. Qed.

(** A cell entered at the end of the list with a parent already listed. *)
Lemma ranked_snoc order pm n cur :
  ranked order pm -> n ∉ order -> cur ∈ order ->
  ranked (order ++ [n]) (<[n := Some cur]> pm).
Proof.
  intros Hrank Hn Hcur i m p Hi Hp.
  destruct (decide (m = n)) as [->|Hne].
  - rewrite parentOf_insert_eq in Hp. injection Hp as <-.
    apply list_elem_of_lookup in Hcur as [j Hj].
    assert (i = length order) as ->.
    { destruct (decide (i < length order)%nat) as [Hlt|Hge].
      - rewrite lookup_app_l in Hi by done.
        apply list_elem_of_lookup_2 in Hi. done.
      - apply lookup_lt_Some in Hi. rewrite length_app in Hi. simpl in Hi.
        lia. }
    exists j. split; [by eapply lookup_lt_Some|].
    rewrite lookup_app_l; [done | by eapply lookup_lt_Some].
  - rewrite parentOf_insert_ne in Hp by done.
    assert (Hi' : order !! i = Some m).
    { destruct (decide (i < length order)%nat) as [Hlt|Hge].
      - by rewrite lookup_app_l in Hi.
      - rewrite lookup_app_r in Hi by lia.
        apply list_lookup_singleton_Some in Hi as [_ ?]. congruence. }
    destruct (Hrank _ _ _ Hi' Hp) as (j & Hj & Hjp).
    exists j. split; [done|].
    rewrite lookup_app_l; [done | by eapply lookup_lt_Some].
Qed.

Module BFSReturns.
Import BFS BFSFacts.

Section Search.
Variables (maze : Grid) (nr nc : Z) (goal : Coord) (fuel : nat).

Let U : gset Coord := universe nr nc.

Definition measure (st : State) : nat :=
  (2 * size (U ∖ visited st) + length (queue st))%nat.

Record Inv2 (st : State) : Prop := {
  inv2_inv : Inv st;
  inv2_ranked : ranked (order st) (parentMap st);
  inv2_universe : forall x, x ∈ order st -> x ∈ U
}.

Lemma bfs_visit_progress cur st d :
  Inv2 st -> cur ∈ order st ->
  let st' := visit maze nr nc cur st d in
  Inv2 st' /\ cur ∈ order st' /\ (measure st' <= measure st)%nat.
Proof.
  intros [Hinv Hrank HU] Hcur. cbv zeta.
  split; [|split].
  - split; [by apply bfs_visit_inv | |]; unfold visit;
      destruct (passable maze nr nc (move cur d)) eqn:Ep; simpl; try done;
      case_bool_decide as Hin; simpl; try done.
    + apply ranked_snoc; [done | | done].
      by rewrite (inv_visited _ Hinv).
    + intros x Hx. apply elem_of_app in Hx as [Hx|Hx]; [by apply HU|].
      apply list_elem_of_singleton in Hx as ->.
      by eapply passable_universe.
  - unfold visit. destruct (_ && _); simpl; [|done].
    apply elem_of_app. by left.
  - unfold visit, measure.
    destruct (passable maze nr nc (move cur d)) eqn:Ep; simpl; [|done].
    case_bool_decide as Hin; simpl; [done|].
    pose proof (size_unmarked U (visited st) (move cur d)
                  (passable_universe _ _ _ _ Ep) Hin).
    rewrite length_app. simpl. lia.
Qed.

Lemma bfs_visits_progress cur dirs st :
  Inv2 st -> cur ∈ order st ->
  let st' := fold_left (visit maze nr nc cur) dirs st in
  Inv2 st' /\ (measure st' <= measure st)%nat.
Proof.
  revert st. induction dirs as [|d dirs IH]; intros st Hinv Hcur; simpl.
  - done.
  - destruct (bfs_visit_progress cur st d Hinv Hcur) as (H1 & H2 & H3).
    destruct (IH _ H1 H2) as [H4 H5]. split; [done | lia].
Qed.

Lemma bfs_step_progress st st' :
  Inv2 st -> step fuel maze nr nc goal st = inl st' ->
  Inv2 st' /\ (measure st' < measure st)%nat.
Proof.
  intros [Hinv Hrank HU]. unfold step.
  destruct (queue st) as [|cur rest] eqn:Eq; [done|].
  destruct (_ && _); [done|]. intros <-%(inj inl).
  set (st0 := {| queue := rest; visited := visited st; order := order st;
                 parentMap := parentMap st; trace := trace st ++ [cur] |}).
  assert (Hcur : cur ∈ order st).
  { rewrite (inv_queue _ Hinv), Eq. apply elem_of_app. right.
    by apply elem_of_cons; left. }
  assert (H0 : Inv2 st0).
  { split; [|done..]. destruct Hinv as [Hnd Hvis Hq].
    split; simpl; [done | done |]. by rewrite Hq, Eq, <- app_assoc. }
  destruct (bfs_visits_progress cur directions st0 H0 Hcur) as [H1 H2].
  split; [done|]. unfold measure in *. rewrite Eq. simpl in *. lia.
Qed.

Lemma bfs_step_returns st o :
  Inv2 st -> (size U < fuel)%nat ->
  step fuel maze nr nc goal st = inr o -> exists t, o = Returned t.
Proof.
  intros [Hinv Hrank HU] Hfuel. unfold step.
  destruct (queue st) as [|cur rest] eqn:Eq; [intros [= <-]; eauto|].
  destruct ((cur.1 =? goal.1) && (cur.2 =? goal.2)) eqn:Egoal; [|done].
  intros [= <-].
  assert (cur = goal) as ->.
  { apply andb_true_iff in Egoal as [E1 E2].
    apply Z.eqb_eq in E1, E2. destruct cur, goal; simpl in *; congruence. }
  assert (Hgoal : goal ∈ order st).
  { rewrite (inv_queue _ Hinv), Eq. apply elem_of_app. right.
    by apply elem_of_cons; left. }
  apply list_elem_of_lookup in Hgoal as [i Hi].
  destruct (reconstruct_returns _ _ Hrank i goal fuel [] Hi) as [p Hp].
  { pose proof (lookup_lt_Some _ _ _ Hi).
    pose proof (length_le_universe _ U (inv_nodup _ Hinv) HU). lia. }
  rewrite Hp. simpl. eauto.
Qed.

Lemma bfs_init_inv2 start :
  start ∈ U -> Inv2 (init start).
Proof.
  intros Hs. split; [apply bfs_init_inv | |].
  - intros i n p Hi Hp. simpl in *.
    apply list_lookup_singleton_Some in Hi as [_ <-].
    unfold parentOf in Hp. by rewrite lookup_singleton_eq in Hp.
  - intros x Hx. simpl in Hx. by apply list_elem_of_singleton in Hx as ->.
Qed.

End Search.

Lemma bfs_returns maze nc start goal fuel :
  numCols maze = Some nc ->
  (2 * size (universe (numRows maze) nc) + 1 < fuel)%nat ->
  exists t, findPathTraced fuel maze start goal = Returned t.
Proof.
  intros Hnc Hfuel. unfold findPathTraced. rewrite Hnc. cbv zeta.
  destruct (invalidEndpoint maze (numRows maze) nc start) eqn:Es; [eauto|].
  destruct (invalidEndpoint maze (numRows maze) nc goal) eqn:Eg; [eauto|].
  cbn [orb]. apply endpoint_universe in Es.
  eapply (loop_terminates _ (Inv2 (numRows maze) nc)
            (measure (numRows maze) nc)).
  - intros. by eapply bfs_step_progress.
  - intros s o Hs. eapply bfs_step_returns; [done | lia].
  - by apply bfs_init_inv2.
  - unfold measure. simpl.
    pose proof (subseteq_size (universe (numRows maze) nc ∖ {[start]})
                  (universe (numRows maze) nc)) as Hle.
    assert (size (universe (numRows maze) nc ∖ {[start]})
            <= size (universe (numRows maze) nc))%nat
      by (apply Hle; intros x; rewrite elem_of_difference; tauto).
    lia.
Qed.

End BFSReturns.

Module DFSReturns.
Import DFS DFSFacts.

Section Search.
Variables (maze : Grid) (nr nc : Z) (goal : Coord) (fuel : nat).

Let U : gset Coord := universe nr nc.

Definition measure (st : State) : nat :=
  (2 * size (U ∖ visited st) + length (stack st))%nat.

Record Inv2 (st : State) : Prop := {
  inv2_inv : Inv st;
  inv2_ranked : ranked (order st) (parentMap st);
  inv2_universe : forall x, x ∈ order st -> x ∈ U
}.

Lemma dfs_visit_progress cur st d :
  Inv2 st -> cur ∈ order st ->
  let st' := visit maze nr nc cur st d in
  Inv2 st' /\ cur ∈ order st' /\ (measure st' <= measure st)%nat.
Proof.
  intros [Hinv Hrank HU] Hcur. cbv zeta.
  split; [|split].
  - split; [by apply dfs_visit_inv | |]; unfold visit;
      destruct (passable maze nr nc (move cur d)) eqn:Ep; simpl; try done;
      case_bool_decide as Hin; simpl; try done.
    + apply ranked_snoc; [done | | done].
      by rewrite (inv_visited _ Hinv).
    + intros x Hx. apply elem_of_app in Hx as [Hx|Hx]; [by apply HU|].
      apply list_elem_of_singleton in Hx as ->.
      by eapply passable_universe.
  - unfold visit. destruct (_ && _); simpl; [|done].
    apply elem_of_app. by left.
  - unfold visit, measure.
    destruct (passable maze nr nc (move cur d)) eqn:Ep; simpl; [|done].
    case_bool_decide as Hin; simpl; [done|].
    pose proof (size_unmarked U (visited st) (move cur d)
                  (passable_universe _ _ _ _ Ep) Hin).
    rewrite length_app. simpl. lia.
Qed.

Lemma dfs_visits_progress cur dirs st :
  Inv2 st -> cur ∈ order st ->
  let st' := fold_left (visit maze nr nc cur) dirs st in
  Inv2 st' /\ (measure st' <= measure st)%nat.
Proof.
  revert st. induction dirs as [|d dirs IH]; intros st Hinv Hcur; simpl.
  - done.
  - destruct (dfs_visit_progress cur st d Hinv Hcur) as (H1 & H2 & H3).
    destruct (IH _ H1 H2) as [H4 H5]. split; [done | lia].
Qed.

Lemma popped_listed st cur :
  Inv st -> last (stack st) = Some cur -> cur ∈ order st.
Proof.
  intros Hinv Hl. rewrite (inv_stack _ Hinv). apply elem_of_app. right.
  apply last_Some in Hl as [l' ->]. apply elem_of_app. right.
  by apply list_elem_of_singleton.
Qed.

Lemma dfs_step_progress st st' :
  Inv2 st -> step fuel maze nr nc goal st = inl st' ->
  Inv2 st' /\ (measure st' < measure st)%nat.
Proof.
  intros [Hinv Hrank HU]. unfold step.
  destruct (last (stack st)) as [cur|] eqn:El; [|done].
  destruct (_ && _); [done|].
  destruct (shuffle (dirs st) (rnd st)) as [shuffled rnd'].
  intros <-%(inj inl).
  set (st0 := {| stack := removelast (stack st); visited := visited st;
                 order := order st; parentMap := parentMap st;
                 dirs := shuffled; rnd := rnd';
                 trace := trace st ++ [cur] |}).
  pose proof (popped_listed _ _ Hinv El) as Hcur.
  assert (H0 : Inv2 st0).
  { split; [|done..]. destruct Hinv as [Hnd Hvis Hq].
    split; simpl; [done | done |].
    rewrite Hq. rewrite (dfs_pop_stack _ _ El) at 1.
    by rewrite <- app_assoc, (Permutation_app_comm (removelast _)). }
  destruct (dfs_visits_progress cur shuffled st0 H0 Hcur) as [H1 H2].
  split; [done|]. unfold measure in *. simpl in H2.
  pose proof (f_equal length (dfs_pop_stack _ _ El)) as Hlen.
  rewrite length_app in Hlen. simpl in Hlen. lia.
Qed.

Lemma dfs_step_returns st o :
  Inv2 st -> (size U < fuel)%nat ->
  step fuel maze nr nc goal st = inr o -> exists t, o = Returned t.
Proof.
  intros [Hinv Hrank HU] Hfuel. unfold step, finish.
  destruct (last (stack st)) as [cur|] eqn:El; [|intros [= <-]; eauto].
  destruct ((cur.1 =? goal.1) && (cur.2 =? goal.2)) eqn:Egoal;
    [|by destruct (shuffle _ _)].
  intros [= <-].
  assert (cur = goal) as ->.
  { apply andb_true_iff in Egoal as [E1 E2].
    apply Z.eqb_eq in E1, E2. destruct cur, goal; simpl in *; congruence. }
  pose proof (popped_listed _ _ Hinv El) as Hgoal.
  apply list_elem_of_lookup in Hgoal as [i Hi].
  destruct (reconstruct_returns _ _ Hrank i goal fuel [] Hi) as [p Hp].
  { pose proof (lookup_lt_Some _ _ _ Hi).
    pose proof (length_le_universe _ U (inv_nodup _ Hinv) HU). lia. }
  rewrite Hp. simpl. eauto.
Qed.

Lemma dfs_init_inv2 start rnd0 :
  start ∈ U -> Inv2 (init start rnd0).
Proof.
  intros Hs. split; [apply dfs_init_inv | |].
  - intros i n p Hi Hp. simpl in *.
    apply list_lookup_singleton_Some in Hi as [_ <-].
    unfold parentOf in Hp. by rewrite lookup_singleton_eq in Hp.
  - intros x Hx. simpl in Hx. by apply list_elem_of_singleton in Hx as ->.
Qed.

End Search.

Lemma dfs_returns maze nc start goal rnd0 fuel :
  numCols maze = Some nc ->
  (2 * size (universe (numRows maze) nc) + 1 < fuel)%nat ->
  exists t, findPathTraced fuel maze start goal rnd0 = Returned t.
Proof.
  intros Hnc Hfuel. unfold findPathTraced. rewrite Hnc. cbv zeta.
  destruct (invalidEndpoint maze (numRows maze) nc start) eqn:Es; [eauto|].
  destruct (invalidEndpoint maze (numRows maze) nc goal) eqn:Eg; [eauto|].
  cbn [orb]. apply endpoint_universe in Es.
  eapply (loop_terminates _ (Inv2 (numRows maze) nc)
            (measure (numRows maze) nc)).
  - intros. by eapply dfs_step_progress.
  - intros s o Hs. eapply dfs_step_returns; [done | lia].
  - by apply dfs_init_inv2.
  - unfold measure. simpl.
    pose proof (subseteq_size (universe (numRows maze) nc ∖ {[start]})
                  (universe (numRows maze) nc)) as Hle.
    assert (size (universe (numRows maze) nc ∖ {[start]})
            <= size (universe (numRows maze) nc))%nat
      by (apply Hle; intros x; rewrite elem_of_difference; tauto).
    lia.
Qed.

End DFSReturns.

Lemma insertByKey_perm {A} (key : A -> Z) (x : A) (l : list A) :
  insertByKey key x l ≡ₚ x :: l.
Proof.
  induction l as [|y l IH]; simpl; [done|].
  destruct (key x <? key y); [done|].
  rewrite IH. apply Permutation_swap.
Qed.

Lemma sortByKey_perm {A} (key : A -> Z) (l : list A) :
  sortByKey key l ≡ₚ l.
Proof.
  unfold sortByKey.
  assert (H : forall acc, fold_left (fun acc x => insertByKey key x acc) l acc
                          ≡ₚ acc ++ l).
  { induction l as [|x l IH]; intros acc; simpl.
    - by rewrite app_nil_r.
    - rewrite IH, insertByKey_perm.
      by rewrite (Permutation_middle acc l x). }
  by rewrite H.
Qed.

Lemma ranked_insert_fresh order pm (n : Coord) v :
  ranked order pm -> n ∉ order -> ranked order (<[n := v]> pm).
Proof.
  intros Hrank Hn i m p Hi Hp.
  assert (m <> n) by (intros ->; by apply list_elem_of_lookup_2 in Hi).
  rewrite parentOf_insert_ne in Hp by done. by eapply Hrank.
Qed.

(** A cell entered at the end of the list whose parent, if it has one, is
    already listed. *)
Lemma ranked_close order pm cur :
  ranked order pm ->
  (forall p, parentOf pm cur = Some p -> p ∈ order) ->
  ranked (order ++ [cur]) pm.
Proof.
  intros Hrank Hcur i m p Hi Hp.
  destruct (decide (i < length order)%nat) as [Hlt|Hge].
  - rewrite lookup_app_l in Hi by done.
    destruct (Hrank _ _ _ Hi Hp) as (j & Hj & Hjp).
    exists j. split; [done|]. rewrite lookup_app_l; [done | lia].
  - rewrite lookup_app_r in Hi by lia.
    apply list_lookup_singleton_Some in Hi as [Hi <-].
    apply Hcur in Hp. apply list_elem_of_lookup in Hp as [j Hj].
    exists j. pose proof (lookup_lt_Some _ _ _ Hj).
    split; [lia|]. by rewrite lookup_app_l.
Qed.

Module GreedyReturns.
Import Greedy GreedyFacts.

Section Search.
Variables (maze : Grid) (nr nc : Z) (goal : Coord) (fuel : nat).

Let U : gset Coord := universe nr nc.

Definition measure (st : State) : nat :=
  (5 * size (U ∖ visited st) + length (openSet st))%nat.

Record Inv2 (st : State) : Prop := {
  inv2_inv : Inv st;
  inv2_ranked : ranked (order st) (parentMap st);
  inv2_parents : forall n p, parentOf (parentMap st) n = Some p -> p ∈ order st;
  inv2_universe : forall x, x ∈ order st -> x ∈ U;
  inv2_open : forall e, e ∈ openSet st -> cell e ∈ U
}.

Lemma greedy_visit_progress cur st d :
  Inv2 st -> cur ∈ order st ->
  let st' := visit maze nr nc goal cur st d in
  Inv2 st' /\ order st' = order st /\ visited st' = visited st /\
  (length (openSet st') <= S (length (openSet st)))%nat.
Proof.
  intros Hinv2 Hcur. pose proof Hinv2 as [Hinv Hrank Hpar HU Hopen].
  cbv zeta. unfold visit.
  destruct (passable maze nr nc (move cur d)) eqn:Ep; simpl;
    [|split; [done|]; split; [done|]; split; [done | lia]].
  case_bool_decide as Hin; simpl;
    [split; [done|]; split; [done|]; split; [done | lia]|].
  split; [|rewrite length_app; simpl; split; [done|]; split; [done | lia]].
  split; simpl.
  - by destruct Hinv.
  - apply ranked_insert_fresh; [done|]. by rewrite (inv_visited _ Hinv).
  - intros n p Hp.
    destruct (decide (n = move cur d)) as [->|Hne].
    + rewrite parentOf_insert_eq in Hp. by injection Hp as <-.
    + rewrite parentOf_insert_ne in Hp by done. by eapply Hpar.
  - done.
  - intros e He. apply elem_of_app in He as [He|He]; [by apply Hopen|].
    apply list_elem_of_singleton in He as ->. simpl.
    by eapply passable_universe.
Qed.

Lemma greedy_visits_progress cur dirs st :
  Inv2 st -> cur ∈ order st ->
  let st' := fold_left (visit maze nr nc goal cur) dirs st in
  Inv2 st' /\ visited st' = visited st /\
  (length (openSet st') <= length dirs + length (openSet st))%nat.
Proof.
  revert st. induction dirs as [|d dirs IH]; intros st Hinv Hcur; simpl.
  - split; [done|]. split; [done | lia].
  - destruct (greedy_visit_progress cur st d Hinv Hcur)
      as (H1 & H2 & H3 & H4).
    destruct (IH (visit maze nr nc goal cur st d) H1) as (H5 & H6 & H7).
    { by rewrite H2. }
    split; [done|]. split; [congruence | lia].
Qed.

Lemma greedy_step_progress st st' :
  Inv2 st -> step fuel maze nr nc goal st = inl st' ->
  Inv2 st' /\ (measure st' < measure st)%nat.
Proof.
  intros [Hinv Hrank Hpar HU Hopen]. unfold step.
  pose proof (sortByKey_perm hCost (openSet st)) as Hperm.
  destruct (sortByKey hCost (openSet st)) as [|e rest] eqn:Es; [done|].
  assert (Hlen : length (openSet st) = S (length rest))
    by (by rewrite <- Hperm).
  assert (Hrest : forall x, x ∈ rest -> cell x ∈ U).
  { intros x Hx. apply Hopen. rewrite <- Hperm. by apply elem_of_cons; right. }
  assert (He : cell e ∈ U).
  { apply Hopen. rewrite <- Hperm. by apply elem_of_cons; left. }
  case_bool_decide as Hin.
  - intros <-%(inj inl). split.
    + destruct Hinv as [Hnd Hvis Htr]. split; simpl; try done.
      split; simpl; [done | done |].
      rewrite firstVisits_snoc, <- Htr.
      rewrite bool_decide_eq_true_2; [done | by apply Hvis].
    + unfold measure. simpl. lia.
  - destruct (_ && _); [done|]. intros <-%(inj inl).
    set (st0 := {| openSet := rest; visited := {[cell e]} ∪ visited st;
                   order := order st ++ [cell e];
                   parentMap := parentMap st;
                   trace := trace st ++ [cell e] |}).
    assert (Hfresh : cell e ∉ order st) by (by rewrite (inv_visited _ Hinv)).
    assert (H0 : Inv2 st0).
    { split; simpl.
      - destruct Hinv as [Hnd Hvis Htr]. split; simpl.
        + by apply NoDup_snoc.
        + intros x.
          rewrite elem_of_app, list_elem_of_singleton, Hvis, elem_of_union,
            elem_of_singleton. tauto.
        + rewrite firstVisits_snoc, <- Htr.
          by rewrite bool_decide_eq_false_2.
      - apply ranked_close; [done|]. intros p. apply Hpar.
      - intros n p Hp. apply elem_of_app. left. by eapply Hpar.
      - intros x Hx. apply elem_of_app in Hx as [Hx|Hx]; [by apply HU|].
        by apply list_elem_of_singleton in Hx as ->.
      - done. }
    destruct (greedy_visits_progress (cell e) directions st0 H0)
      as (H1 & H2 & H3).
    { simpl. apply elem_of_app. right. by apply list_elem_of_singleton. }
    split; [done|]. unfold measure. rewrite H2. simpl in *.
    pose proof (size_unmarked U (visited st) (cell e) He Hin). lia.
Qed.

Lemma greedy_step_returns st o :
  Inv2 st -> (size U < fuel)%nat ->
  step fuel maze nr nc goal st = inr o -> exists t, o = Returned t.
Proof.
  intros [Hinv Hrank Hpar HU Hopen] Hfuel. unfold step.
  pose proof (sortByKey_perm hCost (openSet st)) as Hperm.
  destruct (sortByKey hCost (openSet st)) as [|e rest] eqn:Es;
    [intros [= <-]; eauto|].
  assert (He : cell e ∈ U).
  { apply Hopen. rewrite <- Hperm. by apply elem_of_cons; left. }
  case_bool_decide as Hin; [done|].
  destruct ((_ =? _) && (_ =? _)) eqn:Egoal; [|done].
  intros [= <-].
  assert (cell e = goal) as Heq.
  { apply andb_true_iff in Egoal as [E1 E2].
    apply Z.eqb_eq in E1, E2. destruct (cell e), goal; simpl in *; congruence. }
  assert (Hfresh : cell e ∉ order st) by (by rewrite (inv_visited _ Hinv)).
  assert (Hrank' : ranked (order st ++ [cell e]) (parentMap st)).
  { apply ranked_close; [done|]. intros p. apply Hpar. }
  assert (Hlen : (length (order st ++ [cell e]) <= size U)%nat).
  { apply length_le_universe.
    - apply NoDup_snoc; [apply (inv_nodup _ Hinv) | done].
    - intros x Hx. apply elem_of_app in Hx as [Hx|Hx]; [by apply HU|].
      by apply list_elem_of_singleton in Hx as ->. }
  rewrite length_app in Hlen. simpl in Hlen.
  destruct (reconstruct_returns _ _ Hrank' (length (order st)) goal fuel [])
    as [p Hp].
  { rewrite lookup_app_r by lia. rewrite Nat.sub_diag. simpl. by rewrite Heq. }
  { lia. }
  rewrite Hp. simpl. eauto.
Qed.

Lemma greedy_init_inv2 start :
  start ∈ U -> Inv2 (init start goal).
Proof.
  intros Hs. split; [apply greedy_init_inv | | | |]; simpl.
  - intros i n p Hi. by rewrite lookup_nil in Hi.
  - intros n p Hp. unfold parentOf in Hp.
    destruct (decide (n = start)) as [->|Hne].
    + by rewrite lookup_singleton_eq in Hp.
    + by rewrite lookup_singleton_ne in Hp.
  - intros x Hx. by apply elem_of_nil in Hx.
  - intros e He. by apply list_elem_of_singleton in He as ->.
Qed.

End Search.

Lemma greedy_returns maze nc start goal fuel :
  numCols maze = Some nc ->
  (5 * size (universe (numRows maze) nc) + 1 < fuel)%nat ->
  exists t, findPathTraced fuel maze start goal = Returned t.
Proof.
  intros Hnc Hfuel. unfold findPathTraced. rewrite Hnc. cbv zeta.
  destruct (invalidEndpoint maze (numRows maze) nc start) eqn:Es; [eauto|].
  destruct (invalidEndpoint maze (numRows maze) nc goal) eqn:Eg; [eauto|].
  cbn [orb]. apply endpoint_universe in Es.
  eapply (loop_terminates _ (Inv2 (numRows maze) nc)
            (measure (numRows maze) nc)).
  - intros. by eapply greedy_step_progress.
  - intros s o Hs. eapply greedy_step_returns; [done | lia].
  - by apply greedy_init_inv2.
  - unfold measure. simpl.
    pose proof (subseteq_size (universe (numRows maze) nc ∖ ∅)
                  (universe (numRows maze) nc)) as Hle.
    assert (size (universe (numRows maze) nc ∖ ∅)
            <= size (universe (numRows maze) nc))%nat
      by (apply Hle; intros x; rewrite elem_of_difference; tauto).
    lia.
Qed.

End GreedyReturns.

(** Every round of the random mouse spends a step of the budget, and the
    indices it draws are inside the lists it draws from. *)
Lemma mouse_step_cases maze nr nc goal maxSteps st :
  match Mouse.step maze nr nc goal maxSteps st with
  | inl st' => Mouse.steps st' = Mouse.steps st + 1 /\ Mouse.steps st < maxSteps
  | inr o => exists r, o = Returned r
  end.
Proof.
  unfold Mouse.step.
  set (possible := filter _ (map (move (Mouse.current st)) directions)).
  set (unvisited := filter _ possible).
  set (back := filter _ possible).
  destruct (_ || _) eqn:Eaway; simpl; [|eauto].
  destruct (Mouse.steps st <? maxSteps) eqn:Esteps; [|eauto].
  apply Z.ltb_lt in Esteps.
  destruct (0 <? length unvisited)%nat eqn:E1.
  { apply Nat.ltb_lt in E1.
    destruct (randomIndex (length unvisited) _) as [i rnd'] eqn:Ei.
    pose proof (randomIndex_lookup unvisited (Mouse.rnd st) E1) as [next Hn].
    rewrite Ei in Hn. simpl in Hn. rewrite Hn. simpl. lia. }
  destruct (1 <? length possible)%nat eqn:E2.
  { destruct (0 <? length back)%nat eqn:E3; [|eauto].
    apply Nat.ltb_lt in E3.
    destruct (randomIndex (length back) _) as [i rnd'] eqn:Ei.
    pose proof (randomIndex_lookup back (Mouse.rnd st) E3) as [next Hn].
    rewrite Ei in Hn. simpl in Hn. rewrite Hn. simpl. lia. }
  destruct (_ && _); [|eauto].
  destruct (last (removelast (Mouse.walk st))); [simpl; lia | eauto].
Qed.

Lemma mouse_returns maze nc start goal maxSteps rnd :
  numCols maze = Some nc ->
  exists r, findPathRandomMouse maze start goal maxSteps rnd = Returned r.
Proof.
  intros Hnc. unfold findPathRandomMouse. rewrite Hnc. cbv zeta.
  destruct (_ || _); [eauto|].
  apply (loop_terminates _ (fun _ => True)
           (fun st => Z.to_nat (maxSteps - Mouse.steps st))).
  - intros s s' _ Hstep.
    pose proof (mouse_step_cases maze (numRows maze) nc goal maxSteps s) as H.
    rewrite Hstep in H. split; [done | lia].
  - intros s o _ Hstep.
    pose proof (mouse_step_cases maze (numRows maze) nc goal maxSteps s) as H.
    by rewrite Hstep in H.
  - done.
  - simpl. lia.
Qed.

(** On a matrix with at least one row the breadth-first, the depth-first
    and the greedy search return when given fuel in proportion to the size
    of the matrix, and the random mouse returns within its step budget. *)
Theorem searches_return :
  forall (maze : Grid) (nc : Z) (start goal : Coord) (rnd : Rand)
         (maxSteps : Z) (fuel : nat),
    numCols maze = Some nc ->
    (5 * size (universe (numRows maze) nc) + 1 < fuel)%nat ->
    (exists r, findPathBFS fuel maze start goal = Returned r) /\
    (exists r, findPathDFS fuel maze start goal rnd = Returned r) /\
    (exists r, findPathGreedy fuel maze start goal = Returned r) /\
    (exists r, findPathRandomMouse maze start goal maxSteps rnd = Returned r).
Proof.
  intros maze nc start goal rnd maxSteps fuel Hnc Hfuel.
  unfold findPathBFS, findPathDFS, findPathGreedy.
  split; [|split; [|split]].
  - destruct (BFSReturns.bfs_returns maze nc start goal fuel Hnc) as [t ->];
      [lia | simpl; eauto].
  - destruct (DFSReturns.dfs_returns maze nc start goal rnd fuel Hnc)
      as [t ->]; [lia | simpl; eauto].
  - destruct (GreedyReturns.greedy_returns maze nc start goal fuel Hnc)
      as [t ->]; [lia | simpl; eauto].
  - by eapply mouse_returns.
Qed.

(** ** A-star need not return *)

Lemma loop_iterate {St R : Type} (step : St -> St + outcome R) k :
  forall s s' n, iterate step k s = Some s' ->
                 loop step (k + n) s = loop step n s'.
Proof.
  induction k as [|k IH]; intros s s' n H; simpl in *.
  - by injection H as <-.
  - destruct (step s) as [s1|o]; [by apply IH | done].
Qed.

(** Two cells that are each other's parent: the reconstruction loop that
    reaches one of them runs for ever. *)
Lemma reconstruct_cycle pm (a b : Coord) :
  parentOf pm a = Some b -> parentOf pm b = Some a ->
  forall fuel acc, reconstructPath fuel pm (Some a) acc = OutOfFuel.
Proof.
  intros Hab Hba fuel. induction fuel as [fuel IH] using lt_wf_ind.
  intros acc. destruct fuel as [|[|fuel]]; simpl; [done | |].
  - by rewrite Hab.
  - rewrite Hab, Hba. apply IH. lia.
Qed.

Lemma reconstruct_follow pm (c d : Coord) :
  parentOf pm c = Some d ->
  (forall fuel acc, reconstructPath fuel pm (Some d) acc = OutOfFuel) ->
  forall fuel acc, reconstructPath fuel pm (Some c) acc = OutOfFuel.
Proof.
  intros Hcd Hd [|fuel] acc; simpl; [done|]. rewrite Hcd. apply Hd.
Qed.

(** The round in which the end is taken out of the open set. *)
Lemma astar_step_at_goal fuel maze nr nc goal st e rest :
  sortByKey AStar.fCost (AStar.openSet st) = e :: rest ->
  AStar.cell e = goal ->
  bool_decide (goal ∈ AStar.visited st) = false ->
  AStar.step fuel maze nr nc goal st
  = inr (outcome_map
           (fun p => mkTraced
                       (mkResult (Some (rev p)) (AStar.order st ++ [goal]))
                       (AStar.trace st ++ [goal]))
           (reconstructPath fuel (AStar.parentMap st) (Some goal) [])).
Proof.
  intros Hsort Hcell Hfresh. unfold AStar.step.
  rewrite Hsort, Hcell, Hfresh. by rewrite same_cell.
Qed.

(** What a round leaves behind when the search goes on does not depend on
    the fuel, which only the reconstruction of the path uses. *)
Lemma astar_step_fuel f1 f2 maze nr nc goal st st' :
  AStar.step f1 maze nr nc goal st = inl st' ->
  AStar.step f2 maze nr nc goal st = inl st'.
Proof.
  unfold AStar.step. destruct (sortByKey AStar.fCost (AStar.openSet st));
    [done|].
  cbv zeta. destruct (bool_decide _); [done|].
  by destruct (_ && _).
Qed.

Lemma astar_iterate_fuel f1 f2 maze nr nc goal k :
  forall st st',
    iterate (AStar.step f1 maze nr nc goal) k st = Some st' ->
    iterate (AStar.step f2 maze nr nc goal) k st = Some st'.
Proof.
  induction k as [|k IH]; intros st st'; simpl; [done|].
  destruct (AStar.step f1 maze nr nc goal st) as [s1|o] eqn:E; [|done].
  rewrite (astar_step_fuel f1 f2 _ _ _ _ _ _ E). apply IH.
Qed.

(** [followsChain pm [c0; c1; ...]]: each cell of the list has the next one
    as its parent. *)
Fixpoint followsChain (pm : gmap Coord (option Coord)) (chain : list Coord)
  : bool :=
  match chain with
  | a :: (b :: _) as rest =>
      bool_decide (parentOf pm a = Some b) && followsChain pm rest
  | _ => true
  end.

Lemma reconstruct_trapped pm (a b : Coord) chain :
  followsChain pm (chain ++ [a; b; a]) = true ->
  forall fuel acc,
    reconstructPath fuel pm (Some (hd a chain)) acc = OutOfFuel.
Proof.
  induction chain as [|c chain IH]; intros H.
  - simpl in H. apply andb_prop in H as [Hab H].
    apply andb_prop in H as [Hba _].
    apply bool_decide_eq_true_1 in Hab, Hba.
    by apply reconstruct_cycle with b.
  - assert (Hc : parentOf pm c = Some (hd a chain) /\
                 followsChain pm (chain ++ [a; b; a]) = true).
    { destruct chain as [|d chain]; simpl in H |- *;
        apply andb_prop in H as [Hcd H];
        apply bool_decide_eq_true_1 in Hcd; by split. }
    destruct Hc as [Hcd Hrest]. simpl.
    apply reconstruct_follow with (hd a chain); [done | by apply IH].
Qed.

Definition trap : Grid :=
  [[0; 0; 0; 1; 0; 0; 1];
   [1; 0; 0; 0; 0; 0; 0];
   [0; 0; 0; 0; 0; 1; 0];
   [0; 1; 0; 1; 0; 0; 0];
   [0; 1; 0; 0; 0; 0; 0];
   [0; 0; 1; 1; 0; 1; 0];
   [0; 0; 0; 0; 1; 0; 0]].

(** The search of [trap] from [(2, 6)] for [(6, 3)] after 37 rounds. *)
Definition trapState : option AStar.State :=
  iterate (AStar.step 0 trap 7 7 (6, 3)) 37 (AStar.init (2, 6) (6, 3)).

(** The 38th round takes the end out of the open set, and the parents
    recorded by then lead from the end into a cycle of two cells. *)
Definition trapClosed : bool :=
  match trapState with
  | Some st =>
      match sortByKey AStar.fCost (AStar.openSet st) with
      | e :: _ =>
          bool_decide (AStar.cell e = (6, 3))
          && negb (bool_decide ((6, 3) ∈ AStar.visited st))
          && followsChain (AStar.parentMap st)
               [(6, 3); (6, 2); (6, 1); (5, 1); (5, 0); (4, 0); (3, 0);
                (2, 0); (2, 1); (2, 2); (1, 2); (2, 2)]
      | [] => false
      end
  | None => false
  end.

Lemma trapClosed_true : trapClosed = true.
Proof. vm_compute. reflexivity. Qed.

(** In [trap], searched from [(2, 6)] for [(6, 3)], [findPathAStar] closes
    the end in its 38th round with [(2, 2)] and [(1, 2)] recorded as each
    other's parent on the way back to the start: the loop that rebuilds the
    path never reaches [null], and the call does not return, whatever the
    fuel.  The breadth-first search of the same grid returns a path of 16
    cells. *)
Theorem astar_may_not_return :
  (forall fuel, findPathAStar fuel trap (2, 6) (6, 3) = OutOfFuel) /\
  pathLength (findPathBFS 100 trap (2, 6) (6, 3)) = Some 16%nat.
Proof.
  split; [|vm_compute; reflexivity].
  intros fuel.
  do 38 (destruct fuel as [|fuel]; [vm_compute; reflexivity|]).
  pose proof trapClosed_true as H. unfold trapClosed in H.
  destruct trapState as [st|] eqn:Hst; [|done].
  destruct (sortByKey AStar.fCost (AStar.openSet st)) as [|e rest] eqn:Hsort;
    [done|].
  apply andb_prop in H as [H Hchain]. apply andb_prop in H as [Hcell Hfresh].
  apply bool_decide_eq_true_1 in Hcell. apply negb_true_iff in Hfresh.
  unfold trapState in Hst.
  assert (Hloop : forall F,
             loop (AStar.step F trap 7 7 (6, 3)) (37 + S fuel)
               (AStar.init (2, 6) (6, 3)) = OutOfFuel).
  { intros F. apply (astar_iterate_fuel 0 F) in Hst.
    rewrite (loop_iterate _ 37 _ st (S fuel) Hst).
    cbn [loop].
    rewrite (astar_step_at_goal F trap 7 7 (6, 3) st e rest Hsort Hcell
               Hfresh).
    by rewrite (reconstruct_trapped (AStar.parentMap st) (2, 2) (1, 2)
                  [(6, 3); (6, 2); (6, 1); (5, 1); (5, 0); (4, 0); (3, 0);
                   (2, 0); (2, 1)] Hchain). }
  unfold findPathAStar, AStar.findPathTraced.
  change (numCols trap) with (Some 7). cbv zeta.
  change (numRows trap) with 7.
  change (invalidEndpoint trap 7 7 (2, 6) || invalidEndpoint trap 7 7 (6, 3))
    with false.
  cbv iota.
  exact (f_equal (outcome_map result) (Hloop _)).
Qed.

(** ** Paths as walks *)

(** [Walk maze nr nc a l b]: the list [l] starts at [a], ends at [b], each of
    its cells after the first is one move of [directions] away from the cell
    before it, inside the matrix and on a path. *)
Inductive Walk (maze : Grid) (nr nc : Z) (a : Coord)
  : list Coord -> Coord -> Prop :=
  | Walk_start : Walk maze nr nc a [a] a
  | Walk_move l b d :
      Walk maze nr nc a l b -> d ∈ directions ->
      passable maze nr nc (move b d) = true ->
      Walk maze nr nc a (l ++ [move b d]) (move b d).

(** What a returned path is: a walk from start to end among the cells of the
    visited order. *)
Definition soundResult (maze : Grid) (nr nc : Z) (start goal : Coord)
    (r : PathResult) : Prop :=
  forall l, path r = Some l ->
            Walk maze nr nc start l goal /\
            forall x, x ∈ l -> x ∈ visitedOrder r.

(** What [path: null] means for a search that gives up only when its
    frontier is empty. *)
Definition completeResult (maze : Grid) (nr nc : Z) (start goal : Coord)
    (r : PathResult) : Prop :=
  path r = None -> forall l, ~ Walk maze nr nc start l goal.

(** The parent pointers of a search: the start has none; a recorded parent
    is a listed cell one move before its child, itself the start or a cell
    with a parent; a cell with a parent is on a path. *)
Record Rooted (maze : Grid) (nr nc : Z) (start : Coord) (order : list Coord)
    (pm : gmap Coord (option Coord)) : Prop := {
  rooted_start : parentOf pm start = None;
  rooted_parent : forall n p,
    parentOf pm n = Some p ->
    p ∈ order /\ passable maze nr nc n = true /\
    (exists d, d ∈ directions /\ n = move p d) /\
    (p = start \/ exists q, parentOf pm p = Some q)
}.

Lemma Walk_first maze nr nc a l b :
  Walk maze nr nc a l b -> exists l', l = a :: l'.
Proof.
  induction 1 as [|l b d _ [l' ->] _ _]; [by exists []|].
  by exists (l' ++ [move b d]).
Qed.

Lemma Walk_last maze nr nc a l b :
  Walk maze nr nc a l b -> last l = Some b.
Proof. destruct 1; [done | apply last_snoc]. Qed.

(** A walk that starts inside a set closed under passable moves stays
    inside. *)
Lemma Walk_closed maze nr nc (S : Coord -> Prop) a l b :
  (forall x d, S x -> d ∈ directions ->
               passable maze nr nc (move x d) = true -> S (move x d)) ->
  Walk maze nr nc a l b -> S a -> S b.
Proof. intros Hclosed. induction 1; eauto. Qed.

Lemma rooted_init maze nr nc start order :
  Rooted maze nr nc start order {[start := None]}.
Proof.
  split.
  - unfold parentOf. by rewrite lookup_singleton_eq.
  - intros n p. unfold parentOf.
    destruct (decide (start = n)) as [->|Hne].
    + by rewrite lookup_singleton_eq.
    + by rewrite lookup_singleton_ne.
Qed.

Lemma rooted_order maze nr nc start order order' pm :
  Rooted maze nr nc start order pm ->
  (forall x, x ∈ order -> x ∈ order') ->
  Rooted maze nr nc start order' pm.
Proof.
  intros [Hs Hp] Hsub. split; [done|].
  intros n p H. destruct (Hp n p H) as (? & ? & ? & ?). auto.
Qed.

(** Recording [cur] as the parent of its neighbour [move cur d]. *)
Lemma rooted_insert maze nr nc start order pm cur d :
  Rooted maze nr nc start order pm ->
  move cur d <> start -> cur ∈ order ->
  (cur = start \/ exists q, parentOf pm cur = Some q) ->
  d ∈ directions -> passable maze nr nc (move cur d) = true ->
  Rooted maze nr nc start order (<[move cur d := Some cur]> pm).
Proof.
  intros [Hs Hp] Hne Hcur Hknown Hd Hpass.
  assert (Hkeep : forall p,
             p = start \/ (exists q, parentOf pm p = Some q) ->
             p = start \/
             exists q, parentOf (<[move cur d := Some cur]> pm) p = Some q).
  { intros p [->|[q Hq]]; [by left|]. right.
    destruct (decide (move cur d = p)) as [<-|Hnp].
    - rewrite parentOf_insert_eq. eauto.
    - rewrite parentOf_insert_ne by done. eauto. }
  split.
  - by rewrite parentOf_insert_ne.
  - intros n p H. destruct (decide (move cur d = n)) as [<-|Hnn].
    + rewrite parentOf_insert_eq in H. injection H as <-.
      split; [done|]. split; [done|]. split; [eauto|]. by apply Hkeep.
    + rewrite parentOf_insert_ne in H by done.
      destruct (Hp n p H) as (? & ? & ? & ?).
      split; [done|]. split; [done|]. split; [done|]. by apply Hkeep.
Qed.

(** Following the parents from a cell that is the start or has a parent
    gives, read backwards, a walk from the start to that cell. *)
Lemma reconstruct_walk maze nr nc start order pm :
  Rooted maze nr nc start order pm ->
  forall fuel c acc p,
    (c = start \/ exists q, parentOf pm c = Some q) -> c ∈ order ->
    reconstructPath fuel pm (Some c) acc = Returned p ->
    exists l, p = acc ++ l /\ Walk maze nr nc start (rev l) c /\
              forall x, x ∈ l -> x ∈ order.
Proof.
  intros [Hs Hp]. induction fuel as [|fuel IH]; intros c acc p Hc Hin H;
    simpl in H; [done|].
  destruct (parentOf pm c) as [q|] eqn:Eq.
  - destruct (Hp c q Eq) as (Hq & Hpass & (d & Hd & ->) & Hknown).
    destruct (IH q _ _ Hknown Hq H) as (l & -> & Hwalk & Hsub).
    exists (move q d :: l). split; [by rewrite <- app_assoc|]. split.
    + simpl. by apply Walk_move.
    + intros x Hx. apply elem_of_cons in Hx as [->|Hx]; auto.
  - rewrite reconstruct_null in H. injection H as <-.
    destruct Hc as [->|[q Hq]]; [|done].
    exists [start]. split; [done|]. split; [apply Walk_start|].
    intros x Hx. by apply list_elem_of_singleton in Hx as ->.
Qed.

Lemma elem_of_rev_list {A} (x : A) (l : list A) : x ∈ rev l <-> x ∈ l.
Proof. rewrite !list_elem_of_In. symmetry. apply in_rev. Qed.

Lemma goal_test (cur goal : Coord) :
  (cur.1 =? goal.1) && (cur.2 =? goal.2) = true <-> cur = goal.
Proof.
  destruct cur, goal. simpl. rewrite andb_true_iff, !Z.eqb_eq.
  split; [intros [-> ->]; done | intros [= -> ->]; done].
Qed.

Lemma move_ne (p : Coord) d : d ∈ directions -> move p d <> p.
Proof.
  unfold directions. rewrite !elem_of_cons, elem_of_nil.
  destruct p as [r c]. unfold move. simpl.
  intros [->|[->|[->|[->|[]]]]] [=]; lia.
Qed.

Module BFSPaths.
Import BFS BFSFacts.

Section Search.
Variables (maze : Grid) (nr nc : Z) (start goal : Coord) (fuel : nat).

(** What every visit of a neighbour keeps. *)
Record Core (st : State) : Prop := {
  core_inv : Inv st;
  core_rooted : Rooted maze nr nc start (order st) (parentMap st);
  core_known : forall x,
    x ∈ order st ->
    x = start \/ exists q, parentOf (parentMap st) x = Some q;
  core_start : start ∈ visited st
}.

(** What holds between two rounds: moreover no dequeued cell is the end,
    and the passable neighbours of a dequeued cell are all visited. *)
Record Inv3 (st : State) : Prop := {
  inv3_core : Core st;
  inv3_closed : forall x,
    x ∈ trace st ->
    x <> goal /\
    forall d, d ∈ directions -> passable maze nr nc (move x d) = true ->
              move x d ∈ visited st
}.

Lemma bfs_init_inv3 : Inv3 (init start).
Proof.
  split; [split|]; simpl.
  - apply bfs_init_inv.
  - apply rooted_init.
  - intros x Hx. left. by apply list_elem_of_singleton in Hx.
  - by apply elem_of_singleton.
  - intros x Hx. by apply elem_of_nil in Hx.
Qed.

Lemma bfs_visit_core cur st d :
  Core st -> cur ∈ order st -> d ∈ directions ->
  let st' := visit maze nr nc cur st d in
  Core st' /\ cur ∈ order st' /\ trace st' = trace st /\
  (forall x, x ∈ visited st -> x ∈ visited st') /\
  (passable maze nr nc (move cur d) = true -> move cur d ∈ visited st').
Proof.
  intros Hcore Hcur Hd. cbv zeta.
  pose proof (bfs_visit_inv maze nr nc cur st d (core_inv _ Hcore)) as Hinv'.
  unfold visit in *.
  destruct (passable maze nr nc (move cur d)) eqn:Ep; simpl in *;
    [|by split_and!].
  case_bool_decide as Hin; simpl in *; [by split_and!|].
  destruct Hcore as [Hinv Hroot Hknown Hstart].
  assert (Hne : move cur d <> start) by (intros E; by rewrite E in Hin).
  split_and!.
  - split; simpl.
    + done.
    + apply rooted_order with (order st);
        [|intros x Hx; apply elem_of_app; by left].
      by apply rooted_insert; auto.
    + intros x Hx. apply elem_of_app in Hx as [Hx|Hx].
      * destruct (Hknown x Hx) as [->|[q Hq]]; [by left|]. right.
        destruct (decide (move cur d = x)) as [<-|Hnx].
        -- rewrite parentOf_insert_eq. eauto.
        -- rewrite parentOf_insert_ne by done. eauto.
      * apply list_elem_of_singleton in Hx as ->. right.
        rewrite parentOf_insert_eq. eauto.
    + apply elem_of_union. by right.
  - apply elem_of_app. by left.
  - done.
  - intros x Hx. apply elem_of_union. by right.
  - intros _. apply elem_of_union. left. by apply elem_of_singleton.
Qed.

Lemma bfs_visits_core cur dirs st :
  Core st -> cur ∈ order st -> (forall d, d ∈ dirs -> d ∈ directions) ->
  let st' := fold_left (visit maze nr nc cur) dirs st in
  Core st' /\ trace st' = trace st /\
  (forall x, x ∈ visited st -> x ∈ visited st') /\
  (forall d, d ∈ dirs -> passable maze nr nc (move cur d) = true ->
             move cur d ∈ visited st').
Proof.
  revert st. induction dirs as [|d dirs IH]; intros st Hinv Hcur Hdirs; simpl.
  - split_and!; try done. intros d Hd. by apply elem_of_nil in Hd.
  - destruct (bfs_visit_core cur st d Hinv Hcur) as (H1 & H2 & H3 & H4 & H5).
    { apply Hdirs. by apply elem_of_cons; left. }
    destruct (IH _ H1 H2) as (H6 & H7 & H8 & H9).
    { intros d' Hd'. apply Hdirs. by apply elem_of_cons; right. }
    split; [done|]. split; [congruence|]. split; [auto|].
    intros d' Hd' Hp. apply elem_of_cons in Hd' as [->|Hd']; auto.
Qed.

Lemma bfs_step_inv3 st st' :
  Inv3 st -> step fuel maze nr nc goal st = inl st' -> Inv3 st'.
Proof.
  intros [Hcore Hclosed]. unfold step.
  destruct (queue st) as [|cur rest] eqn:Eq; [done|].
  destruct ((cur.1 =? goal.1) && (cur.2 =? goal.2)) eqn:Egoal; [done|].
  intros <-%(inj inl).
  set (st0 := {| queue := rest; visited := visited st; order := order st;
                 parentMap := parentMap st; trace := trace st ++ [cur] |}).
  assert (Hcur : cur ∈ order st).
  { rewrite (inv_queue _ (core_inv _ Hcore)), Eq. apply elem_of_app. right.
    by apply elem_of_cons; left. }
  assert (Hne : cur <> goal).
  { intros E. apply goal_test in E. congruence. }
  assert (H0 : Core st0).
  { destruct Hcore as [[Hnd Hvis Hq] Hroot Hknown Hstart].
    split; [|done..]. split; simpl; [done | done |].
    by rewrite Hq, Eq, <- app_assoc. }
  destruct (bfs_visits_core cur directions st0 H0 Hcur) as (H1 & H2 & H3 & H4);
    [done|].
  split; [done|]. rewrite H2. simpl. intros x Hx.
  apply elem_of_app in Hx as [Hx|Hx].
  - destruct (Hclosed x Hx) as [Hg Hn]. split; [done|].
    intros d Hd Hp. apply H3. simpl. by apply Hn.
  - apply list_elem_of_singleton in Hx as ->. split; [done|]. apply H4.
Qed.

Lemma bfs_step_exit3 st t :
  Inv3 st -> step fuel maze nr nc goal st = inr (Returned t) ->
  soundResult maze nr nc start goal (result t) /\
  completeResult maze nr nc start goal (result t).
Proof.
  intros [[Hinv Hroot Hknown Hstart] Hclosed]. unfold step.
  destruct (queue st) as [|cur rest] eqn:Eq.
  - intros [= <-]. split; [by intros l|]. intros _ l Hwalk.
    destruct Hinv as [Hnd Hvis Hq]. rewrite Eq, app_nil_r in Hq.
    assert (Hin : goal ∈ trace st).
    { eapply (Walk_closed maze nr nc (fun x => x ∈ trace st));
        [|exact Hwalk|].
      - intros x d Hx Hd Hp. rewrite <- Hq, Hvis.
        by apply (Hclosed x Hx).
      - by rewrite <- Hq, Hvis. }
    by destruct (Hclosed goal Hin).
  - destruct ((cur.1 =? goal.1) && (cur.2 =? goal.2)) eqn:Egoal; [|done].
    apply goal_test in Egoal as ->. intros [= H].
    apply outcome_map_Returned in H as (p & Hp & ->).
    assert (Hgoal : goal ∈ order st).
    { rewrite (inv_queue _ Hinv), Eq. apply elem_of_app. right.
      by apply elem_of_cons; left. }
    destruct (reconstruct_walk _ _ _ _ _ _ Hroot _ _ _ _ (Hknown _ Hgoal)
                Hgoal Hp) as (l & -> & Hwalk & Hsub).
    split; [|done]. intros l' [= <-]. simpl. split; [done|].
    intros x Hx. apply Hsub. exact (proj1 (elem_of_rev_list x l) Hx).
Qed.

End Search.

Lemma bfs_paths fuel maze nc start goal t :
  numCols maze = Some nc ->
  invalidEndpoint maze (numRows maze) nc start = false ->
  invalidEndpoint maze (numRows maze) nc goal = false ->
  findPathTraced fuel maze start goal = Returned t ->
  soundResult maze (numRows maze) nc start goal (result t) /\
  completeResult maze (numRows maze) nc start goal (result t).
Proof.
  intros Hnc Hs Hg. unfold findPathTraced. rewrite Hnc. cbv zeta.
  rewrite Hs, Hg. cbn [orb]. revert t.
  apply (loop_invariant _ (Inv3 maze (numRows maze) nc start goal)).
  - intros s s'. apply bfs_step_inv3.
  - intros s r. apply bfs_step_exit3.
  - apply bfs_init_inv3.
Qed.

End BFSPaths.

Module DFSPaths.
Import DFS DFSFacts.

Section Search.
Variables (maze : Grid) (nr nc : Z) (start goal : Coord) (fuel : nat).

Record Core (st : State) : Prop := {
  core_inv : Inv st;
  core_rooted : Rooted maze nr nc start (order st) (parentMap st);
  core_known : forall x,
    x ∈ order st ->
    x = start \/ exists q, parentOf (parentMap st) x = Some q;
  core_start : start ∈ visited st
}.

(** Between two rounds the shared [directions] array still holds the four
    moves, in whatever order the last sort left them. *)
Record Inv3 (st : State) : Prop := {
  inv3_core : Core st;
  inv3_dirs : forall d, d ∈ dirs st <-> d ∈ directions;
  inv3_closed : forall x,
    x ∈ trace st ->
    x <> goal /\
    forall d, d ∈ directions -> passable maze nr nc (move x d) = true ->
              move x d ∈ visited st
}.

Lemma dfs_init_inv3 rnd0 : Inv3 (init start rnd0).
Proof.
  split; [split| |]; simpl.
  - apply dfs_init_inv.
  - apply rooted_init.
  - intros x Hx. left. by apply list_elem_of_singleton in Hx.
  - by apply elem_of_singleton.
  - done.
  - intros x Hx. by apply elem_of_nil in Hx.
Qed.

Lemma dfs_visit_core cur st d :
  Core st -> cur ∈ order st -> d ∈ directions ->
  let st' := visit maze nr nc cur st d in
  Core st' /\ cur ∈ order st' /\ trace st' = trace st /\
  dirs st' = dirs st /\
  (forall x, x ∈ visited st -> x ∈ visited st') /\
  (passable maze nr nc (move cur d) = true -> move cur d ∈ visited st').
Proof.
  intros Hcore Hcur Hd. cbv zeta.
  pose proof (dfs_visit_inv maze nr nc cur st d (core_inv _ Hcore)) as Hinv'.
  unfold visit in *.
  destruct (passable maze nr nc (move cur d)) eqn:Ep; simpl in *;
    [|by split_and!].
  case_bool_decide as Hin; simpl in *; [by split_and!|].
  destruct Hcore as [Hinv Hroot Hknown Hstart].
  assert (Hne : move cur d <> start) by (intros E; by rewrite E in Hin).
  split_and!.
  - split; simpl.
    + done.
    + apply rooted_order with (order st);
        [|intros x Hx; apply elem_of_app; by left].
      by apply rooted_insert; auto.
    + intros x Hx. apply elem_of_app in Hx as [Hx|Hx].
      * destruct (Hknown x Hx) as [->|[q Hq]]; [by left|]. right.
        destruct (decide (move cur d = x)) as [<-|Hnx].
        -- rewrite parentOf_insert_eq. eauto.
        -- rewrite parentOf_insert_ne by done. eauto.
      * apply list_elem_of_singleton in Hx as ->. right.
        rewrite parentOf_insert_eq. eauto.
    + apply elem_of_union. by right.
  - apply elem_of_app. by left.
  - done.
  - done.
  - intros x Hx. apply elem_of_union. by right.
  - intros _. apply elem_of_union. left. by apply elem_of_singleton.
Qed.

Lemma dfs_visits_core cur ds st :
  Core st -> cur ∈ order st -> (forall d, d ∈ ds -> d ∈ directions) ->
  let st' := fold_left (visit maze nr nc cur) ds st in
  Core st' /\ trace st' = trace st /\ dirs st' = dirs st /\
  (forall x, x ∈ visited st -> x ∈ visited st') /\
  (forall d, d ∈ ds -> passable maze nr nc (move cur d) = true ->
             move cur d ∈ visited st').
Proof.
  revert st. induction ds as [|d ds IH]; intros st Hinv Hcur Hdirs; simpl.
  - split_and!; try done. intros d Hd. by apply elem_of_nil in Hd.
  - destruct (dfs_visit_core cur st d Hinv Hcur)
      as (H1 & H2 & H3 & H3' & H4 & H5).
    { apply Hdirs. by apply elem_of_cons; left. }
    destruct (IH _ H1 H2) as (H6 & H7 & H7' & H8 & H9).
    { intros d' Hd'. apply Hdirs. by apply elem_of_cons; right. }
    split; [done|]. split; [congruence|]. split; [congruence|].
    split; [auto|].
    intros d' Hd' Hp. apply elem_of_cons in Hd' as [->|Hd']; auto.
Qed.

Lemma dfs_top_listed st cur :
  Inv st -> last (stack st) = Some cur -> cur ∈ order st.
Proof.
  intros Hinv El. rewrite (inv_stack _ Hinv). apply elem_of_app. right.
  rewrite (dfs_pop_stack _ _ El). apply elem_of_app. right.
  by apply list_elem_of_singleton.
Qed.

Lemma dfs_step_inv3 st st' :
  Inv3 st -> step fuel maze nr nc goal st = inl st' -> Inv3 st'.
Proof.
  intros [Hcore Hdirs Hclosed]. unfold step.
  destruct (last (stack st)) as [cur|] eqn:El; [|done].
  destruct ((cur.1 =? goal.1) && (cur.2 =? goal.2)) eqn:Egoal; [done|].
  destruct (shuffle (dirs st) (rnd st)) as [shuffled rnd'] eqn:Esh.
  intros <-%(inj inl).
  set (st0 := {| stack := removelast (stack st); visited := visited st;
                 order := order st; parentMap := parentMap st;
                 dirs := shuffled; rnd := rnd'; trace := trace st ++ [cur] |}).
  assert (Hsh : forall d, d ∈ shuffled <-> d ∈ directions).
  { intros d. rewrite <- Hdirs.
    pose proof (elem_of_shuffle (dirs st) (rnd st) d) as H.
    by rewrite Esh in H. }
  pose proof (dfs_top_listed _ _ (core_inv _ Hcore) El) as Hcur.
  assert (Hne : cur <> goal).
  { intros E. apply goal_test in E. congruence. }
  assert (H0 : Core st0).
  { destruct Hcore as [[Hnd Hvis Hq] Hroot Hknown Hstart].
    split; [|done..]. split; simpl; [done | done |].
    rewrite Hq. rewrite (dfs_pop_stack _ _ El) at 1.
    by rewrite <- app_assoc, (Permutation_app_comm (removelast _)). }
  destruct (dfs_visits_core cur shuffled st0 H0 Hcur)
    as (H1 & H2 & H2' & H3 & H4); [intros d; apply Hsh|].
  split; [done | by rewrite H2' |]. rewrite H2. simpl. intros x Hx.
  apply elem_of_app in Hx as [Hx|Hx].
  - destruct (Hclosed x Hx) as [Hg Hn]. split; [done|].
    intros d Hd Hp. apply H3. simpl. by apply Hn.
  - apply list_elem_of_singleton in Hx as ->. split; [done|].
    intros d Hd. apply H4. by apply Hsh.
Qed.

Lemma dfs_step_exit3 st t :
  Inv3 st -> step fuel maze nr nc goal st = inr (Returned t) ->
  soundResult maze nr nc start goal (result t) /\
  completeResult maze nr nc start goal (result t).
Proof.
  intros [[Hinv Hroot Hknown Hstart] Hdirs Hclosed]. unfold step, finish.
  destruct (last (stack st)) as [cur|] eqn:El.
  - destruct ((cur.1 =? goal.1) && (cur.2 =? goal.2)) eqn:Egoal;
      [|by destruct (shuffle _ _)].
    apply goal_test in Egoal as ->. intros [= H].
    apply outcome_map_Returned in H as (p & Hp & ->).
    pose proof (dfs_top_listed _ _ Hinv El) as Hgoal.
    destruct (reconstruct_walk _ _ _ _ _ _ Hroot _ _ _ _ (Hknown _ Hgoal)
                Hgoal Hp) as (l & -> & Hwalk & Hsub).
    split; [|done]. intros l' [= <-]. simpl. split; [done|].
    intros x Hx. apply Hsub. exact (proj1 (elem_of_rev_list x l) Hx).
  - intros [= <-]. split; [by intros l|]. intros _ l Hwalk.
    destruct Hinv as [Hnd Hvis Hq].
    apply last_None in El. rewrite El, app_nil_r in Hq.
    assert (Hin : goal ∈ trace st).
    { eapply (Walk_closed maze nr nc (fun x => x ∈ trace st));
        [|exact Hwalk|].
      - intros x d Hx Hd Hp. rewrite <- Hq, Hvis.
        by apply (Hclosed x Hx).
      - by rewrite <- Hq, Hvis. }
    by destruct (Hclosed goal Hin).
Qed.

End Search.

Lemma dfs_paths fuel maze nc start goal rnd0 t :
  numCols maze = Some nc ->
  invalidEndpoint maze (numRows maze) nc start = false ->
  invalidEndpoint maze (numRows maze) nc goal = false ->
  findPathTraced fuel maze start goal rnd0 = Returned t ->
  soundResult maze (numRows maze) nc start goal (result t) /\
  completeResult maze (numRows maze) nc start goal (result t).
Proof.
  intros Hnc Hs Hg. unfold findPathTraced. rewrite Hnc. cbv zeta.
  rewrite Hs, Hg. cbn [orb]. revert t.
  apply (loop_invariant _ (Inv3 maze (numRows maze) nc start goal)).
  - intros s s'. apply dfs_step_inv3.
  - intros s r. apply dfs_step_exit3.
  - apply dfs_init_inv3.
Qed.

End DFSPaths.

(** An entry keeps its place among the known cells when a parent is
    recorded for some cell. *)
Lemma known_insert pm (start n cur x : Coord) :
  x = start \/ (exists q, parentOf pm x = Some q) ->
  x = start \/ exists q, parentOf (<[n := Some cur]> pm) x = Some q.
Proof.
  intros [->|[q Hq]]; [by left|]. right.
  destruct (decide (n = x)) as [<-|Hnx].
  - rewrite parentOf_insert_eq. eauto.
  - rewrite parentOf_insert_ne by done. eauto.
Qed.

Module GreedyPaths.
Import Greedy GreedyFacts.

Section Search.
Variables (maze : Grid) (nr nc : Z) (start goal : Coord) (fuel : nat).

Record Core (st : State) : Prop := {
  core_inv : Inv st;
  core_rooted : Rooted maze nr nc start (order st) (parentMap st);
  core_known : forall e,
    e ∈ openSet st ->
    cell e = start \/ exists q, parentOf (parentMap st) (cell e) = Some q
}.

(** Between two rounds: the start is closed, or it is all the open set
    holds; no closed cell is the end, and a passable neighbour of a closed
    cell is closed or open. *)
Record Inv3 (st : State) : Prop := {
  inv3_core : Core st;
  inv3_start :
    start ∈ visited st \/ exists e, openSet st = [e] /\ cell e = start;
  inv3_closed : forall x,
    x ∈ visited st ->
    x <> goal /\
    forall d, d ∈ directions -> passable maze nr nc (move x d) = true ->
              move x d ∈ visited st \/ move x d ∈ map cell (openSet st)
}.

Lemma greedy_init_inv3 : Inv3 (init start goal).
Proof.
  split; [split| |]; simpl.
  - apply greedy_init_inv.
  - apply rooted_init.
  - intros e He. left. by apply list_elem_of_singleton in He as ->.
  - right. eauto.
  - intros x Hx. by apply not_elem_of_empty in Hx.
Qed.

Lemma greedy_visit_core cur st d :
  Core st -> start ∈ visited st -> cur ∈ order st ->
  (cur = start \/ exists q, parentOf (parentMap st) cur = Some q) ->
  d ∈ directions ->
  let st' := visit maze nr nc goal cur st d in
  Core st' /\
  (cur = start \/ exists q, parentOf (parentMap st') cur = Some q) /\
  (forall x, x ∈ map cell (openSet st) -> x ∈ map cell (openSet st')) /\
  (passable maze nr nc (move cur d) = true ->
   move cur d ∈ visited st' \/ move cur d ∈ map cell (openSet st')).
Proof.
  intros Hcore Hstart Hcur Hknown Hd. cbv zeta.
  pose proof (greedy_visit_inv maze nr nc goal cur st d (core_inv _ Hcore))
    as Hinv'.
  unfold visit in *.
  destruct (passable maze nr nc (move cur d)) eqn:Ep; simpl in *;
    [|by split_and!].
  case_bool_decide as Hin; simpl in *; [split_and!; auto|].
  destruct Hcore as [Hinv Hroot Hopen].
  assert (Hne : move cur d <> start) by (intros E; by rewrite E in Hin).
  split_and!.
  - split; simpl.
    + done.
    + by apply rooted_insert.
    + intros e He. apply elem_of_app in He as [He|He].
      * by apply known_insert, Hopen.
      * apply list_elem_of_singleton in He as ->. simpl. right.
        rewrite parentOf_insert_eq. eauto.
  - by apply known_insert.
  - intros x Hx. rewrite map_app. apply elem_of_app. by left.
  - intros _. right. rewrite map_app. apply elem_of_app. right.
    by apply list_elem_of_singleton.
Qed.

Lemma greedy_visits_core cur ds st :
  Core st -> start ∈ visited st -> cur ∈ order st ->
  (cur = start \/ exists q, parentOf (parentMap st) cur = Some q) ->
  (forall d, d ∈ ds -> d ∈ directions) ->
  let st' := fold_left (visit maze nr nc goal cur) ds st in
  Core st' /\
  (forall x, x ∈ map cell (openSet st) -> x ∈ map cell (openSet st')) /\
  (forall d, d ∈ ds -> passable maze nr nc (move cur d) = true ->
             move cur d ∈ visited st' \/ move cur d ∈ map cell (openSet st')).
Proof.
  revert st.
  induction ds as [|d ds IH]; intros st Hcore Hstart Hcur Hknown Hds; simpl.
  - split_and!; try done. intros d Hd. by apply elem_of_nil in Hd.
  - destruct (greedy_visit_core cur st d Hcore Hstart Hcur Hknown)
      as (H1 & H2 & H3 & H4).
    { apply Hds. by apply elem_of_cons; left. }
    destruct (greedy_visit_same maze nr nc goal cur st d) as (Ho & Hv & _).
    destruct (IH (visit maze nr nc goal cur st d)) as (H5 & H6 & H7);
      [done | by rewrite Hv | by rewrite Ho | done | |].
    { intros d' Hd'. apply Hds. by apply elem_of_cons; right. }
    split; [done|]. split; [auto|].
    intros d' Hd' Hp. apply elem_of_cons in Hd' as [->|Hd']; [|auto].
    assert (Hsame : visited (fold_left (visit maze nr nc goal cur) ds
                               (visit maze nr nc goal cur st d))
                    = visited (visit maze nr nc goal cur st d)).
    { clear. generalize (visit maze nr nc goal cur st d). 
      induction ds as [|d' ds IH]; intros s; simpl; [done|].
      rewrite IH.
      by destruct (greedy_visit_same maze nr nc goal cur s d') as (_ & -> & _). }
    rewrite Hsame. destruct (H4 Hp) as [H|H]; [by left | right; auto].
Qed.

Lemma greedy_visits_same cur ds st :
  let st' := fold_left (visit maze nr nc goal cur) ds st in
  order st' = order st /\ visited st' = visited st /\ trace st' = trace st.
Proof.
  revert st. induction ds as [|d ds IH]; intros st; simpl; [done|].
  destruct (IH (visit maze nr nc goal cur st d)) as (-> & -> & ->).
  apply greedy_visit_same.
Qed.

Lemma greedy_step_inv3 st st' :
  Inv3 st -> step fuel maze nr nc goal st = inl st' -> Inv3 st'.
Proof.
  intros [Hcore Hstart Hclosed]. unfold step.
  pose proof (sortByKey_perm hCost (openSet st)) as Hperm.
  destruct (sortByKey hCost (openSet st)) as [|e rest] eqn:Es; [done|].
  assert (He : e ∈ openSet st).
  { rewrite <- Hperm. by apply elem_of_cons; left. }
  assert (Hrest : forall x, x ∈ rest -> x ∈ openSet st).
  { intros x Hx. rewrite <- Hperm. by apply elem_of_cons; right. }
  assert (Hsplit : forall y, y ∈ map cell (openSet st) ->
                             y = cell e \/ y ∈ map cell rest).
  { intros y Hy. rewrite <- Hperm in Hy. simpl in Hy.
    by apply elem_of_cons in Hy. }
  case_bool_decide as Hin.
  - intros [= <-]. destruct Hcore as [[Hnd Hvis Htr] Hroot Hopen].
    assert (Hs : start ∈ visited st).
    { destruct Hstart as [|(e' & He' & Hc)]; [done|].
      rewrite He' in He. apply list_elem_of_singleton in He as ->.
      by rewrite <- Hc. }
    split; [split; [split|..]| |]; simpl; auto.
    + rewrite firstVisits_snoc, <- Htr.
      rewrite bool_decide_eq_true_2; [done | by apply Hvis].
    + intros x Hx. destruct (Hclosed x Hx) as [Hg Hn]. split; [done|].
      intros d Hd Hp. destruct (Hn d Hd Hp) as [H|H]; [by left|].
      destruct (Hsplit _ H) as [->|H']; [by left | by right].
  - destruct (((cell e).1 =? goal.1) && ((cell e).2 =? goal.2)) eqn:Egoal;
      [done|].
    intros <-%(inj inl).
    assert (Hne : cell e <> goal).
    { intros E. apply goal_test in E. congruence. }
    set (st0 := {| openSet := rest; visited := {[cell e]} ∪ visited st;
                   order := order st ++ [cell e];
                   parentMap := parentMap st; trace := trace st ++ [cell e] |}).
    assert (Hs0 : start ∈ visited st0).
    { simpl. apply elem_of_union.
      destruct Hstart as [|(e' & He' & Hc)]; [by right|]. left.
      rewrite He' in He. apply list_elem_of_singleton in He as ->.
      by apply elem_of_singleton. }
    assert (H0 : Core st0).
    { destruct Hcore as [[Hnd Hvis Htr] Hroot Hopen]. split; simpl.
      - split; simpl.
        + apply NoDup_snoc; [done | by rewrite Hvis].
        + intros x.
          rewrite elem_of_app, list_elem_of_singleton, Hvis, elem_of_union,
            elem_of_singleton. tauto.
        + rewrite firstVisits_snoc, <- Htr.
          rewrite bool_decide_eq_false_2; [done | by rewrite Hvis].
      - apply rooted_order with (order st); [done|].
        intros x Hx. apply elem_of_app. by left.
      - auto. }
    destruct (greedy_visits_core (cell e) directions st0 H0 Hs0)
      as (H1 & H2 & H3); [| |done|].
    { simpl. apply elem_of_app. right. by apply list_elem_of_singleton. }
    { by apply (core_known _ Hcore). }
    destruct (greedy_visits_same (cell e) directions st0) as (Ho & Hv & Ht).
    split; [done | left; by rewrite Hv |].
    rewrite Hv. simpl. intros x Hx.
    apply elem_of_union in Hx as [Hx|Hx].
    + apply elem_of_singleton in Hx as ->. split; [done|].
      intros d Hd Hp. destruct (H3 d Hd Hp) as [H|H]; [|by right].
      left. by rewrite Hv in H.
    + destruct (Hclosed x Hx) as [Hg Hn]. split; [done|].
      intros d Hd Hp. destruct (Hn d Hd Hp) as [H|H].
      * left. apply elem_of_union. by right.
      * destruct (Hsplit _ H) as [->|H'].
        -- left. apply elem_of_union. left. by apply elem_of_singleton.
        -- right. by apply H2.
Qed.

Lemma greedy_step_exit3 st t :
  Inv3 st -> step fuel maze nr nc goal st = inr (Returned t) ->
  soundResult maze nr nc start goal (result t) /\
  completeResult maze nr nc start goal (result t).
Proof.
  intros [[Hinv Hroot Hopen] Hstart Hclosed]. unfold step.
  pose proof (sortByKey_perm hCost (openSet st)) as Hperm.
  destruct (sortByKey hCost (openSet st)) as [|e rest] eqn:Es.
  - intros [= <-]. split; [by intros l|]. intros _ l Hwalk.
    apply Permutation_nil_l in Hperm.
    assert (Hs : start ∈ visited st).
    { destruct Hstart as [|(e' & He' & _)]; [done | congruence]. }
    assert (Hin : goal ∈ visited st).
    { eapply (Walk_closed maze nr nc (fun x => x ∈ visited st));
        [|exact Hwalk|exact Hs].
      intros x d Hx Hd Hp. destruct (Hclosed x Hx) as [_ Hn].
      destruct (Hn d Hd Hp) as [H|H]; [done|].
      rewrite <- Hperm in H. by apply elem_of_nil in H. }
    by destruct (Hclosed goal Hin).
  - case_bool_decide as Hin; [done|].
    destruct (((cell e).1 =? goal.1) && ((cell e).2 =? goal.2)) eqn:Egoal;
      [|done].
    apply goal_test in Egoal. intros [= H].
    apply outcome_map_Returned in H as (p & Hp & ->).
    assert (He : e ∈ openSet st).
    { rewrite <- Hperm. by apply elem_of_cons; left. }
    pose proof (Hopen e He) as Hknown. rewrite Egoal in Hknown.
    assert (Hroot' : Rooted maze nr nc start (order st ++ [goal])
                       (parentMap st)).
    { apply rooted_order with (order st); [done|].
      intros x Hx. apply elem_of_app. by left. }
    destruct (reconstruct_walk _ _ _ _ _ _ Hroot' _ _ _ _ Hknown
                ltac:(apply elem_of_app; right; by apply list_elem_of_singleton)
                Hp) as (l & -> & Hwalk & Hsub).
    split; [|done]. intros l' [= <-]. simpl. rewrite Egoal.
    split; [done|].
    intros x Hx. apply Hsub. exact (proj1 (elem_of_rev_list x l) Hx).
Qed.

End Search.

Lemma greedy_paths fuel maze nc start goal t :
  numCols maze = Some nc ->
  invalidEndpoint maze (numRows maze) nc start = false ->
  invalidEndpoint maze (numRows maze) nc goal = false ->
  findPathTraced fuel maze start goal = Returned t ->
  soundResult maze (numRows maze) nc start goal (result t) /\
  completeResult maze (numRows maze) nc start goal (result t).
Proof.
  intros Hnc Hs Hg. unfold findPathTraced. rewrite Hnc. cbv zeta.
  rewrite Hs, Hg. cbn [orb]. revert t.
  apply (loop_invariant _ (Inv3 maze (numRows maze) nc start goal)).
  - intros s s'. apply greedy_step_inv3.
  - intros s r. apply greedy_step_exit3.
  - apply greedy_init_inv3.
Qed.

End GreedyPaths.

Module AStarPaths.
Import AStar AStarFacts.

Lemma findIndex_Some n l i :
  findIndex n l = Some i -> exists e, l !! i = Some e /\ cell e = n.
Proof.
  revert i. induction l as [|e l IH]; intros i; simpl; [done|].
  case_bool_decide as He.
  - intros [= <-]. eauto.
  - destruct (findIndex n l) as [j|]; [|done]. intros [= <-].
    destruct (IH j eq_refl) as (e' & ? & ?). eauto.
Qed.

Lemma cells_insert (l : list Entry) i e f g :
  l !! i = Some e ->
  map cell (<[i := mkEntry f g (cell e)]> l) = map cell l.
Proof.
  intros Hi. change (map cell) with (fmap (M := list) cell).
  rewrite list_fmap_insert. simpl. apply list_insert_id.
  by rewrite list_lookup_fmap, Hi.
Qed.

Section Search.
Variables (maze : Grid) (nr nc : Z) (start goal : Coord) (fuel : nat).

Record Core (st : State) : Prop := {
  core_inv : Inv st;
  core_rooted : Rooted maze nr nc start (order st) (parentMap st);
  core_known :
    Forall (fun e => cell e = start \/
                     exists q, parentOf (parentMap st) (cell e) = Some q)
      (openSet st);
  core_cost : Forall (fun e => 0 <= gCost e) (openSet st);
  core_origin : gCosts st !! start = Some 0
}.

Record Inv3 (st : State) : Prop := {
  inv3_core : Core st;
  inv3_start :
    start ∈ visited st \/ exists e, openSet st = [e] /\ cell e = start;
  inv3_closed : forall x,
    x ∈ visited st ->
    x <> goal /\
    forall d, d ∈ directions -> passable maze nr nc (move x d) = true ->
              move x d ∈ visited st \/ move x d ∈ map cell (openSet st)
}.

Lemma astar_init_inv3 : Inv3 (init start goal).
Proof.
  split; [split| |]; simpl.
  - apply astar_init_inv.
  - apply rooted_init.
  - apply Forall_singleton. by left.
  - by apply Forall_singleton.
  - apply lookup_singleton_eq.
  - right. eauto.
  - intros x Hx. by apply not_elem_of_empty in Hx.
Qed.

Lemma astar_visit_core cur g st d :
  Core st -> start ∈ visited st -> cur ∈ order st -> 0 <= g ->
  (cur = start \/ exists q, parentOf (parentMap st) cur = Some q) ->
  d ∈ directions ->
  let st' := visit maze nr nc goal cur g st d in
  Core st' /\
  (cur = start \/ exists q, parentOf (parentMap st') cur = Some q) /\
  (forall x, x ∈ map cell (openSet st) -> x ∈ map cell (openSet st')) /\
  (passable maze nr nc (move cur d) = true ->
   move cur d ∈ visited st' \/ move cur d ∈ map cell (openSet st')).
Proof.
  intros Hcore Hstart Hcur Hg Hknown Hd. cbv zeta.
  pose proof (astar_visit_inv maze nr nc goal cur g st d (core_inv _ Hcore))
    as Hinv'.
  unfold visit in *.
  destruct (passable maze nr nc (move cur d)) eqn:Ep; simpl in *;
    [|by split_and!].
  destruct (negb (bool_decide (move cur d ∈ visited st))
            || below (g + 1) (gCosts st !! move cur d)) eqn:Eupd; simpl in *.
  2:{ apply orb_false_elim in Eupd as [Eupd _].
      apply negb_false_iff, bool_decide_eq_true_1 in Eupd.
      split_and!; auto. }
  destruct Hcore as [Hinv Hroot Hopen Hcost Horigin].
  assert (Hne : move cur d <> start).
  { intros E. rewrite E in Eupd. rewrite Horigin in Eupd. simpl in Eupd.
    rewrite bool_decide_eq_true_2 in Eupd by done. simpl in Eupd.
    apply Z.ltb_lt in Eupd. lia. }
  assert (Hopen' : Forall (fun e => cell e = start \/
                     exists q, parentOf (<[move cur d := Some cur]>
                                           (parentMap st)) (cell e) = Some q)
                     (openSet st)).
  { eapply Forall_impl; [exact Hopen|]. intros e He. by apply known_insert. }
  assert (Hnew : exists q, parentOf (<[move cur d := Some cur]>
                                       (parentMap st)) (move cur d) = Some q).
  { rewrite parentOf_insert_eq. eauto. }
  split_and!.
  - split; simpl.
    + done.
    + by apply rooted_insert.
    + destruct (findIndex (move cur d) (openSet st)) as [i|] eqn:Ei.
      * destruct (openSet st !! i) as [e|] eqn:Ee; [|done].
        destruct (gCost e >? g + 1); [|done].
        apply Forall_insert; [done|]. simpl.
        apply findIndex_Some in Ei as (e' & He' & Hc).
        assert (e' = e) as -> by congruence. rewrite Hc. by right.
      * apply Forall_app. split; [done|]. apply Forall_singleton. by right.
    + destruct (findIndex (move cur d) (openSet st)) as [i|] eqn:Ei.
      * destruct (openSet st !! i) as [e|] eqn:Ee; [|done].
        destruct (gCost e >? g + 1); [|done].
        apply Forall_insert; [done|]. simpl. lia.
      * apply Forall_app. split; [done|]. apply Forall_singleton. simpl. lia.
    + by rewrite lookup_insert_ne.
  - by apply known_insert.
  - intros x Hx. destruct (findIndex (move cur d) (openSet st)) as [i|] eqn:Ei.
    + destruct (openSet st !! i) as [e|] eqn:Ee; [|done].
      destruct (gCost e >? g + 1); [|done]. by rewrite cells_insert.
    + rewrite map_app. apply elem_of_app. by left.
  - intros _. right.
    destruct (findIndex (move cur d) (openSet st)) as [i|] eqn:Ei.
    + apply findIndex_Some in Ei as (e' & He' & Hc).
      assert (Hin : move cur d ∈ map cell (openSet st)).
      { rewrite <- Hc. apply list_elem_of_In, in_map, list_elem_of_In.
        by eapply list_elem_of_lookup_2. }
      rewrite He'. destruct (gCost e' >? g + 1); [|done].
      by rewrite cells_insert.
    + rewrite map_app. apply elem_of_app. right.
      by apply list_elem_of_singleton.
Qed.

Lemma astar_visits_same cur g ds st :
  let st' := fold_left (visit maze nr nc goal cur g) ds st in
  order st' = order st /\ visited st' = visited st /\ trace st' = trace st.
Proof.
  revert st. induction ds as [|d ds IH]; intros st; simpl; [done|].
  destruct (IH (visit maze nr nc goal cur g st d)) as (-> & -> & ->).
  apply astar_visit_same.
Qed.

Lemma astar_visits_core cur g ds st :
  Core st -> start ∈ visited st -> cur ∈ order st -> 0 <= g ->
  (cur = start \/ exists q, parentOf (parentMap st) cur = Some q) ->
  (forall d, d ∈ ds -> d ∈ directions) ->
  let st' := fold_left (visit maze nr nc goal cur g) ds st in
  Core st' /\
  (forall x, x ∈ map cell (openSet st) -> x ∈ map cell (openSet st')) /\
  (forall d, d ∈ ds -> passable maze nr nc (move cur d) = true ->
             move cur d ∈ visited st' \/ move cur d ∈ map cell (openSet st')).
Proof.
  revert st.
  induction ds as [|d ds IH]; intros st Hcore Hstart Hcur Hg Hknown Hds; simpl.
  - split_and!; try done. intros d Hd. by apply elem_of_nil in Hd.
  - destruct (astar_visit_core cur g st d Hcore Hstart Hcur Hg Hknown)
      as (H1 & H2 & H3 & H4).
    { apply Hds. by apply elem_of_cons; left. }
    destruct (astar_visit_same maze nr nc goal cur g st d) as (Ho & Hv & _).
    destruct (IH (visit maze nr nc goal cur g st d)) as (H5 & H6 & H7);
      [done | by rewrite Hv | by rewrite Ho | done | done | |].
    { intros d' Hd'. apply Hds. by apply elem_of_cons; right. }
    split; [done|]. split; [auto|].
    intros d' Hd' Hp. apply elem_of_cons in Hd' as [->|Hd']; [|auto].
    destruct (astar_visits_same cur g ds (visit maze nr nc goal cur g st d))
      as (_ & Hsame & _).
    rewrite Hsame. destruct (H4 Hp) as [H|H]; [by left | right; auto].
Qed.

Lemma astar_step_inv3 st st' :
  Inv3 st -> step fuel maze nr nc goal st = inl st' -> Inv3 st'.
Proof.
  intros [Hcore Hstart Hclosed]. unfold step.
  pose proof (sortByKey_perm fCost (openSet st)) as Hperm.
  destruct (sortByKey fCost (openSet st)) as [|e rest] eqn:Es; [done|].
  assert (He : e ∈ openSet st).
  { rewrite <- Hperm. by apply elem_of_cons; left. }
  assert (Hrest : forall x, x ∈ rest -> x ∈ openSet st).
  { intros x Hx. rewrite <- Hperm. by apply elem_of_cons; right. }
  assert (Hsplit : forall y, y ∈ map cell (openSet st) ->
                             y = cell e \/ y ∈ map cell rest).
  { intros y Hy. rewrite <- Hperm in Hy. simpl in Hy.
    by apply elem_of_cons in Hy. }
  assert (Hknown_rest :
            Forall (fun e => cell e = start \/
                      exists q, parentOf (parentMap st) (cell e) = Some q)
              rest).
  { apply Forall_forall. intros x Hx.
    by apply (proj1 (Forall_forall _ _) (core_known _ Hcore)), Hrest. }
  assert (Hcost_rest : Forall (fun e => 0 <= gCost e) rest).
  { apply Forall_forall. intros x Hx.
    by apply (proj1 (Forall_forall _ _) (core_cost _ Hcore)), Hrest. }
  case_bool_decide as Hin.
  - intros [= <-]. destruct Hcore as [[Hnd Hvis Htr] Hroot Hopen Hcost Hor].
    assert (Hs : start ∈ visited st).
    { destruct Hstart as [|(e' & He' & Hc)]; [done|].
      rewrite He' in He. apply list_elem_of_singleton in He as ->.
      by rewrite <- Hc. }
    split; [split; [split|..]| |]; simpl; auto.
    + rewrite firstVisits_snoc, <- Htr.
      rewrite bool_decide_eq_true_2; [done | by apply Hvis].
    + intros x Hx. destruct (Hclosed x Hx) as [Hg Hn]. split; [done|].
      intros d Hd Hp. destruct (Hn d Hd Hp) as [H|H]; [by left|].
      destruct (Hsplit _ H) as [->|H']; [by left | by right].
  - destruct (((cell e).1 =? goal.1) && ((cell e).2 =? goal.2)) eqn:Egoal;
      [done|].
    intros <-%(inj inl).
    assert (Hne : cell e <> goal).
    { intros E. apply goal_test in E. congruence. }
    set (st0 := {| openSet := rest; visited := {[cell e]} ∪ visited st;
                   order := order st ++ [cell e]; gCosts := gCosts st;
                   parentMap := parentMap st; trace := trace st ++ [cell e] |}).
    assert (Hs0 : start ∈ visited st0).
    { simpl. apply elem_of_union.
      destruct Hstart as [|(e' & He' & Hc)]; [by right|]. left.
      rewrite He' in He. apply list_elem_of_singleton in He as ->.
      by apply elem_of_singleton. }
    assert (H0 : Core st0).
    { destruct Hcore as [[Hnd Hvis Htr] Hroot Hopen Hcost Hor].
      split; simpl; try done.
      - split; simpl.
        + apply NoDup_snoc; [done | by rewrite Hvis].
        + intros x.
          rewrite elem_of_app, list_elem_of_singleton, Hvis, elem_of_union,
            elem_of_singleton. tauto.
        + rewrite firstVisits_snoc, <- Htr.
          rewrite bool_decide_eq_false_2; [done | by rewrite Hvis].
      - apply rooted_order with (order st); [done|].
        intros x Hx. apply elem_of_app. by left. }
    destruct (astar_visits_core (cell e) (gCost e) directions st0 H0 Hs0)
      as (H1 & H2 & H3); [| | |done|].
    { simpl. apply elem_of_app. right. by apply list_elem_of_singleton. }
    { by apply (proj1 (Forall_forall _ _) (core_cost _ Hcore)). }
    { by apply (proj1 (Forall_forall _ _) (core_known _ Hcore)). }
    destruct (astar_visits_same (cell e) (gCost e) directions st0)
      as (Ho & Hv & Ht).
    split; [done | left; by rewrite Hv |].
    rewrite Hv. simpl. intros x Hx.
    apply elem_of_union in Hx as [Hx|Hx].
    + apply elem_of_singleton in Hx as ->. split; [done|].
      intros d Hd Hp. destruct (H3 d Hd Hp) as [H|H]; [|by right].
      left. by rewrite Hv in H.
    + destruct (Hclosed x Hx) as [Hg Hn]. split; [done|].
      intros d Hd Hp. destruct (Hn d Hd Hp) as [H|H].
      * left. apply elem_of_union. by right.
      * destruct (Hsplit _ H) as [->|H'].
        -- left. apply elem_of_union. left. by apply elem_of_singleton.
        -- right. by apply H2.
Qed.

Lemma astar_step_exit3 st t :
  Inv3 st -> step fuel maze nr nc goal st = inr (Returned t) ->
  soundResult maze nr nc start goal (result t) /\
  completeResult maze nr nc start goal (result t).
Proof.
  intros [[Hinv Hroot Hopen Hcost Hor] Hstart Hclosed]. unfold step.
  pose proof (sortByKey_perm fCost (openSet st)) as Hperm.
  destruct (sortByKey fCost (openSet st)) as [|e rest] eqn:Es.
  - intros [= <-]. split; [by intros l|]. intros _ l Hwalk.
    apply Permutation_nil_l in Hperm.
    assert (Hs : start ∈ visited st).
    { destruct Hstart as [|(e' & He' & _)]; [done | congruence]. }
    assert (Hin : goal ∈ visited st).
    { eapply (Walk_closed maze nr nc (fun x => x ∈ visited st));
        [|exact Hwalk|exact Hs].
      intros x d Hx Hd Hp. destruct (Hclosed x Hx) as [_ Hn].
      destruct (Hn d Hd Hp) as [H|H]; [done|].
      rewrite <- Hperm in H. by apply elem_of_nil in H. }
    by destruct (Hclosed goal Hin).
  - case_bool_decide as Hin; [done|].
    destruct (((cell e).1 =? goal.1) && ((cell e).2 =? goal.2)) eqn:Egoal;
      [|done].
    apply goal_test in Egoal. intros [= H].
    apply outcome_map_Returned in H as (p & Hp & ->).
    assert (He : e ∈ openSet st).
    { rewrite <- Hperm. by apply elem_of_cons; left. }
    pose proof (proj1 (Forall_forall _ _) Hopen e He) as Hknown.
    simpl in Hknown. rewrite Egoal in Hknown.
    assert (Hroot' : Rooted maze nr nc start (order st ++ [goal])
                       (parentMap st)).
    { apply rooted_order with (order st); [done|].
      intros x Hx. apply elem_of_app. by left. }
    destruct (reconstruct_walk _ _ _ _ _ _ Hroot' _ _ _ _ Hknown
                ltac:(apply elem_of_app; right; by apply list_elem_of_singleton)
                Hp) as (l & -> & Hwalk & Hsub).
    split; [|done]. intros l' [= <-]. simpl. rewrite Egoal.
    split; [done|].
    intros x Hx. apply Hsub. exact (proj1 (elem_of_rev_list x l) Hx).
Qed.

End Search.

Lemma astar_paths fuel maze nc start goal t :
  numCols maze = Some nc ->
  invalidEndpoint maze (numRows maze) nc start = false ->
  invalidEndpoint maze (numRows maze) nc goal = false ->
  findPathTraced fuel maze start goal = Returned t ->
  soundResult maze (numRows maze) nc start goal (result t) /\
  completeResult maze (numRows maze) nc start goal (result t).
Proof.
  intros Hnc Hs Hg. unfold findPathTraced. rewrite Hnc. cbv zeta.
  rewrite Hs, Hg. cbn [orb]. revert t.
  apply (loop_invariant _ (Inv3 maze (numRows maze) nc start goal)).
  - intros s s'. apply astar_step_inv3.
  - intros s r. apply astar_step_exit3.
  - apply astar_init_inv3.
Qed.

End AStarPaths.

Lemma Walk_inv maze nr nc a w c :
  Walk maze nr nc a w c ->
  (w = [a] /\ c = a) \/
  exists l b d, w = l ++ [c] /\ c = move b d /\ Walk maze nr nc a l b /\
                d ∈ directions /\ passable maze nr nc c = true.
Proof.
  destruct 1 as [|l b d Hw Hd Hp]; [by left|].
  right. exists l, b, d. by split_and!.
Qed.

Lemma filter_empty_length {A} (P : A -> Prop) `{forall x, Decision (P x)}
    (l : list A) x :
  (0 <? length (filter P l))%nat = false -> x ∈ l -> ~ P x.
Proof.
  intros Hlen Hx HP. apply Nat.ltb_ge in Hlen.
  assert (Hin : x ∈ filter P l) by (by apply list_elem_of_filter).
  destruct (filter P l); [by apply elem_of_nil in Hin | simpl in Hlen; lia].
Qed.

Module MousePaths.
Import Mouse.

Section Search.
Variables (maze : Grid) (nr nc : Z) (start goal : Coord) (maxSteps : Z).

Record Inv (st : State) : Prop := {
  inv_walk : Walk maze nr nc start (walk st) (current st);
  inv_listed : forall x, x ∈ walk st -> x ∈ order st;
  inv_nodup : NoDup (order st);
  inv_visited : forall x, x ∈ order st <-> x ∈ visitedCheck st;
  inv_first : exists rest, order st = start :: rest;
  inv_steps : 0 <= steps st <= Z.max 0 maxSteps;
  inv_length : Z.of_nat (length (walk st)) <= steps st + 1;
  inv_order : Z.of_nat (length (order st)) <= steps st + 1
}.

Lemma mouse_init_inv rnd0 : Inv (init start rnd0).
Proof.
  split; simpl; try done; try lia.
  - apply Walk_start.
  - apply NoDup_singleton.
  - intros x. by rewrite list_elem_of_singleton, elem_of_singleton.
  - by exists [].
Qed.

(** A move the mouse may take from its cell. *)
Lemma mouse_possible st next :
  next ∈ filter (fun p => passable maze nr nc p = true)
           (map (move (current st)) directions) ->
  exists d, d ∈ directions /\ next = move (current st) d /\
            passable maze nr nc next = true.
Proof.
  intros H. apply list_elem_of_filter in H as [Hp H].
  apply list_elem_of_In, in_map_iff in H as (d & <- & Hd).
  exists d. by rewrite list_elem_of_In.
Qed.

Lemma mouse_step_inv st st' :
  Inv st -> step maze nr nc goal maxSteps st = inl st' -> Inv st'.
Proof.
  intros [Hwalk Hlisted Hnd Hvis [rest0 Hfirst] Hsteps Hlen Hord].
  unfold step.
  set (possible := filter _ (map (move (current st)) directions)).
  set (unvisited := filter _ possible).
  set (back := filter _ possible).
  destruct (_ || _) eqn:Eaway; simpl; [|done].
  destruct (steps st <? maxSteps) eqn:Esteps; [|done].
  apply Z.ltb_lt in Esteps.
  destruct (0 <? length unvisited)%nat eqn:E1.
  { destruct (randomIndex (length unvisited) _) as [i rnd'].
    destruct (unvisited !! i) as [next|] eqn:En; [|done].
    intros [= <-].
    apply list_elem_of_lookup_2, list_elem_of_filter in En as [Hnew Hposs].
    destruct (mouse_possible st next Hposs) as (d & Hd & -> & Hp).
    split; simpl.
    - by apply Walk_move.
    - intros x Hx. apply elem_of_app in Hx as [Hx|Hx]; apply elem_of_app;
        [left; auto | by right].
    - apply NoDup_snoc; [done | by rewrite Hvis].
    - intros x.
      rewrite elem_of_app, list_elem_of_singleton, Hvis, elem_of_union,
        elem_of_singleton. tauto.
    - exists (rest0 ++ [move (current st) d]). by rewrite Hfirst.
    - lia.
    - rewrite length_app. simpl. lia.
    - rewrite length_app. simpl. lia. }
  destruct (1 <? length possible)%nat eqn:E2.
  { destruct (0 <? length back)%nat eqn:E3; [|done].
    destruct (randomIndex (length back) _) as [i rnd'].
    destruct (back !! i) as [next|] eqn:En; [|done].
    intros [= <-].
    apply list_elem_of_lookup_2, list_elem_of_filter in En as [_ Hposs].
    pose proof (filter_empty_length _ possible next E1 Hposs) as Hseen.
    apply dec_stable in Hseen.
    destruct (mouse_possible st next Hposs) as (d & Hd & -> & Hp).
    split; simpl; try done.
    - by apply Walk_move.
    - intros x Hx. apply elem_of_app in Hx as [Hx|Hx]; [auto|].
      apply list_elem_of_singleton in Hx as ->. by apply Hvis.
    - by exists rest0.
    - lia.
    - rewrite length_app. simpl. lia.
    - lia. }
  destruct (_ && _); [|done].
  destruct (last (removelast (walk st))) as [b'|] eqn:El; [|done].
  intros [= <-].
  apply Walk_inv in Hwalk as [[Hw _]|(l & b & d & Hw & _ & Hwalk & _)].
  { by rewrite Hw in El. }
  rewrite Hw, removelast_last in El |- *.
  rewrite (Walk_last _ _ _ _ _ _ Hwalk) in El. injection El as <-.
  split; simpl; try done.
  - intros x Hx. apply Hlisted. rewrite Hw. apply elem_of_app. by left.
  - by exists rest0.
  - lia.
  - rewrite Hw, length_app in Hlen. simpl in Hlen. lia.
  - lia.
Qed.

Lemma mouse_finish_sound st :
  Inv st ->
  soundResult maze nr nc start goal (finish goal st) /\
  NoDup (visitedOrder (finish goal st)) /\
  (exists rest, visitedOrder (finish goal st) = start :: rest) /\
  Z.of_nat (length (visitedOrder (finish goal st))) <= Z.max 0 maxSteps + 1 /\
  forall l, path (finish goal st) = Some l ->
            Z.of_nat (length l) <= Z.max 0 maxSteps + 1.
Proof.
  intros [Hwalk Hlisted Hnd Hvis Hfirst Hsteps Hlen Hord].
  assert (Horder : visitedOrder (finish goal st) = order st).
  { unfold finish. by repeat destruct (_ =? _). }
  rewrite Horder. split_and!; try done; [| lia |].
  - intros l Hl. rewrite Horder. unfold finish in Hl.
    destruct ((current st).1 =? goal.1) eqn:E1; [|done].
    destruct ((current st).2 =? goal.2) eqn:E2; [|done].
    injection Hl as <-.
    assert (current st = goal) as <-; [|done].
    apply goal_test. by rewrite E1, E2.
  - intros l Hl. unfold finish in Hl.
    destruct ((current st).1 =? goal.1); [|done].
    destruct ((current st).2 =? goal.2); [|done].
    injection Hl as <-. lia.
Qed.

Lemma mouse_step_exit st r :
  Inv st -> step maze nr nc goal maxSteps st = inr (Returned r) ->
  r = finish goal st.
Proof.
  intros _. unfold step.
  set (possible := filter _ (map (move (current st)) directions)).
  set (unvisited := filter _ possible).
  set (back := filter _ possible).
  destruct (_ && _); [|congruence].
  destruct (0 <? length unvisited)%nat.
  { destruct (randomIndex _ _). by destruct (unvisited !! _). }
  destruct (1 <? length possible)%nat.
  { destruct (0 <? length back)%nat; [|congruence].
    destruct (randomIndex _ _). by destruct (back !! _). }
  destruct (_ && _); [|congruence].
  destruct (last _); [done | congruence].
Qed.

End Search.

Lemma mouse_paths maze nc start goal maxSteps rnd0 r :
  numCols maze = Some nc ->
  invalidEndpoint maze (numRows maze) nc start = false ->
  invalidEndpoint maze (numRows maze) nc goal = false ->
  findPathRandomMouse maze start goal maxSteps rnd0 = Returned r ->
  soundResult maze (numRows maze) nc start goal r /\
  NoDup (visitedOrder r) /\
  (exists rest, visitedOrder r = start :: rest) /\
  Z.of_nat (length (visitedOrder r)) <= Z.max 0 maxSteps + 1 /\
  forall l, path r = Some l -> Z.of_nat (length l) <= Z.max 0 maxSteps + 1.
Proof.
  intros Hnc Hs Hg. unfold findPathRandomMouse. rewrite Hnc. cbv zeta.
  rewrite Hs, Hg. cbn [orb]. revert r.
  apply (loop_invariant _ (Inv maze (numRows maze) nc start maxSteps)).
  - intros s s'. apply mouse_step_inv.
  - intros s r Hinv Hstep.
    rewrite (mouse_step_exit _ _ _ _ _ _ _ _ Hinv Hstep).
    by apply mouse_finish_sound.
  - apply mouse_init_inv.
Qed.

End MousePaths.

(** ** Breadth-first search returns a shortest walk *)

(** The path rebuilt from parent pointers that each add one to a level has
    as many cells as the level of its last cell, and one more. *)
Lemma reconstruct_length maze nr nc start order pm (lv : Coord -> nat) :
  Rooted maze nr nc start order pm ->
  lv start = O ->
  (forall n p, parentOf pm n = Some p -> lv n = S (lv p)) ->
  forall fuel c acc p,
    (c = start \/ exists q, parentOf pm c = Some q) ->
    reconstructPath fuel pm (Some c) acc = Returned p ->
    length p = (length acc + lv c + 1)%nat.
Proof.
  intros [Hs Hp] H0 Hlv. induction fuel as [|fuel IH]; intros c acc p Hc H;
    simpl in H; [done|].
  destruct (parentOf pm c) as [q|] eqn:Eq.
  - destruct (Hp c q Eq) as (_ & _ & _ & Hknown).
    rewrite (IH q _ _ Hknown H), length_app, (Hlv c q Eq). simpl. lia.
  - rewrite reconstruct_null in H. injection H as <-.
    destruct Hc as [->|[q Hq]]; [|congruence].
    rewrite length_app, H0. simpl. lia.
Qed.

(** Levels that do not decrease along a list. *)
Definition ascending (lv : Coord -> nat) (l : list Coord) : Prop :=
  forall i j x y, (i < j)%nat -> l !! i = Some x -> l !! j = Some y ->
                  (lv x <= lv y)%nat.

Lemma ascending_tail lv c l :
  ascending lv (c :: l) ->
  ascending lv l /\ forall y, y ∈ l -> (lv c <= lv y)%nat.
Proof.
  intros H. split.
  - intros i j x y Hij Hi Hj. apply (H (S i) (S j)); [lia | done | done].
  - intros y Hy. apply list_elem_of_lookup in Hy as [j Hj].
    apply (H O (S j)); [lia | done | done].
Qed.

Lemma ascending_snoc lv l n :
  ascending lv l -> (forall x, x ∈ l -> (lv x <= lv n)%nat) ->
  ascending lv (l ++ [n]).
Proof.
  intros H Hn i j x y Hij Hi Hj.
  assert (Hjlen : (j < length (l ++ [n]))%nat) by (by eapply lookup_lt_Some).
  rewrite length_app in Hjlen. simpl in Hjlen.
  rewrite lookup_app_l in Hi by lia.
  destruct (decide (j < length l)%nat) as [Hlt|Hge].
  - rewrite lookup_app_l in Hj by done. by apply (H i j).
  - rewrite lookup_app_r in Hj by lia.
    apply list_lookup_singleton_Some in Hj as [_ <-].
    apply Hn. by eapply list_elem_of_lookup_2.
Qed.

Lemma ascending_ext lv lv' l :
  (forall x, x ∈ l -> lv' x = lv x) -> ascending lv l -> ascending lv' l.
Proof.
  intros Hext H i j x y Hij Hi Hj.
  rewrite !Hext by (by eapply list_elem_of_lookup_2). by apply (H i j).
Qed.

Module BFSShortest.
Import BFS BFSFacts BFSPaths.

Section Search.
Variables (maze : Grid) (nr nc : Z) (start goal : Coord) (fuel : nat).

(** While the neighbours of the dequeued cell [cur] are looked at.  The
    level [lv] of a visited cell is the number of moves on the way its
    parents record. *)
Record Mid (cur : Coord) (lv : Coord -> nat) (st : State) : Prop := {
  mid_core : Core maze nr nc start st;
  mid_cur : cur ∈ trace st;
  mid_origin : lv start = O;
  mid_parent : forall n p,
    parentOf (parentMap st) n = Some p -> lv n = S (lv p);
  mid_asc : ascending lv (queue st);
  mid_queue : forall y, y ∈ queue st -> (lv cur <= lv y <= S (lv cur))%nat;
  mid_trace : forall x, x ∈ trace st -> (lv x <= lv cur)%nat;
  mid_closed : forall x,
    x ∈ trace st -> x <> cur ->
    x <> goal /\
    forall d, d ∈ directions -> passable maze nr nc (move x d) = true ->
              move x d ∈ visited st /\ (lv (move x d) <= S (lv x))%nat
}.

(** Between two rounds. *)
Record Levels (lv : Coord -> nat) (st : State) : Prop := {
  lev_core : Core maze nr nc start st;
  lev_origin : lv start = O;
  lev_parent : forall n p,
    parentOf (parentMap st) n = Some p -> lv n = S (lv p);
  lev_asc : ascending lv (queue st);
  lev_span : forall x y,
    x ∈ queue st -> y ∈ queue st -> (lv y <= S (lv x))%nat;
  lev_trace : forall x y,
    x ∈ trace st -> y ∈ queue st -> (lv x <= lv y)%nat;
  lev_closed : forall x,
    x ∈ trace st ->
    x <> goal /\
    forall d, d ∈ directions -> passable maze nr nc (move x d) = true ->
              move x d ∈ visited st /\ (lv (move x d) <= S (lv x))%nat
}.

Definition Inv4 (st : State) : Prop := exists lv, Levels lv st.

Lemma bfs_init_inv4 : Inv4 (init start).
Proof.
  exists (fun _ => O). split; simpl; try done.
  - apply (inv3_core _ _ _ _ _ _ (bfs_init_inv3 maze nr nc start goal)).
  - intros n p. unfold parentOf.
    destruct (decide (start = n)) as [->|Hne].
    + by rewrite lookup_singleton_eq.
    + by rewrite lookup_singleton_ne.
  - intros i j x y Hij _ Hj. apply lookup_lt_Some in Hj. simpl in Hj. lia.
  - intros; lia.
  - intros x Hx. by apply elem_of_nil in Hx.
Qed.

Lemma bfs_visit_mid cur lv st d :
  Mid cur lv st -> d ∈ directions ->
  let st' := visit maze nr nc cur st d in
  exists lv',
    Mid cur lv' st' /\
    (forall x, x ∈ order st -> lv' x = lv x) /\
    (forall x, x ∈ order st -> x ∈ order st') /\
    (passable maze nr nc (move cur d) = true ->
     move cur d ∈ visited st' /\ (lv' (move cur d) <= S (lv' cur))%nat).
Proof.
  intros Hmid Hd. cbv zeta.
  assert (Hcur : cur ∈ order st).
  { rewrite (inv_queue _ (core_inv _ _ _ _ _ (mid_core _ _ _ Hmid))).
    apply elem_of_app. left. apply (mid_cur _ _ _ Hmid). }
  destruct (bfs_visit_core maze nr nc start cur st d (mid_core _ _ _ Hmid)
              Hcur Hd) as (Hcore' & _ & _ & _ & _).
  destruct Hmid as [Hcore Htr H0 Hpar Hasc Hq Ht Hclosed].
  pose proof (core_inv _ _ _ _ _ Hcore) as [Hnd Hvis Hord].
  unfold visit in *.
  destruct (passable maze nr nc (move cur d)) eqn:Ep; simpl in *.
  2:{ exists lv. split_and!; try done. }
  case_bool_decide as Hin; simpl in *.
  { exists lv. split_and!; try done. intros _. split; [done|].
    apply Hvis in Hin. rewrite Hord in Hin.
    apply elem_of_app in Hin as [Hin|Hin].
    - pose proof (Ht _ Hin). lia.
    - pose proof (Hq _ Hin). lia. }
  set (n := move cur d) in *.
  assert (Hfresh : n ∉ order st) by (by rewrite Hvis).
  set (lv' := fun x => if decide (x = n) then S (lv cur) else lv x).
  assert (Hagree : forall x, x ∈ order st -> lv' x = lv x).
  { intros x Hx. unfold lv'. destruct (decide (x = n)) as [->|]; done. }
  assert (Hnew : lv' n = S (lv cur)).
  { unfold lv'. by rewrite decide_True. }
  assert (Hinq : forall x, x ∈ queue st -> x ∈ order st).
  { intros x Hx. rewrite Hord. apply elem_of_app. by right. }
  assert (Hint : forall x, x ∈ trace st -> x ∈ order st).
  { intros x Hx. rewrite Hord. apply elem_of_app. by left. }
  exists lv'. split_and!.
  - split; simpl.
    + done.
    + done.
    + rewrite Hagree; [done|]. apply Hvis, (core_start _ _ _ _ _ Hcore).
    + intros m p Hm. destruct (decide (n = m)) as [<-|Hnm].
      * rewrite parentOf_insert_eq in Hm. injection Hm as <-.
        by rewrite Hnew, (Hagree cur Hcur).
      * rewrite parentOf_insert_ne in Hm by done.
        destruct (rooted_parent _ _ _ _ _ _ (core_rooted _ _ _ _ _ Hcore)
                    m p Hm) as (Hp & _).
        rewrite (Hagree p Hp). unfold lv'.
        rewrite decide_False by done. by apply Hpar.
    + apply ascending_snoc.
      * eapply ascending_ext; [|exact Hasc]. intros x Hx. auto.
      * intros x Hx. rewrite Hnew, (Hagree x (Hinq x Hx)).
        pose proof (Hq x Hx). lia.
    + intros y Hy. rewrite (Hagree cur Hcur).
      apply elem_of_app in Hy as [Hy|Hy].
      * rewrite (Hagree y (Hinq y Hy)). by apply Hq.
      * apply list_elem_of_singleton in Hy as ->. rewrite Hnew. lia.
    + intros x Hx. rewrite (Hagree cur Hcur), (Hagree x (Hint x Hx)).
      by apply Ht.
    + intros x Hx Hxc. destruct (Hclosed x Hx Hxc) as [Hg Hn].
      split; [done|]. intros d' Hd' Hp'.
      destruct (Hn d' Hd' Hp') as [Hv Hl]. split.
      * apply elem_of_union. by right.
      * rewrite (Hagree x (Hint x Hx)), (Hagree (move x d')); [done|].
        by apply Hvis.
  - done.
  - intros x Hx. apply elem_of_app. by left.
  - intros _. split.
    + apply elem_of_union. left. by apply elem_of_singleton.
    + rewrite Hnew, (Hagree cur Hcur). lia.
Qed.

Lemma bfs_visits_mid cur ds :
  forall lv st,
    Mid cur lv st -> (forall d, d ∈ ds -> d ∈ directions) ->
    let st' := fold_left (visit maze nr nc cur) ds st in
    exists lv',
      Mid cur lv' st' /\
      (forall x, x ∈ order st -> lv' x = lv x) /\
      (forall x, x ∈ order st -> x ∈ order st') /\
      (forall d, d ∈ ds -> passable maze nr nc (move cur d) = true ->
                 move cur d ∈ visited st' /\
                 (lv' (move cur d) <= S (lv' cur))%nat).
Proof.
  induction ds as [|d ds IH]; intros lv st Hmid Hds; simpl.
  - exists lv. split_and!; try done. intros d Hd. by apply elem_of_nil in Hd.
  - destruct (bfs_visit_mid cur lv st d Hmid) as (lv1 & H1 & H2 & H3 & H4).
    { apply Hds. by apply elem_of_cons; left. }
    destruct (IH lv1 _ H1) as (lv2 & H5 & H6 & H7 & H8).
    { intros d' Hd'. apply Hds. by apply elem_of_cons; right. }
    exists lv2. split_and!; try done.
    + intros x Hx. rewrite H6; auto.
    + auto.
    + intros d' Hd' Hp. apply elem_of_cons in Hd' as [->|Hd']; [|auto].
      destruct (H4 Hp) as [Hv Hl].
      pose proof (core_inv _ _ _ _ _ (mid_core _ _ _ H1)) as [_ Hvis Hord].
      pose proof (core_inv _ _ _ _ _ (mid_core _ _ _ H5)) as [_ Hvis' _].
      assert (Hc1 : cur ∈ order (visit maze nr nc cur st d)).
      { rewrite Hord. apply elem_of_app. left. apply (mid_cur _ _ _ H1). }
      split.
      * apply Hvis', H7, Hvis, Hv.
      * rewrite (H6 _ Hc1), (H6 (move cur d)); [done|]. by apply Hvis.
Qed.

Lemma bfs_step_inv4 st st' :
  Inv4 st -> step fuel maze nr nc goal st = inl st' -> Inv4 st'.
Proof.
  intros [lv [Hcore H0 Hpar Hasc Hspan Htr Hclosed]]. unfold step.
  destruct (queue st) as [|cur rest] eqn:Eq; [done|].
  destruct ((cur.1 =? goal.1) && (cur.2 =? goal.2)) eqn:Egoal; [done|].
  intros <-%(inj inl).
  set (st0 := {| queue := rest; visited := visited st; order := order st;
                 parentMap := parentMap st; trace := trace st ++ [cur] |}).
  assert (Hne : cur <> goal).
  { intros E. apply goal_test in E. congruence. }
  assert (Hhead : cur ∈ cur :: rest) by (by apply elem_of_cons; left).
  destruct (ascending_tail _ _ _ Hasc) as [Hasc' Hmin].
  pose proof (core_inv _ _ _ _ _ Hcore) as [Hnd Hvis Hord].
  assert (Hfresh : cur ∉ trace st).
  { intros Hin. rewrite Hord, Eq in Hnd.
    apply NoDup_app in Hnd as (_ & Hdisj & _). by apply (Hdisj cur Hin). }
  assert (H0' : Mid cur lv st0).
  { split; simpl; try done.
    - destruct Hcore as [Hinv Hroot Hknown Hstart].
      split; [|done..]. split; simpl; [done | done |].
      by rewrite Hord, Eq, <- app_assoc.
    - apply elem_of_app. right. by apply list_elem_of_singleton.
    - intros y Hy. split; [by apply Hmin|].
      apply Hspan; [done | by apply elem_of_cons; right].
    - intros x Hx. apply elem_of_app in Hx as [Hx|Hx].
      + by apply Htr.
      + by apply list_elem_of_singleton in Hx as ->.
    - intros x Hx Hxc. apply elem_of_app in Hx as [Hx|Hx]; [by apply Hclosed|].
      by apply list_elem_of_singleton in Hx. }
  destruct (bfs_visits_mid cur directions lv st0 H0')
    as (lv' & [Hcore' Hcur' H0'' Hpar' Hasc'' Hq' Ht' Hclosed'] & _ & _ & Hedges);
    [done|].
  exists lv'. split; try done.
  - intros x y Hx Hy. pose proof (Hq' x Hx). pose proof (Hq' y Hy). lia.
  - intros x y Hx Hy. pose proof (Ht' x Hx). pose proof (Hq' y Hy). lia.
  - intros x Hx. destruct (decide (x = cur)) as [->|Hxc]; [|by apply Hclosed'].
    split; [done|]. intros d Hd Hp. by apply Hedges.
Qed.

(** With the end at the head of the queue, a walk from the start either
    stays among the dequeued cells, and is as long as the level of its last
    cell asks, or is already as long as the level of the end asks. *)
Lemma bfs_walk_levels lv st rest :
  Levels lv st -> queue st = goal :: rest ->
  forall w c,
    Walk maze nr nc start w c ->
    (c ∈ trace st /\ (lv c + 1 <= length w)%nat) \/
    (lv goal + 1 <= length w)%nat.
Proof.
  intros [Hcore H0 Hpar Hasc Hspan Htr Hclosed] Eq.
  pose proof (core_inv _ _ _ _ _ Hcore) as [Hnd Hvis Hord].
  rewrite Eq in Hasc. destruct (ascending_tail _ _ _ Hasc) as [_ Hmin].
  assert (Hq : forall y, y ∈ queue st -> (lv goal <= lv y)%nat).
  { intros y Hy. rewrite Eq in Hy.
    apply elem_of_cons in Hy as [->|Hy]; [done | by apply Hmin]. }
  assert (Hcase : forall y, y ∈ visited st -> y ∈ trace st \/ y ∈ queue st).
  { intros y Hy. apply Hvis in Hy. rewrite Hord in Hy.
    by apply elem_of_app in Hy. }
  induction 1 as [|l b d Hw IH Hd Hp].
  - destruct (Hcase start (core_start _ _ _ _ _ Hcore)) as [Hs|Hs].
    + left. split; [done|]. rewrite H0. simpl. lia.
    + right. pose proof (Hq _ Hs). rewrite H0 in *. simpl. lia.
  - rewrite length_app. simpl.
    destruct IH as [[Hb Hlen]|Hlen]; [|right; lia].
    destruct (Hclosed b Hb) as [_ Hn].
    destruct (Hn d Hd Hp) as [Hv Hl].
    destruct (Hcase _ Hv) as [Hc|Hc].
    + left. split; [done | lia].
    + right. pose proof (Hq _ Hc). lia.
Qed.

Lemma bfs_step_exit4 st t :
  Inv4 st -> step fuel maze nr nc goal st = inr (Returned t) ->
  forall l w, path (result t) = Some l -> Walk maze nr nc start w goal ->
              (length l <= length w)%nat.
Proof.
  intros [lv Hlev]. unfold step.
  destruct (queue st) as [|cur rest] eqn:Eq.
  - by intros [= <-] l w.
  - destruct ((cur.1 =? goal.1) && (cur.2 =? goal.2)) eqn:Egoal; [|done].
    apply goal_test in Egoal as ->. intros [= H] l w Hl Hw.
    apply outcome_map_Returned in H as (p & Hp & ->).
    simpl in Hl. injection Hl as <-. rewrite length_rev.
    pose proof (lev_core _ _ Hlev) as [Hinv Hroot Hknown Hstart].
    assert (Hgoal : goal ∈ order st).
    { rewrite (inv_queue _ Hinv), Eq. apply elem_of_app. right.
      by apply elem_of_cons; left. }
    rewrite (reconstruct_length _ _ _ _ _ _ lv Hroot (lev_origin _ _ Hlev)
               (lev_parent _ _ Hlev) _ _ _ _ (Hknown _ Hgoal) Hp).
    simpl.
    destruct (bfs_walk_levels lv st rest Hlev Eq w goal Hw) as [[_ H]|H]; lia.
Qed.

End Search.

Lemma bfs_shortest fuel maze nc start goal t l w :
  numCols maze = Some nc ->
  findPathTraced fuel maze start goal = Returned t ->
  path (result t) = Some l ->
  Walk maze (numRows maze) nc start w goal ->
  (length l <= length w)%nat.
Proof.
  intros Hnc Hrun. unfold findPathTraced in Hrun. rewrite Hnc in Hrun.
  cbv zeta in Hrun.
  destruct (_ || _); [by injection Hrun as <-|].
  revert l w. revert t Hrun.
  apply (loop_invariant _ (Inv4 maze (numRows maze) nc start goal)
           (fun t => forall l w,
                path (result t) = Some l ->
                Walk maze (numRows maze) nc start w goal ->
                (length l <= length w)%nat)).
  - intros s s'. apply bfs_step_inv4.
  - intros s r. apply bfs_step_exit4.
  - apply bfs_init_inv4.
Qed.

End BFSShortest.

(** ** What the searches return *)

Lemma bfs_sound fuel maze nc start goal r :
  numCols maze = Some nc ->
  findPathBFS fuel maze start goal = Returned r ->
  soundResult maze (numRows maze) nc start goal r.
Proof.
  intros Hnc Hrun. apply outcome_map_Returned in Hrun as (t & Hrun & ->).
  destruct (invalidEndpoint maze (numRows maze) nc start
            || invalidEndpoint maze (numRows maze) nc goal) eqn:Eg.
  - unfold BFS.findPathTraced in Hrun. rewrite Hnc in Hrun. cbv zeta in Hrun.
    rewrite Eg in Hrun. injection Hrun as <-. by intros l.
  - apply orb_false_elim in Eg as [Es Eg].
    by destruct (BFSPaths.bfs_paths fuel maze nc start goal t).
Qed.

Lemma dfs_sound fuel maze nc start goal rnd r :
  numCols maze = Some nc ->
  findPathDFS fuel maze start goal rnd = Returned r ->
  soundResult maze (numRows maze) nc start goal r.
Proof.
  intros Hnc Hrun. apply outcome_map_Returned in Hrun as (t & Hrun & ->).
  destruct (invalidEndpoint maze (numRows maze) nc start
            || invalidEndpoint maze (numRows maze) nc goal) eqn:Eg.
  - unfold DFS.findPathTraced in Hrun. rewrite Hnc in Hrun. cbv zeta in Hrun.
    rewrite Eg in Hrun. injection Hrun as <-. by intros l.
  - apply orb_false_elim in Eg as [Es Eg].
    by destruct (DFSPaths.dfs_paths fuel maze nc start goal rnd t).
Qed.

Lemma astar_sound fuel maze nc start goal r :
  numCols maze = Some nc ->
  findPathAStar fuel maze start goal = Returned r ->
  soundResult maze (numRows maze) nc start goal r.
Proof.
  intros Hnc Hrun. apply outcome_map_Returned in Hrun as (t & Hrun & ->).
  destruct (invalidEndpoint maze (numRows maze) nc start
            || invalidEndpoint maze (numRows maze) nc goal) eqn:Eg.
  - unfold AStar.findPathTraced in Hrun. rewrite Hnc in Hrun.
    cbv zeta in Hrun. rewrite Eg in Hrun. injection Hrun as <-. by intros l.
  - apply orb_false_elim in Eg as [Es Eg].
    by destruct (AStarPaths.astar_paths fuel maze nc start goal t).
Qed.

Lemma greedy_sound fuel maze nc start goal r :
  numCols maze = Some nc ->
  findPathGreedy fuel maze start goal = Returned r ->
  soundResult maze (numRows maze) nc start goal r.
Proof.
  intros Hnc Hrun. apply outcome_map_Returned in Hrun as (t & Hrun & ->).
  destruct (invalidEndpoint maze (numRows maze) nc start
            || invalidEndpoint maze (numRows maze) nc goal) eqn:Eg.
  - unfold Greedy.findPathTraced in Hrun. rewrite Hnc in Hrun.
    cbv zeta in Hrun. rewrite Eg in Hrun. injection Hrun as <-. by intros l.
  - apply orb_false_elim in Eg as [Es Eg].
    by destruct (GreedyPaths.greedy_paths fuel maze nc start goal t).
Qed.

Lemma mouse_sound maze nc start goal maxSteps rnd r :
  numCols maze = Some nc ->
  findPathRandomMouse maze start goal maxSteps rnd = Returned r ->
  soundResult maze (numRows maze) nc start goal r.
Proof.
  intros Hnc Hrun.
  destruct (invalidEndpoint maze (numRows maze) nc start
            || invalidEndpoint maze (numRows maze) nc goal) eqn:Eg.
  - unfold findPathRandomMouse in Hrun. rewrite Hnc in Hrun.
    cbv zeta in Hrun. rewrite Eg in Hrun. injection Hrun as <-. by intros l.
  - apply orb_false_elim in Eg as [Es Eg].
    by destruct (MousePaths.mouse_paths maze nc start goal maxSteps rnd r).
Qed.

(** X1.  A path returned by [findPathBFS], [findPathDFS], [findPathAStar]
    or [findPathGreedy] is a walk through the maze: it starts at the start,
    ends at the end, every cell after the first is one move up, down, left
    or right of the cell before it, inside the matrix and on a path; and
    every cell of the path is listed in the visited order returned with
    it. *)
Theorem returned_path_is_a_walk :
  forall (maze : Grid) (nc : Z) (start goal : Coord) (fuel : nat)
         (rnd : Rand) (r : PathResult) (l : list Coord),
    numCols maze = Some nc ->
    findPathBFS fuel maze start goal = Returned r \/
    findPathDFS fuel maze start goal rnd = Returned r \/
    findPathAStar fuel maze start goal = Returned r \/
    findPathGreedy fuel maze start goal = Returned r ->
    path r = Some l ->
    Walk maze (numRows maze) nc start l goal /\
    forall x, x ∈ l -> x ∈ visitedOrder r.
Proof.
  intros maze nc start goal fuel rnd r l Hnc Hrun Hl.
  assert (Hs : soundResult maze (numRows maze) nc start goal r).
  { destruct Hrun as [H|[H|[H|H]]];
      eauto using bfs_sound, dfs_sound, astar_sound, greedy_sound. }
  by apply Hs.
Qed.

Lemma returned_path_is_a_walk_witness :
  Walk corridor (numRows corridor) 3 (0, 0) [(0, 0); (0, 1); (0, 2)] (0, 2) /\
  forall x, x ∈ [(0, 0); (0, 1); (0, 2)] ->
            x ∈ visitedOrder
                  (mkResult (Some [(0, 0); (0, 1); (0, 2)])
                     [(0, 0); (0, 1); (0, 2)]).
Proof.
  apply (returned_path_is_a_walk corridor 3 (0, 0) (0, 2) 10 []
           (mkResult (Some [(0, 0); (0, 1); (0, 2)])
              [(0, 0); (0, 1); (0, 2)])
           [(0, 0); (0, 1); (0, 2)] eq_refl);
    [left; vm_compute; reflexivity | reflexivity].
Defined.

(** X2.  When the endpoints pass the guard and [findPathBFS], [findPathDFS],
    [findPathAStar] or [findPathGreedy] returns [path: null], the end cannot
    be reached from the start: no walk through path cells joins them. *)
Theorem no_path_means_unreachable :
  forall (maze : Grid) (nc : Z) (start goal : Coord) (fuel : nat)
         (rnd : Rand) (r : PathResult),
    numCols maze = Some nc ->
    invalidEndpoint maze (numRows maze) nc start = false ->
    invalidEndpoint maze (numRows maze) nc goal = false ->
    findPathBFS fuel maze start goal = Returned r \/
    findPathDFS fuel maze start goal rnd = Returned r \/
    findPathAStar fuel maze start goal = Returned r \/
    findPathGreedy fuel maze start goal = Returned r ->
    path r = None ->
    forall l, ~ Walk maze (numRows maze) nc start l goal.
Proof.
  intros maze nc start goal fuel rnd r Hnc Hs Hg Hrun.
  destruct Hrun as [H|[H|[H|H]]];
    apply outcome_map_Returned in H as (t & H & ->).
  - by destruct (BFSPaths.bfs_paths fuel maze nc start goal t).
  - by destruct (DFSPaths.dfs_paths fuel maze nc start goal rnd t).
  - by destruct (AStarPaths.astar_paths fuel maze nc start goal t).
  - by destruct (GreedyPaths.greedy_paths fuel maze nc start goal t).
Qed.

(** Two cells with a wall between them. *)
Definition blocked : Grid := [[0; 1; 0]].

Lemma no_path_means_unreachable_witness :
  ~ Walk blocked (numRows blocked) 3 (0, 0) [(0, 0); (0, 1); (0, 2)] (0, 2).
Proof.
  apply (no_path_means_unreachable blocked 3 (0, 0) (0, 2) 10 []
           (mkResult None [(0, 0)]) eq_refl eq_refl eq_refl);
    [left; vm_compute; reflexivity | reflexivity].
Defined.

(** X3.  The path [findPathBFS] returns is a shortest one: no walk from the
    start to the end through path cells has fewer cells. *)
Theorem bfs_path_is_shortest :
  forall (maze : Grid) (nc : Z) (start goal : Coord) (fuel : nat)
         (r : PathResult) (l w : list Coord),
    numCols maze = Some nc ->
    findPathBFS fuel maze start goal = Returned r ->
    path r = Some l ->
    Walk maze (numRows maze) nc start w goal ->
    (length l <= length w)%nat.
Proof.
  intros maze nc start goal fuel r l w Hnc Hrun Hl Hw.
  apply outcome_map_Returned in Hrun as (t & Hrun & ->).
  by apply (BFSShortest.bfs_shortest fuel maze nc start goal t l w).
Qed.

(** A walk across the open room that is longer than it need be. *)
Definition detour : list Coord :=
  [(1, 0); (1, 1); (2, 1); (2, 2); (1, 2); (1, 3)].

Lemma detour_walk : Walk room (numRows room) 5 (1, 0) detour (1, 3).
Proof.
  unfold detour.
  change [(1, 0); (1, 1); (2, 1); (2, 2); (1, 2); (1, 3)]
    with ((((([(1, 0)] ++ [move (1, 0) (0, 1)]) ++ [move (1, 1) (1, 0)])
             ++ [move (2, 1) (0, 1)]) ++ [move (2, 2) (-1, 0)])
          ++ [move (1, 2) (0, 1)]).
  repeat (apply Walk_move;
          [| unfold directions; rewrite !elem_of_cons; tauto | vm_compute; reflexivity]).
  apply Walk_start.
Qed.

Definition straight : list Coord := [(1, 0); (1, 1); (1, 2); (1, 3)].

Lemma bfs_path_is_shortest_witness : (length straight <= length detour)%nat.
Proof.
  apply (bfs_path_is_shortest room 5 (1, 0) (1, 3) 20
           (mkResult (Some straight)
              [(1, 0); (1, 1); (2, 1); (1, 2); (3, 1); (2, 2); (1, 3); (3, 2);
               (2, 3)])
           _ detour eq_refl);
    [vm_compute; reflexivity | reflexivity | exact detour_walk].
Defined.

(** X4.  Between the same endpoints of the same maze, the path
    [findPathBFS] returns is never longer than a path returned by
    [findPathDFS], [findPathAStar], [findPathGreedy] or
    [findPathRandomMouse], whatever the random choices. *)
Theorem bfs_path_no_longer_than_the_others :
  forall (maze : Grid) (nc : Z) (start goal : Coord) (fuel fuel' : nat)
         (rnd : Rand) (maxSteps : Z) (r r' : PathResult)
         (l l' : list Coord),
    numCols maze = Some nc ->
    findPathBFS fuel maze start goal = Returned r ->
    path r = Some l ->
    findPathDFS fuel' maze start goal rnd = Returned r' \/
    findPathAStar fuel' maze start goal = Returned r' \/
    findPathGreedy fuel' maze start goal = Returned r' \/
    findPathRandomMouse maze start goal maxSteps rnd = Returned r' ->
    path r' = Some l' ->
    (length l <= length l')%nat.
Proof.
  intros maze nc start goal fuel fuel' rnd maxSteps r r' l l'
    Hnc Hrun Hl Hother Hl'.
  assert (Hs : soundResult maze (numRows maze) nc start goal r').
  { destruct Hother as [H|[H|[H|H]]];
      eauto using dfs_sound, astar_sound, greedy_sound, mouse_sound. }
  destruct (Hs l' Hl') as [Hw _].
  apply outcome_map_Returned in Hrun as (t & Hrun & ->).
  by apply (BFSShortest.bfs_shortest fuel maze nc start goal t l l').
Qed.

Definition zigzagShort : list Coord :=
  [(0, 0); (0, 1); (0, 2); (0, 3); (1, 3)].

Definition zigzagLong : list Coord :=
  [(0, 0); (1, 0); (1, 1); (0, 1); (0, 2); (0, 3); (1, 3)].

Lemma bfs_path_no_longer_than_the_others_witness :
  (length zigzagShort <= length zigzagLong)%nat.
Proof.
  apply (bfs_path_no_longer_than_the_others zigzag 4 (0, 0) (1, 3) 20 20 [] 0
           (mkResult (Some zigzagShort)
              [(0, 0); (1, 0); (0, 1); (1, 1); (0, 2); (0, 3); (1, 3)])
           (mkResult (Some zigzagLong) zigzagLong)
           _ _ eq_refl);
    [vm_compute; reflexivity | reflexivity
     | right; right; left; vm_compute; reflexivity | reflexivity].
Defined.

(** X5.  When the endpoints pass the guard, the random mouse moves at most
    [maxSteps] times.  The path it returns is a walk from the start to the
    end among the cells of its visited order, of at most [maxSteps + 1]
    cells; the visited order starts with the start, holds no cell twice and
    has at most [maxSteps + 1] cells. *)
Theorem mouse_stays_within_budget :
  forall (maze : Grid) (nc : Z) (start goal : Coord) (maxSteps : Z)
         (rnd : Rand) (r : PathResult),
    numCols maze = Some nc ->
    invalidEndpoint maze (numRows maze) nc start = false ->
    invalidEndpoint maze (numRows maze) nc goal = false ->
    findPathRandomMouse maze start goal maxSteps rnd = Returned r ->
    NoDup (visitedOrder r) /\
    (exists rest, visitedOrder r = start :: rest) /\
    Z.of_nat (length (visitedOrder r)) <= Z.max 0 maxSteps + 1 /\
    forall l, path r = Some l ->
              Walk maze (numRows maze) nc start l goal /\
              (forall x, x ∈ l -> x ∈ visitedOrder r) /\
              Z.of_nat (length l) <= Z.max 0 maxSteps + 1.
Proof.
  intros maze nc start goal maxSteps rnd r Hnc Hs Hg Hrun.
  destruct (MousePaths.mouse_paths maze nc start goal maxSteps rnd r)
    as (Hsound & Hnd & Hfirst & Hlen & Hpath); try done.
  split_and!; try done. intros l Hl.
  destruct (Hsound l Hl) as [Hwalk Hsub]. split_and!; auto.
Qed.

Lemma mouse_stays_within_budget_witness :
  NoDup [(0, 0); (0, 1); (0, 2)] /\
  (exists rest, [(0, 0); (0, 1); (0, 2)] = (0, 0) :: rest) /\
  Z.of_nat (length [(0, 0); (0, 1); (0, 2)]) <= Z.max 0 5 + 1 /\
  forall l, path (mkResult (Some [(0, 0); (0, 1); (0, 2)])
                    [(0, 0); (0, 1); (0, 2)]) = Some l ->
            Walk corridor (numRows corridor) 3 (0, 0) l (0, 2) /\
            (forall x, x ∈ l ->
                       x ∈ visitedOrder
                             (mkResult (Some [(0, 0); (0, 1); (0, 2)])
                                [(0, 0); (0, 1); (0, 2)])) /\
            Z.of_nat (length l) <= Z.max 0 5 + 1.
Proof.
  apply (mouse_stays_within_budget corridor 3 (0, 0) (0, 2) 5 []
           (mkResult (Some [(0, 0); (0, 1); (0, 2)])
              [(0, 0); (0, 1); (0, 2)]) eq_refl eq_refl eq_refl).
  vm_compute. reflexivity.
Defined.

Lemma searches_return_witness :
  (exists r, findPathBFS 20 corridor (0, 0) (0, 2) = Returned r) /\
  (exists r, findPathDFS 20 corridor (0, 0) (0, 2) [] = Returned r) /\
  (exists r, findPathGreedy 20 corridor (0, 0) (0, 2) = Returned r) /\
  (exists r, findPathRandomMouse corridor (0, 0) (0, 2) 5 [] = Returned r).
Proof.
  apply (searches_return corridor 3 (0, 0) (0, 2) [] 5 20 eq_refl).
  vm_compute. lia.
Defined.

(** ** What every generator keeps *)

(** A property of grids that no write of a path, or of a wall, undoes. *)
Definition Carving (P : Grid -> Prop) : Prop :=
  forall m r c m', P m -> setCell m r c Path = Returned m' -> P m'.

Definition Walling (P : Grid -> Prop) : Prop :=
  forall m r c m', P m -> setCell m r c Wall = Returned m' -> P m'.

Lemma openEnds_keeps P gh gw maze maze' :
  Carving P -> P maze -> openEnds gh gw maze = Returned maze' -> P maze'.
Proof.
  intros HP Hm H. unfold openEnds in H.
  apply bind_Returned in H as (m1 & H1 & H2). eauto.
Qed.

Lemma binaryTree_keeps P width height rnd maze :
  Carving P -> P (newGrid (height * 2 + 1) (width * 2 + 1) Wall) ->
  generateBinaryTreeMaze width height rnd = Returned maze -> P maze.
Proof.
  intros HP H0. unfold generateBinaryTreeMaze. cbv zeta. intros H.
  apply bind_Returned in H as ([m rnd'] & Hfold & H).
  eapply openEnds_keeps; [done | | exact H].
  change m with (m, rnd').1.
  eapply (foldM_invariant _ (fun st => P st.1)); [| |exact Hfold]; [|done].
  intros st r st' Hst _ Hrow. unfold BinaryTree.carveRow in Hrow.
  eapply (foldM_invariant _ (fun st => P st.1)); [|exact Hst|exact Hrow].
  intros [m1 rnd1] c st2 Hst1 _ Hcell. simpl in Hst1.
  unfold BinaryTree.carveCell in Hcell.
  apply bind_Returned in Hcell as (m2 & H1 & Hcell).
  assert (P m2) by eauto.
  destruct (r >? 1), (c >? 1); simpl in Hcell;
    try destruct (randomCoin rnd1) as [[] ?];
    inv_outcome; subst st2; simpl; eauto.
Qed.

Lemma outerWalls_keeps P gh gw maze maze' :
  Walling P -> P maze ->
  Division.outerWalls gh gw maze = Returned maze' -> P maze'.
Proof.
  intros HP Hm H. unfold Division.outerWalls in H.
  apply bind_Returned in H as (m1 & Hrows & Hcols).
  eapply (foldM_invariant _ P); [| |exact Hcols].
  - intros m c m' Hp _ Hb. apply bind_Returned in Hb as (m0 & Ha & Hb). eauto.
  - eapply (foldM_invariant _ P); [|exact Hm|exact Hrows].
    intros m c m' Hp _ Hb. apply bind_Returned in Hb as (m0 & Ha & Hb). eauto.
Qed.

Lemma divide_keeps P fuel :
  Walling P ->
  forall r1 c1 r2 c2 maze rnd maze' rnd',
    P maze ->
    Division.divide fuel r1 c1 r2 c2 maze rnd = Returned (maze', rnd') ->
    P maze'.
Proof.
  intros HP.
  induction fuel as [|n IH]; intros r1 c1 r2 c2 maze rnd maze' rnd' Hm H;
    [done|].
  cbn [Division.divide] in H.
  destruct ((r2 - r1 <? 4) || (c2 - c1 <? 4)).
  { by injection H as <- <-. }
  destruct (if r2 - r1 >? c2 - c1 then (true, rnd)
            else if r2 - r1 =? c2 - c1 then randomCoin rnd else (false, rnd))
    as [[] rnd1].
  - destruct (randomIndex (Z.to_nat ((r2 - r1) / 2)) rnd1) as [i rnd2].
    destruct (randomIndex (Z.to_nat ((c2 - c1) / 2 + 1)) rnd2) as [j rnd3].
    apply bind_Returned in H as (maze1 & Hdraw & H).
    apply bind_Returned in H as ([maze2 rnd4] & Hleft & Hright).
    eapply IH; [|exact Hright]. eapply IH; [|exact Hleft].
    unfold Division.drawHorizontal in Hdraw.
    eapply (foldM_invariant _ P); [|exact Hm|exact Hdraw].
    intros m c m' Hp _ Hset. cbv beta in Hset.
    destruct (c =? _); [by injection Hset as <-|].
    eauto.
  - destruct (randomIndex (Z.to_nat ((c2 - c1) / 2)) rnd1) as [i rnd2].
    destruct (randomIndex (Z.to_nat ((r2 - r1) / 2 + 1)) rnd2) as [j rnd3].
    apply bind_Returned in H as (maze1 & Hdraw & H).
    apply bind_Returned in H as ([maze2 rnd4] & Hleft & Hright).
    eapply IH; [|exact Hright]. eapply IH; [|exact Hleft].
    unfold Division.drawVertical in Hdraw.
    eapply (foldM_invariant _ P); [|exact Hm|exact Hdraw].
    intros m c m' Hp _ Hset. cbv beta in Hset.
    destruct (c =? _); [by injection Hset as <-|].
    eauto.
Qed.

Lemma division_keeps P fuel width height rnd maze :
  Carving P -> Walling P ->
  P (newGrid (height * 2 + 1) (width * 2 + 1) Path) ->
  generateRecursiveDivisionMaze fuel width height rnd = Returned maze ->
  P maze.
Proof.
  intros HC HW H0. unfold generateRecursiveDivisionMaze. cbv zeta. intros H.
  apply bind_Returned in H as (m0 & Houter & H).
  apply bind_Returned in H as ([m1 rnd'] & Hdiv & H).
  eapply openEnds_keeps; [done | | exact H].
  eapply divide_keeps; [done | | exact Hdiv].
  by eapply outerWalls_keeps.
Qed.

Lemma kruskal_keeps P fuel width height rnd maze :
  Carving P -> P (newGrid (height * 2 + 1) (width * 2 + 1) Wall) ->
  generateKruskalsMaze fuel width height rnd = Returned maze -> P maze.
Proof.
  intros HP H0. unfold generateKruskalsMaze. cbv zeta. intros H.
  apply bind_Returned in H as (maze1 & Hcells & H).
  destruct (shuffle (Kruskal.allWalls width height) rnd) as [walls rnd'].
  apply bind_Returned in H as ([[maze2 parent] rank] & Hfold & H).
  eapply openEnds_keeps; [done | | exact H].
  change maze2 with (maze2, parent, rank).1.1.
  eapply (foldM_invariant _ (fun st => P st.1.1)); [| |exact Hfold].
  - intros [[m p] rk] wall st' Hst _ Hw. simpl in Hst.
    unfold Kruskal.processWall in Hw.
    apply bind_Returned in Hw as ([root1 parent1] & _ & Hw).
    apply bind_Returned in Hw as ([root2 parent2] & _ & Hw).
    destruct (root1 =? root2); [by injection Hw as <-|].
    apply bind_Returned in Hw as (m1 & Hset & Hw).
    apply bind_Returned in Hw as ([parent3 rank1] & _ & Hw).
    injection Hw as <-. simpl. eauto.
  - simpl. unfold Kruskal.carveCells in Hcells.
    eapply (foldM_invariant _ P); [|exact H0|exact Hcells].
    intros m r m' Hm _.
    apply (foldM_invariant _ P); [|done]. eauto.
Qed.

Lemma carveEach_keeps P (rec : Z -> Z -> Backtracker.State ->
                               outcome Backtracker.State) gh gw r c :
  Carving P ->
  (forall nr nc st st',
     P (Backtracker.maze st) -> rec nr nc st = Returned st' ->
     P (Backtracker.maze st')) ->
  forall indices st st',
    P (Backtracker.maze st) ->
    Backtracker.carveEach rec gh gw r c indices st = Returned st' ->
    P (Backtracker.maze st').
Proof.
  intros HP Hrec. induction indices as [|i rest IH]; intros st st' Hs H;
    simpl in H.
  - by injection H as <-.
  - destruct (Backtracker.dirs st !! i) as [d|]; [|by injection H as <-].
    destruct (isGridCell gh gw (r + d.1) (c + d.2) &&
              cellIs (Backtracker.maze st) (r + d.1) (c + d.2) Wall);
      [|by eapply IH].
    apply bind_Returned in H as (maze2 & Hset & H).
    apply bind_Returned in H as (st1 & Hcall & H).
    eapply IH; [|exact H]. eapply Hrec; [|exact Hcall]. simpl. eauto.
Qed.

Lemma carvePath_keeps P gh gw fuel :
  Carving P ->
  forall r c st st',
    P (Backtracker.maze st) ->
    Backtracker.carvePath fuel gh gw r c st = Returned st' ->
    P (Backtracker.maze st').
Proof.
  intros HP. induction fuel as [|n IH]; intros r c st st' Hs H; [done|].
  cbn [Backtracker.carvePath] in H.
  apply bind_Returned in H as (maze1 & Hset & H).
  destruct (shuffle (Backtracker.dirs st) (Backtracker.rnd st))
    as [shuffled rnd1].
  eapply carveEach_keeps; [done | exact IH | | exact H]. simpl. eauto.
Qed.

Lemma backtracker_keeps P fuel width height rnd maze :
  Carving P -> P (newGrid (height * 2 + 1) (width * 2 + 1) Wall) ->
  generateRecursiveBacktrackerMaze fuel width height rnd = Returned maze ->
  P maze.
Proof.
  intros HP H0. unfold generateRecursiveBacktrackerMaze. cbv zeta.
  destruct (randomIndex (Z.to_nat height) rnd) as [i rnd1].
  destruct (randomIndex (Z.to_nat width) rnd1) as [j rnd2].
  intros H. apply bind_Returned in H as (st & Hcarve & H).
  eapply openEnds_keeps; [done | | exact H].
  by eapply carvePath_keeps; [done | | exact Hcarve].
Qed.

Lemma prims_keeps P fuel width height rnd maze :
  Carving P -> P (newGrid (height * 2 + 1) (width * 2 + 1) Wall) ->
  generatePrimsMaze fuel width height rnd = Returned maze -> P maze.
Proof.
  intros HP H0. unfold generatePrimsMaze. cbv zeta.
  destruct (randomIndex (Z.to_nat height) rnd) as [i rnd1].
  destruct (randomIndex (Z.to_nat width) rnd1) as [j rnd2].
  intros H. apply bind_Returned in H as (maze1 & Hset & H).
  apply bind_Returned in H as (maze2 & Hloop & H).
  eapply openEnds_keeps; [done | | exact H].
  clear H. revert maze2 Hloop.
  apply (loop_invariant _ (fun st => P (Prims.maze st)) P); [| |simpl; eauto].
  - intros st st' Hst. unfold Prims.step.
    destruct (Prims.walls st) as [|w0 ws]; [done|].
    destruct (randomIndex _ _) as [wallIndex rnd3].
    destruct (_ !! wallIndex) as [wall|]; [|done].
    assert (Hcarve : forall fresh ws' st1,
              Prims.carve (height * 2 + 1) (width * 2 + 1) (Prims.maze st)
                wall fresh ws' rnd3 = inl st1 -> P (Prims.maze st1)).
    { intros fresh ws' st1 Hc. unfold Prims.carve in Hc.
      destruct (m1 ← setCell (Prims.maze st) wall.1 wall.2 Path;
                setCell m1 fresh.1 fresh.2 Path) as [m2| |] eqn:Em; try done.
      injection Hc as <-. simpl.
      apply bind_Returned in Em as (m1 & H1 & H2). eauto. }
    destruct (Prims.flankingCells _ _ wall) as [|cell1 [|cell2 more]];
      try (by intros [= <-]).
    destruct (_ && _); [apply Hcarve|].
    destruct (_ && _); [apply Hcarve|]. by intros [= <-].
  - intros st m Hst. unfold Prims.step.
    destruct (Prims.walls st) as [|w0 ws]; [by intros [= <-]|].
    destruct (randomIndex _ _) as [wallIndex rnd3].
    destruct (_ !! wallIndex) as [wall|]; [|done].
    destruct (Prims.flankingCells _ _ wall) as [|cell1 [|cell2 more]];
      try done.
    unfold Prims.carve.
    destruct (_ && _); [by destruct (_ ≫= _)|].
    destruct (_ && _); [by destruct (_ ≫= _)|]. done.
Qed.

Lemma carveWalk_keeps P :
  Carving P ->
  forall cells prev st st',
    P st.1 -> Wilson.carveWalk prev cells st = Returned st' -> P st'.1.
Proof.
  intros HP. induction cells as [|p rest IH]; intros prev [m v] st' Hm H;
    simpl in H.
  - by injection H as <-.
  - apply bind_Returned in H as (m1 & H1 & H).
    apply bind_Returned in H as (m2 & H2 & H).
    eapply IH; [|exact H]. simpl in *.
    destruct prev as [q|]; [eauto|]. injection H2 as <-. eauto.
Qed.

Lemma wilson_keeps P fuel width height rnd maze :
  Carving P -> P (newGrid (height * 2 + 1) (width * 2 + 1) Wall) ->
  generateWilsonsMaze fuel width height rnd = Returned maze -> P maze.
Proof.
  intros HP H0. unfold generateWilsonsMaze. cbv zeta.
  destruct (randomIndex (Z.to_nat height) rnd) as [i rnd1].
  destruct (randomIndex (Z.to_nat width) rnd1) as [j rnd2].
  intros H. apply bind_Returned in H as (maze1 & Hset & H).
  apply bind_Returned in H as (maze2 & Hloop & H).
  eapply openEnds_keeps; [done | | exact H].
  clear H. revert maze2 Hloop.
  apply (loop_invariant _ (fun st => P (Wilson.maze st)) P); [| |simpl; eauto].
  - intros st st' Hst. unfold Wilson.step.
    destruct (_ <? _); [|done].
    destruct (loop (Wilson.pickStep _ _ _) _ _) as [[startCell rnd3]| |];
      try done.
    destruct (loop (Wilson.walkStep _ _ _) _ _) as [w| |]; try done.
    destruct (Wilson.carveWalk None (Wilson.walk w) _)
      as [[maze' visited']| |] eqn:Ec; try done.
    intros [= <-]. simpl.
    exact (carveWalk_keeps P HP _ _ (Wilson.maze st, Wilson.visitedCells st)
             _ Hst Ec).
  - intros st m Hst. unfold Wilson.step.
    destruct (_ <? _); [|by intros [= <-]].
    destruct (loop (Wilson.pickStep _ _ _) _ _) as [[startCell rnd3]| |];
      try done.
    destruct (loop (Wilson.walkStep _ _ _) _ _) as [w| |]; try done.
    by destruct (Wilson.carveWalk None (Wilson.walk w) _) as [[? ?]| |].
Qed.

Lemma aldousBroder_keeps P fuel width height rnd maze :
  Carving P -> P (newGrid (height * 2 + 1) (width * 2 + 1) Wall) ->
  generateAldousBroderMaze fuel width height rnd = Returned maze -> P maze.
Proof.
  intros HP H0. unfold generateAldousBroderMaze. cbv zeta.
  destruct (randomIndex (Z.to_nat height) rnd) as [i rnd1].
  destruct (randomIndex (Z.to_nat width) rnd1) as [j rnd2].
  intros H. apply bind_Returned in H as (maze1 & Hset & H).
  apply bind_Returned in H as (maze2 & Hloop & H).
  eapply openEnds_keeps; [done | | exact H].
  clear H. revert maze2 Hloop.
  apply (loop_invariant _ (fun st => P (AldousBroder.maze st)) P);
    [| |simpl; eauto].
  - intros st st' Hst. unfold AldousBroder.step.
    destruct (_ <? _); [|done].
    destruct (randomIndex _ _) as [k rnd3].
    destruct (cellDirections !! k) as [d|]; [|done].
    destruct (isGridCell _ _ _ _); [|by intros [= <-]].
    case_bool_decide; [by intros [= <-]|].
    destruct (_ ≫= _) as [m2| |] eqn:Em; try done.
    intros [= <-]. simpl.
    apply bind_Returned in Em as (m1 & H1 & H2). eauto.
  - intros st m Hst. unfold AldousBroder.step.
    destruct (_ <? _); [|by intros [= <-]].
    destruct (randomIndex _ _) as [k rnd3].
    destruct (cellDirections !! k) as [d|]; [|done].
    destruct (isGridCell _ _ _ _); [|done].
    case_bool_decide; [done|]. by destruct (_ ≫= _).
Qed.

Lemma growingTree_keeps P fuel width height method rnd maze :
  Carving P -> P (newGrid (height * 2 + 1) (width * 2 + 1) Wall) ->
  generateGrowingTreeMaze fuel width height method rnd = Returned maze ->
  P maze.
Proof.
  intros HP H0. unfold generateGrowingTreeMaze. cbv zeta.
  destruct (randomIndex (Z.to_nat height) rnd) as [i rnd1].
  destruct (randomIndex (Z.to_nat width) rnd1) as [j rnd2].
  intros H. apply bind_Returned in H as (maze1 & Hset & H).
  apply bind_Returned in H as (maze2 & Hloop & H).
  eapply openEnds_keeps; [done | | exact H].
  clear H. revert maze2 Hloop.
  apply (loop_invariant _ (fun st => P (GrowingTree.maze st)) P);
    [| |simpl; eauto].
  - intros st st' Hst. unfold GrowingTree.step.
    destruct (GrowingTree.activeCells st) as [|a0 rest]; [done|].
    destruct (match method with
              | newest => _ | oldest => _ | random => _ end)
      as [cellIndex rnd3].
    destruct (_ !! cellIndex) as [cur|]; [|done].
    destruct (filter _ _) as [|n0 ns]; [by intros [= <-]|].
    destruct (randomIndex _ _) as [k rnd4].
    destruct (_ !! k) as [next|]; [|done].
    destruct (_ ≫= _) as [m2| |] eqn:Em; try done.
    intros [= <-]. simpl.
    apply bind_Returned in Em as (m1 & H1 & H2). eauto.
  - intros st m Hst. unfold GrowingTree.step.
    destruct (GrowingTree.activeCells st) as [|a0 rest]; [by intros [= <-]|].
    destruct (match method with
              | newest => _ | oldest => _ | random => _ end)
      as [cellIndex rnd3].
    destruct (_ !! cellIndex) as [cur|]; [|done].
    destruct (filter _ _) as [|n0 ns]; [done|].
    destruct (randomIndex _ _) as [k rnd4].
    destruct (_ !! k) as [next|]; [|done].
    by destruct (_ ≫= _).
Qed.

(** ** The shape of a generated grid *)

(** A matrix of [gh] rows of [gw] entries, each a path or a wall. *)
Definition Shaped (gh gw : Z) (maze : Grid) : Prop :=
  numRows maze = gh /\
  Forall (fun row => Z.of_nat (length row) = gw /\
                     Forall (fun v => v = Path \/ v = Wall) row) maze.

Lemma shaped_newGrid gh gw v :
  0 <= gh -> 0 <= gw -> v = Path \/ v = Wall -> Shaped gh gw (newGrid gh gw v).
Proof.
  intros Hh Hw Hv. unfold Shaped, newGrid, numRows.
  rewrite length_replicate. split; [lia|].
  apply Forall_replicate. rewrite length_replicate. split; [lia|].
  by apply Forall_replicate.
Qed.

Lemma shaped_setCell gh gw maze r c v maze' :
  Shaped gh gw maze -> v = Path \/ v = Wall ->
  setCell maze r c v = Returned maze' -> Shaped gh gw maze'.
Proof.
  intros [Hrows Hall] Hv H.
  apply setCell_Returned in H as (row & Hr & Hc & Hrow & Hlen & ->).
  unfold Shaped, numRows in *. rewrite length_insert. split; [done|].
  apply Forall_insert; [done|].
  destruct (proj1 (Forall_lookup _ _) Hall _ _ Hrow) as [Hl Hvs].
  rewrite length_insert. split; [done|]. by apply Forall_insert.
Qed.

Lemma shaped_carving gh gw : Carving (Shaped gh gw).
Proof.
  intros m r c m' Hm H.
  exact (shaped_setCell gh gw m r c Path m' Hm (or_introl eq_refl) H).
Qed.

Lemma shaped_walling gh gw : Walling (Shaped gh gw).
Proof.
  intros m r c m' Hm H.
  exact (shaped_setCell gh gw m r c Wall m' Hm (or_intror eq_refl) H).
Qed.

Lemma shaped_numCols gh gw maze :
  0 < gh -> Shaped gh gw maze -> numCols maze = Some gw.
Proof.
  intros Hh [Hrows Hall]. unfold numRows in Hrows.
  destruct maze as [|row maze]; simpl in *; [lia|].
  apply Forall_cons in Hall as [[-> _] _]. done.
Qed.

Lemma shaped_cellAt gh gw maze r c :
  Shaped gh gw maze -> 0 <= r < gh -> 0 <= c < gw ->
  cellAt maze r c = Some Path \/ cellAt maze r c = Some Wall.
Proof.
  intros [Hrows Hall] Hr Hc. unfold cellAt, numRows in *.
  replace ((r <? 0) || (c <? 0)) with false
    by (symmetry; apply orb_false_intro; lia).
  destruct (lookup_lt_is_Some_2 maze (Z.to_nat r) ltac:(lia)) as [row Hrow].
  rewrite Hrow.
  destruct (proj1 (Forall_lookup _ _) Hall _ _ Hrow) as [Hl Hvs].
  destruct (lookup_lt_is_Some_2 row (Z.to_nat c) ltac:(lia)) as [v Hv].
  rewrite Hv.
  destruct (proj1 (Forall_lookup _ _) Hvs _ _ Hv) as [->| ->]; auto.
Qed.

(** The eight generators. *)
Definition generated (width height : Z) (maze : Grid) : Prop :=
  exists (fuel : nat) (rnd : Rand) (method : Method),
    generateRecursiveBacktrackerMaze fuel width height rnd = Returned maze \/
    generatePrimsMaze fuel width height rnd = Returned maze \/
    generateKruskalsMaze fuel width height rnd = Returned maze \/
    generateBinaryTreeMaze width height rnd = Returned maze \/
    generateWilsonsMaze fuel width height rnd = Returned maze \/
    generateAldousBroderMaze fuel width height rnd = Returned maze \/
    generateRecursiveDivisionMaze fuel width height rnd = Returned maze \/
    generateGrowingTreeMaze fuel width height method rnd = Returned maze.

Lemma generated_shaped width height maze :
  1 <= width -> 1 <= height -> generated width height maze ->
  Shaped (height * 2 + 1) (width * 2 + 1) maze.
Proof.
  intros Hw Hh (fuel & rnd & method & H).
  pose proof (shaped_carving (height * 2 + 1) (width * 2 + 1)) as HC.
  pose proof (shaped_walling (height * 2 + 1) (width * 2 + 1)) as HW.
  assert (H0 : forall v, v = Path \/ v = Wall ->
                 Shaped (height * 2 + 1) (width * 2 + 1)
                   (newGrid (height * 2 + 1) (width * 2 + 1) v)).
  { intros v Hv. apply shaped_newGrid; [lia | lia | done]. }
  destruct H as [H|[H|[H|[H|[H|[H|[H|H]]]]]]].
  - eapply backtracker_keeps; [done | | exact H]. auto.
  - eapply prims_keeps; [done | | exact H]. auto.
  - eapply kruskal_keeps; [done | | exact H]. auto.
  - eapply binaryTree_keeps; [done | | exact H]. auto.
  - eapply wilson_keeps; [done | | exact H]. auto.
  - eapply aldousBroder_keeps; [done | | exact H]. auto.
  - eapply division_keeps; [done | done | | exact H]. auto.
  - eapply growingTree_keeps; [done | | exact H]. auto.
Qed.

Lemma generated_ring width height maze :
  1 <= width -> 1 <= height -> generated width height maze ->
  ringAsReturned (height * 2 + 1) (width * 2 + 1) maze.
Proof.
  intros Hw Hh (fuel & rnd & method & H).
  destruct H as [H|[H|[H|[H|[H|[H|[H|H]]]]]]].
  - by eapply backtracker_ring.
  - by eapply prims_ring.
  - by eapply kruskal_ring.
  - by eapply binaryTree_ring.
  - by eapply wilson_ring.
  - by eapply aldousBroder_ring.
  - by eapply division_ring.
  - by eapply growingTree_ring.
Qed.

(** X9.  For [width, height >= 1] the grid a generator returns is a matrix
    of [2 * height + 1] rows of [2 * width + 1] entries each, and every
    entry is a path or a wall. *)
Theorem generated_grid_shape :
  forall (width height : Z) (maze : Grid),
    1 <= width -> 1 <= height ->
    generated width height maze ->
    numRows maze = height * 2 + 1 /\
    numCols maze = Some (width * 2 + 1) /\
    Forall (fun row => Z.of_nat (length row) = width * 2 + 1) maze /\
    forall r c, 0 <= r < height * 2 + 1 -> 0 <= c < width * 2 + 1 ->
                cellAt maze r c = Some Path \/ cellAt maze r c = Some Wall.
Proof.
  intros width height maze Hw Hh Hgen.
  pose proof (generated_shaped width height maze Hw Hh Hgen) as Hs.
  split_and!.
  - apply Hs.
  - eapply shaped_numCols; [|exact Hs]. lia.
  - eapply Forall_impl; [apply Hs|]. by intros row [? _].
  - intros r c. by apply shaped_cellAt.
Qed.

Definition kruskalRun : Grid :=
  [[1; 1; 1; 1; 1]; [0; 0; 1; 0; 1]; [1; 0; 1; 0; 1]; [1; 0; 0; 0; 0];
   [1; 1; 1; 1; 1]].

Lemma kruskalRun_generated : generated 2 2 kruskalRun.
Proof.
  exists 20%nat, someRun, newest. right; right; left.
  vm_compute. reflexivity.
Qed.

Lemma generated_grid_shape_witness :
  numRows kruskalRun = 2 * 2 + 1 /\
  numCols kruskalRun = Some (2 * 2 + 1) /\
  Forall (fun row => Z.of_nat (length row) = 2 * 2 + 1) kruskalRun /\
  forall r c, 0 <= r < 2 * 2 + 1 -> 0 <= c < 2 * 2 + 1 ->
              cellAt kruskalRun r c = Some Path \/
              cellAt kruskalRun r c = Some Wall.
Proof.
  apply (generated_grid_shape 2 2 kruskalRun); [lia | lia |].
  exact kruskalRun_generated.
Defined.

(** ** The endpoints the page proposes ([MazeGenerator.tsx]) *)

(** [const defaultStart = [1, 0]] *)
Definition defaultStart : Coord := (1, 0).

(** [const defaultEnd = [newMaze.length - 2, newMaze[0].length - 1]] *)
Definition defaultEnd (newMaze : Grid) : outcome Coord :=
  match numCols newMaze with
  | None => Fault
  | Some nc => Returned (numRows newMaze - 2, nc - 1)
  end.

(** The test [isValidPoint] of [findPath] and [runPathfindingComparison],
    with the [numRows] and [numCols] they read off [mazeData] first. *)
Definition isValidPoint (mazeData : Grid) (numRows numCols : Z) (p : Coord)
  : bool :=
  (p.1 >=? 0) && (p.1 <? numRows) && (p.2 >=? 0) && (p.2 <? numCols)
  && cellIs mazeData p.1 p.2 Path.

Lemma isValidPoint_guard maze nr nc p :
  isValidPoint maze nr nc p = true -> invalidEndpoint maze nr nc p = false.
Proof.
  unfold isValidPoint, invalidEndpoint. intros H.
  repeat (apply andb_true_iff in H as [H ?]).
  rewrite (cellIs_Path_not_Wall _ _ _ ltac:(eassumption)).
  repeat (apply orb_false_intro); try done;
    rewrite ?Z.ltb_ge, ?Z.geb_leb, ?Z.leb_gt; lia.
Qed.

(** X10.  On the grid any generator returns for [width, height >= 1], the
    start [(1, 0)] and the end [(rows - 2, columns - 1)] the page fills in
    after generating are accepted by the page's [isValidPoint], and so by
    the guard the pathfinders open with: a search between the default
    endpoints is never refused. *)
Theorem default_endpoints_are_valid :
  forall (width height : Z) (maze : Grid),
    1 <= width -> 1 <= height ->
    generated width height maze ->
    exists nc goal,
      numCols maze = Some nc /\
      defaultEnd maze = Returned goal /\
      isValidPoint maze (numRows maze) nc defaultStart = true /\
      isValidPoint maze (numRows maze) nc goal = true /\
      invalidEndpoint maze (numRows maze) nc defaultStart = false /\
      invalidEndpoint maze (numRows maze) nc goal = false.
Proof.
  intros width height maze Hw Hh Hgen.
  pose proof (generated_shaped width height maze Hw Hh Hgen) as Hs.
  pose proof (generated_ring width height maze Hw Hh Hgen) as Hring.
  pose proof (shaped_numCols (height * 2 + 1) (width * 2 + 1) maze
                ltac:(lia) Hs) as Hnc.
  destruct Hs as [Hnr _].
  exists (width * 2 + 1), (height * 2 + 1 - 2, width * 2 + 1 - 1).
  assert (Hstart : isValidPoint maze (numRows maze) (width * 2 + 1)
                     defaultStart = true).
  { unfold isValidPoint, defaultStart, cellIs. cbn [fst snd].
    rewrite (Hring 1 0) by (unfold onRing; lia).
    rewrite bool_decide_eq_true_2 by (left; done).
    rewrite !andb_true_iff, !Z.geb_le, !Z.ltb_lt, Hnr.
    split_and!; try lia; done. }
  assert (Hgoal : isValidPoint maze (numRows maze) (width * 2 + 1)
                    (height * 2 + 1 - 2, width * 2 + 1 - 1) = true).
  { unfold isValidPoint, cellIs. cbn [fst snd].
    rewrite (Hring (height * 2 + 1 - 2) (width * 2 + 1 - 1))
      by (unfold onRing; lia).
    rewrite bool_decide_eq_true_2 by (right; done).
    rewrite !andb_true_iff, !Z.geb_le, !Z.ltb_lt, Hnr.
    split_and!; try lia; done. }
  split_and!; try done.
  - unfold defaultEnd. by rewrite Hnc, Hnr.
  - by apply isValidPoint_guard.
  - by apply isValidPoint_guard.
Qed.

Lemma default_endpoints_are_valid_witness :
  exists nc goal,
    numCols kruskalRun = Some nc /\
    defaultEnd kruskalRun = Returned goal /\
    isValidPoint kruskalRun (numRows kruskalRun) nc defaultStart = true /\
    isValidPoint kruskalRun (numRows kruskalRun) nc goal = true /\
    invalidEndpoint kruskalRun (numRows kruskalRun) nc defaultStart = false /\
    invalidEndpoint kruskalRun (numRows kruskalRun) nc goal = false.
Proof.
  apply (default_endpoints_are_valid 2 2 kruskalRun); [lia | lia |].
  exact kruskalRun_generated.
Defined.

(** ** Every cell is carved *)

(** The interior positions with both coordinates odd are the cells of the
    maze; [allCarved] says each of them is a path. *)
Definition allCarved (width height : Z) (maze : Grid) : Prop :=
  forall r c, 0 <= r < height -> 0 <= c < width ->
              cellAt maze (r * 2 + 1) (c * 2 + 1) = Some Path.

(** Paths that stay: every path of [maze] is a path of [maze']. *)
Definition keepsPaths (maze maze' : Grid) : Prop :=
  forall r c, cellAt maze r c = Some Path -> cellAt maze' r c = Some Path.

Lemma keepsPaths_refl maze : keepsPaths maze maze.
Proof. by intros r c. Qed.

Lemma keepsPaths_trans m1 m2 m3 :
  keepsPaths m1 m2 -> keepsPaths m2 m3 -> keepsPaths m1 m3.
Proof. intros H12 H23 r c H. by apply H23, H12. Qed.

Lemma setCell_path maze r c maze' :
  setCell maze r c Path = Returned maze' ->
  cellAt maze' r c = Some Path /\ keepsPaths maze maze'.
Proof.
  intros H. split.
  - rewrite (cellAt_setCell _ _ _ _ _ _ _ H).
    by rewrite bool_decide_eq_true_2.
  - intros r' c' Hw.
    rewrite (cellAt_setCell _ _ _ _ _ _ _ H). by case_bool_decide.
Qed.

Lemma carving_keepsPaths maze : Carving (keepsPaths maze).
Proof.
  intros m r c m' Hm H. apply setCell_path in H as [_ H].
  by eapply keepsPaths_trans.
Qed.

Lemma carving_allCarved width height : Carving (allCarved width height).
Proof.
  intros m r c m' Hm H r0 c0 Hr Hc.
  apply setCell_path in H as [_ H]. by apply H, Hm.
Qed.

(** A loop whose body establishes [Q a] for the element [a] it runs on, and
    only moves along a preorder [R] that keeps every [Q] true, leaves [Q a]
    true of every element it ran over. *)
Lemma foldM_each {A B : Type} (f : B -> A -> outcome B) (R : B -> B -> Prop)
    (Q : A -> B -> Prop) (l : list A) :
  (forall b, R b b) ->
  (forall b1 b2 b3, R b1 b2 -> R b2 b3 -> R b1 b3) ->
  (forall a b b', Q a b -> R b b' -> Q a b') ->
  (forall b a b', a ∈ l -> f b a = Returned b' -> Q a b' /\ R b b') ->
  forall b b', foldM f l b = Returned b' ->
               R b b' /\ forall a, a ∈ l -> Q a b'.
Proof.
  intros Hrefl Htrans Hmono. induction l as [|x l IH]; intros Hf b b' H;
    simpl in H.
  - injection H as <-. split; [done|]. intros a Ha. by apply elem_of_nil in Ha.
  - apply bind_Returned in H as (b1 & H1 & H2).
    apply Hf in H1 as [Hx H1]; [|by apply elem_of_cons; left].
    apply IH in H2 as [H2 Hl].
    2:{ intros b0 a b0' Ha. apply Hf. by apply elem_of_cons; right. }
    split; [by eapply Htrans|].
    intros a Ha. apply elem_of_cons in Ha as [->|Ha]; [|by apply Hl].
    by eapply Hmono.
Qed.

(** *** Randomized Kruskal: the first double loop carves every cell *)

Lemma kruskal_cells_carved width height maze maze' :
  Kruskal.carveCells width height maze = Returned maze' ->
  allCarved width height maze'.
Proof.
  unfold Kruskal.carveCells. intros H.
  apply (foldM_each _ keepsPaths
           (fun r m => forall c, 0 <= c < width ->
                                 cellAt m (r * 2 + 1) (c * 2 + 1) = Some Path))
    in H as [_ H].
  - intros r c Hr Hc. apply H; [|done]. apply elem_of_seqZ. lia.
  - apply keepsPaths_refl.
  - apply keepsPaths_trans.
  - intros r m m' Hq Hk c Hc. by apply Hk, Hq.
  - intros m r m' _ Hrow.
    apply (foldM_each _ keepsPaths
             (fun c m => cellAt m (r * 2 + 1) (c * 2 + 1) = Some Path))
      in Hrow as [Hk Hrow].
    + split; [|done]. intros c Hc. apply Hrow, elem_of_seqZ. lia.
    + apply keepsPaths_refl.
    + apply keepsPaths_trans.
    + intros c m1 m2 Hq Hk. by apply Hk.
    + intros m1 c m2 _ Hset. by apply setCell_path.
Qed.

Lemma kruskal_walls_keep P fuel walls st st' :
  Carving P -> P st.1.1 ->
  foldM (Kruskal.processWall fuel) walls st = Returned st' -> P st'.1.1.
Proof.
  intros HP H0 Hfold.
  eapply (foldM_invariant _ (fun st => P st.1.1)); [|exact H0|exact Hfold].
  intros [[m p] rk] wall st1 Hst _ Hw. simpl in Hst.
  unfold Kruskal.processWall in Hw.
  apply bind_Returned in Hw as ([root1 parent1] & _ & Hw).
  apply bind_Returned in Hw as ([root2 parent2] & _ & Hw).
  destruct (root1 =? root2); [by injection Hw as <-|].
  apply bind_Returned in Hw as (m1 & Hset & Hw).
  apply bind_Returned in Hw as ([parent3 rank1] & _ & Hw).
  injection Hw as <-. simpl. eauto.
Qed.

Lemma kruskal_allCarved fuel width height rnd maze :
  generateKruskalsMaze fuel width height rnd = Returned maze ->
  allCarved width height maze.
Proof.
  unfold generateKruskalsMaze. cbv zeta. intros H.
  apply bind_Returned in H as (maze1 & Hcells & H).
  destruct (shuffle (Kruskal.allWalls width height) rnd) as [walls rnd'].
  apply bind_Returned in H as ([[maze2 parent] rank] & Hfold & H).
  eapply openEnds_keeps; [apply carving_allCarved | | exact H].
  apply (kruskal_walls_keep (allCarved width height) _ _ _ _
           (carving_allCarved _ _)) in Hfold; [done|].
  simpl. by eapply kruskal_cells_carved.
Qed.

(** *** Binary tree: the loops carve the cell they stand on *)

Lemma oddIndices_elem n i : 0 <= i < n -> i * 2 + 1 ∈ BinaryTree.oddIndices n.
Proof.
  intros Hi. unfold BinaryTree.oddIndices.
  apply list_elem_of_fmap. exists i. split; [lia|]. apply elem_of_seqZ. lia.
Qed.

Lemma binaryTree_cell_carved r st c st' :
  BinaryTree.carveCell r st c = Returned st' ->
  cellAt st'.1 r c = Some Path /\ keepsPaths st.1 st'.1.
Proof.
  destruct st as [m rnd]. unfold BinaryTree.carveCell. intros H.
  apply bind_Returned in H as (m1 & H1 & H).
  apply setCell_path in H1 as [Hc Hk].
  destruct (r >? 1), (c >? 1); simpl in H;
    try destruct (randomCoin rnd) as [[] ?];
    inv_outcome; subst st'; simpl; try done;
    match goal with
    | Hs : setCell m1 _ _ Path = Returned _ |- _ =>
        apply setCell_path in Hs as [_ Hs];
        split; [by apply Hs | by eapply keepsPaths_trans]
    end.
Qed.

Lemma binaryTree_allCarved width height rnd maze :
  generateBinaryTreeMaze width height rnd = Returned maze ->
  allCarved width height maze.
Proof.
  unfold generateBinaryTreeMaze. cbv zeta. intros H.
  apply bind_Returned in H as ([m rnd'] & Hfold & H).
  eapply openEnds_keeps; [apply carving_allCarved | | exact H].
  apply (foldM_each _ (fun st st' : Grid * Rand => keepsPaths st.1 st'.1)
           (fun r st => forall c, c ∈ BinaryTree.oddIndices width ->
                                  cellAt st.1 r c = Some Path))
    in Hfold as [_ Hfold].
  - intros r c Hr Hc. apply (Hfold (r * 2 + 1)); by apply oddIndices_elem.
  - intros st. apply keepsPaths_refl.
  - intros st1 st2 st3. apply keepsPaths_trans.
  - intros r st st' Hq Hk c Hc. by apply Hk, Hq.
  - intros st r st' _ Hrow. unfold BinaryTree.carveRow in Hrow.
    apply (foldM_each _ (fun st st' : Grid * Rand => keepsPaths st.1 st'.1)
             (fun c st => cellAt st.1 r c = Some Path))
      in Hrow as [Hk Hrow]; [done | ..].
    + intros st0. apply keepsPaths_refl.
    + intros st1 st2 st3. apply keepsPaths_trans.
    + intros c st1 st2 Hq Hk. by apply Hk.
    + intros st1 c st2 _ Hcell. by apply binaryTree_cell_carved.
Qed.

(** *** Recursive division: walls only go on even rows and columns *)

(** A property no wall written on an even row or an even column undoes. *)
Definition EvenWalling (P : Grid -> Prop) : Prop :=
  forall m r c m',
    P m -> Z.even r = true \/ Z.even c = true ->
    setCell m r c Wall = Returned m' -> P m'.

Lemma evenWalling_allCarved width height : EvenWalling (allCarved width height).
Proof.
  intros m r c m' Hm Heven H r0 c0 Hr Hc.
  rewrite (cellAt_setCell _ _ _ _ _ _ _ H).
  rewrite bool_decide_eq_false_2; [by apply Hm|].
  intros [<- <-].
  rewrite !Z.even_add, !Z.even_mul in Heven. simpl in Heven.
  rewrite !orb_true_r in Heven. by destruct Heven.
Qed.

Lemma outerWalls_even P width height maze maze' :
  EvenWalling P -> P maze ->
  Division.outerWalls (height * 2 + 1) (width * 2 + 1) maze = Returned maze' ->
  P maze'.
Proof.
  intros HP Hm H. unfold Division.outerWalls in H.
  apply bind_Returned in H as (m1 & Hrows & Hcols).
  assert (He0 : Z.even 0 = true) by done.
  assert (Hew : Z.even (width * 2 + 1 - 1) = true).
  { replace (width * 2 + 1 - 1) with (2 * width) by lia.
    by rewrite Z.even_mul. }
  assert (Heh : Z.even (height * 2 + 1 - 1) = true).
  { replace (height * 2 + 1 - 1) with (2 * height) by lia.
    by rewrite Z.even_mul. }
  eapply (foldM_invariant _ P); [| |exact Hcols].
  - intros m c m' Hp _ Hb. apply bind_Returned in Hb as (m0 & Ha & Hb).
    eapply HP; [| |exact Hb]; [|by left]. eapply HP; [exact Hp| |exact Ha].
    by left.
  - eapply (foldM_invariant _ P); [|exact Hm|exact Hrows].
    intros m c m' Hp _ Hb. apply bind_Returned in Hb as (m0 & Ha & Hb).
    eapply HP; [| |exact Hb]; [|by right]. eapply HP; [exact Hp| |exact Ha].
    by right.
Qed.

Lemma divide_even P fuel :
  EvenWalling P ->
  forall r1 c1 r2 c2 maze rnd maze' rnd',
    Z.odd r1 = true -> Z.odd c1 = true -> P maze ->
    Division.divide fuel r1 c1 r2 c2 maze rnd = Returned (maze', rnd') ->
    P maze'.
Proof.
  intros HP.
  induction fuel as [|n IH];
    intros r1 c1 r2 c2 maze rnd maze' rnd' Hr1 Hc1 Hm H; [done|].
  cbn [Division.divide] in H.
  destruct ((r2 - r1 <? 4) || (c2 - c1 <? 4)).
  { by injection H as <- <-. }
  assert (Hnext : forall i : nat, Z.odd (r1 + 1 + 2 * Z.of_nat i + 1) = true
                                  /\ Z.even (r1 + 1 + 2 * Z.of_nat i) = true
                                  /\ Z.odd (c1 + 1 + 2 * Z.of_nat i + 1) = true
                                  /\ Z.even (c1 + 1 + 2 * Z.of_nat i) = true).
  { intros i. rewrite <- !Z.negb_odd, !Z.odd_add, !Z.odd_mul, Hr1, Hc1.
    done. }
  destruct (if r2 - r1 >? c2 - c1 then (true, rnd)
            else if r2 - r1 =? c2 - c1 then randomCoin rnd else (false, rnd))
    as [[] rnd1].
  - destruct (randomIndex (Z.to_nat ((r2 - r1) / 2)) rnd1) as [i rnd2].
    destruct (randomIndex (Z.to_nat ((c2 - c1) / 2 + 1)) rnd2) as [j rnd3].
    destruct (Hnext i) as (Ho & He & _ & _).
    apply bind_Returned in H as (maze1 & Hdraw & H).
    apply bind_Returned in H as ([maze2 rnd4] & Hleft & Hright).
    eapply IH; [exact Ho | exact Hc1 | | exact Hright].
    eapply IH; [exact Hr1 | exact Hc1 | | exact Hleft].
    unfold Division.drawHorizontal in Hdraw.
    eapply (foldM_invariant _ P); [|exact Hm|exact Hdraw].
    intros m c m' Hp _ Hset. cbv beta in Hset.
    destruct (c =? _); [by injection Hset as <-|].
    eapply HP; [exact Hp | | exact Hset]. by left.
  - destruct (randomIndex (Z.to_nat ((c2 - c1) / 2)) rnd1) as [i rnd2].
    destruct (randomIndex (Z.to_nat ((r2 - r1) / 2 + 1)) rnd2) as [j rnd3].
    destruct (Hnext i) as (_ & _ & Ho & He).
    apply bind_Returned in H as (maze1 & Hdraw & H).
    apply bind_Returned in H as ([maze2 rnd4] & Hleft & Hright).
    eapply IH; [exact Hr1 | exact Ho | | exact Hright].
    eapply IH; [exact Hr1 | exact Hc1 | | exact Hleft].
    unfold Division.drawVertical in Hdraw.
    eapply (foldM_invariant _ P); [|exact Hm|exact Hdraw].
    intros m c m' Hp _ Hset. cbv beta in Hset.
    destruct (c =? _); [by injection Hset as <-|].
    eapply HP; [exact Hp | | exact Hset]. by right.
Qed.

Lemma division_allCarved fuel width height rnd maze :
  generateRecursiveDivisionMaze fuel width height rnd = Returned maze ->
  allCarved width height maze.
Proof.
  unfold generateRecursiveDivisionMaze. cbv zeta. intros H.
  apply bind_Returned in H as (m0 & Houter & H).
  apply bind_Returned in H as ([m1 rnd'] & Hdiv & H).
  eapply openEnds_keeps; [apply carving_allCarved | | exact H].
  apply (divide_even (allCarved width height) fuel
           (evenWalling_allCarved width height) 1 1 (height * 2 + 1 - 2)
           (width * 2 + 1 - 2) m0 rnd m1 rnd' eq_refl eq_refl);
    [|exact Hdiv].
  eapply outerWalls_even;
    [apply evenWalling_allCarved | | exact Houter].
  intros r c Hr Hc. apply cellAt_newGrid; lia.
Qed.

(** *** Aldous-Broder: the walk ends when the count reaches every cell *)

Lemma length_bind_const {A B : Type} (f : A -> list B) (n : nat) (l : list A) :
  (forall x, length (f x) = n) -> length (l ≫= f) = (length l * n)%nat.
Proof.
  intros Hf. induction l as [|x l IH]; [done|].
  change ((x :: l) ≫= f) with (f x ++ (l ≫= f)).
  rewrite length_app, Hf, IH. simpl. lia.
Qed.

Lemma size_universe nr nc :
  size (universe nr nc) = (Z.to_nat nr * Z.to_nat nc)%nat.
Proof.
  unfold universe. rewrite size_list_to_set.
  - rewrite (length_bind_const _ (Z.to_nat nc)), length_seqZ; [done|].
    intros r. rewrite (length_bind_const _ 1%nat), length_seqZ; [lia|done].
  - apply NoDup_bind; [| |apply NoDup_seqZ].
    + intros r1 r2 p _ _ H1 H2.
      apply list_elem_of_bind in H1 as (c1 & H1 & _).
      apply list_elem_of_bind in H2 as (c2 & H2 & _).
      apply list_elem_of_singleton in H1, H2. congruence.
    + intros r _. apply NoDup_bind; [| |apply NoDup_seqZ].
      * intros c1 c2 p _ _ H1 H2.
        apply list_elem_of_singleton in H1, H2. congruence.
      * intros c _. apply NoDup_singleton.
Qed.

(** A position [isGridCell] accepts is the grid position of a cell. *)
Lemma isGridCell_cell width height r c :
  isGridCell (height * 2 + 1) (width * 2 + 1) r c = true ->
  gridToCell (r, c) ∈ universe height width /\
  cellToGrid (gridToCell (r, c)) = (r, c).
Proof.
  unfold isGridCell. intros H.
  repeat (apply andb_true_iff in H as [H ?]).
  assert (Hr : Z.rem r 2 = 1) by lia. assert (Hc : Z.rem c 2 = 1) by lia.
  rewrite Z.rem_mod_nonneg in Hr, Hc by lia.
  unfold gridToCell, cellToGrid. simpl. split.
  - apply elem_of_universe. simpl.
    pose proof (Z.div_mod r 2 ltac:(lia)).
    pose proof (Z.div_mod c 2 ltac:(lia)).
    pose proof (Z.div_mod (r - 1) 2 ltac:(lia)).
    pose proof (Z.div_mod (c - 1) 2 ltac:(lia)).
    pose proof (Z.mod_pos_bound (r - 1) 2 ltac:(lia)).
    pose proof (Z.mod_pos_bound (c - 1) 2 ltac:(lia)). lia.
  - pose proof (Z.div_mod r 2 ltac:(lia)).
    pose proof (Z.div_mod c 2 ltac:(lia)).
    pose proof (Z.div_mod (r - 1) 2 ltac:(lia)).
    pose proof (Z.div_mod (c - 1) 2 ltac:(lia)).
    pose proof (Z.mod_pos_bound (r - 1) 2 ltac:(lia)).
    pose proof (Z.mod_pos_bound (c - 1) 2 ltac:(lia)).
    f_equal; lia.
Qed.

(** Cells that are all carved, when they are as many as the maze has. *)
Lemma carved_when_full (width height : Z) (visited : gset Coord)
    (maze : Grid) :
  0 <= width -> 0 <= height ->
  (forall p, p ∈ visited -> p ∈ universe height width) ->
  (forall p, p ∈ visited ->
             cellAt maze (cellToGrid p).1 (cellToGrid p).2 = Some Path) ->
  width * height <= Z.of_nat (size visited) ->
  allCarved width height maze.
Proof.
  intros Hw Hh Hsub Hcarved Hfull r c Hr Hc.
  assert (Heq : visited ≡ universe height width).
  { apply set_subseteq_size_equiv; [done|]. rewrite size_universe. nia. }
  apply (Hcarved (r, c)). apply Heq, elem_of_universe. simpl. lia.
Qed.

Module AldousBroderCells.
Import AldousBroder.

Record Inv (width height : Z) (st : State) : Prop := {
  inv_cells : forall p, p ∈ visitedCells st -> p ∈ universe height width;
  inv_count : cellsVisitedCount st = Z.of_nat (size (visitedCells st));
  inv_carved : forall p,
    p ∈ visitedCells st ->
    cellAt (maze st) (cellToGrid p).1 (cellToGrid p).2 = Some Path
}.

Lemma aldousBroder_step_cells width height st st' :
  Inv width height st ->
  step (height * 2 + 1) (width * 2 + 1) (width * height) st = inl st' ->
  Inv width height st'.
Proof.
  intros [Hsub Hcount Hcarved]. unfold step.
  destruct (_ <? _); [|done].
  destruct (randomIndex _ _) as [k rnd3].
  destruct (cellDirections !! k) as [d|]; [|done].
  destruct (isGridCell _ _ _ _) eqn:Ecell; [|by intros [= <-]].
  case_bool_decide as Hin; [by intros [= <-]|].
  destruct (_ ≫= _) as [m2| |] eqn:Em; try done.
  intros [= <-].
  apply bind_Returned in Em as (m1 & H1 & H2).
  apply setCell_path in H1 as [_ Hk1], H2 as [Hnext Hk2].
  destruct (isGridCell_cell width height _ _ Ecell) as [Hu Hround].
  set (next := move (current st) d) in *.
  replace (next.1, next.2) with next in * by (by destruct next).
  split; simpl.
  - intros p Hp. apply elem_of_union in Hp as [Hp|Hp]; [|by apply Hsub].
    by apply elem_of_singleton in Hp as ->.
  - rewrite size_union, size_singleton; [lia|].
    intros x Hx1 Hx2. by apply elem_of_singleton in Hx1 as ->.
  - intros p Hp. apply elem_of_union in Hp as [Hp|Hp].
    + apply elem_of_singleton in Hp as ->. rewrite <- Hround in Hnext.
      exact Hnext.
    + by apply Hk2, Hk1, Hcarved.
Qed.

Lemma aldousBroder_exit_cells width height st maze' :
  0 <= width -> 0 <= height ->
  Inv width height st ->
  step (height * 2 + 1) (width * 2 + 1) (width * height) st
  = inr (Returned maze') ->
  allCarved width height maze'.
Proof.
  intros Hw Hh [Hsub Hcount Hcarved]. unfold step.
  destruct (_ <? _) eqn:Elt.
  - destruct (randomIndex _ _) as [k rnd3].
    destruct (cellDirections !! k) as [d|]; [|done].
    destruct (isGridCell _ _ _ _); [|done].
    case_bool_decide; [done|]. by destruct (_ ≫= _).
  - intros [= <-]. apply Z.ltb_ge in Elt.
    eapply carved_when_full; eauto. lia.
Qed.

End AldousBroderCells.

Lemma aldousBroder_allCarved fuel width height rnd maze :
  1 <= width -> 1 <= height ->
  generateAldousBroderMaze fuel width height rnd = Returned maze ->
  allCarved width height maze.
Proof.
  intros Hw Hh. unfold generateAldousBroderMaze. cbv zeta.
  pose proof (randomIndex_lt (Z.to_nat height) rnd ltac:(lia)) as Hi.
  destruct (randomIndex (Z.to_nat height) rnd) as [i rnd1].
  pose proof (randomIndex_lt (Z.to_nat width) rnd1 ltac:(lia)) as Hj.
  destruct (randomIndex (Z.to_nat width) rnd1) as [j rnd2].
  simpl in Hi, Hj.
  intros H. apply bind_Returned in H as (maze1 & Hset & H).
  apply bind_Returned in H as (maze2 & Hloop & H).
  eapply openEnds_keeps; [apply carving_allCarved | | exact H].
  clear H. revert maze2 Hloop.
  apply (loop_invariant _ (AldousBroderCells.Inv width height)).
  - intros s s'. apply AldousBroderCells.aldousBroder_step_cells.
  - intros s r. apply AldousBroderCells.aldousBroder_exit_cells; lia.
  - apply setCell_path in Hset as [Hc _].
    split; cbn [AldousBroder.maze AldousBroder.visitedCells
                  AldousBroder.cellsVisitedCount].
    + intros p Hp. apply elem_of_singleton in Hp as ->.
      apply elem_of_universe. simpl. lia.
    + by rewrite size_singleton.
    + intros p Hp. by apply elem_of_singleton in Hp as ->.
Qed.

(** *** Growing tree: a cell leaves the active list only when all its
    neighbours are visited *)

(** A set of cells that holds one cell of the maze and, with a cell, its
    neighbours inside the maze, holds them all. *)
Lemma cells_connected (width height : Z) (S : Coord -> Prop) (s : Coord) :
  S s -> GrowingTree.isCell width height s = true ->
  (forall p d, S p -> d ∈ directions ->
               GrowingTree.isCell width height (move p d) = true ->
               S (move p d)) ->
  forall t, GrowingTree.isCell width height t = true -> S t.
Proof.
  intros Hs Hcell Hclosed [tr tc] Ht.
  apply GrowingTreeFacts.isCell_valid in Hcell, Ht.
  destruct s as [sr sc]. unfold GrowingTreeFacts.validCell in *. simpl in *.
  assert (Hin : forall r c, 0 <= r < height -> 0 <= c < width ->
                  GrowingTree.isCell width height (r, c) = true).
  { intros r c Hr Hc. unfold GrowingTree.isCell. simpl.
    rewrite !andb_true_iff, !Z.geb_le, !Z.ltb_lt. lia. }
  assert (Hup : forall k, 0 <= k -> k <= sr -> S (sr - k, sc)).
  { intros k Hk. pattern k. apply natlike_ind; [| |done].
    - intros _. by rewrite Z.sub_0_r.
    - intros x Hx IH Hle.
      replace (sr - Z.succ x, sc) with (move (sr - x, sc) (-1, 0))
        by (unfold move; simpl; f_equal; lia).
      apply Hclosed; [apply IH; lia | unfold directions; rewrite !elem_of_cons; tauto |].
      unfold move. simpl. apply Hin; lia. }
  assert (Hdown : forall k, 0 <= k -> k < height -> S (k, sc)).
  { intros k Hk. pattern k. apply natlike_ind; [| |done].
    - intros _. specialize (Hup sr ltac:(lia) ltac:(lia)).
      by rewrite Z.sub_diag in Hup.
    - intros x Hx IH Hlt.
      replace (Z.succ x, sc) with (move (x, sc) (1, 0))
        by (unfold move; simpl; f_equal; lia).
      apply Hclosed; [apply IH; lia | unfold directions; rewrite !elem_of_cons; tauto |].
      unfold move. simpl. apply Hin; lia. }
  assert (Hleft : forall k, 0 <= k -> k <= sc -> S (tr, sc - k)).
  { intros k Hk. pattern k. apply natlike_ind; [| |done].
    - intros _. rewrite Z.sub_0_r. apply Hdown; lia.
    - intros x Hx IH Hle.
      replace (tr, sc - Z.succ x) with (move (tr, sc - x) (0, -1))
        by (unfold move; simpl; f_equal; lia).
      apply Hclosed; [apply IH; lia | unfold directions; rewrite !elem_of_cons; tauto |].
      unfold move. simpl. apply Hin; lia. }
  assert (Hright : forall k, 0 <= k -> k < width -> S (tr, k)).
  { intros k Hk. pattern k. apply natlike_ind; [| |done].
    - intros _. specialize (Hleft sc ltac:(lia) ltac:(lia)).
      by rewrite Z.sub_diag in Hleft.
    - intros x Hx IH Hlt.
      replace (tr, Z.succ x) with (move (tr, x) (0, 1))
        by (unfold move; simpl; f_equal; lia).
      apply Hclosed; [apply IH; lia | unfold directions; rewrite !elem_of_cons; tauto |].
      unfold move. simpl. apply Hin; lia. }
  apply Hright; lia.
Qed.

Lemma elem_of_delete_other {A} (l : list A) (i : nat) (x y : A) :
  l !! i = Some x -> y ∈ l -> y <> x -> y ∈ delete i l.
Proof.
  intros Hi Hy Hne. apply list_elem_of_lookup in Hy as [j Hj].
  assert (j <> i) by congruence.
  destruct (decide (j < i)%nat).
  - apply list_elem_of_lookup. exists j. by rewrite list_lookup_delete_lt.
  - apply list_elem_of_lookup. exists (j - 1)%nat.
    rewrite list_lookup_delete_ge by lia. by replace (S (j - 1)) with j by lia.
Qed.

Module GrowingTreeCells.
Import GrowingTree GrowingTreeFacts.

Record Inv (width height : Z) (start : Coord) (st : State) : Prop := {
  inv_start : start ∈ visitedCells st;
  inv_cells : forall p, p ∈ visitedCells st -> isCell width height p = true;
  inv_carved : forall p,
    p ∈ visitedCells st ->
    cellAt (maze st) (cellToGrid p).1 (cellToGrid p).2 = Some Path;
  inv_done : forall p,
    p ∈ visitedCells st ->
    p ∈ activeCells st \/
    forall d, d ∈ directions -> isCell width height (move p d) = true ->
              move p d ∈ visitedCells st
}.

Lemma growingTree_step_cells method width height start st st' :
  Inv width height start st -> step method width height st = inl st' ->
  Inv width height start st'.
Proof.
  intros [Hstart Hcells Hcarved Hdone]. unfold step.
  destruct (activeCells st) as [|a0 rest] eqn:Eact; [done|].
  destruct (match method with
            | newest => _ | oldest => _ | random => _ end)
    as [cellIndex rnd1].
  destruct ((a0 :: rest) !! cellIndex) as [cur|] eqn:Ecur; [|done].
  destruct (filter _ (map (move cur) directions)) as [|n0 ns] eqn:Eun.
  - intros [= <-]. split; simpl; try done.
    intros p Hp. destruct (decide (p = cur)) as [->|Hne].
    + right. intros d Hd Hc.
      destruct (decide (move cur d ∈ visitedCells st)) as [|Hnot]; [done|].
      assert (Hin : move cur d ∈ filter
                      (fun p => isCell width height p = true
                                ∧ p ∉ visitedCells st)
                      (map (move cur) directions)).
      { apply list_elem_of_filter. split; [done|].
        apply list_elem_of_In, in_map. by apply list_elem_of_In. }
      rewrite Eun in Hin. by apply elem_of_nil in Hin.
    + destruct (Hdone p Hp) as [Ha|Hn]; [left | by right].
      by apply (elem_of_delete_other _ _ cur).
  - destruct (randomIndex (length (n0 :: ns)) rnd1) as [k rnd2].
    destruct ((n0 :: ns) !! k) as [next|] eqn:Enext; [|done].
    destruct (_ ≫= _) as [m2| |] eqn:Em; try done.
    intros [= <-].
    apply bind_Returned in Em as (m1 & H1 & H2).
    apply setCell_path in H1 as [_ Hk1], H2 as [Hnext Hk2].
    apply list_elem_of_lookup_2 in Enext. rewrite <- Eun in Enext.
    apply list_elem_of_filter in Enext as [[Hcell Hfresh] _].
    split; simpl.
    + apply elem_of_union. by right.
    + intros p Hp. apply elem_of_union in Hp as [Hp|Hp]; [|by apply Hcells].
      by apply elem_of_singleton in Hp as ->.
    + intros p Hp. apply elem_of_union in Hp as [Hp|Hp].
      * by apply elem_of_singleton in Hp as ->.
      * by apply Hk2, Hk1, Hcarved.
    + change (a0 :: rest ++ [next]) with ((a0 :: rest) ++ [next]).
      intros p Hp. apply elem_of_union in Hp as [Hp|Hp].
      * apply elem_of_singleton in Hp as ->. left.
        apply elem_of_app. right. by apply list_elem_of_singleton.
      * destruct (Hdone p Hp) as [Ha|Hn].
        -- left. apply elem_of_app. by left.
        -- right. intros d Hd Hc. apply elem_of_union. right. by apply Hn.
Qed.

Lemma growingTree_exit_cells method width height start st maze' :
  Inv width height start st ->
  step method width height st = inr (Returned maze') ->
  allCarved width height maze'.
Proof.
  intros [Hstart Hcells Hcarved Hdone]. unfold step.
  destruct (activeCells st) as [|a0 rest] eqn:Eact.
  - intros [= <-] r c Hr Hc.
    apply (Hcarved (r, c)).
    apply (cells_connected width height (fun p => p ∈ visitedCells st) start);
      [done | by apply Hcells | |].
    + intros p d Hp Hd Hcell. destruct (Hdone p Hp) as [Ha|Hn]; [|by apply Hn].
      by apply elem_of_nil in Ha.
    + unfold isCell. simpl.
      rewrite !andb_true_iff, !Z.geb_le, !Z.ltb_lt. lia.
  - destruct (match method with
              | newest => _ | oldest => _ | random => _ end)
      as [cellIndex rnd1].
    destruct (_ !! cellIndex) as [cur|]; [|done].
    destruct (filter _ _) as [|n0 ns]; [done|].
    destruct (randomIndex _ _) as [k rnd2].
    destruct (_ !! k) as [next|]; [|done].
    by destruct (_ ≫= _).
Qed.

End GrowingTreeCells.

Lemma growingTree_allCarved fuel width height method rnd maze :
  1 <= width -> 1 <= height ->
  generateGrowingTreeMaze fuel width height method rnd = Returned maze ->
  allCarved width height maze.
Proof.
  intros Hw Hh. unfold generateGrowingTreeMaze. cbv zeta.
  pose proof (randomIndex_lt (Z.to_nat height) rnd ltac:(lia)) as Hi.
  destruct (randomIndex (Z.to_nat height) rnd) as [i rnd1].
  pose proof (randomIndex_lt (Z.to_nat width) rnd1 ltac:(lia)) as Hj.
  destruct (randomIndex (Z.to_nat width) rnd1) as [j rnd2].
  simpl in Hi, Hj.
  intros H. apply bind_Returned in H as (maze1 & Hset & H).
  apply bind_Returned in H as (maze2 & Hloop & H).
  eapply openEnds_keeps; [apply carving_allCarved | | exact H].
  clear H. revert maze2 Hloop.
  apply (loop_invariant _
           (GrowingTreeCells.Inv width height (Z.of_nat i, Z.of_nat j))).
  - intros s s'. apply GrowingTreeCells.growingTree_step_cells.
  - intros s r. apply GrowingTreeCells.growingTree_exit_cells.
  - apply setCell_path in Hset as [Hc _]. split; simpl.
    + by apply elem_of_singleton.
    + intros p Hp. apply elem_of_singleton in Hp as ->.
      unfold GrowingTree.isCell. simpl.
      rewrite !andb_true_iff, !Z.geb_le, !Z.ltb_lt. lia.
    + intros p Hp. by apply elem_of_singleton in Hp as ->.
    + intros p Hp. apply elem_of_singleton in Hp as ->. left.
      by apply list_elem_of_singleton.
Qed.

(** *** Wilson's algorithm: the loop ends when every cell is visited *)

(** The grid positions of the cells. *)
Definition gridCells (width height : Z) : gset Coord :=
  list_to_set (cellToGrid <$> elements (universe height width)).

Lemma elem_of_gridCells width height p :
  p ∈ gridCells width height <->
  exists q, p = cellToGrid q /\ q ∈ universe height width.
Proof.
  unfold gridCells. rewrite elem_of_list_to_set, list_elem_of_fmap.
  by setoid_rewrite elem_of_elements.
Qed.

Lemma size_gridCells width height :
  size (gridCells width height) = (Z.to_nat height * Z.to_nat width)%nat.
Proof.
  unfold gridCells. rewrite size_list_to_set.
  - rewrite length_fmap. apply size_universe.
  - apply NoDup_fmap_2_strong; [|apply NoDup_elements].
    intros [r1 c1] [r2 c2] _ _. unfold cellToGrid. simpl.
    intros [=]. f_equal; lia.
Qed.

Lemma isGridCell_gridCells width height p :
  isGridCell (height * 2 + 1) (width * 2 + 1) p.1 p.2 = true ->
  p ∈ gridCells width height.
Proof.
  intros H. apply elem_of_gridCells.
  destruct (isGridCell_cell width height _ _ H) as [Hu Hround].
  exists (gridToCell (p.1, p.2)). split; [|done].
  rewrite Hround. by destruct p.
Qed.

Lemma carved_when_all_visited (width height : Z) (visited : gset Coord)
    (maze : Grid) :
  0 <= width -> 0 <= height ->
  (forall p, p ∈ visited -> p ∈ gridCells width height) ->
  (forall p, p ∈ visited -> cellAt maze p.1 p.2 = Some Path) ->
  width * height <= Z.of_nat (size visited) ->
  allCarved width height maze.
Proof.
  intros Hw Hh Hsub Hcarved Hfull r c Hr Hc.
  assert (Heq : visited ≡ gridCells width height).
  { apply set_subseteq_size_equiv; [done|]. rewrite size_gridCells. nia. }
  apply (Hcarved (cellToGrid (r, c))). apply Heq, elem_of_gridCells.
  exists (r, c). split; [done|]. apply elem_of_universe. simpl. lia.
Qed.

Module WilsonCells.
Import Wilson.

Lemma pick_cell width height visited fuel rnd p :
  1 <= width -> 1 <= height ->
  loop (pickStep width height visited) fuel rnd = Returned p ->
  p.1 ∈ gridCells width height.
Proof.
  intros Hw Hh. revert p.
  apply (loop_invariant _ (fun _ => True)); [done | | done].
  intros rnd0 p _. unfold pickStep.
  pose proof (randomIndex_lt (Z.to_nat height) rnd0 ltac:(lia)) as Hi.
  destruct (randomIndex (Z.to_nat height) rnd0) as [i rnd1].
  pose proof (randomIndex_lt (Z.to_nat width) rnd1 ltac:(lia)) as Hj.
  destruct (randomIndex (Z.to_nat width) rnd1) as [j rnd2].
  simpl in Hi, Hj.
  case_bool_decide; [done|]. intros [= <-]. simpl.
  apply elem_of_gridCells. exists (Z.of_nat i, Z.of_nat j).
  split; [done|]. apply elem_of_universe. simpl. lia.
Qed.

Lemma walk_cells width height visited fuel w w' :
  Forall (fun p => p ∈ gridCells width height) (walk w) ->
  loop (walkStep (height * 2 + 1) (width * 2 + 1) visited) fuel w
  = Returned w' ->
  Forall (fun p => p ∈ gridCells width height) (walk w').
Proof.
  intros Hw. revert w'.
  apply (loop_invariant _
           (fun w => Forall (fun p => p ∈ gridCells width height) (walk w)));
    [| |done].
  - intros w0 w1 Hw0. unfold walkStep.
    case_bool_decide; [done|].
    destruct (randomIndex (length cellDirections) (rnd w0)) as [k rnd1].
    destruct (cellDirections !! k) as [d|]; [|done].
    destruct (isGridCell _ _ (move (current w0) d).1 (move (current w0) d).2)
      eqn:Ecell.
    + case_bool_decide; intros [= <-]; simpl.
      * by apply Forall_take.
      * apply Forall_app. split; [done|].
        apply Forall_singleton. by apply isGridCell_gridCells.
    + by intros [= <-].
  - intros w0 w1 Hw0. unfold walkStep.
    case_bool_decide.
    + by intros [= <-].
    + destruct (randomIndex (length cellDirections) (rnd w0)) as [k rnd1].
      destruct (cellDirections !! k) as [d|]; [|done].
      destruct (isGridCell _ _ _ _); [|done]. by case_bool_decide.
Qed.

Lemma carveWalk_cells cells :
  forall prev st st',
    carveWalk prev cells st = Returned st' ->
    keepsPaths st.1 st'.1 /\
    (forall p, p ∈ cells -> cellAt st'.1 p.1 p.2 = Some Path) /\
    (forall p, p ∈ st'.2 <-> p ∈ cells \/ p ∈ st.2).
Proof.
  induction cells as [|p rest IH]; intros prev [m v] st' H; simpl in H.
  - injection H as <-. split; [apply keepsPaths_refl|]. split.
    + intros p Hp. by apply elem_of_nil in Hp.
    + intros p. rewrite elem_of_nil. tauto.
  - apply bind_Returned in H as (m1 & H1 & H).
    apply bind_Returned in H as (m2 & H2 & H).
    apply setCell_path in H1 as [Hp Hk1].
    assert (Hk2 : keepsPaths m1 m2).
    { destruct prev as [q|].
      - by apply setCell_path in H2 as [_ H2].
      - injection H2 as <-. apply keepsPaths_refl. }
    apply IH in H as (Hk & Hrest & Hv). simpl in *.
    split; [eauto using keepsPaths_trans|]. split.
    + intros x Hx. apply elem_of_cons in Hx as [->|Hx]; [|by apply Hrest].
      by apply Hk, Hk2.
    + intros x. rewrite Hv, elem_of_union, elem_of_singleton, elem_of_cons.
      tauto.
Qed.

Record Inv (width height : Z) (st : State) : Prop := {
  inv_cells : forall p, p ∈ visitedCells st -> p ∈ gridCells width height;
  inv_carved : forall p,
    p ∈ visitedCells st -> cellAt (maze st) p.1 p.2 = Some Path
}.

Lemma wilson_step_cells fuel width height st st' :
  1 <= width -> 1 <= height ->
  Inv width height st ->
  step fuel width height (height * 2 + 1) (width * 2 + 1) st = inl st' ->
  Inv width height st'.
Proof.
  intros Hw Hh [Hsub Hcarved]. unfold step.
  destruct (_ <? _); [|done].
  destruct (loop (pickStep _ _ _) _ _) as [[startCell rnd1]| |] eqn:Epick;
    try done.
  destruct (loop (walkStep _ _ _) _ _) as [w| |] eqn:Ewalk; try done.
  destruct (carveWalk None (walk w) _) as [[maze' visited']| |] eqn:Ec;
    try done.
  intros [= <-]. simpl.
  apply pick_cell in Epick; [|done..]. simpl in Epick.
  apply walk_cells in Ewalk; [|by apply Forall_singleton].
  apply carveWalk_cells in Ec as (Hk & Hnew & Hv). simpl in *.
  split; simpl.
  - intros p Hp. apply Hv in Hp as [Hp|Hp]; [|by apply Hsub].
    by apply (proj1 (Forall_forall _ _) Ewalk).
  - intros p Hp. apply Hv in Hp as [Hp|Hp]; [by apply Hnew|].
    by apply Hk, Hcarved.
Qed.

Lemma wilson_exit_cells fuel width height st maze' :
  0 <= width -> 0 <= height ->
  Inv width height st ->
  step fuel width height (height * 2 + 1) (width * 2 + 1) st
  = inr (Returned maze') ->
  allCarved width height maze'.
Proof.
  intros Hw Hh [Hsub Hcarved]. unfold step.
  destruct (_ <? _) eqn:Elt.
  - destruct (loop (pickStep _ _ _) _ _) as [[startCell rnd1]| |]; try done.
    destruct (loop (walkStep _ _ _) _ _) as [w| |]; try done.
    by destruct (carveWalk None (walk w) _) as [[? ?]| |].
  - intros [= <-]. apply Z.ltb_ge in Elt.
    by eapply carved_when_all_visited.
Qed.

End WilsonCells.

Lemma wilson_allCarved fuel width height rnd maze :
  1 <= width -> 1 <= height ->
  generateWilsonsMaze fuel width height rnd = Returned maze ->
  allCarved width height maze.
Proof.
  intros Hw Hh. unfold generateWilsonsMaze. cbv zeta.
  pose proof (randomIndex_lt (Z.to_nat height) rnd ltac:(lia)) as Hi.
  destruct (randomIndex (Z.to_nat height) rnd) as [i rnd1].
  pose proof (randomIndex_lt (Z.to_nat width) rnd1 ltac:(lia)) as Hj.
  destruct (randomIndex (Z.to_nat width) rnd1) as [j rnd2].
  simpl in Hi, Hj.
  intros H. apply bind_Returned in H as (maze1 & Hset & H).
  apply bind_Returned in H as (maze2 & Hloop & H).
  eapply openEnds_keeps; [apply carving_allCarved | | exact H].
  clear H. revert maze2 Hloop.
  apply (loop_invariant _ (WilsonCells.Inv width height)).
  - intros s s'. by apply WilsonCells.wilson_step_cells.
  - intros s r. apply WilsonCells.wilson_exit_cells; lia.
  - apply setCell_path in Hset as [Hc _].
    split; cbn [Wilson.maze Wilson.visitedCells].
    + intros p Hp. apply elem_of_singleton in Hp as ->.
      apply elem_of_gridCells. exists (Z.of_nat i, Z.of_nat j).
      split; [done|]. apply elem_of_universe. simpl. lia.
    + intros p Hp. by apply elem_of_singleton in Hp as ->.
Qed.

(** *** Randomized Prim: a wall between a carved and an uncarved cell stays
    on the list until it is taken *)

Lemma cellIs_iff maze r c v : cellIs maze r c v = true <-> cellAt maze r c = Some v.
Proof.
  unfold cellIs. destruct (cellAt maze r c) as [x|]; [|done].
  rewrite Z.eqb_eq. split; congruence.
Qed.

Lemma bool_decide_pair (r c r' c' : Z) :
  bool_decide (r = r' /\ c = c') = bool_decide ((r, c) = (r', c')).
Proof.
  apply bool_decide_ext. split; [by intros [-> ->] | by intros [= -> ->]].
Qed.

(** [isGridCell], spelled out. *)
Definition GridCell (gh gw : Z) (p : Coord) : Prop :=
  0 < p.1 < gh - 1 /\ 0 < p.2 < gw - 1 /\ Z.rem p.1 2 = 1 /\ Z.rem p.2 2 = 1.

Lemma isGridCell_iff gh gw r c :
  isGridCell gh gw r c = true <-> GridCell gh gw (r, c).
Proof.
  unfold isGridCell, GridCell. simpl.
  rewrite !andb_true_iff, !Z.gtb_lt, !Z.ltb_lt, !Z.eqb_eq. tauto.
Qed.

Lemma isGridCell_false gh gw r c :
  Z.rem r 2 <> 1 \/ Z.rem c 2 <> 1 -> isGridCell gh gw r c = false.
Proof.
  intros H. apply not_true_is_false. rewrite isGridCell_iff.
  unfold GridCell. simpl. tauto.
Qed.

Lemma flanking_vertical gh gw wr wc :
  GridCell gh gw (wr - 1, wc) -> GridCell gh gw (wr + 1, wc) ->
  Prims.flankingCells gh gw (wr, wc) = [(wr + -1, wc + 0); (wr + 1, wc + 0)].
Proof.
  intros Hu Hd.
  assert (Hodd : Z.rem wr 2 <> 1).
  { destruct Hu as (? & _ & ? & _). simpl in *.
    Z.to_euclidean_division_equations; lia. }
  unfold Prims.flankingCells, directions, move. simpl.
  rewrite filter_cons_True.
  2:{ simpl. apply isGridCell_iff.
      by replace (wr + -1, wc + 0) with (wr - 1, wc) by (f_equal; lia). }
  rewrite filter_cons_True.
  2:{ simpl. apply isGridCell_iff.
      by replace (wr + 1, wc + 0) with (wr + 1, wc) by (f_equal; lia). }
  rewrite filter_cons_False.
  2:{ simpl. rewrite isGridCell_false; [done|]. left.
      by replace (wr + 0) with wr by lia. }
  rewrite filter_cons_False; [done|].
  simpl. rewrite isGridCell_false; [done|]. left.
  by replace (wr + 0) with wr by lia.
Qed.

Lemma flanking_horizontal gh gw wr wc :
  GridCell gh gw (wr, wc - 1) -> GridCell gh gw (wr, wc + 1) ->
  Prims.flankingCells gh gw (wr, wc) = [(wr + 0, wc + -1); (wr + 0, wc + 1)].
Proof.
  intros Hl Hr.
  assert (Hodd : Z.rem wc 2 <> 1).
  { destruct Hl as (_ & ? & _ & ?). simpl in *.
    Z.to_euclidean_division_equations; lia. }
  unfold Prims.flankingCells, directions, move. simpl.
  rewrite filter_cons_False.
  2:{ simpl. rewrite isGridCell_false; [done|]. right.
      by replace (wc + 0) with wc by lia. }
  rewrite filter_cons_False.
  2:{ simpl. rewrite isGridCell_false; [done|]. right.
      by replace (wc + 0) with wc by lia. }
  rewrite filter_cons_True.
  2:{ simpl. apply isGridCell_iff.
      by replace (wr + 0, wc + -1) with (wr, wc - 1) by (f_equal; lia). }
  rewrite filter_cons_True; [done|].
  simpl. apply isGridCell_iff.
  by replace (wr + 0, wc + 1) with (wr, wc + 1) by (f_equal; lia).
Qed.

(** The cells on the two sides of the wall between [p] and the cell two
    positions away in the direction [d], as the scan finds them. *)
Lemma flanking_between gh gw p d :
  GridCell gh gw p -> d ∈ directions ->
  GridCell gh gw (move (move p d) d) ->
  Prims.flankingCells gh gw (move p d) = [p; move (move p d) d] \/
  Prims.flankingCells gh gw (move p d) = [move (move p d) d; p].
Proof.
  destruct p as [r c]. intros Hp Hd Hq.
  unfold directions in Hd. rewrite !elem_of_cons, elem_of_nil in Hd.
  unfold move in *. simpl in *.
  destruct Hd as [->|[->|[->|[->|[]]]]]; simpl in *.
  - right. rewrite flanking_vertical.
    + do 2 f_equal; f_equal; lia.
    + by replace (r + -1 - 1, c + 0) with (r + -1 + -1, c + 0 + 0)
        by (f_equal; lia).
    + by replace (r + -1 + 1, c + 0) with (r, c) by (f_equal; lia).
  - left. rewrite flanking_vertical.
    + do 2 f_equal; f_equal; lia.
    + by replace (r + 1 - 1, c + 0) with (r, c) by (f_equal; lia).
    + by replace (r + 1 + 1, c + 0) with (r + 1 + 1, c + 0 + 0)
        by (f_equal; lia).
  - right. rewrite flanking_horizontal.
    + do 2 f_equal; f_equal; lia.
    + by replace (r + 0, c + -1 - 1) with (r + 0 + 0, c + -1 + -1)
        by (f_equal; lia).
    + by replace (r + 0, c + -1 + 1) with (r, c) by (f_equal; lia).
  - left. rewrite flanking_horizontal.
    + do 2 f_equal; f_equal; lia.
    + by replace (r + 0, c + 1 - 1) with (r, c) by (f_equal; lia).
    + by replace (r + 0, c + 1 + 1) with (r + 0 + 0, c + 1 + 1)
        by (f_equal; lia).
Qed.

Lemma pushWalls_spec gh gw dedupe cell maze walls :
  (forall x, x ∈ walls -> x ∈ Prims.pushWalls gh gw dedupe cell maze walls) /\
  (forall d, d ∈ directions ->
             isInner gh gw (move cell d).1 (move cell d).2 = true ->
             cellIs maze (move cell d).1 (move cell d).2 Wall = true ->
             move cell d ∈ Prims.pushWalls gh gw dedupe cell maze walls).
Proof.
  unfold Prims.pushWalls. generalize directions. intros ds. revert walls.
  induction ds as [|d ds IH]; intros walls; simpl.
  - split; [done|]. intros d Hd. by apply elem_of_nil in Hd.
  - set (ws' := if _ && _ then _ else walls).
    assert (Hmono : forall x, x ∈ walls -> x ∈ ws').
    { intros x Hx. unfold ws'. destruct (_ && _); [|done].
      destruct (_ && _); [done|]. apply elem_of_app. by left. }
    destruct (IH ws') as [H1 H2]. split; [auto|].
    intros d' Hd' Hin Hwall. apply elem_of_cons in Hd' as [->|Hd']; [|auto].
    apply H1. unfold ws'. rewrite Hin, Hwall. simpl.
    destruct dedupe; simpl.
    + case_bool_decide; [done|]. apply elem_of_app. right.
      by apply list_elem_of_singleton.
    + apply elem_of_app. right. by apply list_elem_of_singleton.
Qed.

Lemma move_twice_cell (p : Coord) d :
  cellToGrid (move p d) = move (move (cellToGrid p) d) d.
Proof. destruct p, d. unfold cellToGrid, move. simpl. f_equal; lia. Qed.

Lemma isCell_GridCell width height p :
  GrowingTree.isCell width height p = true ->
  GridCell (height * 2 + 1) (width * 2 + 1) (cellToGrid p).
Proof.
  intros H. apply GrowingTreeFacts.isCell_valid in H as [Hr Hc].
  unfold GridCell, cellToGrid. simpl.
  split_and!; try lia; Z.to_euclidean_division_equations; lia.
Qed.

Module PrimsCells.
Import Prims.

Section Grid.
Variables (gh gw : Z).

Definition carved (m : Grid) (p : Coord) : Prop :=
  cellAt m p.1 p.2 = Some Path.

#[local] Instance carved_dec m p : Decision (carved m p).
Proof. unfold carved. apply _. Defined.

Record Inv (st : State) : Prop := {
  inv_shaped : Shaped gh gw (maze st);
  inv_some : exists s, GridCell gh gw s /\ carved (maze st) s;
  inv_frontier : forall p d,
    GridCell gh gw p -> d ∈ directions ->
    GridCell gh gw (move (move p d) d) ->
    carved (maze st) p ->
    carved (maze st) (move (move p d) d) \/ move p d ∈ walls st;
  inv_passage : forall p d,
    GridCell gh gw p -> d ∈ directions ->
    GridCell gh gw (move (move p d) d) ->
    carved (maze st) (move p d) ->
    carved (maze st) p /\ carved (maze st) (move (move p d) d)
}.

(** A cell is a path or a wall. *)
Lemma cell_wall m p :
  Shaped gh gw m -> GridCell gh gw p -> ~ carved m p ->
  cellIs m p.1 p.2 Wall = true.
Proof.
  intros Hs (Hr & Hc & _) Hn. apply cellIs_iff.
  destruct (shaped_cellAt gh gw m p.1 p.2 Hs) as [H|H]; try lia; done.
Qed.

Lemma wall_not_cell p d :
  GridCell gh gw p -> d ∈ directions -> ~ GridCell gh gw (move p d).
Proof.
  destruct p as [r c]. intros (_ & _ & Hr & Hc) Hd (_ & _ & Hr' & Hc').
  unfold directions in Hd. rewrite !elem_of_cons, elem_of_nil in Hd.
  unfold move in *. simpl in *.
  destruct Hd as [->|[->|[->|[->|[]]]]]; simpl in *;
    Z.to_euclidean_division_equations; lia.
Qed.

Lemma between_inner p d :
  GridCell gh gw p -> GridCell gh gw (move (move p d) d) ->
  isInner gh gw (move p d).1 (move p d).2 = true.
Proof.
  destruct p as [r c], d as [dr dc]. unfold GridCell, isInner, move. simpl.
  intros (Hr & Hc & _) (Hr' & Hc' & _).
  rewrite !andb_true_iff, !Z.gtb_lt, !Z.ltb_lt. lia.
Qed.

(** The two flanking cells of the wall between [p] and [q]. *)
Lemma flanking_pair p d c1 c2 more :
  GridCell gh gw p -> d ∈ directions ->
  GridCell gh gw (move (move p d) d) ->
  flankingCells gh gw (move p d) = c1 :: c2 :: more ->
  (c1 = p /\ c2 = move (move p d) d) \/ (c1 = move (move p d) d /\ c2 = p).
Proof.
  intros Hp Hd Hq Hf.
  destruct (flanking_between gh gw p d Hp Hd Hq) as [H|H];
    rewrite H in Hf; injection Hf as <- <- _; auto.
Qed.

(** Discarding the wall taken from the list. *)
Lemma prims_discard st idx wall rnd1 :
  Inv st -> walls st !! idx = Some wall ->
  (forall p d, GridCell gh gw p -> d ∈ directions ->
               GridCell gh gw (move (move p d) d) ->
               carved (maze st) p ->
               ~ carved (maze st) (move (move p d) d) ->
               move p d <> wall) ->
  Inv (mkState (maze st) (delete idx (walls st)) rnd1).
Proof.
  intros [Hs Hsome Hfront Hpass] Hwall Hne. split; simpl; try done.
  intros p d Hp Hd Hq Hc.
  destruct (Hfront p d Hp Hd Hq Hc) as [H|H]; [by left|].
  destruct (decide (carved (maze st) (move (move p d) d))) as [|Hn];
    [by left|].
  right. eapply elem_of_delete_other; eauto.
Qed.

(** A position the scan finds two cells around is not itself a cell. *)
Lemma flanked_not_cell wall c1 more :
  flankingCells gh gw wall = c1 :: more -> ~ GridCell gh gw wall.
Proof.
  intros Hf Hw.
  assert (Hin : c1 ∈ flankingCells gh gw wall)
    by (rewrite Hf; by apply elem_of_cons; left).
  apply list_elem_of_filter in Hin as [Hc Hin].
  apply list_elem_of_In, in_map_iff in Hin as (d & <- & Hd).
  apply list_elem_of_In in Hd.
  apply isGridCell_iff in Hc.
  apply (wall_not_cell wall d Hw Hd).
  by destruct (move wall d).
Qed.

Lemma flanking_cells wall c :
  c ∈ flankingCells gh gw wall -> GridCell gh gw c.
Proof.
  intros Hin. apply list_elem_of_filter in Hin as [Hc _].
  apply isGridCell_iff in Hc. by destruct c.
Qed.

(** Carving the wall and the cell [fresh] behind it, next to the carved cell
    [other]. *)
Lemma prims_carve st idx wall fresh other c1 c2 more rnd1 st' :
  Inv st -> walls st !! idx = Some wall ->
  flankingCells gh gw wall = c1 :: c2 :: more ->
  (c1 = fresh /\ c2 = other) \/ (c1 = other /\ c2 = fresh) ->
  GridCell gh gw fresh -> carved (maze st) other ->
  carve gh gw (maze st) wall fresh (delete idx (walls st)) rnd1 = inl st' ->
  Inv st'.
Proof.
  intros [Hs [s [Hsg Hsc]] Hfront Hpass] Hwall Hflank Hcells Hfresh Hother.
  unfold carve.
  destruct (m1 ← setCell (maze st) wall.1 wall.2 Path;
            setCell m1 fresh.1 fresh.2 Path) as [m2| |] eqn:Em; try done.
  intros [= <-].
  apply bind_Returned in Em as (m1 & H1 & H2).
  assert (Hs2 : Shaped gh gw m2).
  { eapply shaped_carving; [|exact H2]. by eapply shaped_carving. }
  assert (Hcw : forall p, cellAt m2 p.1 p.2
              = if bool_decide (p = fresh) then Some Path
                else if bool_decide (p = wall) then Some Path
                else cellAt (maze st) p.1 p.2).
  { intros [r c]. rewrite (cellAt_setCell _ _ _ _ _ _ _ H2).
    rewrite (cellAt_setCell _ _ _ _ _ _ _ H1).
    destruct fresh as [fr fc], wall as [wr wc]. simpl.
    by rewrite !bool_decide_pair. }
  assert (Hkeep : forall p, carved (maze st) p -> carved m2 p).
  { intros p Hp. unfold carved in *. rewrite Hcw.
    by repeat case_bool_decide. }
  assert (Hcf : carved m2 fresh).
  { unfold carved. rewrite Hcw. by rewrite bool_decide_eq_true_2. }
  assert (Hback : forall p, carved m2 p -> p <> fresh ->
                            p = wall \/ carved (maze st) p).
  { intros p Hc Hne. unfold carved in *. rewrite Hcw in Hc.
    rewrite bool_decide_eq_false_2 in Hc by done. case_bool_decide; auto. }
  assert (Hnw : ~ GridCell gh gw wall) by (by eapply flanked_not_cell).
  (* The cells on both sides of the wall taken are carved now. *)
  assert (Hsides : forall p d,
             GridCell gh gw p -> d ∈ directions ->
             GridCell gh gw (move (move p d) d) -> move p d = wall ->
             carved m2 p /\ carved m2 (move (move p d) d)).
  { intros p d Hp Hd Hq Hw. rewrite <- Hw in Hflank.
    destruct (flanking_pair p d c1 c2 more Hp Hd Hq Hflank) as [[E1 E2]|[E1 E2]];
      destruct Hcells as [[E3 E4]|[E3 E4]]; subst; auto. }
  (* A passage next to a cell leads to a carved cell. *)
  assert (Hpass2 : forall p d,
             GridCell gh gw p -> d ∈ directions ->
             GridCell gh gw (move (move p d) d) -> carved m2 (move p d) ->
             carved m2 p /\ carved m2 (move (move p d) d)).
  { intros p d Hp Hd Hq Hc.
    destruct (Hback (move p d) Hc) as [Hw|Hold].
    - intros E. apply (wall_not_cell p d Hp Hd). by rewrite E.
    - by apply Hsides.
    - destruct (Hpass p d Hp Hd Hq Hold). auto. }
  split; simpl.
  - done.
  - exists s. auto.
  - intros p d Hp Hd Hq Hc.
    destruct (pushWalls_spec gh gw true fresh m2 (delete idx (walls st)))
      as [Hmono Hpush].
    destruct (decide (p = fresh)) as [->|Hnf].
    + pose proof (between_inner fresh d Hp Hq) as Hin.
      assert (Hbounds := Hin). unfold isInner in Hbounds.
      rewrite !andb_true_iff, !Z.gtb_lt, !Z.ltb_lt in Hbounds.
      destruct (shaped_cellAt gh gw m2 (move fresh d).1 (move fresh d).2 Hs2)
        as [Hpath|Hw]; [lia | lia | |].
      * left. by apply (Hpass2 fresh d).
      * right. apply Hpush; [done | done |]. by apply cellIs_iff.
    + destruct (Hback p Hc Hnf) as [->|Hold]; [done|].
      destruct (Hfront p d Hp Hd Hq Hold) as [Hq'|Hw]; [left; auto|].
      destruct (decide (move p d = wall)) as [E|Hne].
      * left. by apply (Hsides p d).
      * right. apply Hmono. by eapply elem_of_delete_other.
  - done.
Qed.

Lemma prims_step_cells st st' :
  Inv st -> step gh gw st = inl st' -> Inv st'.
Proof.
  intros Hinv. unfold step.
  destruct (walls st) as [|w0 ws] eqn:Ews; [done|]. rewrite <- Ews.
  destruct (randomIndex _ _) as [idx rnd1].
  destruct (walls st !! idx) as [wall|] eqn:Ewall; [|done].
  assert (Hshort : forall c1 more,
            flankingCells gh gw wall = c1 :: more ->
            forall p d, GridCell gh gw p -> d ∈ directions ->
                        GridCell gh gw (move (move p d) d) ->
                        move p d = wall ->
                        exists c2 more', more = c2 :: more').
  { intros c1 more Hf p d Hp Hd Hq Hw. rewrite <- Hw in Hf.
    destruct (flanking_between gh gw p d Hp Hd Hq) as [H|H];
      rewrite H in Hf; injection Hf as <- <-; eauto. }
  destruct (flankingCells gh gw wall) as [|c1 [|c2 more]] eqn:Ef.
  - intros [= <-]. apply (prims_discard st idx wall rnd1 Hinv Ewall).
    intros p d Hp Hd Hq _ _ Hw. rewrite <- Hw in Ef.
    destruct (flanking_between gh gw p d Hp Hd Hq) as [H|H];
      by rewrite H in Ef.
  - intros [= <-]. apply (prims_discard st idx wall rnd1 Hinv Ewall).
    intros p d Hp Hd Hq _ _ Hw.
    by destruct (Hshort c1 [] eq_refl p d Hp Hd Hq Hw) as (? & ? & ?).
  - assert (Hc1 : GridCell gh gw c1).
    { apply (flanking_cells wall c1). rewrite Ef. by apply elem_of_cons; left. }
    assert (Hc2 : GridCell gh gw c2).
    { apply (flanking_cells wall c2). rewrite Ef.
      apply elem_of_cons; right. by apply elem_of_cons; left. }
    destruct (cellIs (maze st) c1.1 c1.2 Path
              && cellIs (maze st) c2.1 c2.2 Wall) eqn:E1.
    { apply andb_true_iff in E1 as [Ea Eb]. apply cellIs_iff in Ea.
      apply (prims_carve st idx wall c2 c1 c1 c2 more rnd1 st' Hinv Ewall Ef);
        auto. }
    destruct (cellIs (maze st) c1.1 c1.2 Wall
              && cellIs (maze st) c2.1 c2.2 Path) eqn:E2.
    { apply andb_true_iff in E2 as [Ea Eb]. apply cellIs_iff in Eb.
      apply (prims_carve st idx wall c1 c2 c1 c2 more rnd1 st' Hinv Ewall Ef);
        auto. }
    intros [= <-]. apply (prims_discard st idx wall rnd1 Hinv Ewall).
    intros p d Hp Hd Hq Hcp Hnq Hw. rewrite <- Hw in Ef.
    pose proof (cell_wall _ _ (inv_shaped _ Hinv) Hq Hnq) as Hqw.
    apply cellIs_iff in Hcp.
    destruct (flanking_pair p d c1 c2 more Hp Hd Hq Ef) as [[-> ->]|[-> ->]].
    + by rewrite Hcp, Hqw in E1.
    + by rewrite Hcp, Hqw in E2.
Qed.

Lemma prims_step_done st m :
  step gh gw st = inr (Returned m) -> walls st = [] /\ m = maze st.
Proof.
  unfold step.
  destruct (walls st) as [|w0 ws]; [by intros [= <-]|].
  destruct (randomIndex _ _) as [idx rnd1].
  destruct (_ !! idx) as [wall|]; [|done].
  destruct (flankingCells gh gw wall) as [|c1 [|c2 more]]; try done.
  unfold carve.
  destruct (_ && _); [by destruct (_ ≫= _)|].
  destruct (_ && _); [by destruct (_ ≫= _)|]. done.
Qed.

End Grid.

Lemma prims_exit_cells width height st m :
  Inv (height * 2 + 1) (width * 2 + 1) st ->
  step (height * 2 + 1) (width * 2 + 1) st = inr (Returned m) ->
  allCarved width height m.
Proof.
  intros [Hs [s [Hsg Hsc]] Hfront Hpass] Hstep.
  apply prims_step_done in Hstep as [Hw ->].
  intros r c Hr Hc.
  assert (Hgoal : GrowingTree.isCell width height (r, c) = true).
  { unfold GrowingTree.isCell. simpl.
    rewrite !andb_true_iff, !Z.geb_le, !Z.ltb_lt. lia. }
  destruct (isGridCell_cell width height s.1 s.2) as [Hu Hround].
  { apply isGridCell_iff. by destruct s. }
  replace (s.1, s.2) with s in * by (by destruct s).
  apply elem_of_universe in Hu.
  assert (Hall : GrowingTree.isCell width height (r, c) = true /\
                 carved (maze st) (cellToGrid (r, c))); [|apply Hall].
  apply (cells_connected width height
           (fun p => GrowingTree.isCell width height p = true /\
                     carved (maze st) (cellToGrid p))
           (gridToCell s)); [| | |done].
  - split; [|by rewrite Hround].
    unfold GrowingTree.isCell.
    rewrite !andb_true_iff, !Z.geb_le, !Z.ltb_lt. lia.
  - unfold GrowingTree.isCell.
    rewrite !andb_true_iff, !Z.geb_le, !Z.ltb_lt. lia.
  - intros p d [Hp Hcp] Hd Hq. split; [done|].
    rewrite move_twice_cell.
    destruct (Hfront (cellToGrid p) d) as [H|H]; try done.
    + by apply isCell_GridCell.
    + rewrite <- move_twice_cell. by apply isCell_GridCell.
    + rewrite Hw in H. by apply elem_of_nil in H.
Qed.

End PrimsCells.

Lemma prims_allCarved fuel width height rnd maze :
  1 <= width -> 1 <= height ->
  generatePrimsMaze fuel width height rnd = Returned maze ->
  allCarved width height maze.
Proof.
  intros Hw Hh. unfold generatePrimsMaze. cbv zeta.
  pose proof (randomIndex_lt (Z.to_nat height) rnd ltac:(lia)) as Hi.
  destruct (randomIndex (Z.to_nat height) rnd) as [i rnd1].
  pose proof (randomIndex_lt (Z.to_nat width) rnd1 ltac:(lia)) as Hj.
  destruct (randomIndex (Z.to_nat width) rnd1) as [j rnd2].
  simpl in Hi, Hj.
  intros H. apply bind_Returned in H as (maze1 & Hset & H).
  apply bind_Returned in H as (maze2 & Hloop & H).
  eapply openEnds_keeps; [apply carving_allCarved | | exact H].
  clear H. revert maze2 Hloop.
  set (gh := height * 2 + 1). set (gw := width * 2 + 1).
  set (start := (Z.of_nat i * 2 + 1, Z.of_nat j * 2 + 1)).
  assert (Hstart : GridCell gh gw start).
  { unfold GridCell, start, gh, gw. simpl.
    split_and!; try lia; Z.to_euclidean_division_equations; lia. }
  assert (Hcw : forall p, cellAt maze1 p.1 p.2
              = if bool_decide (p = start) then Some Path
                else cellAt (newGrid gh gw Wall) p.1 p.2).
  { intros [r c]. rewrite (cellAt_setCell _ _ _ _ _ _ _ Hset).
    unfold start. simpl. by rewrite bool_decide_pair. }
  assert (Hnew : forall p, cellAt (newGrid gh gw Wall) p.1 p.2 <> Some Path).
  { intros p. unfold newGrid, cellAt.
    destruct (_ || _); [done|].
    destruct (replicate _ _ !! _) as [row|] eqn:Erow; [|done].
    apply lookup_replicate in Erow as [-> _].
    destruct (replicate _ _ !! _) as [v|] eqn:Ev; [|done].
    by apply lookup_replicate in Ev as [-> _]. }
  assert (Honly : forall p, PrimsCells.carved maze1 p -> p = start).
  { intros p Hp. unfold PrimsCells.carved in Hp. rewrite Hcw in Hp.
    case_bool_decide; [done|]. by apply Hnew in Hp. }
  apply (loop_invariant _ (PrimsCells.Inv gh gw)).
  - intros s s'. apply PrimsCells.prims_step_cells.
  - intros s r. apply PrimsCells.prims_exit_cells.
  - split; cbn [Prims.maze Prims.walls].
    + eapply shaped_carving; [|exact Hset].
      apply shaped_newGrid; unfold gh, gw; [lia | lia | by right].
    + exists start. split; [done|]. unfold PrimsCells.carved.
      rewrite Hcw. by rewrite bool_decide_eq_true_2.
    + intros p d Hp Hd Hq Hc. right. apply Honly in Hc as ->.
      pose proof (PrimsCells.between_inner gh gw start d Hstart Hq) as Hin.
      apply pushWalls_spec; [done | done |].
      apply cellIs_iff. rewrite Hcw.
      rewrite bool_decide_eq_false_2 by (by apply move_ne).
      unfold isInner in Hin.
      rewrite !andb_true_iff, !Z.gtb_lt, !Z.ltb_lt in Hin.
      apply cellAt_newGrid; lia.
    + intros p d Hp Hd Hq Hc. apply Honly in Hc.
      exfalso. apply (PrimsCells.wall_not_cell gh gw p d Hp Hd).
      by rewrite Hc.
Qed.

(** *** The count of carved cells *)

Lemma filter_all {A} (P : A -> Prop) `{forall x, Decision (P x)}
    (l : list A) :
  (forall x, x ∈ l -> P x) -> filter P l = l.
Proof.
  induction l as [|x l IH]; intros Hall; [done|].
  rewrite filter_cons_True by (apply Hall; by apply elem_of_cons; left).
  f_equal. apply IH. intros y Hy. apply Hall. by apply elem_of_cons; right.
Qed.

Lemma allCarved_count width height maze :
  0 <= width -> 0 <= height ->
  allCarved width height maze ->
  pathCellCount width height maze = width * height.
Proof.
  intros Hw Hh Hall. unfold pathCellCount.
  rewrite filter_all.
  - unfold interiorCells.
    rewrite (length_bind_const _ (Z.to_nat width)), length_seqZ.
    + rewrite Nat2Z.inj_mul, !Z2Nat.id by lia. ring.
    + intros r. rewrite (length_bind_const _ 1%nat), length_seqZ; [lia|done].
  - intros p Hp. unfold interiorCells in Hp.
    apply list_elem_of_bind in Hp as (r & Hp & Hr).
    apply list_elem_of_bind in Hp as (c & Hp & Hc).
    apply list_elem_of_singleton in Hp as ->.
    apply elem_of_seqZ in Hr, Hc. apply cellIs_iff.
    apply (Hall r c); lia.
Qed.

(** X11.  For [width, height >= 1], every cell of the grid returned by
    [generatePrimsMaze], [generateKruskalsMaze], [generateBinaryTreeMaze] or
    [generateGrowingTreeMaze] (with any policy) is carved: each interior
    position with two odd coordinates is a path, [width * height] of them in
    all. *)
Theorem growing_generators_carve_every_cell :
  forall (width height : Z) (fuel : nat) (rnd : Rand) (method : Method)
         (maze : Grid),
    1 <= width -> 1 <= height ->
    generatePrimsMaze fuel width height rnd = Returned maze \/
    generateKruskalsMaze fuel width height rnd = Returned maze \/
    generateBinaryTreeMaze width height rnd = Returned maze \/
    generateGrowingTreeMaze fuel width height method rnd = Returned maze ->
    allCarved width height maze /\
    pathCellCount width height maze = width * height.
Proof.
  intros width height fuel rnd method maze Hw Hh H.
  assert (Hall : allCarved width height maze).
  { destruct H as [H|[H|[H|H]]].
    - by eapply prims_allCarved.
    - by eapply kruskal_allCarved.
    - by eapply binaryTree_allCarved.
    - by eapply growingTree_allCarved. }
  split; [done|]. apply allCarved_count; [lia | lia | done].
Qed.

Lemma growing_generators_carve_every_cell_witness :
  allCarved 2 2 kruskalRun /\ pathCellCount 2 2 kruskalRun = 2 * 2.
Proof.
  apply (growing_generators_carve_every_cell 2 2 20 someRun newest);
    [lia | lia |].
  right; left. vm_compute. reflexivity.
Defined.

(** X12.  For [width, height >= 1], every cell of the grid returned by
    [generateWilsonsMaze], [generateAldousBroderMaze] or
    [generateRecursiveDivisionMaze] is a path, [width * height] of them in
    all: the two random walks stop only when their count of visited cells
    reaches the number of cells, and recursive division builds its walls on
    even rows and columns only. *)
Theorem walking_generators_carve_every_cell :
  forall (width height : Z) (fuel : nat) (rnd : Rand) (maze : Grid),
    1 <= width -> 1 <= height ->
    generateWilsonsMaze fuel width height rnd = Returned maze \/
    generateAldousBroderMaze fuel width height rnd = Returned maze \/
    generateRecursiveDivisionMaze fuel width height rnd = Returned maze ->
    allCarved width height maze /\
    pathCellCount width height maze = width * height.
Proof.
  intros width height fuel rnd maze Hw Hh H.
  assert (Hall : allCarved width height maze).
  { destruct H as [H|[H|H]].
    - by eapply wilson_allCarved.
    - by eapply aldousBroder_allCarved.
    - by eapply division_allCarved. }
  split; [done|]. apply allCarved_count; [lia | lia | done].
Qed.

Lemma walking_generators_carve_every_cell_witness :
  allCarved 2 2 room /\ pathCellCount 2 2 room = 2 * 2.
Proof.
  apply (walking_generators_carve_every_cell 2 2 20 someRun); [lia | lia |].
  right; right. vm_compute. reflexivity.
Defined.

(** ** Every cell can be reached from every other *)

(** Two positions joined by a walk through the paths of the maze. *)
Definition linked (maze : Grid) (gh gw : Z) (a b : Coord) : Prop :=
  exists l, Walk maze gh gw a l b.

Lemma linked_refl maze gh gw a : linked maze gh gw a a.
Proof. exists [a]. constructor. Qed.

Lemma linked_move maze gh gw a b d :
  linked maze gh gw a b -> d ∈ directions ->
  passable maze gh gw (move b d) = true ->
  linked maze gh gw a (move b d).
Proof. intros [l Hl] Hd Hp. exists (l ++ [move b d]). by constructor. Qed.

Lemma linked_trans maze gh gw a b c :
  linked maze gh gw a b -> linked maze gh gw b c -> linked maze gh gw a c.
Proof.
  intros Hab [l Hbc]. induction Hbc as [|l c d _ IH Hd Hp]; [done|].
  by apply linked_move.
Qed.

Lemma linked_keeps maze maze' gh gw a b :
  (forall p, passable maze gh gw p = true -> passable maze' gh gw p = true) ->
  linked maze gh gw a b -> linked maze' gh gw a b.
Proof.
  intros Hmono [l Hab]. induction Hab as [|l b d _ IH Hd Hp].
  - apply linked_refl.
  - apply linked_move; auto.
Qed.

Lemma linked_passable maze gh gw a b :
  passable maze gh gw a = true -> linked maze gh gw a b ->
  passable maze gh gw b = true.
Proof. intros Ha [l Hab]. by destruct Hab. Qed.

(** The move back. *)
Definition opposite (d : Z * Z) : Z * Z := (- d.1, - d.2).

Lemma opposite_direction d : d ∈ directions -> opposite d ∈ directions.
Proof.
  unfold directions. rewrite !elem_of_cons, !elem_of_nil.
  intros [->|[->|[->|[->|[]]]]]; unfold opposite; simpl; tauto.
Qed.

Lemma move_opposite p d : move (move p d) (opposite d) = p.
Proof. destruct p, d. unfold move, opposite. simpl. f_equal; lia. Qed.

Lemma linked_sym maze gh gw a b :
  passable maze gh gw a = true -> linked maze gh gw a b ->
  linked maze gh gw b a.
Proof.
  intros Ha [l Hab]. induction Hab as [|l b d Hab IH Hd Hp].
  - apply linked_refl.
  - eapply linked_trans; [|exact IH].
    rewrite <- (move_opposite b d) at 2.
    apply linked_move; [apply linked_refl | by apply opposite_direction |].
    rewrite move_opposite. eapply linked_passable; [exact Ha|]. by exists l.
Qed.

(** In a grid of the right shape a path is inside the bounds. *)
Lemma shaped_passable gh gw maze p :
  Shaped gh gw maze -> cellAt maze p.1 p.2 = Some Path ->
  passable maze gh gw p = true.
Proof.
  intros [Hrows Hall] H. unfold passable.
  rewrite (proj2 (cellIs_iff _ _ _ _) H), andb_true_r.
  unfold cellAt, numRows in *.
  destruct ((p.1 <? 0) || (p.2 <? 0)) eqn:E; [done|].
  apply orb_false_elim in E as [E1 E2].
  destruct (maze !! Z.to_nat p.1) as [row|] eqn:Erow; [|done].
  pose proof (lookup_lt_Some _ _ _ Erow) as Hr.
  pose proof (lookup_lt_Some _ _ _ H) as Hc.
  destruct (proj1 (Forall_lookup _ _) Hall _ _ Erow) as [Hl _].
  rewrite !andb_true_iff, !Z.geb_le, !Z.ltb_lt. lia.
Qed.

Lemma passable_path maze gh gw p :
  passable maze gh gw p = true -> cellAt maze p.1 p.2 = Some Path.
Proof.
  unfold passable. intros H. apply andb_true_iff in H as [_ H].
  by apply cellIs_iff.
Qed.

Lemma keepsPaths_passable gh gw maze maze' :
  keepsPaths maze maze' ->
  forall p, passable maze gh gw p = true -> passable maze' gh gw p = true.
Proof.
  intros Hk p. unfold passable. intros H.
  apply andb_true_iff in H as [Hb H]. rewrite Hb. simpl.
  apply cellIs_iff, Hk. by apply cellIs_iff.
Qed.

Lemma keepsPaths_linked gh gw maze maze' a b :
  keepsPaths maze maze' -> linked maze gh gw a b -> linked maze' gh gw a b.
Proof. intros Hk. apply linked_keeps. by apply keepsPaths_passable. Qed.

(** The cells carved so far hang together: each is joined to [root]. *)
Record Tree (gh gw : Z) (root : Coord) (maze : Grid) : Prop := {
  tree_shaped : Shaped gh gw maze;
  tree_linked : forall p,
    GridCell gh gw p -> cellAt maze p.1 p.2 = Some Path ->
    linked maze gh gw root p
}.

(** Growing by one cell: [wall] lies between the carved cell [cur] and
    [next], and [maze'] is [maze] with nothing new but the two of them. *)
Lemma tree_grows gh gw root maze maze' cur wall next d1 d2 :
  Tree gh gw root maze -> Shaped gh gw maze' -> keepsPaths maze maze' ->
  (forall p, GridCell gh gw p -> cellAt maze' p.1 p.2 = Some Path ->
             cellAt maze p.1 p.2 = Some Path \/ p = next) ->
  GridCell gh gw cur -> linked maze gh gw root cur ->
  passable maze gh gw cur = true ->
  d1 ∈ directions -> wall = move cur d1 ->
  d2 ∈ directions -> next = move wall d2 ->
  cellAt maze' wall.1 wall.2 = Some Path ->
  cellAt maze' next.1 next.2 = Some Path ->
  Tree gh gw root maze'.
Proof.
  intros [Hs Hl] Hs' Hk Hnew Hcur Hroot Hpass Hd1 -> Hd2 -> Hwall Hnext.
  split; [done|]. intros p Hp Hpath.
  destruct (Hnew p Hp Hpath) as [Hold| ->].
  - eapply keepsPaths_linked; [exact Hk|]. by apply Hl.
  - apply linked_move; [|done | by apply shaped_passable].
    apply linked_move; [|done | by apply shaped_passable].
    by eapply keepsPaths_linked.
Qed.

(** The two writes of a carving step. *)
Lemma carve_two maze r1 c1 r2 c2 m1 m2 :
  setCell maze r1 c1 Path = Returned m1 ->
  setCell m1 r2 c2 Path = Returned m2 ->
  keepsPaths maze m2 /\
  cellAt m2 r1 c1 = Some Path /\ cellAt m2 r2 c2 = Some Path /\
  forall r c, cellAt m2 r c = Some Path ->
              cellAt maze r c = Some Path \/ (r, c) = (r1, c1)
              \/ (r, c) = (r2, c2).
Proof.
  intros H1 H2.
  pose proof (setCell_path _ _ _ _ H1) as [Hp1 Hk1].
  pose proof (setCell_path _ _ _ _ H2) as [Hp2 Hk2].
  split_and!; [by eapply keepsPaths_trans | by apply Hk2 | done |].
  intros r c. rewrite (cellAt_setCell _ _ _ _ _ _ _ H2).
  case_bool_decide as E2; [destruct E2 as [-> ->]; auto|].
  rewrite (cellAt_setCell _ _ _ _ _ _ _ H1).
  case_bool_decide as E1; [destruct E1 as [-> ->]; auto|]. auto.
Qed.

Lemma tree_carve gh gw root maze m1 m2 cur d :
  Tree gh gw root maze ->
  GridCell gh gw cur -> cellAt maze cur.1 cur.2 = Some Path ->
  d ∈ directions ->
  setCell maze (move cur d).1 (move cur d).2 Path = Returned m1 ->
  setCell m1 (move (move cur d) d).1 (move (move cur d) d).2 Path
  = Returned m2 ->
  Tree gh gw root m2.
Proof.
  intros Ht Hcur Hpath Hd H1 H2.
  pose proof (carve_two _ _ _ _ _ _ _ H1 H2) as (Hk & Hw & Hn & Hnew).
  eapply (tree_grows gh gw root maze m2 cur (move cur d)
            (move (move cur d) d) d d); try done.
  - eapply shaped_setCell; [|by left|exact H2].
    eapply shaped_setCell; [|by left|exact H1]. apply Ht.
  - intros p Hp Hpp. destruct (Hnew _ _ Hpp) as [?|[E|E]]; [by left| |].
    + exfalso. apply (PrimsCells.wall_not_cell gh gw cur d Hcur Hd).
      rewrite (surjective_pairing (move cur d)), <- E.
      by rewrite <- surjective_pairing.
    + right. rewrite (surjective_pairing p), E.
      by rewrite <- surjective_pairing.
  - by apply Ht.
  - apply shaped_passable; [apply Ht | done].
Qed.

(** When every cell is carved and joined to [root], every two cells are
    joined. *)
Definition connected (width height : Z) (maze : Grid) : Prop :=
  forall r c r' c',
    0 <= r < height -> 0 <= c < width ->
    0 <= r' < height -> 0 <= c' < width ->
    linked maze (height * 2 + 1) (width * 2 + 1)
      (r * 2 + 1, c * 2 + 1) (r' * 2 + 1, c' * 2 + 1).

Lemma gridCell_cell width height r c :
  0 <= r < height -> 0 <= c < width ->
  GridCell (height * 2 + 1) (width * 2 + 1) (r * 2 + 1, c * 2 + 1).
Proof.
  intros Hr Hc. unfold GridCell. simpl.
  split_and!; try lia; Z.to_euclidean_division_equations; lia.
Qed.

Lemma tree_connected width height root maze :
  Tree (height * 2 + 1) (width * 2 + 1) root maze ->
  allCarved width height maze ->
  passable maze (height * 2 + 1) (width * 2 + 1) root = true ->
  connected width height maze.
Proof.
  intros [Hs Hl] Hall Hroot r c r' c' Hr Hc Hr' Hc'.
  eapply linked_trans.
  - apply linked_sym; [done|]. apply Hl; [by apply gridCell_cell|].
    by apply Hall.
  - apply Hl; [by apply gridCell_cell|]. by apply Hall.
Qed.

(** A write outside the cells neither adds a cell nor cuts a walk. *)
Lemma tree_beside gh gw root maze r c maze' :
  Tree gh gw root maze -> ~ GridCell gh gw (r, c) ->
  setCell maze r c Path = Returned maze' -> Tree gh gw root maze'.
Proof.
  intros [Hs Hl] Hno H.
  pose proof (setCell_path _ _ _ _ H) as [_ Hk].
  split; [by eapply shaped_carving|].
  intros p Hp Hpath. eapply keepsPaths_linked; [exact Hk|].
  apply Hl; [done|]. rewrite (cellAt_setCell _ _ _ _ _ _ _ H) in Hpath.
  case_bool_decide as E; [|done]. destruct E as [E1 E2].
  exfalso. apply Hno. by rewrite <- E1, <- E2, <- surjective_pairing.
Qed.

Lemma tree_openEnds width height root maze maze' :
  1 <= width -> 1 <= height ->
  Tree (height * 2 + 1) (width * 2 + 1) root maze ->
  openEnds (height * 2 + 1) (width * 2 + 1) maze = Returned maze' ->
  Tree (height * 2 + 1) (width * 2 + 1) root maze'.
Proof.
  intros Hw Hh Ht H. unfold openEnds in H.
  apply bind_Returned in H as (m1 & H1 & H2).
  eapply tree_beside; [| |exact H2].
  - eapply tree_beside; [exact Ht| |exact H1].
    unfold GridCell. simpl. lia.
  - unfold GridCell. simpl. lia.
Qed.

(** The first cell carved into a grid of walls. *)
Lemma tree_first width height r c maze :
  0 <= r < height -> 0 <= c < width ->
  setCell (newGrid (height * 2 + 1) (width * 2 + 1) Wall)
    (r * 2 + 1) (c * 2 + 1) Path = Returned maze ->
  Tree (height * 2 + 1) (width * 2 + 1) (r * 2 + 1, c * 2 + 1) maze.
Proof.
  intros Hr Hc H. split.
  - eapply shaped_carving; [|exact H].
    apply shaped_newGrid; [lia | lia | by right].
  - intros p Hp Hpath. rewrite (cellAt_setCell _ _ _ _ _ _ _ H) in Hpath.
    case_bool_decide as E.
    + destruct E as [E1 E2]. rewrite (surjective_pairing p), E1, E2.
      apply linked_refl.
    + destruct Hp as (? & ? & _). rewrite cellAt_newGrid in Hpath by lia.
      discriminate.
Qed.

Lemma halfway (p : Coord) d :
  d ∈ directions ->
  (((cellToGrid p).1 + (cellToGrid (move p d)).1) / 2,
   ((cellToGrid p).2 + (cellToGrid (move p d)).2) / 2)
  = move (cellToGrid p) d.
Proof.
  destruct p as [r c]. unfold directions.
  rewrite !elem_of_cons, elem_of_nil. unfold cellToGrid, move. simpl.
  intros [->|[->|[->|[->|[]]]]]; simpl; f_equal;
    Z.to_euclidean_division_equations; lia.
Qed.

Module GrowingTreeLinks.
Import GrowingTree GrowingTreeFacts.

Record Inv (width height : Z) (root : Coord) (st : State) : Prop := {
  inv_tree : Tree (height * 2 + 1) (width * 2 + 1) root (maze st);
  inv_active : forall p,
    p ∈ activeCells st ->
    isCell width height p = true /\
    cellAt (maze st) (cellToGrid p).1 (cellToGrid p).2 = Some Path
}.

Lemma growingTree_step_links method width height root st st' :
  Inv width height root st -> step method width height st = inl st' ->
  Inv width height root st'.
Proof.
  intros [Htree Hact]. unfold step.
  destruct (activeCells st) as [|a0 rest] eqn:Eact; [done|].
  destruct (match method with
            | newest => _ | oldest => _ | random => _ end)
    as [cellIndex rnd1].
  destruct ((a0 :: rest) !! cellIndex) as [cur|] eqn:Ecur; [|done].
  apply list_elem_of_lookup_2 in Ecur.
  destruct (Hact cur Ecur) as [Hcell Hpath].
  destruct (filter _ (map (move cur) directions)) as [|n0 ns] eqn:Eun.
  - intros [= <-]. split; simpl; [done|].
    intros p Hp. apply Hact. by apply list_elem_of_delete_inv in Hp.
  - destruct (randomIndex (length (n0 :: ns)) rnd1) as [k rnd2].
    destruct ((n0 :: ns) !! k) as [next|] eqn:Enext; [|done].
    destruct (_ ≫= _) as [m2| |] eqn:Em; try done.
    intros [= <-].
    apply bind_Returned in Em as (m1 & H1 & H2).
    apply list_elem_of_lookup_2 in Enext. rewrite <- Eun in Enext.
    apply list_elem_of_filter in Enext as [[Hnc Hfresh] Hmv].
    apply list_elem_of_fmap in Hmv as (d & -> & Hd).
    pose proof (halfway cur d Hd) as Hmid.
    apply (f_equal fst) in Hmid as Hmid1. apply (f_equal snd) in Hmid as Hmid2.
    cbn [fst snd] in Hmid1, Hmid2. rewrite Hmid1, Hmid2 in H1.
    rewrite move_twice_cell in H2.
    pose proof (carve_two _ _ _ _ _ _ _ H1 H2) as (Hk & _ & Hn & _).
    rewrite <- move_twice_cell in Hn.
    split; cbn [maze activeCells].
    + eapply tree_carve; [exact Htree | | exact Hpath | exact Hd
                         | exact H1 | exact H2].
      by apply isCell_GridCell.
    + change (a0 :: rest ++ [move cur d]) with ((a0 :: rest) ++ [move cur d]).
      intros p Hp. apply elem_of_app in Hp as [Hp|Hp].
      * destruct (Hact p Hp) as [? ?]. split; [done|]. by apply Hk.
      * by apply list_elem_of_singleton in Hp as ->.
Qed.

Lemma growingTree_exit_links method width height root st maze' :
  Inv width height root st ->
  step method width height st = inr (Returned maze') ->
  Tree (height * 2 + 1) (width * 2 + 1) root maze'.
Proof.
  intros [Htree Hact]. unfold step.
  destruct (activeCells st) as [|a0 rest] eqn:Eact; [by intros [= <-]|].
  destruct (match method with
            | newest => _ | oldest => _ | random => _ end)
    as [cellIndex rnd1].
  destruct (_ !! cellIndex) as [cur|]; [|done].
  destruct (filter _ _) as [|n0 ns]; [done|].
  destruct (randomIndex _ _) as [k rnd2].
  destruct (_ !! k) as [next|]; [|done].
  by destruct (_ ≫= _).
Qed.

End GrowingTreeLinks.

Lemma tree_root_connected width height r c maze :
  0 <= r < height -> 0 <= c < width ->
  Tree (height * 2 + 1) (width * 2 + 1) (r * 2 + 1, c * 2 + 1) maze ->
  allCarved width height maze ->
  connected width height maze.
Proof.
  intros Hr Hc Ht Hall. eapply tree_connected; [exact Ht | done |].
  apply shaped_passable; [apply Ht|]. by apply Hall.
Qed.

Lemma growingTree_connected fuel width height method rnd maze :
  1 <= width -> 1 <= height ->
  generateGrowingTreeMaze fuel width height method rnd = Returned maze ->
  connected width height maze.
Proof.
  intros Hw Hh Hgen.
  pose proof (growingTree_allCarved _ _ _ _ _ _ Hw Hh Hgen) as Hall.
  revert Hgen. unfold generateGrowingTreeMaze. cbv zeta.
  pose proof (randomIndex_lt (Z.to_nat height) rnd ltac:(lia)) as Hi.
  destruct (randomIndex (Z.to_nat height) rnd) as [i rnd1].
  pose proof (randomIndex_lt (Z.to_nat width) rnd1 ltac:(lia)) as Hj.
  destruct (randomIndex (Z.to_nat width) rnd1) as [j rnd2].
  simpl in Hi, Hj.
  intros H. apply bind_Returned in H as (maze1 & Hset & H).
  apply bind_Returned in H as (maze2 & Hloop & H).
  apply (tree_root_connected width height (Z.of_nat i) (Z.of_nat j));
    [lia | lia | | done].
  eapply tree_openEnds; [done | done | | exact H].
  clear H Hall. revert maze2 Hloop.
  apply (loop_invariant _
           (GrowingTreeLinks.Inv width height
              (Z.of_nat i * 2 + 1, Z.of_nat j * 2 + 1))).
  - intros s s'. apply GrowingTreeLinks.growingTree_step_links.
  - intros s r. apply GrowingTreeLinks.growingTree_exit_links.
  - split; simpl.
    + apply tree_first; [lia | lia | exact Hset].
    + intros p Hp. apply list_elem_of_singleton in Hp as ->. split.
      * unfold GrowingTree.isCell. simpl.
        rewrite !andb_true_iff, !Z.geb_le, !Z.ltb_lt. lia.
      * by apply setCell_path in Hset as [Hc _].
Qed.

(** A step between neighbouring cells is two moves the same way, over the
    position halfway. *)
Lemma cell_direction d :
  d ∈ cellDirections ->
  exists e, e ∈ directions /\
    forall p : Coord,
      move p d = move (move p e) e /\
      ((p.1 + (move p d).1) / 2, (p.2 + (move p d).2) / 2) = move p e.
Proof.
  unfold cellDirections, directions.
  rewrite !elem_of_cons, elem_of_nil.
  intros [->|[->|[->|[->|[]]]]];
    [exists (-1, 0) | exists (1, 0) | exists (0, -1) | exists (0, 1)];
    (split; [rewrite !elem_of_cons; tauto|]);
    intros [r c]; unfold move; simpl; split; f_equal;
    Z.to_euclidean_division_equations; lia.
Qed.

Module AldousBroderLinks.
Import AldousBroder.

Record Inv (width height : Z) (root : Coord) (st : State) : Prop := {
  inv_cells : AldousBroderCells.Inv width height st;
  inv_tree : Tree (height * 2 + 1) (width * 2 + 1) root (maze st);
  inv_current : GridCell (height * 2 + 1) (width * 2 + 1) (current st);
  inv_here : cellAt (maze st) (current st).1 (current st).2 = Some Path
}.

Lemma aldousBroder_step_links width height root st st' :
  Inv width height root st ->
  step (height * 2 + 1) (width * 2 + 1) (width * height) st = inl st' ->
  Inv width height root st'.
Proof.
  intros [Hcells Htree Hcur Hhere] Hstep.
  pose proof (AldousBroderCells.aldousBroder_step_cells _ _ _ _ Hcells Hstep)
    as Hcells'.
  revert Hstep. unfold step.
  destruct (_ <? _); [|done].
  destruct (randomIndex _ _) as [k rnd3].
  destruct (cellDirections !! k) as [d|] eqn:Ed; [|done].
  apply list_elem_of_lookup_2, cell_direction in Ed as (e & He & Hmove).
  destruct (Hmove (current st)) as [Hnext Hmid].
  destruct (isGridCell _ _ _ _) eqn:Ecell; [|by intros [= <-]].
  destruct (isGridCell_cell width height _ _ Ecell) as [Hu Hround].
  apply isGridCell_iff in Ecell.
  rewrite <- surjective_pairing in Ecell, Hround.
  case_bool_decide as Hin.
  - intros [= <-]. split; cbn [maze current]; try done.
    destruct Hcells as [_ _ Hcarved]. specialize (Hcarved _ Hin).
    by rewrite Hround in Hcarved.
  - destruct (_ ≫= _) as [m2| |] eqn:Em; try done.
    intros [= <-].
    apply bind_Returned in Em as (m1 & H1 & H2).
    apply (f_equal fst) in Hmid as Hmid1. apply (f_equal snd) in Hmid as Hmid2.
    cbn [fst snd] in Hmid1, Hmid2. rewrite Hmid1, Hmid2 in H1.
    rewrite Hnext in H2, Ecell, Hcells' |- *.
    pose proof (carve_two _ _ _ _ _ _ _ H1 H2) as (Hk & _ & Hn & _).
    split; cbn [maze current]; try done.
    eapply tree_carve; [exact Htree | exact Hcur | exact Hhere | exact He
                       | exact H1 | exact H2].
Qed.

Lemma aldousBroder_exit_links width height root st maze' :
  Inv width height root st ->
  step (height * 2 + 1) (width * 2 + 1) (width * height) st
  = inr (Returned maze') ->
  Tree (height * 2 + 1) (width * 2 + 1) root maze'.
Proof.
  intros [_ Htree _ _]. unfold step.
  destruct (_ <? _); [|by intros [= <-]].
  destruct (randomIndex _ _) as [k rnd3].
  destruct (cellDirections !! k) as [d|]; [|done].
  destruct (isGridCell _ _ _ _); [|done].
  case_bool_decide; [done|]. by destruct (_ ≫= _).
Qed.

End AldousBroderLinks.

Lemma aldousBroder_connected fuel width height rnd maze :
  1 <= width -> 1 <= height ->
  generateAldousBroderMaze fuel width height rnd = Returned maze ->
  connected width height maze.
Proof.
  intros Hw Hh Hgen.
  pose proof (aldousBroder_allCarved _ _ _ _ _ Hw Hh Hgen) as Hall.
  revert Hgen. unfold generateAldousBroderMaze. cbv zeta.
  pose proof (randomIndex_lt (Z.to_nat height) rnd ltac:(lia)) as Hi.
  destruct (randomIndex (Z.to_nat height) rnd) as [i rnd1].
  pose proof (randomIndex_lt (Z.to_nat width) rnd1 ltac:(lia)) as Hj.
  destruct (randomIndex (Z.to_nat width) rnd1) as [j rnd2].
  simpl in Hi, Hj.
  intros H. apply bind_Returned in H as (maze1 & Hset & H).
  apply bind_Returned in H as (maze2 & Hloop & H).
  apply (tree_root_connected width height (Z.of_nat i) (Z.of_nat j));
    [lia | lia | | done].
  eapply tree_openEnds; [done | done | | exact H].
  clear H Hall. revert maze2 Hloop.
  apply (loop_invariant _
           (AldousBroderLinks.Inv width height
              (Z.of_nat i * 2 + 1, Z.of_nat j * 2 + 1))).
  - intros s s'. apply AldousBroderLinks.aldousBroder_step_links.
  - intros s r. apply AldousBroderLinks.aldousBroder_exit_links.
  - pose proof (setCell_path _ _ _ _ Hset) as [Hc _].
    split; cbn [AldousBroder.maze AldousBroder.current].
    + split; cbn [AldousBroder.maze AldousBroder.visitedCells
                    AldousBroder.cellsVisitedCount].
      * intros p Hp. apply elem_of_singleton in Hp as ->.
        apply elem_of_universe. simpl. lia.
      * by rewrite size_singleton.
      * intros p Hp. by apply elem_of_singleton in Hp as ->.
    + apply tree_first; [lia | lia | exact Hset].
    + apply (gridCell_cell width height (Z.of_nat i) (Z.of_nat j)); lia.
    + exact Hc.
Qed.

Module PrimsLinks.
Import Prims.

Lemma flanking_moves gh gw wall c :
  c ∈ flankingCells gh gw wall ->
  GridCell gh gw c /\ exists d, d ∈ directions /\ c = move wall d.
Proof.
  intros Hin. split; [by eapply PrimsCells.flanking_cells|].
  apply list_elem_of_filter in Hin as [_ Hin].
  apply list_elem_of_fmap in Hin as (d & -> & Hd). eauto.
Qed.

(** Carving the wall taken and the cell [fresh] behind it, next to the
    carved cell [other]. *)
Lemma prims_carve_links gh gw root maze wall fresh other walls1 rnd1 st' :
  Tree gh gw root maze ->
  other ∈ flankingCells gh gw wall -> fresh ∈ flankingCells gh gw wall ->
  cellAt maze other.1 other.2 = Some Path ->
  carve gh gw maze wall fresh walls1 rnd1 = inl st' ->
  Tree gh gw root (Prims.maze st').
Proof.
  intros Htree Hother Hfresh Hpath. unfold carve.
  destruct (m1 ← setCell maze wall.1 wall.2 Path;
            setCell m1 fresh.1 fresh.2 Path) as [m2| |] eqn:Em; try done.
  intros [= <-]. cbn [Prims.maze].
  apply bind_Returned in Em as (m1 & H1 & H2).
  pose proof (carve_two _ _ _ _ _ _ _ H1 H2) as (Hk & Hw & Hn & Hnew).
  assert (Hnw : ~ GridCell gh gw wall).
  { apply list_elem_of_lookup in Hother as [[|i] Hi];
      destruct (flankingCells gh gw wall) as [|c1 more] eqn:Ef; try done;
      by eapply PrimsCells.flanked_not_cell. }
  apply flanking_moves in Hother as [Hoc (d1 & Hd1 & ->)].
  apply flanking_moves in Hfresh as [Hfc (d2 & Hd2 & ->)].
  eapply (tree_grows gh gw root maze m2 (move wall d1) wall (move wall d2)
            (opposite d1) d2); try done.
  - eapply shaped_setCell; [|by left|exact H2].
    eapply shaped_setCell; [|by left|exact H1]. apply Htree.
  - intros p Hp Hpp. destruct (Hnew _ _ Hpp) as [?|[E|E]]; [by left| |].
    + exfalso. apply Hnw.
      by rewrite (surjective_pairing wall), <- E, <- surjective_pairing.
    + right. rewrite (surjective_pairing p), E.
      by rewrite <- surjective_pairing.
  - by apply Htree.
  - apply shaped_passable; [apply Htree | done].
  - by apply opposite_direction.
  - by rewrite move_opposite.
Qed.

Lemma prims_step_links gh gw root st st' :
  Tree gh gw root (maze st) -> step gh gw st = inl st' ->
  Tree gh gw root (maze st').
Proof.
  intros Htree. unfold step.
  destruct (walls st) as [|w0 ws] eqn:Ews; [done|]. rewrite <- Ews.
  destruct (randomIndex _ _) as [idx rnd1].
  destruct (walls st !! idx) as [wall|] eqn:Ewall; [|done].
  destruct (flankingCells gh gw wall) as [|c1 [|c2 more]] eqn:Ef;
    try (by intros [= <-]).
  assert (H1 : c1 ∈ flankingCells gh gw wall)
    by (rewrite Ef; apply elem_of_cons; by left).
  assert (H2 : c2 ∈ flankingCells gh gw wall).
  { rewrite Ef. apply elem_of_cons; right. apply elem_of_cons; by left. }
  destruct (cellIs (maze st) c1.1 c1.2 Path
            && cellIs (maze st) c2.1 c2.2 Wall) eqn:E1.
  { apply andb_true_iff in E1 as [Ea _]. apply cellIs_iff in Ea.
    by apply (prims_carve_links gh gw root (maze st) wall c2 c1). }
  destruct (cellIs (maze st) c1.1 c1.2 Wall
            && cellIs (maze st) c2.1 c2.2 Path) eqn:E2.
  { apply andb_true_iff in E2 as [_ Eb]. apply cellIs_iff in Eb.
    by apply (prims_carve_links gh gw root (maze st) wall c1 c2). }
  by intros [= <-].
Qed.

End PrimsLinks.

Lemma prims_connected fuel width height rnd maze :
  1 <= width -> 1 <= height ->
  generatePrimsMaze fuel width height rnd = Returned maze ->
  connected width height maze.
Proof.
  intros Hw Hh Hgen.
  pose proof (prims_allCarved _ _ _ _ _ Hw Hh Hgen) as Hall.
  revert Hgen. unfold generatePrimsMaze. cbv zeta.
  pose proof (randomIndex_lt (Z.to_nat height) rnd ltac:(lia)) as Hi.
  destruct (randomIndex (Z.to_nat height) rnd) as [i rnd1].
  pose proof (randomIndex_lt (Z.to_nat width) rnd1 ltac:(lia)) as Hj.
  destruct (randomIndex (Z.to_nat width) rnd1) as [j rnd2].
  simpl in Hi, Hj.
  intros H. apply bind_Returned in H as (maze1 & Hset & H).
  apply bind_Returned in H as (maze2 & Hloop & H).
  apply (tree_root_connected width height (Z.of_nat i) (Z.of_nat j));
    [lia | lia | | done].
  eapply tree_openEnds; [done | done | | exact H].
  clear H Hall. revert maze2 Hloop.
  apply (loop_invariant _
           (fun st => Tree (height * 2 + 1) (width * 2 + 1)
                        (Z.of_nat i * 2 + 1, Z.of_nat j * 2 + 1)
                        (Prims.maze st))).
  - intros s s'. apply PrimsLinks.prims_step_links.
  - intros s r Ht Hs. by apply PrimsCells.prims_step_done in Hs as [_ ->].
  - cbn [Prims.maze]. apply tree_first; [lia | lia | exact Hset].
Qed.

(** *** Wilson: a walk is carved up to a cell carved before *)

(** Consecutive cells of a list are neighbours. *)
Definition chain (gh gw : Z) (l : list Coord) : Prop :=
  forall i p q, l !! i = Some p -> l !! S i = Some q ->
                GridCell gh gw p /\
                exists e, e ∈ directions /\ q = move (move p e) e.

Lemma chain_tail gh gw p l : chain gh gw (p :: l) -> chain gh gw l.
Proof. intros H i x y Hx Hy. by apply (H (S i)). Qed.

Lemma chain_take gh gw n l : chain gh gw l -> chain gh gw (take n l).
Proof.
  intros H i x y Hx Hy.
  apply lookup_take_Some in Hx as [Hx _], Hy as [Hy _]. by apply (H i).
Qed.

Lemma chain_snoc gh gw l cur next e :
  chain gh gw l -> last l = Some cur -> GridCell gh gw cur ->
  e ∈ directions -> next = move (move cur e) e ->
  chain gh gw (l ++ [next]).
Proof.
  intros H Hlast Hcur He -> i x y Hx Hy.
  rewrite last_lookup in Hlast.
  pose proof (lookup_lt_Some _ _ _ Hlast) as Hlen.
  destruct (decide (S i < length l)%nat) as [Hlt|Hge].
  - rewrite lookup_app_l in Hx, Hy by lia. by apply (H i).
  - rewrite lookup_app_r in Hy by lia.
    assert (i = pred (length l)) as ->.
    { apply lookup_lt_Some in Hy. simpl in Hy. lia. }
    rewrite lookup_app_l in Hx by lia.
    replace (S (pred (length l)) - length l)%nat with 0%nat in Hy by lia.
    injection Hy as <-. rewrite Hlast in Hx. injection Hx as <-. eauto.
Qed.

Lemma midpoint (q : Coord) e :
  (((move (move q e) e).1 + q.1) / 2, ((move (move q e) e).2 + q.2) / 2)
  = move q e.
Proof.
  destruct q, e. unfold move. simpl.
  f_equal; Z.to_euclidean_division_equations; lia.
Qed.

Module WilsonLinks.
Import Wilson.

(** Carving from the cell [q] carved last: the cells carved are joined to
    [q], and no other cell is carved. *)
Lemma carveWalk_links gh gw cells :
  forall q m v m' v',
    carveWalk (Some q) cells (m, v) = Returned (m', v') ->
    Shaped gh gw m -> chain gh gw (q :: cells) ->
    (forall x, x ∈ cells -> linked m' gh gw q x) /\
    (forall p, GridCell gh gw p -> cellAt m' p.1 p.2 = Some Path ->
               cellAt m p.1 p.2 = Some Path \/ p ∈ cells).
Proof.
  induction cells as [|p rest IH]; intros q m v m' v' H Hs Hch.
  - simpl in H. injection H as <- <-. split; [|by left].
    intros x Hx. by apply elem_of_nil in Hx.
  - cbn [carveWalk] in H.
    apply bind_Returned in H as (m1 & H1 & H).
    apply bind_Returned in H as (m2 & H2 & H).
    destruct (Hch 0%nat q p eq_refl eq_refl) as [Hq (e & He & ->)].
    pose proof (midpoint q e) as Hmid.
    apply (f_equal fst) in Hmid as Hmid1. apply (f_equal snd) in Hmid as Hmid2.
    cbn [fst snd] in Hmid1, Hmid2. rewrite Hmid1, Hmid2 in H2.
    pose proof (carve_two _ _ _ _ _ _ _ H1 H2) as (Hk & Hp & Hw & Hnew).
    assert (Hs2 : Shaped gh gw m2).
    { eapply shaped_carving; [|exact H2]. by eapply shaped_carving. }
    pose proof (WilsonCells.carveWalk_cells _ _ _ _ H) as (Hk' & _ & _).
    cbn [fst] in Hk'.
    apply IH in H as [Hlinks Honly]; [|done | by eapply chain_tail].
    assert (Hqp : linked m' gh gw q (move (move q e) e)).
    { eapply keepsPaths_linked; [exact Hk'|].
      apply linked_move; [|done | by apply shaped_passable].
      apply linked_move; [apply linked_refl | done |].
      by apply shaped_passable. }
    split.
    + intros x Hx. apply elem_of_cons in Hx as [->|Hx]; [done|].
      eapply linked_trans; [exact Hqp|]. by apply Hlinks.
    + intros x Hx Hpath. destruct (Honly x Hx Hpath) as [Hold|Hin].
      * destruct (Hnew _ _ Hold) as [?|[E|E]]; [by left| |].
        -- right. apply elem_of_cons. left.
           by rewrite (surjective_pairing x), E, <- surjective_pairing.
        -- exfalso. apply (PrimsCells.wall_not_cell gh gw q e Hq He).
           by rewrite (surjective_pairing (move q e)), <- E,
             <- surjective_pairing.
      * right. apply elem_of_cons. by right.
Qed.

(** The walk as the loop keeps it. *)
Record Walking (gh gw : Z) (startCell : Coord) (w : Walk) : Prop := {
  walking_head : exists rest, walk w = startCell :: rest;
  walking_chain : chain gh gw (walk w);
  walking_last : last (walk w) = Some (current w);
  walking_cell : GridCell gh gw (current w);
  walking_seen : forall p, p ∈ pathVisited w -> p ∈ walk w
}.

Lemma last_take_lookup {A} (l : list A) i x :
  l !! i = Some x -> last (take (S i) l) = Some x.
Proof.
  intros H. rewrite last_lookup, length_take.
  pose proof (lookup_lt_Some _ _ _ H).
  replace (pred (S i `min` length l)) with i by lia.
  rewrite lookup_take_lt by lia. done.
Qed.

Lemma walkStep_walking gh gw startCell visited w w' :
  Walking gh gw startCell w -> walkStep gh gw visited w = inl w' ->
  Walking gh gw startCell w'.
Proof.
  intros [[rest Hhead] Hchain Hlast Hcell Hseen]. unfold walkStep.
  case_bool_decide; [done|].
  destruct (randomIndex (length cellDirections) (rnd w)) as [k rnd1].
  destruct (cellDirections !! k) as [d|] eqn:Ed; [|done].
  apply list_elem_of_lookup_2, cell_direction in Ed as (e & He & Hmove).
  destruct (Hmove (current w)) as [Hnext _].
  destruct (isGridCell _ _ _ _) eqn:Ecell.
  2:{ intros [= <-]. split; cbn [walk current pathVisited]; eauto. }
  apply isGridCell_iff in Ecell. rewrite <- surjective_pairing in Ecell.
  case_bool_decide as Hin; intros [= <-]; split; cbn [walk current pathVisited].
  - unfold findIndex.
    destruct (list_find _ (walk w)) as [[i q]|] eqn:Ef; [|].
    + exists (take i rest). rewrite Hhead.
      replace (Z.to_nat (Z.of_nat i + 1)) with (S i) by lia. done.
    + apply list_find_None in Ef. apply Hseen in Hin.
      exfalso. by apply (proj1 (Forall_forall _ _) Ef _ Hin).
  - by apply chain_take.
  - unfold findIndex.
    destruct (list_find _ (walk w)) as [[i q]|] eqn:Ef.
    + apply list_find_Some in Ef as (Hi & -> & _).
      replace (Z.to_nat (Z.of_nat i + 1)) with (S i) by lia.
      by apply last_take_lookup.
    + apply list_find_None in Ef. apply Hseen in Hin.
      exfalso. by apply (proj1 (Forall_forall _ _) Ef _ Hin).
  - done.
  - intros p Hp. apply elem_of_difference in Hp as [Hp Hno].
    apply Hseen in Hp. rewrite elem_of_list_to_set in Hno.
    rewrite <- (take_drop (Z.to_nat (findIndex (move (current w) d) (walk w) + 1))
                  (walk w)) in Hp.
    apply elem_of_app in Hp as [Hp|Hp]; done.
  - exists (rest ++ [move (current w) d]). by rewrite Hhead.
  - eapply chain_snoc; eauto.
  - apply last_snoc.
  - done.
  - intros p Hp. apply elem_of_app.
    apply elem_of_union in Hp as [Hp|Hp]; [right | left; by apply Hseen].
    apply elem_of_singleton in Hp as ->. by apply list_elem_of_singleton.
Qed.

Record Inv (width height : Z) (root : Coord) (st : State) : Prop := {
  inv_cells : WilsonCells.Inv width height st;
  inv_tree : Tree (height * 2 + 1) (width * 2 + 1) root (maze st)
}.

Lemma gridCells_GridCell width height p :
  p ∈ gridCells width height ->
  GridCell (height * 2 + 1) (width * 2 + 1) p.
Proof.
  intros H. apply elem_of_gridCells in H as ([r c] & -> & Hu).
  apply elem_of_universe in Hu. simpl in Hu.
  apply (gridCell_cell width height r c); lia.
Qed.

Lemma wilson_step_links fuel width height root st st' :
  1 <= width -> 1 <= height ->
  Inv width height root st ->
  step fuel width height (height * 2 + 1) (width * 2 + 1) st = inl st' ->
  Inv width height root st'.
Proof.
  intros Hw Hh [Hcells Htree] Hstep.
  pose proof (WilsonCells.wilson_step_cells _ _ _ _ _ Hw Hh Hcells Hstep)
    as Hcells'.
  split; [done|]. revert Hstep. unfold step.
  destruct (_ <? _); [|done].
  destruct (loop (pickStep _ _ _) _ _) as [[startCell rnd1]| |] eqn:Epick;
    try done.
  destruct (loop (walkStep _ _ _) _ _) as [w| |] eqn:Ewalk; try done.
  destruct (carveWalk None (walk w) _) as [[maze' visited']| |] eqn:Ec;
    try done.
  intros [= <-]. cbn [maze].
  apply WilsonCells.pick_cell in Epick; [|done..]. simpl in Epick.
  apply gridCells_GridCell in Epick.
  set (gh := height * 2 + 1) in *. set (gw := width * 2 + 1) in *.
  (* where the walk stops *)
  assert (Hend : forall w0,
            loop (walkStep gh gw (visitedCells st)) fuel
              (mkWalk [startCell] {[startCell]} startCell rnd1) = Returned w0 ->
            Walking gh gw startCell w0 /\ current w0 ∈ visitedCells st).
  { apply (loop_invariant _ (Walking gh gw startCell)).
    - intros w0 w1. apply walkStep_walking.
    - intros w0 w1 Hw0. unfold walkStep.
      case_bool_decide; [by intros [= <-]|].
      destruct (randomIndex _ _) as [k rnd2].
      destruct (cellDirections !! k) as [d|]; [|done].
      destruct (isGridCell _ _ _ _); [|done]. by case_bool_decide.
    - split; cbn [walk current pathVisited]; try done.
      + by exists [].
      + intros p Hp. apply elem_of_singleton in Hp as ->.
        by apply list_elem_of_singleton. }
  destruct (Hend w Ewalk) as [[[rest Hhead] Hchain Hlast Hcell Hseen] Hstop].
  clear Hend.
  rewrite Hhead in Ec, Hchain, Hlast. cbn [carveWalk] in Ec.
  apply bind_Returned in Ec as (m1 & H1 & Ec). simpl in Ec.
  pose proof (setCell_path _ _ _ _ H1) as [Hp1 Hk1].
  assert (Hs1 : Shaped gh gw m1) by (eapply shaped_carving; [apply Htree|done]).
  pose proof (WilsonCells.carveWalk_cells _ _ _ _ Ec) as (Hk' & Hcarved & _).
  cbn [fst] in Hk', Hcarved.
  pose proof (carveWalk_links gh gw rest _ _ _ _ _ Ec Hs1 Hchain)
    as [Hlinks Honly].
  assert (Hs' : Shaped gh gw maze').
  { change maze' with (maze', visited').1.
    eapply (carveWalk_keeps (Shaped gh gw));
      [apply shaped_carving | | exact Ec]. done. }
  assert (Hkeep : keepsPaths (maze st) maze')
    by (by eapply keepsPaths_trans).
  assert (Hstart : passable maze' gh gw startCell = true).
  { apply shaped_passable; [done|]. by apply Hk'. }
  (* the first cell of the walk is joined to the root *)
  assert (Hroot : linked maze' gh gw root startCell).
  { assert (Hcur : linked maze' gh gw root (current w)).
    { eapply keepsPaths_linked; [exact Hkeep|].
      apply Htree; [done|]. by apply Hcells. }
    destruct rest as [|r0 rest'].
    - simpl in Hlast. injection Hlast as Hl. by rewrite Hl.
    - eapply linked_trans; [exact Hcur|]. apply linked_sym; [done|].
      apply Hlinks. rewrite last_lookup in Hlast. simpl in Hlast.
      by apply list_elem_of_lookup_2 in Hlast. }
  split; [done|]. intros p Hp Hpath.
  destruct (Honly p Hp Hpath) as [Hold|Hin].
  - rewrite (cellAt_setCell _ _ _ _ _ _ _ H1) in Hold.
    case_bool_decide as E.
    + destruct E as [E1 E2].
      by rewrite (surjective_pairing p), E1, E2, <- surjective_pairing.
    + eapply keepsPaths_linked; [exact Hkeep|]. by apply Htree.
  - eapply linked_trans; [exact Hroot|]. by apply Hlinks.
Qed.

Lemma wilson_exit_links fuel width height root st maze' :
  Inv width height root st ->
  step fuel width height (height * 2 + 1) (width * 2 + 1) st
  = inr (Returned maze') ->
  Tree (height * 2 + 1) (width * 2 + 1) root maze'.
Proof.
  intros [_ Htree]. unfold step.
  destruct (_ <? _); [|by intros [= <-]].
  destruct (loop (pickStep _ _ _) _ _) as [[startCell rnd1]| |]; try done.
  destruct (loop (walkStep _ _ _) _ _) as [w| |]; try done.
  by destruct (carveWalk None (walk w) _) as [[? ?]| |].
Qed.

End WilsonLinks.

Lemma wilson_connected fuel width height rnd maze :
  1 <= width -> 1 <= height ->
  generateWilsonsMaze fuel width height rnd = Returned maze ->
  connected width height maze.
Proof.
  intros Hw Hh Hgen.
  pose proof (wilson_allCarved _ _ _ _ _ Hw Hh Hgen) as Hall.
  revert Hgen. unfold generateWilsonsMaze. cbv zeta.
  pose proof (randomIndex_lt (Z.to_nat height) rnd ltac:(lia)) as Hi.
  destruct (randomIndex (Z.to_nat height) rnd) as [i rnd1].
  pose proof (randomIndex_lt (Z.to_nat width) rnd1 ltac:(lia)) as Hj.
  destruct (randomIndex (Z.to_nat width) rnd1) as [j rnd2].
  simpl in Hi, Hj.
  intros H. apply bind_Returned in H as (maze1 & Hset & H).
  apply bind_Returned in H as (maze2 & Hloop & H).
  apply (tree_root_connected width height (Z.of_nat i) (Z.of_nat j));
    [lia | lia | | done].
  eapply tree_openEnds; [done | done | | exact H].
  clear H Hall. revert maze2 Hloop.
  apply (loop_invariant _
           (WilsonLinks.Inv width height
              (Z.of_nat i * 2 + 1, Z.of_nat j * 2 + 1))).
  - intros s s'. by apply WilsonLinks.wilson_step_links.
  - intros s r. apply WilsonLinks.wilson_exit_links.
  - pose proof (setCell_path _ _ _ _ Hset) as [Hc _].
    split; cbn [Wilson.maze].
    + split; cbn [Wilson.maze Wilson.visitedCells].
      * intros p Hp. apply elem_of_singleton in Hp as ->.
        apply elem_of_gridCells. exists (Z.of_nat i, Z.of_nat j).
        split; [done|]. apply elem_of_universe. simpl. lia.
      * intros p Hp. by apply elem_of_singleton in Hp as ->.
    + apply tree_first; [lia | lia | exact Hset].
Qed.

(** *** Binary tree: each cell opens onto one carved before it *)

(** An invariant that counts the elements a loop has run over. *)
Lemma foldM_counted {A B : Type} (f : B -> A -> outcome B)
    (I : nat -> B -> Prop) (l : list A) :
  (forall i a b b', l !! i = Some a -> I i b -> f b a = Returned b' ->
                    I (S i) b') ->
  forall b b', I O b -> foldM f l b = Returned b' -> I (length l) b'.
Proof.
  revert I. induction l as [|x l IH]; intros I Hf b b' Hb H; simpl in H.
  - by injection H as <-.
  - apply bind_Returned in H as (b1 & H1 & H2).
    apply (IH (fun i => I (S i))) in H2; [done| |].
    + intros i a b0 b0' Ha. by apply (Hf (S i)).
    + by apply (Hf O x b).
Qed.

Lemma oddIndices_lookup n i a :
  BinaryTree.oddIndices n !! i = Some a ->
  a = Z.of_nat i * 2 + 1 /\ Z.of_nat i < n.
Proof.
  unfold BinaryTree.oddIndices. rewrite list_lookup_fmap.
  destruct (seqZ 0 n !! i) as [x|] eqn:E; [|done].
  apply lookup_seqZ in E as [-> ?]. intros [= <-]. lia.
Qed.

Lemma oddIndices_length n : 0 <= n ->
  Z.of_nat (length (BinaryTree.oddIndices n)) = n.
Proof.
  intros Hn. unfold BinaryTree.oddIndices.
  rewrite length_fmap, length_seqZ. lia.
Qed.

(** The cell and then the wall towards the carved cell [cur]. *)
Lemma tree_opens gh gw root maze m1 m2 cur d wr wc nr nc :
  Tree gh gw root maze ->
  GridCell gh gw cur -> cellAt maze cur.1 cur.2 = Some Path ->
  d ∈ directions ->
  (wr, wc) = move cur d -> (nr, nc) = move (move cur d) d ->
  setCell maze nr nc Path = Returned m1 ->
  setCell m1 wr wc Path = Returned m2 ->
  Tree gh gw root m2.
Proof.
  intros Ht Hcur Hpath Hd Ew En H1 H2.
  pose proof (carve_two _ _ _ _ _ _ _ H1 H2) as (Hk & Hn & Hw & Hnew).
  eapply (tree_grows gh gw root maze m2 cur (wr, wc) (nr, nc) d d);
    try done.
  - eapply shaped_setCell; [|by left|exact H2].
    eapply shaped_setCell; [|by left|exact H1]. apply Ht.
  - intros p Hp Hpp. destruct (Hnew _ _ Hpp) as [?|[E|E]]; [by left| |].
    + right. by rewrite (surjective_pairing p).
    + exfalso. apply (PrimsCells.wall_not_cell gh gw cur d Hcur Hd).
      by rewrite <- Ew, <- E, <- surjective_pairing.
  - by apply Ht.
  - apply shaped_passable; [apply Ht | done].
  - by rewrite Ew.
Qed.

(** The root itself. *)
Lemma tree_root gh gw root maze maze' :
  Tree gh gw root maze ->
  setCell maze root.1 root.2 Path = Returned maze' ->
  Tree gh gw root maze'.
Proof.
  intros [Hs Hl] H. pose proof (setCell_path _ _ _ _ H) as [_ Hk].
  split; [by eapply shaped_carving|].
  intros p Hp Hpath. rewrite (cellAt_setCell _ _ _ _ _ _ _ H) in Hpath.
  case_bool_decide as E.
  - destruct E as [E1 E2]. rewrite (surjective_pairing p), E1, E2.
    rewrite <- surjective_pairing. apply linked_refl.
  - eapply keepsPaths_linked; [exact Hk|]. by apply Hl.
Qed.

Module BinaryTreeLinks.
Import BinaryTree.

(** The cells the two loops have run over: the rows before row [i] and,
    in row [i], the columns before column [k]. *)
Definition done (width : Z) (i k : nat) (m : Grid) : Prop :=
  forall r c, 0 <= c < width ->
              0 <= r < Z.of_nat i \/ (r = Z.of_nat i /\ c < Z.of_nat k) ->
              cellAt m (r * 2 + 1) (c * 2 + 1) = Some Path.

Definition Inv (width height : Z) (i k : nat) (st : Grid * Rand) : Prop :=
  Tree (height * 2 + 1) (width * 2 + 1) (1, 1) st.1 /\ done width i k st.1.

Lemma binaryTree_cell_links width height i k st st' :
  Z.of_nat i < height -> Z.of_nat k < width ->
  Inv width height i k st ->
  carveCell (Z.of_nat i * 2 + 1) st (Z.of_nat k * 2 + 1) = Returned st' ->
  Inv width height i (S k) st'.
Proof.
  intros Hi Hk [Htree Hdone] Hcell. split.
  - revert Hcell. destruct st as [m rnd]. unfold carveCell. intros H.
    apply bind_Returned in H as (m1 & H1 & H). simpl in Htree.
    assert (Hup : forall m2,
              0 < Z.of_nat i ->
              setCell m1 (Z.of_nat i * 2 + 1 - 1) (Z.of_nat k * 2 + 1) Path
              = Returned m2 ->
              Tree (height * 2 + 1) (width * 2 + 1) (1, 1) m2).
    { intros m2 Hpos H2.
      apply (tree_opens _ _ _ m m1 m2
               ((Z.of_nat i - 1) * 2 + 1, Z.of_nat k * 2 + 1) (1, 0)
               (Z.of_nat i * 2 + 1 - 1) (Z.of_nat k * 2 + 1)
               (Z.of_nat i * 2 + 1) (Z.of_nat k * 2 + 1) Htree); try done.
      - apply gridCell_cell; lia.
      - apply Hdone; lia.
      - unfold directions. rewrite !elem_of_cons. tauto.
      - unfold move. simpl. f_equal; lia.
      - unfold move. simpl. f_equal; lia. }
    assert (Hleft : forall m2,
              0 < Z.of_nat k ->
              setCell m1 (Z.of_nat i * 2 + 1) (Z.of_nat k * 2 + 1 - 1) Path
              = Returned m2 ->
              Tree (height * 2 + 1) (width * 2 + 1) (1, 1) m2).
    { intros m2 Hpos H2.
      apply (tree_opens _ _ _ m m1 m2
               (Z.of_nat i * 2 + 1, (Z.of_nat k - 1) * 2 + 1) (0, 1)
               (Z.of_nat i * 2 + 1) (Z.of_nat k * 2 + 1 - 1)
               (Z.of_nat i * 2 + 1) (Z.of_nat k * 2 + 1) Htree); try done.
      - apply gridCell_cell; lia.
      - apply Hdone; lia.
      - unfold directions. rewrite !elem_of_cons. tauto.
      - unfold move. simpl. f_equal; lia.
      - unfold move. simpl. f_equal; lia. }
    destruct (Z.gtb_spec (Z.of_nat i * 2 + 1) 1) as [Er|Er],
             (Z.gtb_spec (Z.of_nat k * 2 + 1) 1) as [Ec|Ec]; simpl in H;
      try destruct (randomCoin rnd) as [[] ?];
      inv_outcome; subst st'; simpl;
      try (apply Hup; [lia | assumption]);
      try (apply Hleft; [lia | assumption]);
      (assert (i = O) as -> by lia); (assert (k = O) as -> by lia);
      by apply (tree_root _ _ (1, 1) m).
  - apply binaryTree_cell_carved in Hcell as [Hc Hkeep].
    intros r c Hcw [Hr|[-> Hck]].
    + apply Hkeep, Hdone; [done | by left].
    + destruct (decide (c = Z.of_nat k)) as [->|Hne]; [done|].
      apply Hkeep, Hdone; [done | right; lia].
Qed.

Lemma binaryTree_row_links width height i st st' :
  0 <= width -> Z.of_nat i < height ->
  Inv width height i O st ->
  carveRow width st (Z.of_nat i * 2 + 1) = Returned st' ->
  Inv width height (S i) O st'.
Proof.
  intros Hw Hi Hinv Hrow. unfold carveRow in Hrow.
  apply (foldM_counted _ (Inv width height i)) in Hrow; [| |done].
  - destruct Hrow as [Htree Hdone]. split; [done|].
    intros r c Hc Hr. apply Hdone; [done|].
    pose proof (oddIndices_length width Hw). lia.
  - intros k a b b' Ha Hb Hcell.
    apply oddIndices_lookup in Ha as [-> Hk].
    by apply (binaryTree_cell_links width height i k b b').
Qed.

End BinaryTreeLinks.

Lemma tree_walls gh gw root :
  0 <= gh -> 0 <= gw -> Tree gh gw root (newGrid gh gw Wall).
Proof.
  intros Hh Hw. split; [apply shaped_newGrid; [done | done | by right]|].
  intros p (Hr & Hc & _) Hpath.
  rewrite cellAt_newGrid in Hpath by lia. discriminate.
Qed.

Lemma binaryTree_connected width height rnd maze :
  1 <= width -> 1 <= height ->
  generateBinaryTreeMaze width height rnd = Returned maze ->
  connected width height maze.
Proof.
  intros Hw Hh Hgen.
  pose proof (binaryTree_allCarved _ _ _ _ Hgen) as Hall.
  revert Hgen. unfold generateBinaryTreeMaze. cbv zeta. intros H.
  apply bind_Returned in H as ([m rnd'] & Hfold & H).
  apply (tree_root_connected width height 0 0); [lia | lia | | done].
  eapply tree_openEnds; [done | done | | exact H].
  apply (foldM_counted _ (fun i => BinaryTreeLinks.Inv width height i O))
    in Hfold.
  - apply Hfold.
  - intros i a b b' Ha Hb Hrow.
    apply oddIndices_lookup in Ha as [-> Hi].
    apply (BinaryTreeLinks.binaryTree_row_links width height i b b');
      [lia | done..].
  - split; simpl; [apply tree_walls; lia|]. intros r c Hc [?|[? ?]]; lia.
Qed.

(** *** Randomized Kruskal: cells of one set are joined *)

(** A loop that keeps [Inv] and settles [Q a] for the element [a] it runs
    on, for good. *)
Lemma foldM_settles {A B : Type} (f : B -> A -> outcome B) (Inv : B -> Prop)
    (Q : A -> B -> Prop) (l : list A) :
  (forall b a b', Inv b -> a ∈ l -> f b a = Returned b' ->
                  Inv b' /\ Q a b' /\ forall a0, Q a0 b -> Q a0 b') ->
  forall b b', Inv b -> foldM f l b = Returned b' ->
               Inv b' /\ forall a, a ∈ l -> Q a b'.
Proof.
  intros Hf.
  assert (Hgen : forall l0 (P : A -> Prop) b b',
            (forall a, a ∈ l0 -> a ∈ l) ->
            Inv b -> (forall a, P a -> Q a b) ->
            foldM f l0 b = Returned b' ->
            Inv b' /\ forall a, P a \/ a ∈ l0 -> Q a b').
  { induction l0 as [|x l0 IH]; intros P b b' Hsub Hb HP H; simpl in H.
    - injection H as <-. split; [done|]. intros a [Ha|Ha]; [auto|].
      by apply elem_of_nil in Ha.
    - apply bind_Returned in H as (b1 & H1 & H2).
      destruct (Hf b x b1 Hb) as (Hb1 & Hx & Hkeep);
        [apply Hsub; by apply elem_of_cons; left | done |].
      apply (IH (fun a => P a \/ a = x)) in H2 as [Hb' Hall]; [|auto..].
      + split; [done|]. intros a [Ha|Ha]; [apply Hall; auto|].
        apply elem_of_cons in Ha as [->|Ha]; apply Hall; auto.
      + intros a Ha. apply Hsub. by apply elem_of_cons; right.
      + intros a [Ha| ->]; auto. }
  intros b b' Hb H.
  destruct (Hgen l (fun _ => False) b b') as [Hb' Hall]; try done.
  split; [done|]. intros a Ha. apply Hall. by right.
Qed.

(** The cell with the index [r * width + c]. *)
Definition cellOf (width i : Z) : Coord :=
  ((i / width) * 2 + 1, (i `mod` width) * 2 + 1).

Lemma cellOf_index width r c :
  0 <= c < width -> cellOf width (r * width + c) = (r * 2 + 1, c * 2 + 1).
Proof.
  intros Hc. unfold cellOf.
  rewrite Z.div_add_l, Z.div_small, Z.add_0_r by lia.
  rewrite (Z.add_comm (r * width) c), Z.mod_add, Z.mod_small by lia. done.
Qed.

Lemma index_cell width height i :
  0 < width -> 0 <= i < height * width ->
  0 <= i / width < height /\ 0 <= i `mod` width < width.
Proof.
  intros Hw Hi. split.
  - split; [apply Z.div_pos; lia|]. apply Z.div_lt_upper_bound; nia.
  - by apply Z.mod_pos_bound.
Qed.

Module KruskalLinks.
Import Kruskal.

Section Maze.
Variables (width height : Z).
Hypothesis (Hwidth : 1 <= width).
#[local] Abbreviation gh := (height * 2 + 1).
#[local] Abbreviation gw := (width * 2 + 1).

(** Every entry of [parent] names a cell joined to the cell of its index. *)
Definition Forest (maze : Grid) (parent : list Z) : Prop :=
  forall (i : nat) p,
    parent !! i = Some p ->
    0 <= p < height * width /\
    linked maze gh gw (cellOf width (Z.of_nat i)) (cellOf width p).

Definition Carved (maze : Grid) : Prop :=
  Shaped gh gw maze /\ allCarved width height maze.

Lemma cell_passable maze i :
  Carved maze -> 0 <= i < height * width ->
  passable maze gh gw (cellOf width i) = true.
Proof.
  intros [Hs Hall] Hi. apply shaped_passable; [done|].
  destruct (index_cell width height i ltac:(lia) Hi). by apply Hall.
Qed.

Lemma forest_keeps maze maze' parent :
  keepsPaths maze maze' -> Forest maze parent -> Forest maze' parent.
Proof.
  intros Hk Hf i p Hp. destruct (Hf i p Hp) as [? ?].
  split; [done|]. by eapply keepsPaths_linked.
Qed.

Lemma forest_insert maze parent a b :
  Forest maze parent -> 0 <= a -> 0 <= b < height * width ->
  linked maze gh gw (cellOf width a) (cellOf width b) ->
  Forest maze (<[Z.to_nat a := b]> parent).
Proof.
  intros Hf Ha Hb Hl i p Hp.
  destruct (decide (i = Z.to_nat a)) as [->|Hne].
  - apply list_lookup_insert_Some in Hp as [(_ & <- & _)|[? _]]; [|done].
    by rewrite Z2Nat.id.
  - rewrite list_lookup_insert_ne in Hp by done. by apply Hf.
Qed.

Lemma findSet_links maze fuel :
  forall parent i root parent',
    Forest maze parent ->
    findSetByIndex fuel parent i = Returned (root, parent') ->
    Forest maze parent' /\ 0 <= i /\ 0 <= root < height * width /\
    linked maze gh gw (cellOf width i) (cellOf width root).
Proof.
  induction fuel as [|n IH]; intros parent i root parent' Hf H; [done|].
  cbn [findSetByIndex] in H.
  destruct (i <? 0) eqn:Ei; [done|]. apply Z.ltb_ge in Ei.
  destruct (parent !! Z.to_nat i) as [p|] eqn:Ep; [|done].
  destruct (Hf _ _ Ep) as [Hp Hip]. rewrite Z2Nat.id in Hip by done.
  destruct (p =? i) eqn:Epi.
  - apply Z.eqb_eq in Epi as ->. injection H as <- <-.
    split_and!; try done; try lia; apply linked_refl.
  - apply bind_Returned in H as ([root0 parent0] & Hrec & H).
    injection H as <- <-.
    destruct (IH _ _ _ _ Hf Hrec) as (Hf0 & _ & Hroot & Hl).
    assert (Hir : linked maze gh gw (cellOf width i) (cellOf width root0))
      by (by eapply linked_trans).
    split_and!; try done; try lia. by apply forest_insert.
Qed.

Lemma union_links maze fuel parent rank i j parent' rank' :
  Carved maze -> Forest maze parent ->
  linked maze gh gw (cellOf width i) (cellOf width j) ->
  0 <= i < height * width ->
  unionSetsByIndex fuel parent rank i j = Returned (parent', rank') ->
  Forest maze parent'.
Proof.
  intros Hc Hf Hij Hi H. unfold unionSetsByIndex in H.
  apply bind_Returned in H as ([rootI parent1] & H1 & H).
  apply bind_Returned in H as ([rootJ parent2] & H2 & H).
  destruct (findSet_links _ _ _ _ _ _ Hf H1) as (Hf1 & _ & HrI & HlI).
  destruct (findSet_links _ _ _ _ _ _ Hf1 H2) as (Hf2 & _ & HrJ & HlJ).
  assert (HIJ : linked maze gh gw (cellOf width rootI) (cellOf width rootJ)).
  { eapply linked_trans; [|eapply linked_trans; [exact Hij | exact HlJ]].
    apply linked_sym; [by apply cell_passable | done]. }
  assert (HJI : linked maze gh gw (cellOf width rootJ) (cellOf width rootI)).
  { apply linked_sym; [by apply cell_passable | done]. }
  destruct (rootI =? rootJ); [by injection H as <- <-|].
  destruct (_ <? _); [injection H as <- <-; apply forest_insert; lia || done|].
  destruct (_ <? _); injection H as <- <-; apply forest_insert; lia || done.
Qed.

(** The cells on the two sides of a wall of the list. *)
Lemma allWalls_sides wall :
  wall ∈ allWalls width height ->
  0 <= index1 wall < height * width /\
  0 <= index2 wall < height * width /\
  exists e, e ∈ directions /\
            wallPos wall = move (cellOf width (index1 wall)) e /\
            cellOf width (index2 wall) = move (wallPos wall) e.
Proof.
  unfold allWalls. intros H.
  apply elem_of_app in H as [H|H];
    apply list_elem_of_bind in H as (r & H & Hr);
    apply list_elem_of_bind in H as (c & H & Hc);
    apply list_elem_of_singleton in H as ->;
    apply elem_of_seqZ in Hr, Hc; cbn [index1 index2 wallPos];
    rewrite !cellOf_index by lia.
  - split_and!; try nia. exists (0, 1). unfold move. simpl.
    split_and!; [unfold directions; rewrite !elem_of_cons; tauto | ..];
      f_equal; lia.
  - split_and!; try nia. exists (1, 0). unfold move. simpl.
    split_and!; [unfold directions; rewrite !elem_of_cons; tauto | ..];
      f_equal; lia.
Qed.

Definition Inv (st : Grid * list Z * list Z) : Prop :=
  Carved st.1.1 /\ Forest st.1.1 st.1.2.

Definition joined (wall : WallEntry) (st : Grid * list Z * list Z) : Prop :=
  linked st.1.1 gh gw (cellOf width (index1 wall))
    (cellOf width (index2 wall)).

Lemma processWall_links fuel st wall st' :
  Inv st -> wall ∈ allWalls width height ->
  processWall fuel st wall = Returned st' ->
  Inv st' /\ joined wall st' /\ forall w, joined w st -> joined w st'.
Proof.
  destruct st as [[maze parent] rank]. intros [Hc Hf] Hwall H.
  unfold Inv, joined in *. cbn [fst snd] in *.
  destruct (allWalls_sides wall Hwall) as (Hi1 & Hi2 & e & He & Hpos & Hnext).
  unfold processWall in H.
  apply bind_Returned in H as ([root1 parent1] & H1 & H).
  apply bind_Returned in H as ([root2 parent2] & H2 & H).
  destruct (findSet_links _ _ _ _ _ _ Hf H1) as (Hf1 & _ & Hr1 & Hl1).
  destruct (findSet_links _ _ _ _ _ _ Hf1 H2) as (Hf2 & _ & Hr2 & Hl2).
  destruct (root1 =? root2) eqn:Eroot.
  - apply Z.eqb_eq in Eroot as <-. injection H as <-. cbn [fst snd].
    split_and!; try done.
    eapply linked_trans; [exact Hl1|].
    apply linked_sym; [by apply cell_passable | done].
  - apply bind_Returned in H as (maze1 & Hset & H).
    apply bind_Returned in H as ([parent3 rank1] & Hunion & H).
    injection H as <-. cbn [fst snd].
    pose proof (setCell_path _ _ _ _ Hset) as [Hw Hk].
    assert (Hc1 : Carved maze1).
    { destruct Hc as [Hs Hall]. split; [by eapply shaped_carving|].
      by eapply carving_allCarved. }
    assert (Hjoin : linked maze1 gh gw (cellOf width (index1 wall))
                      (cellOf width (index2 wall))).
    { rewrite Hnext. apply linked_move; [|done|].
      - rewrite Hpos. apply linked_move; [apply linked_refl | done |].
        rewrite <- Hpos. apply shaped_passable; [apply Hc1 | done].
      - rewrite <- Hnext. by apply cell_passable. }
    split_and!; try done.
    + eapply union_links; [exact Hc1 | | exact Hjoin | done | exact Hunion].
      by eapply forest_keeps.
    + intros w. by apply keepsPaths_linked.
Qed.

(** Once the cells on the two sides of every wall are joined, all cells
    are. *)
Lemma walls_connected maze :
  1 <= height -> Carved maze ->
  (forall wall, wall ∈ allWalls width height ->
                linked maze gh gw (cellOf width (index1 wall))
                  (cellOf width (index2 wall))) ->
  connected width height maze.
Proof.
  intros Hh Hc Hwalls.
  assert (Hpass : forall r c, 0 <= r < height -> 0 <= c < width ->
                    passable maze gh gw (r * 2 + 1, c * 2 + 1) = true).
  { intros r c Hr Hcc. apply shaped_passable; [apply Hc|]. by apply Hc. }
  assert (Hright : forall r c, 0 <= r < height -> 0 <= c < width - 1 ->
            linked maze gh gw (r * 2 + 1, c * 2 + 1)
              (r * 2 + 1, (c + 1) * 2 + 1)).
  { intros r c Hr Hcc.
    specialize (Hwalls (mkWall (r * 2 + 1, c * 2 + 2) (r * width + c)
                          (r * width + (c + 1)))).
    cbn [index1 index2] in Hwalls. rewrite !cellOf_index in Hwalls by lia.
    apply Hwalls. unfold allWalls. apply elem_of_app. left.
    apply list_elem_of_bind. exists r. split; [|apply elem_of_seqZ; lia].
    apply list_elem_of_bind. exists c. split; [|apply elem_of_seqZ; lia].
    by apply list_elem_of_singleton. }
  assert (Hdown : forall r c, 0 <= r < height - 1 -> 0 <= c < width ->
            linked maze gh gw (r * 2 + 1, c * 2 + 1)
              ((r + 1) * 2 + 1, c * 2 + 1)).
  { intros r c Hr Hcc.
    specialize (Hwalls (mkWall (r * 2 + 2, c * 2 + 1) (r * width + c)
                          ((r + 1) * width + c))).
    cbn [index1 index2] in Hwalls. rewrite !cellOf_index in Hwalls by lia.
    apply Hwalls. unfold allWalls. apply elem_of_app. right.
    apply list_elem_of_bind. exists r. split; [|apply elem_of_seqZ; lia].
    apply list_elem_of_bind. exists c. split; [|apply elem_of_seqZ; lia].
    by apply list_elem_of_singleton. }
  assert (Hall : forall t, GrowingTree.isCell width height t = true ->
                   GrowingTree.isCell width height t = true /\
                   linked maze gh gw (1, 1) (cellToGrid t)).
  { apply (cells_connected width height
             (fun p => GrowingTree.isCell width height p = true /\
                       linked maze gh gw (1, 1) (cellToGrid p)) (0, 0)).
    - split; [|apply linked_refl]. unfold GrowingTree.isCell. simpl.
      rewrite !andb_true_iff, !Z.geb_le, !Z.ltb_lt. lia.
    - unfold GrowingTree.isCell. simpl.
      rewrite !andb_true_iff, !Z.geb_le, !Z.ltb_lt. lia.
    - intros [r c] d [Hcell Hp] Hd Hq. split; [done|].
      apply GrowingTreeFacts.isCell_valid in Hq as [Hqr Hqc].
      apply GrowingTreeFacts.isCell_valid in Hcell as [Hpr Hpc].
      eapply linked_trans; [exact Hp|].
      unfold directions in Hd. rewrite !elem_of_cons, elem_of_nil in Hd.
      unfold move, cellToGrid in *. simpl in *.
      destruct Hd as [->|[->|[->|[->|[]]]]]; simpl in *.
      + apply linked_sym; [apply Hpass; lia|].
        replace (r * 2 + 1) with ((r + -1 + 1) * 2 + 1) by lia.
        replace (c + 0) with c by lia. apply Hdown; lia.
      + replace (c + 0) with c by lia. apply Hdown; lia.
      + apply linked_sym; [apply Hpass; lia|].
        replace (c * 2 + 1) with ((c + -1 + 1) * 2 + 1) by lia.
        replace (r + 0) with r by lia. apply Hright; lia.
      + replace (r + 0) with r by lia. apply Hright; lia. }
  intros r c r' c' Hr Hcc Hr' Hc'.
  assert (Hcell : forall r c, 0 <= r < height -> 0 <= c < width ->
                    GrowingTree.isCell width height (r, c) = true).
  { intros r0 c0 ? ?. unfold GrowingTree.isCell. simpl.
    rewrite !andb_true_iff, !Z.geb_le, !Z.ltb_lt. lia. }
  eapply linked_trans.
  - apply linked_sym; [apply (Hpass 0 0); lia|].
    apply (Hall (r, c)). by apply Hcell.
  - apply (Hall (r', c')). by apply Hcell.
Qed.

End Maze.
End KruskalLinks.

Lemma kruskal_connected fuel width height rnd maze :
  1 <= width -> 1 <= height ->
  generateKruskalsMaze fuel width height rnd = Returned maze ->
  connected width height maze.
Proof.
  intros Hw Hh. unfold generateKruskalsMaze. cbv zeta. intros H.
  apply bind_Returned in H as (maze1 & Hcells & H).
  pose proof (elem_of_shuffle (Kruskal.allWalls width height) rnd) as Hsh.
  destruct (shuffle (Kruskal.allWalls width height) rnd) as [walls rnd'].
  cbn [fst] in Hsh.
  apply bind_Returned in H as ([[maze2 parent] rank] & Hfold & H).
  assert (Hc1 : KruskalLinks.Carved width height maze1).
  { split; [|by eapply kruskal_cells_carved].
    unfold Kruskal.carveCells in Hcells.
    eapply (foldM_invariant _ (Shaped (height * 2 + 1) (width * 2 + 1)));
      [| |exact Hcells].
    - intros m r m' Hm _ Hrow.
      eapply (foldM_invariant _ (Shaped (height * 2 + 1) (width * 2 + 1)));
        [| exact Hm |exact Hrow].
      intros m0 c m0' Hm0 _ Hset.
      eapply shaped_carving; [exact Hm0 | exact Hset].
    - apply shaped_newGrid; [lia | lia | by right]. }
  apply (foldM_settles _ (KruskalLinks.Inv width height)
           (KruskalLinks.joined width height)) in Hfold as [[Hc2 _] Hall].
  - cbn [fst snd] in Hc2, Hall.
    pose proof (openEnds_keeps _ _ _ _ _ (carving_keepsPaths maze2)
                  (keepsPaths_refl maze2) H) as Hk.
    apply KruskalLinks.walls_connected; [done | done | |].
    + destruct Hc2 as [Hs Ha]. split.
      * eapply openEnds_keeps; [apply shaped_carving | exact Hs | exact H].
      * eapply openEnds_keeps; [apply carving_allCarved | exact Ha | exact H].
    + intros wall Hwall. eapply keepsPaths_linked; [exact Hk|].
      apply (Hall wall). by apply Hsh.
  - intros st wall st' Hinv Hwall.
    apply KruskalLinks.processWall_links; [done | done |]. by apply Hsh.
  - split; cbn [fst snd]; [done|].
    intros i p Hp. apply lookup_seqZ in Hp as [-> Hi].
    split; [lia|]. rewrite Z.add_0_l. apply linked_refl.
Qed.

(** *** Recursive division: every wall drawn has a gap *)

Module DivisionLinks.
Import Division.

(** The chamber between the rows [r1] and [r2] and the columns [c1] and
    [c2]. *)
Definition inside (r1 c1 r2 c2 : Z) (p : Coord) : Prop :=
  r1 <= p.1 <= r2 /\ c1 <= p.2 <= c2.

(** Walks that stay in a chamber. *)
Inductive Within (maze : Grid) (r1 c1 r2 c2 : Z) (a : Coord)
  : Coord -> Prop :=
  | Within_here : Within maze r1 c1 r2 c2 a a
  | Within_move b d :
      Within maze r1 c1 r2 c2 a b -> d ∈ directions ->
      inside r1 c1 r2 c2 (move b d) ->
      cellAt maze (move b d).1 (move b d).2 = Some Path ->
      Within maze r1 c1 r2 c2 a (move b d).

Lemma within_trans maze r1 c1 r2 c2 a b c :
  Within maze r1 c1 r2 c2 a b -> Within maze r1 c1 r2 c2 b c ->
  Within maze r1 c1 r2 c2 a c.
Proof. intros Hab Hbc. induction Hbc; [done|]. by constructor. Qed.

Lemma within_end maze r1 c1 r2 c2 a b :
  Within maze r1 c1 r2 c2 a b ->
  inside r1 c1 r2 c2 a -> cellAt maze a.1 a.2 = Some Path ->
  inside r1 c1 r2 c2 b /\ cellAt maze b.1 b.2 = Some Path.
Proof. by destruct 1. Qed.

Lemma within_sym maze r1 c1 r2 c2 a b :
  inside r1 c1 r2 c2 a -> cellAt maze a.1 a.2 = Some Path ->
  Within maze r1 c1 r2 c2 a b -> Within maze r1 c1 r2 c2 b a.
Proof.
  intros Ha Hpa Hab. induction Hab as [|b d Hab IH Hd Hin Hp];
    [constructor|].
  eapply within_trans; [|exact IH].
  destruct (within_end _ _ _ _ _ _ _ Hab Ha Hpa) as [Hb Hpb].
  rewrite <- (move_opposite b d) at 2.
  constructor; [constructor | by apply opposite_direction | ..];
    by rewrite move_opposite.
Qed.

Lemma within_widen maze r1 c1 r2 c2 r1' c1' r2' c2' a b :
  r1' <= r1 -> c1' <= c1 -> r2 <= r2' -> c2 <= c2' ->
  Within maze r1 c1 r2 c2 a b -> Within maze r1' c1' r2' c2' a b.
Proof.
  intros ? ? ? ? Hab. induction Hab as [|b d _ IH Hd [? ?] Hp];
    [constructor|].
  constructor; try done. unfold inside. lia.
Qed.

Lemma within_agree maze maze' r1 c1 r2 c2 a b :
  (forall p, inside r1 c1 r2 c2 p ->
             cellAt maze' p.1 p.2 = cellAt maze p.1 p.2) ->
  Within maze r1 c1 r2 c2 a b -> Within maze' r1 c1 r2 c2 a b.
Proof.
  intros Hsame Hab. induction Hab as [|b d _ IH Hd Hin Hp]; [constructor|].
  constructor; try done. by rewrite Hsame.
Qed.

Lemma within_linked gh gw maze r1 c1 r2 c2 a b :
  Shaped gh gw maze -> Within maze r1 c1 r2 c2 a b -> linked maze gh gw a b.
Proof.
  intros Hs Hab. induction Hab as [|b d _ IH Hd Hin Hp];
    [apply linked_refl|].
  apply linked_move; [done | done | by apply shaped_passable].
Qed.

(** In a chamber without walls one goes straight from a position to
    another of its row or column. *)
Lemma open_line maze r1 c1 r2 c2 (p : Coord) d (n : nat) :
  (forall q, inside r1 c1 r2 c2 q -> cellAt maze q.1 q.2 = Some Path) ->
  d ∈ directions -> inside r1 c1 r2 c2 p ->
  inside r1 c1 r2 c2 (p.1 + Z.of_nat n * d.1, p.2 + Z.of_nat n * d.2) ->
  Within maze r1 c1 r2 c2 p (p.1 + Z.of_nat n * d.1, p.2 + Z.of_nat n * d.2).
Proof.
  intros Hopen Hd Hp. induction n as [|n IH]; intros Hq.
  - replace (p.1 + Z.of_nat 0 * d.1, p.2 + Z.of_nat 0 * d.2) with p;
      [constructor|].
    destruct p. simpl. f_equal; lia.
  - replace (p.1 + Z.of_nat (S n) * d.1, p.2 + Z.of_nat (S n) * d.2)
      with (move (p.1 + Z.of_nat n * d.1, p.2 + Z.of_nat n * d.2) d) in *
      by (unfold move; simpl; f_equal; lia).
    constructor; [|done | done | by apply Hopen].
    apply IH. clear IH. destruct p as [r c]. unfold inside, move in *.
    unfold directions in Hd. rewrite !elem_of_cons, elem_of_nil in Hd.
    simpl in *. destruct Hd as [->|[->|[->|[->|[]]]]]; simpl in *; lia.
Qed.

Lemma open_within maze r1 c1 r2 c2 a b :
  (forall q, inside r1 c1 r2 c2 q -> cellAt maze q.1 q.2 = Some Path) ->
  inside r1 c1 r2 c2 a -> inside r1 c1 r2 c2 b ->
  Within maze r1 c1 r2 c2 a b.
Proof.
  intros Hopen Ha Hb. destruct a as [ar ac], b as [br bc].
  unfold inside in Ha, Hb. simpl in Ha, Hb.
  assert (Hv : Within maze r1 c1 r2 c2 (ar, ac) (br, ac)).
  { destruct (decide (ar <= br)).
    - pose proof (open_line maze r1 c1 r2 c2 (ar, ac) (1, 0)
                    (Z.to_nat (br - ar)) Hopen) as H. simpl in H.
      replace (ar + Z.of_nat (Z.to_nat (br - ar)) * 1) with br in H by lia.
      replace (ac + Z.of_nat (Z.to_nat (br - ar)) * 0) with ac in H by lia.
      apply H; [unfold directions; rewrite !elem_of_cons; tauto | ..];
        unfold inside; simpl; lia.
    - pose proof (open_line maze r1 c1 r2 c2 (ar, ac) (-1, 0)
                    (Z.to_nat (ar - br)) Hopen) as H. simpl in H.
      replace (ar + Z.of_nat (Z.to_nat (ar - br)) * -1) with br in H by lia.
      replace (ac + Z.of_nat (Z.to_nat (ar - br)) * 0) with ac in H by lia.
      apply H; [unfold directions; rewrite !elem_of_cons; tauto | ..];
        unfold inside; simpl; lia. }
  eapply within_trans; [exact Hv|].
  destruct (decide (ac <= bc)).
  - pose proof (open_line maze r1 c1 r2 c2 (br, ac) (0, 1)
                  (Z.to_nat (bc - ac)) Hopen) as H. simpl in H.
    replace (br + Z.of_nat (Z.to_nat (bc - ac)) * 0) with br in H by lia.
    replace (ac + Z.of_nat (Z.to_nat (bc - ac)) * 1) with bc in H by lia.
    apply H; [unfold directions; rewrite !elem_of_cons; tauto | ..];
      unfold inside; simpl; lia.
  - pose proof (open_line maze r1 c1 r2 c2 (br, ac) (0, -1)
                  (Z.to_nat (ac - bc)) Hopen) as H. simpl in H.
    replace (br + Z.of_nat (Z.to_nat (ac - bc)) * 0) with br in H by lia.
    replace (ac + Z.of_nat (Z.to_nat (ac - bc)) * -1) with bc in H by lia.
    apply H; [unfold directions; rewrite !elem_of_cons; tauto | ..];
      unfold inside; simpl; lia.
Qed.

(** What the two drawing loops leave as it was. *)
Lemma drawHorizontal_frame wallRow c1 c2 passageCol maze maze' :
  drawHorizontal wallRow c1 c2 passageCol maze = Returned maze' ->
  forall r c, r <> wallRow \/ c = passageCol \/ c < c1 \/ c2 < c ->
              cellAt maze' r c = cellAt maze r c.
Proof.
  unfold drawHorizontal. intros H.
  eapply (foldM_invariant _
            (fun m => forall r c,
               r <> wallRow \/ c = passageCol \/ c < c1 \/ c2 < c ->
               cellAt m r c = cellAt maze r c)); [| |exact H]; [|done].
  intros m x m' Hm Hx Hset r c Hrc. cbv beta in Hset.
  apply elem_of_seqZ in Hx.
  destruct (x =? passageCol) eqn:E; [injection Hset as <-; auto|].
  apply Z.eqb_neq in E.
  rewrite (cellAt_setCell _ _ _ _ _ _ _ Hset).
  rewrite bool_decide_eq_false_2 by lia. auto.
Qed.

Lemma drawVertical_frame wallCol r1 r2 passageRow maze maze' :
  drawVertical wallCol r1 r2 passageRow maze = Returned maze' ->
  forall r c, c <> wallCol \/ r = passageRow \/ r < r1 \/ r2 < r ->
              cellAt maze' r c = cellAt maze r c.
Proof.
  unfold drawVertical. intros H.
  eapply (foldM_invariant _
            (fun m => forall r c,
               c <> wallCol \/ r = passageRow \/ r < r1 \/ r2 < r ->
               cellAt m r c = cellAt maze r c)); [| |exact H]; [|done].
  intros m x m' Hm Hx Hset r c Hrc. cbv beta in Hset.
  apply elem_of_seqZ in Hx.
  destruct (x =? passageRow) eqn:E; [injection Hset as <-; auto|].
  apply Z.eqb_neq in E.
  rewrite (cellAt_setCell _ _ _ _ _ _ _ Hset).
  rewrite bool_decide_eq_false_2 by lia. auto.
Qed.

(** A chamber whose cells are all joined inside it. *)
Definition joinedIn (maze : Grid) (r1 c1 r2 c2 : Z) : Prop :=
  forall x y x' y',
    inside r1 c1 r2 c2 (1 + 2 * x, 1 + 2 * y) ->
    inside r1 c1 r2 c2 (1 + 2 * x', 1 + 2 * y') ->
    Within maze r1 c1 r2 c2 (1 + 2 * x, 1 + 2 * y) (1 + 2 * x', 1 + 2 * y').

(** One step down, and one step right. *)
Lemma within_down maze r1 c1 r2 c2 a r c :
  Within maze r1 c1 r2 c2 a (r - 1, c) ->
  r1 <= r <= r2 -> c1 <= c <= c2 -> cellAt maze r c = Some Path ->
  Within maze r1 c1 r2 c2 a (r, c).
Proof.
  intros Ha Hr Hc Hp.
  replace (r, c) with (move (r - 1, c) (1, 0))
    by (unfold move; cbn [fst snd]; f_equal; lia).
  constructor; [done | unfold directions; rewrite !elem_of_cons; tauto | ..];
    unfold move, inside; cbn [fst snd].
  - lia.
  - replace (r - 1 + 1) with r by lia. by replace (c + 0) with c by lia.
Qed.

Lemma within_right maze r1 c1 r2 c2 a r c :
  Within maze r1 c1 r2 c2 a (r, c - 1) ->
  r1 <= r <= r2 -> c1 <= c <= c2 -> cellAt maze r c = Some Path ->
  Within maze r1 c1 r2 c2 a (r, c).
Proof.
  intros Ha Hr Hc Hp.
  replace (r, c) with (move (r, c - 1) (0, 1))
    by (unfold move; cbn [fst snd]; f_equal; lia).
  constructor; [done | unfold directions; rewrite !elem_of_cons; tauto | ..];
    unfold move, inside; cbn [fst snd].
  - lia.
  - replace (c - 1 + 1) with c by lia. by replace (r + 0) with r by lia.
Qed.

(** Two chambers with all cells joined, and a gap in the wall between
    them. *)
Lemma joined_rows maze r1 c1 r2 c2 k col :
  joinedIn maze r1 c1 (2 * k - 1) c2 ->
  joinedIn maze (2 * k + 1) c1 r2 c2 ->
  r1 < 2 * k < r2 -> c1 <= 1 + 2 * col <= c2 ->
  cellAt maze (2 * k - 1) (1 + 2 * col) = Some Path ->
  cellAt maze (2 * k) (1 + 2 * col) = Some Path ->
  cellAt maze (2 * k + 1) (1 + 2 * col) = Some Path ->
  joinedIn maze r1 c1 r2 c2.
Proof.
  intros Hup Hdown Hk Hcol Hp1 Hp2 Hp3.
  set (ga := (1 + 2 * (k - 1), 1 + 2 * col)).
  set (gb := (1 + 2 * k, 1 + 2 * col)).
  assert (Hab : Within maze r1 c1 r2 c2 ga gb).
  { unfold ga, gb. replace (1 + 2 * k) with (2 * k + 1) by lia.
    apply within_down; [|lia | lia | done].
    replace (2 * k + 1 - 1) with (2 * k) by lia.
    apply within_down; [|lia | lia | done].
    replace (2 * k - 1) with (1 + 2 * (k - 1)) by lia. constructor. }
  assert (Hba : Within maze r1 c1 r2 c2 gb ga).
  { apply within_sym; [unfold inside, ga; cbn [fst snd]; lia | | done].
    unfold ga. cbn [fst snd].
    by replace (1 + 2 * (k - 1)) with (2 * k - 1) by lia. }
  assert (Hwa : forall a b, Within maze r1 c1 (2 * k - 1) c2 a b ->
                            Within maze r1 c1 r2 c2 a b)
    by (intros a b; apply within_widen; lia).
  assert (Hwb : forall a b, Within maze (2 * k + 1) c1 r2 c2 a b ->
                            Within maze r1 c1 r2 c2 a b)
    by (intros a b; apply within_widen; lia).
  intros x y x' y' [Hx Hy] [Hx' Hy']. cbn [fst snd] in *.
  destruct (decide (x < k)), (decide (x' < k)).
  - apply Hwa, Hup; unfold inside; cbn [fst snd]; lia.
  - eapply within_trans; [apply Hwa, (Hup x y (k - 1) col)|];
      [unfold inside; cbn [fst snd]; lia..|].
    eapply within_trans; [exact Hab|].
    apply Hwb, (Hdown k col x' y'); unfold inside; cbn [fst snd]; lia.
  - eapply within_trans; [apply Hwb, (Hdown x y k col)|];
      [unfold inside; cbn [fst snd]; lia..|].
    eapply within_trans; [exact Hba|].
    apply Hwa, (Hup (k - 1) col x' y'); unfold inside; cbn [fst snd]; lia.
  - apply Hwb, Hdown; unfold inside; cbn [fst snd]; lia.
Qed.

Lemma joined_columns maze r1 c1 r2 c2 k row :
  joinedIn maze r1 c1 r2 (2 * k - 1) ->
  joinedIn maze r1 (2 * k + 1) r2 c2 ->
  c1 < 2 * k < c2 -> r1 <= 1 + 2 * row <= r2 ->
  cellAt maze (1 + 2 * row) (2 * k - 1) = Some Path ->
  cellAt maze (1 + 2 * row) (2 * k) = Some Path ->
  cellAt maze (1 + 2 * row) (2 * k + 1) = Some Path ->
  joinedIn maze r1 c1 r2 c2.
Proof.
  intros Hleft Hright Hk Hrow Hp1 Hp2 Hp3.
  set (ga := (1 + 2 * row, 1 + 2 * (k - 1))).
  set (gb := (1 + 2 * row, 1 + 2 * k)).
  assert (Hab : Within maze r1 c1 r2 c2 ga gb).
  { unfold ga, gb. replace (1 + 2 * k) with (2 * k + 1) by lia.
    apply within_right; [|lia | lia | done].
    replace (2 * k + 1 - 1) with (2 * k) by lia.
    apply within_right; [|lia | lia | done].
    replace (2 * k - 1) with (1 + 2 * (k - 1)) by lia. constructor. }
  assert (Hba : Within maze r1 c1 r2 c2 gb ga).
  { apply within_sym; [unfold inside, ga; cbn [fst snd]; lia | | done].
    unfold ga. cbn [fst snd].
    by replace (1 + 2 * (k - 1)) with (2 * k - 1) by lia. }
  assert (Hwa : forall a b, Within maze r1 c1 r2 (2 * k - 1) a b ->
                            Within maze r1 c1 r2 c2 a b)
    by (intros a b; apply within_widen; lia).
  assert (Hwb : forall a b, Within maze r1 (2 * k + 1) r2 c2 a b ->
                            Within maze r1 c1 r2 c2 a b)
    by (intros a b; apply within_widen; lia).
  intros x y x' y' [Hx Hy] [Hx' Hy']. cbn [fst snd] in *.
  destruct (decide (y < k)), (decide (y' < k)).
  - apply Hwa, Hleft; unfold inside; cbn [fst snd]; lia.
  - eapply within_trans; [apply Hwa, (Hleft x y row (k - 1))|];
      [unfold inside; cbn [fst snd]; lia..|].
    eapply within_trans; [exact Hab|].
    apply Hwb, (Hright row k x' y'); unfold inside; cbn [fst snd]; lia.
  - eapply within_trans; [apply Hwb, (Hright x y row k)|];
      [unfold inside; cbn [fst snd]; lia..|].
    eapply within_trans; [exact Hba|].
    apply Hwa, (Hleft row (k - 1) x' y'); unfold inside; cbn [fst snd]; lia.
  - apply Hwb, Hright; unfold inside; cbn [fst snd]; lia.
Qed.

Lemma joinedIn_agree maze maze' r1 c1 r2 c2 :
  (forall p, inside r1 c1 r2 c2 p ->
             cellAt maze' p.1 p.2 = cellAt maze p.1 p.2) ->
  joinedIn maze r1 c1 r2 c2 -> joinedIn maze' r1 c1 r2 c2.
Proof.
  intros Hsame H x y x' y' Hp Hq. eapply within_agree; [exact Hsame|].
  by apply H.
Qed.

(** [divide] leaves the cells of its chamber joined, and changes nothing
    outside the chamber. *)
Lemma divide_links fuel :
  forall a1 b1 a b r1 c1 r2 c2 maze rnd maze' rnd',
    r1 = 1 + 2 * a1 -> c1 = 1 + 2 * b1 ->
    r2 = r1 + 2 * a -> c2 = c1 + 2 * b ->
    (forall q, inside r1 c1 r2 c2 q -> cellAt maze q.1 q.2 = Some Path) ->
    divide fuel r1 c1 r2 c2 maze rnd = Returned (maze', rnd') ->
    (forall p, ~ inside r1 c1 r2 c2 p ->
               cellAt maze' p.1 p.2 = cellAt maze p.1 p.2) /\
    joinedIn maze' r1 c1 r2 c2.
Proof.
  induction fuel as [|n IH];
    intros a1 b1 a b r1 c1 r2 c2 maze rnd maze' rnd' Er1 Ec1 Er2 Ec2 Hopen H;
    [done|].
  cbn [divide] in H.
  destruct ((r2 - r1 <? 4) || (c2 - c1 <? 4)) eqn:Eg.
  { injection H as <- <-. split; [done|].
    intros x y x' y' Hp Hq. by apply open_within. }
  apply orb_false_elim in Eg as [Egr Egc].
  apply Z.ltb_ge in Egr, Egc.
  assert (Ea : (r2 - r1) / 2 = a)
    by (subst r2; Z.to_euclidean_division_equations; lia).
  assert (Eb : (c2 - c1) / 2 = b)
    by (subst c2; Z.to_euclidean_division_equations; lia).
  rewrite Ea, Eb in H.
  assert (Hcell : forall x y m0 rn m0' rn' r1' c1' r2' c2',
            Z.odd r1' = true -> Z.odd c1' = true ->
            divide n r1' c1' r2' c2' m0 rn = Returned (m0', rn') ->
            cellAt m0 (1 + 2 * x) (1 + 2 * y) = Some Path ->
            cellAt m0' (1 + 2 * x) (1 + 2 * y) = Some Path).
  { intros x y m0 rn m0' rn' r1' c1' r2' c2' Hor Hoc Hdiv Hp.
    apply (divide_even (fun m => cellAt m (1 + 2 * x) (1 + 2 * y) = Some Path)
             n) in Hdiv; try done.
    intros m r c m' Hm Heven Hset.
    rewrite (cellAt_setCell _ _ _ _ _ _ _ Hset).
    rewrite bool_decide_eq_false_2; [done|]. intros [<- <-].
    rewrite !Z.even_add_mul_2 in Heven. by destruct Heven. }
  assert (Hor : Z.odd r1 = true) by (subst r1; by rewrite Z.odd_add_mul_2).
  assert (Hoc : Z.odd c1 = true) by (subst c1; by rewrite Z.odd_add_mul_2).
  assert (Hok : forall k, Z.odd (2 * k + 1) = true).
  { intros k. by rewrite Z.add_comm, Z.odd_add_mul_2. }
  destruct (if r2 - r1 >? c2 - c1 then (true, rnd)
            else if r2 - r1 =? c2 - c1 then randomCoin rnd else (false, rnd))
    as [[] rnd1].
  - pose proof (randomIndex_lt (Z.to_nat a) rnd1 ltac:(lia)) as Hi.
    destruct (randomIndex (Z.to_nat a) rnd1) as [i rnd2].
    pose proof (randomIndex_lt (Z.to_nat (b + 1)) rnd2 ltac:(lia)) as Hj.
    destruct (randomIndex (Z.to_nat (b + 1)) rnd2) as [j rnd3].
    cbn [fst] in Hi, Hj.
    apply bind_Returned in H as (maze1 & Hdraw & H).
    apply bind_Returned in H as ([maze2 rnd4] & Hup & Hdown).
    pose proof (drawHorizontal_frame _ _ _ _ _ _ Hdraw) as Hframe.
    set (k := a1 + 1 + Z.of_nat i) in *.
    replace (r1 + 1 + 2 * Z.of_nat i) with (2 * k) in * by (unfold k; lia).
    replace (c1 + 2 * Z.of_nat j) with (1 + 2 * (b1 + Z.of_nat j)) in *
      by lia.
    destruct (IH a1 b1 (Z.of_nat i) b r1 c1 (2 * k - 1) c2 maze1 rnd3 maze2 rnd4)
      as [Hf2 Hj2]; try done; try (unfold k; lia).
    { intros q [? ?]. rewrite Hframe by lia. apply Hopen.
      unfold inside. unfold k in *. lia. }
    destruct (IH k b1 (a - Z.of_nat i - 1) b (2 * k + 1) c1 r2 c2
                maze2 rnd4 maze' rnd')
      as [Hf3 Hj3]; try done; try (unfold k; lia).
    { intros q [? ?]. rewrite Hf2 by (unfold inside; lia).
      rewrite Hframe by lia. apply Hopen. unfold inside. unfold k in *. lia. }
    split.
    + intros p Hp. unfold inside in Hp.
      rewrite Hf3 by (unfold inside; unfold k in *; lia).
      rewrite Hf2 by (unfold inside; unfold k in *; lia).
      apply Hframe.
      destruct (decide (p.1 = 2 * k)); [|by left].
      right; right. unfold k in *. lia.
    + apply (joined_rows maze' r1 c1 r2 c2 k (b1 + Z.of_nat j));
        try (unfold k; lia); try done.
      * eapply joinedIn_agree; [|exact Hj2].
        intros p [? ?]. apply Hf3. unfold inside. lia.
      * replace (2 * k - 1) with (1 + 2 * (k - 1)) by lia.
        apply (Hcell _ _ _ _ _ _ _ _ _ _ (Hok k) Hoc Hdown).
        apply (Hcell _ _ _ _ _ _ _ _ _ _ Hor Hoc Hup).
        rewrite Hframe by lia. apply (Hopen (1 + 2 * (k - 1), 1 + 2 * (b1 + Z.of_nat j))).
        unfold inside, k. cbn [fst snd]. lia.
      * pose proof (fun r c => Hf3 (r, c)) as Hf3'.
        pose proof (fun r c => Hf2 (r, c)) as Hf2'. cbn [fst snd] in Hf2', Hf3'.
        rewrite Hf3' by (unfold inside; cbn [fst snd]; lia).
        rewrite Hf2' by (unfold inside; cbn [fst snd]; lia).
        rewrite Hframe by (right; left; done).
        apply (Hopen (2 * k, 1 + 2 * (b1 + Z.of_nat j))). unfold inside, k. cbn [fst snd]. lia.
      * replace (2 * k + 1) with (1 + 2 * k) by lia.
        apply (Hcell _ _ _ _ _ _ _ _ _ _ (Hok k) Hoc Hdown).
        apply (Hcell _ _ _ _ _ _ _ _ _ _ Hor Hoc Hup).
        rewrite Hframe by lia. apply (Hopen (1 + 2 * k, 1 + 2 * (b1 + Z.of_nat j))).
        unfold inside, k. cbn [fst snd]. lia.
  - pose proof (randomIndex_lt (Z.to_nat b) rnd1 ltac:(lia)) as Hi.
    destruct (randomIndex (Z.to_nat b) rnd1) as [i rnd2].
    pose proof (randomIndex_lt (Z.to_nat (a + 1)) rnd2 ltac:(lia)) as Hj.
    destruct (randomIndex (Z.to_nat (a + 1)) rnd2) as [j rnd3].
    cbn [fst] in Hi, Hj.
    apply bind_Returned in H as (maze1 & Hdraw & H).
    apply bind_Returned in H as ([maze2 rnd4] & Hleft & Hright).
    pose proof (drawVertical_frame _ _ _ _ _ _ Hdraw) as Hframe.
    set (k := b1 + 1 + Z.of_nat i) in *.
    replace (c1 + 1 + 2 * Z.of_nat i) with (2 * k) in * by (unfold k; lia).
    replace (r1 + 2 * Z.of_nat j) with (1 + 2 * (a1 + Z.of_nat j)) in *
      by lia.
    destruct (IH a1 b1 a (Z.of_nat i) r1 c1 r2 (2 * k - 1) maze1 rnd3 maze2 rnd4)
      as [Hf2 Hj2]; try done; try (unfold k; lia).
    { intros q [? ?]. rewrite Hframe by lia. apply Hopen.
      unfold inside. unfold k in *. lia. }
    destruct (IH a1 k a (b - Z.of_nat i - 1) r1 (2 * k + 1) r2 c2
                maze2 rnd4 maze' rnd')
      as [Hf3 Hj3]; try done; try (unfold k; lia).
    { intros q [? ?]. rewrite Hf2 by (unfold inside; lia).
      rewrite Hframe by lia. apply Hopen. unfold inside. unfold k in *. lia. }
    split.
    + intros p Hp. unfold inside in Hp.
      rewrite Hf3 by (unfold inside; unfold k in *; lia).
      rewrite Hf2 by (unfold inside; unfold k in *; lia).
      apply Hframe.
      destruct (decide (p.2 = 2 * k)); [|by left].
      right; right. unfold k in *. lia.
    + apply (joined_columns maze' r1 c1 r2 c2 k (a1 + Z.of_nat j));
        try (unfold k; lia); try done.
      * eapply joinedIn_agree; [|exact Hj2].
        intros p [? ?]. apply Hf3. unfold inside. lia.
      * replace (2 * k - 1) with (1 + 2 * (k - 1)) by lia.
        apply (Hcell _ _ _ _ _ _ _ _ _ _ Hor (Hok k) Hright).
        apply (Hcell _ _ _ _ _ _ _ _ _ _ Hor Hoc Hleft).
        rewrite Hframe by lia. apply (Hopen (1 + 2 * (a1 + Z.of_nat j), 1 + 2 * (k - 1))).
        unfold inside, k. cbn [fst snd]. lia.
      * pose proof (fun r c => Hf3 (r, c)) as Hf3'.
        pose proof (fun r c => Hf2 (r, c)) as Hf2'. cbn [fst snd] in Hf2', Hf3'.
        rewrite Hf3' by (unfold inside; cbn [fst snd]; lia).
        rewrite Hf2' by (unfold inside; cbn [fst snd]; lia).
        rewrite Hframe by (right; left; done).
        apply (Hopen (1 + 2 * (a1 + Z.of_nat j), 2 * k)). unfold inside, k. cbn [fst snd]. lia.
      * replace (2 * k + 1) with (1 + 2 * k) by lia.
        apply (Hcell _ _ _ _ _ _ _ _ _ _ Hor (Hok k) Hright).
        apply (Hcell _ _ _ _ _ _ _ _ _ _ Hor Hoc Hleft).
        rewrite Hframe by lia. apply (Hopen (1 + 2 * (a1 + Z.of_nat j), 1 + 2 * k)).
        unfold inside, k. cbn [fst snd]. lia.
Qed.

(** The outer walls leave the inside of the grid as it was. *)
Lemma outerWalls_inside gh gw maze maze' :
  outerWalls gh gw maze = Returned maze' ->
  forall r c, 0 < r < gh - 1 -> 0 < c < gw - 1 ->
              cellAt maze' r c = cellAt maze r c.
Proof.
  unfold outerWalls. intros H.
  apply bind_Returned in H as (m1 & Hrows & Hcols).
  set (P := fun m : Grid => forall r c, 0 < r < gh - 1 -> 0 < c < gw - 1 ->
                                        cellAt m r c = cellAt maze r c).
  apply (foldM_invariant _ P) in Hcols; [exact Hcols | |].
  - intros m x m' Hm _ Hb. apply bind_Returned in Hb as (m0 & Ha & Hb).
    intros r c Hr Hc. rewrite (cellAt_setCell _ _ _ _ _ _ _ Hb).
    rewrite bool_decide_eq_false_2 by lia.
    rewrite (cellAt_setCell _ _ _ _ _ _ _ Ha).
    rewrite bool_decide_eq_false_2 by lia. by apply Hm.
  - apply (foldM_invariant _ P) in Hrows; [exact Hrows | | by intros r c].
    intros m x m' Hm _ Hb. apply bind_Returned in Hb as (m0 & Ha & Hb).
    intros r c Hr Hc. rewrite (cellAt_setCell _ _ _ _ _ _ _ Hb).
    rewrite bool_decide_eq_false_2 by lia.
    rewrite (cellAt_setCell _ _ _ _ _ _ _ Ha).
    rewrite bool_decide_eq_false_2 by lia. by apply Hm.
Qed.

End DivisionLinks.

Lemma division_connected fuel width height rnd maze :
  1 <= width -> 1 <= height ->
  generateRecursiveDivisionMaze fuel width height rnd = Returned maze ->
  connected width height maze.
Proof.
  intros Hw Hh Hgen.
  assert (Hshaped : Shaped (height * 2 + 1) (width * 2 + 1) maze).
  { eapply (division_keeps (Shaped (height * 2 + 1) (width * 2 + 1)));
      [apply shaped_carving | apply shaped_walling | | exact Hgen].
    apply shaped_newGrid; [lia | lia | by left]. }
  revert Hgen. unfold generateRecursiveDivisionMaze. cbv zeta. intros H.
  apply bind_Returned in H as (m0 & Houter & H).
  apply bind_Returned in H as ([m1 rnd'] & Hdiv & H).
  pose proof (DivisionLinks.outerWalls_inside _ _ _ _ Houter) as Hin.
  apply (DivisionLinks.divide_links fuel 0 0 (height - 1) (width - 1))
    in Hdiv as [_ Hjoin]; try lia.
  2:{ intros q [? ?]. rewrite Hin by lia. apply cellAt_newGrid; lia. }
  pose proof (openEnds_keeps _ _ _ _ _ (carving_keepsPaths m1)
                (keepsPaths_refl m1) H) as Hk.
  assert (Hsame : forall p,
            DivisionLinks.inside 1 1 (height * 2 + 1 - 2) (width * 2 + 1 - 2) p ->
            cellAt m1 p.1 p.2 = Some Path -> cellAt maze p.1 p.2 = Some Path).
  { intros p _. apply Hk. }
  intros r c r' c' Hr Hc Hr' Hc'.
  apply (DivisionLinks.within_linked _ _ _ 1 1 (height * 2 + 1 - 2)
           (width * 2 + 1 - 2)); [done|].
  replace (r * 2 + 1) with (1 + 2 * r) by lia.
  replace (c * 2 + 1) with (1 + 2 * c) by lia.
  replace (r' * 2 + 1) with (1 + 2 * r') by lia.
  replace (c' * 2 + 1) with (1 + 2 * c') by lia.
  assert (Hw1 : DivisionLinks.Within m1 1 1 (height * 2 + 1 - 2)
                  (width * 2 + 1 - 2) (1 + 2 * r, 1 + 2 * c)
                  (1 + 2 * r', 1 + 2 * c')).
  { apply Hjoin; unfold DivisionLinks.inside; simpl; lia. }
  clear -Hw1 Hk. induction Hw1 as [|b d _ IH Hd Hi Hp]; [constructor|].
  constructor; try done. by apply Hk.
Qed.

(** ** Searching a generated maze *)

(** The generators that carve every cell: all but the recursive
    backtracker. *)
Definition generatedWhole (width height : Z) (maze : Grid) : Prop :=
  exists (fuel : nat) (rnd : Rand) (method : Method),
    generatePrimsMaze fuel width height rnd = Returned maze \/
    generateKruskalsMaze fuel width height rnd = Returned maze \/
    generateBinaryTreeMaze width height rnd = Returned maze \/
    generateWilsonsMaze fuel width height rnd = Returned maze \/
    generateAldousBroderMaze fuel width height rnd = Returned maze \/
    generateRecursiveDivisionMaze fuel width height rnd = Returned maze \/
    generateGrowingTreeMaze fuel width height method rnd = Returned maze.

Lemma generatedWhole_generated width height maze :
  generatedWhole width height maze -> generated width height maze.
Proof.
  intros (fuel & rnd & method & H). exists fuel, rnd, method. tauto.
Qed.

Lemma generatedWhole_connected width height maze :
  1 <= width -> 1 <= height -> generatedWhole width height maze ->
  connected width height maze.
Proof.
  intros Hw Hh (fuel & rnd & method & [H|[H|[H|[H|[H|[H|H]]]]]]).
  - by eapply prims_connected.
  - by eapply kruskal_connected.
  - by eapply binaryTree_connected.
  - by eapply wilson_connected.
  - by eapply aldousBroder_connected.
  - by eapply division_connected.
  - by eapply growingTree_connected.
Qed.

Lemma generatedWhole_allCarved width height maze :
  1 <= width -> 1 <= height -> generatedWhole width height maze ->
  allCarved width height maze.
Proof.
  intros Hw Hh (fuel & rnd & method & [H|[H|[H|[H|[H|[H|H]]]]]]).
  - by eapply prims_allCarved.
  - by eapply kruskal_allCarved.
  - by eapply binaryTree_allCarved.
  - by eapply wilson_allCarved.
  - by eapply aldousBroder_allCarved.
  - by eapply division_allCarved.
  - by eapply growingTree_allCarved.
Qed.

(** The entrance and the exit are joined. *)
Lemma generatedWhole_endpoints width height maze :
  1 <= width -> 1 <= height -> generatedWhole width height maze ->
  linked maze (height * 2 + 1) (width * 2 + 1) defaultStart
    (height * 2 + 1 - 2, width * 2 + 1 - 1).
Proof.
  intros Hw Hh Hgen.
  pose proof (generatedWhole_connected _ _ _ Hw Hh Hgen) as Hconn.
  pose proof (generatedWhole_allCarved _ _ _ Hw Hh Hgen) as Hall.
  apply generatedWhole_generated in Hgen.
  pose proof (generated_shaped _ _ _ Hw Hh Hgen) as Hs.
  pose proof (generated_ring _ _ _ Hw Hh Hgen) as Hring.
  assert (Hd : (0, 1) ∈ directions)
    by (unfold directions; rewrite !elem_of_cons; tauto).
  replace (height * 2 + 1 - 2, width * 2 + 1 - 1)
    with (move ((height - 1) * 2 + 1, (width - 1) * 2 + 1) (0, 1))
    by (unfold move; cbn [fst snd]; f_equal; lia).
  apply linked_move; [|done|].
  - eapply linked_trans; [|apply (Hconn 0 0 (height - 1) (width - 1)); lia].
    change (0 * 2 + 1, 0 * 2 + 1) with (move defaultStart (0, 1)).
    apply linked_move; [apply linked_refl | done |].
    apply shaped_passable; [done|]. apply (Hall 0 0); lia.
  - apply shaped_passable; [done|]. unfold move. cbn [fst snd].
    rewrite (Hring ((height - 1) * 2 + 1 + 0) ((width - 1) * 2 + 1 + 1))
      by (unfold onRing; lia).
    rewrite bool_decide_eq_true_2; [done|]. right. lia.
Qed.

(** X13.  In the grid returned by [generatePrimsMaze],
    [generateKruskalsMaze], [generateBinaryTreeMaze] or
    [generateGrowingTreeMaze] for [width, height >= 1], a walk through path
    cells leads from every cell to every other cell. *)
Theorem growing_generators_join_every_cell :
  forall (width height : Z) (fuel : nat) (rnd : Rand) (method : Method)
         (maze : Grid),
    1 <= width -> 1 <= height ->
    generatePrimsMaze fuel width height rnd = Returned maze \/
    generateKruskalsMaze fuel width height rnd = Returned maze \/
    generateBinaryTreeMaze width height rnd = Returned maze \/
    generateGrowingTreeMaze fuel width height method rnd = Returned maze ->
    forall r c r' c',
      0 <= r < height -> 0 <= c < width ->
      0 <= r' < height -> 0 <= c' < width ->
      exists l, Walk maze (height * 2 + 1) (width * 2 + 1)
                  (r * 2 + 1, c * 2 + 1) l (r' * 2 + 1, c' * 2 + 1).
Proof.
  intros width height fuel rnd method maze Hw Hh [H|[H|[H|H]]].
  - by apply (prims_connected fuel width height rnd maze).
  - by apply (kruskal_connected fuel width height rnd maze).
  - by apply (binaryTree_connected width height rnd maze).
  - by apply (growingTree_connected fuel width height method rnd maze).
Qed.

Lemma growing_generators_join_every_cell_witness :
  exists l, Walk kruskalRun (2 * 2 + 1) (2 * 2 + 1)
              (0 * 2 + 1, 0 * 2 + 1) l (1 * 2 + 1, 1 * 2 + 1).
Proof.
  apply (growing_generators_join_every_cell 2 2 20 someRun newest kruskalRun);
    [lia | lia | right; left; vm_compute; reflexivity | lia..].
Defined.

(** X14.  In the grid returned by [generateWilsonsMaze],
    [generateAldousBroderMaze] or [generateRecursiveDivisionMaze] for
    [width, height >= 1], a walk through path cells leads from every cell to
    every other cell. *)
Theorem walking_generators_join_every_cell :
  forall (width height : Z) (fuel : nat) (rnd : Rand) (maze : Grid),
    1 <= width -> 1 <= height ->
    generateWilsonsMaze fuel width height rnd = Returned maze \/
    generateAldousBroderMaze fuel width height rnd = Returned maze \/
    generateRecursiveDivisionMaze fuel width height rnd = Returned maze ->
    forall r c r' c',
      0 <= r < height -> 0 <= c < width ->
      0 <= r' < height -> 0 <= c' < width ->
      exists l, Walk maze (height * 2 + 1) (width * 2 + 1)
                  (r * 2 + 1, c * 2 + 1) l (r' * 2 + 1, c' * 2 + 1).
Proof.
  intros width height fuel rnd maze Hw Hh [H|[H|H]].
  - by apply (wilson_connected fuel width height rnd maze).
  - by apply (aldousBroder_connected fuel width height rnd maze).
  - by apply (division_connected fuel width height rnd maze).
Qed.

Lemma walking_generators_join_every_cell_witness :
  exists l, Walk room (2 * 2 + 1) (2 * 2 + 1)
              (0 * 2 + 1, 0 * 2 + 1) l (1 * 2 + 1, 1 * 2 + 1).
Proof.
  apply (walking_generators_join_every_cell 2 2 20 someRun room);
    [lia | lia | right; right; vm_compute; reflexivity | lia..].
Defined.

Lemma kruskalRun_whole : generatedWhole 2 2 kruskalRun.
Proof.
  exists 20%nat, someRun, newest. right; left. vm_compute. reflexivity.
Qed.

(** X15.  In the grid returned by any generator but the recursive
    backtracker, for [width, height >= 1], a walk through path cells leads
    from the start [(1, 0)] to the end [(rows - 2, columns - 1)] that the
    page proposes. *)
Theorem default_endpoints_are_joined :
  forall (width height : Z) (maze : Grid),
    1 <= width -> 1 <= height -> generatedWhole width height maze ->
    exists nc goal l,
      numCols maze = Some nc /\ defaultEnd maze = Returned goal /\
      Walk maze (numRows maze) nc defaultStart l goal.
Proof.
  intros width height maze Hw Hh Hgen.
  destruct (generatedWhole_endpoints _ _ _ Hw Hh Hgen) as [l Hl].
  apply generatedWhole_generated in Hgen.
  pose proof (generated_shaped _ _ _ Hw Hh Hgen) as Hs.
  pose proof (shaped_numCols (height * 2 + 1) (width * 2 + 1) maze
                ltac:(lia) Hs) as Hnc.
  destruct Hs as [Hnr _].
  exists (width * 2 + 1), (height * 2 + 1 - 2, width * 2 + 1 - 1), l.
  split_and!; [done | |].
  - unfold defaultEnd. by rewrite Hnc, Hnr.
  - by rewrite Hnr.
Qed.

Lemma default_endpoints_are_joined_witness :
  exists nc goal l,
    numCols kruskalRun = Some nc /\ defaultEnd kruskalRun = Returned goal /\
    Walk kruskalRun (numRows kruskalRun) nc defaultStart l goal.
Proof.
  apply (default_endpoints_are_joined 2 2 kruskalRun); [lia | lia |].
  exists 20%nat, someRun, newest. right; left. vm_compute. reflexivity.
Defined.

(** X16.  On such a grid, searched from the default start to the default
    end, [findPathBFS], [findPathDFS], [findPathAStar] and [findPathGreedy]
    never answer [path: null]: a result they return holds a path, a walk
    from the start to the end; and [findPathBFS], [findPathDFS] and
    [findPathGreedy] do return a result, within a number of rounds linear
    in the size of the grid. *)
Theorem default_search_finds_a_path :
  forall (width height : Z) (maze : Grid) (fuel : nat) (rnd : Rand),
    1 <= width -> 1 <= height -> generatedWhole width height maze ->
    exists nc goal,
      numCols maze = Some nc /\ defaultEnd maze = Returned goal /\
      (forall r,
         findPathBFS fuel maze defaultStart goal = Returned r \/
         findPathDFS fuel maze defaultStart goal rnd = Returned r \/
         findPathAStar fuel maze defaultStart goal = Returned r \/
         findPathGreedy fuel maze defaultStart goal = Returned r ->
         exists l, path r = Some l /\
                   Walk maze (numRows maze) nc defaultStart l goal) /\
      ((5 * (Z.to_nat (numRows maze) * Z.to_nat nc) + 1 < fuel)%nat ->
       (exists r, findPathBFS fuel maze defaultStart goal = Returned r) /\
       (exists r, findPathDFS fuel maze defaultStart goal rnd = Returned r) /\
       (exists r, findPathGreedy fuel maze defaultStart goal = Returned r)).
Proof.
  intros width height maze fuel rnd Hw Hh Hgen.
  destruct (generatedWhole_endpoints _ _ _ Hw Hh Hgen) as [w Hwalk].
  apply generatedWhole_generated in Hgen.
  pose proof (generated_shaped _ _ _ Hw Hh Hgen) as Hs.
  pose proof (generated_ring _ _ _ Hw Hh Hgen) as Hring.
  pose proof (shaped_numCols (height * 2 + 1) (width * 2 + 1) maze
                ltac:(lia) Hs) as Hnc.
  destruct Hs as [Hnr _].
  set (goal := (height * 2 + 1 - 2, width * 2 + 1 - 1)) in *.
  assert (Hjoin : Walk maze (numRows maze) (width * 2 + 1) defaultStart w
                    goal) by (by rewrite Hnr).
  exists (width * 2 + 1), goal.
  assert (Hstart : invalidEndpoint maze (numRows maze) (width * 2 + 1)
                     defaultStart = false).
  { apply isValidPoint_guard. unfold isValidPoint, defaultStart, cellIs.
    cbn [fst snd]. rewrite (Hring 1 0) by (unfold onRing; lia).
    rewrite bool_decide_eq_true_2 by (left; done).
    rewrite !andb_true_iff, !Z.geb_le, !Z.ltb_lt, Hnr.
    split_and!; try lia; done. }
  assert (Hgoal : invalidEndpoint maze (numRows maze) (width * 2 + 1) goal
                  = false).
  { apply isValidPoint_guard. unfold isValidPoint, goal, cellIs.
    cbn [fst snd].
    rewrite (Hring (height * 2 + 1 - 2) (width * 2 + 1 - 1))
      by (unfold onRing; lia).
    rewrite bool_decide_eq_true_2 by (right; done).
    rewrite !andb_true_iff, !Z.geb_le, !Z.ltb_lt, Hnr.
    split_and!; try lia; done. }
  split_and!; [done | unfold defaultEnd; by rewrite Hnc, Hnr | |].
  - intros r Hrun.
    assert (Hres : soundResult maze (numRows maze) (width * 2 + 1)
                     defaultStart goal r /\
                   completeResult maze (numRows maze) (width * 2 + 1)
                     defaultStart goal r).
    { destruct Hrun as [H|[H|[H|H]]];
        apply outcome_map_Returned in H as (t & H & ->).
      - by apply (BFSPaths.bfs_paths fuel maze _ defaultStart goal t).
      - by apply (DFSPaths.dfs_paths fuel maze _ defaultStart goal rnd t).
      - by apply (AStarPaths.astar_paths fuel maze _ defaultStart goal t).
      - by apply (GreedyPaths.greedy_paths fuel maze _ defaultStart goal t). }
    destruct Hres as [Hsound Hcomplete].
    destruct (path r) as [l|] eqn:El.
    + exists l. split; [done|]. by apply Hsound.
    + exfalso. by apply (Hcomplete El w).
  - intros Hfuel. rewrite <- size_universe in Hfuel.
    unfold findPathBFS, findPathDFS, findPathGreedy. split_and!.
    + destruct (BFSReturns.bfs_returns maze _ defaultStart goal fuel Hnc)
        as [t ->]; [lia | simpl; eauto].
    + destruct (DFSReturns.dfs_returns maze _ defaultStart goal rnd fuel Hnc)
        as [t ->]; [lia | simpl; eauto].
    + destruct (GreedyReturns.greedy_returns maze _ defaultStart goal fuel Hnc)
        as [t ->]; [lia | simpl; eauto].
Qed.

Lemma default_search_finds_a_path_witness :
  exists nc goal,
    numCols kruskalRun = Some nc /\ defaultEnd kruskalRun = Returned goal /\
    (forall r,
       findPathBFS 200 kruskalRun defaultStart goal = Returned r \/
       findPathDFS 200 kruskalRun defaultStart goal [] = Returned r \/
       findPathAStar 200 kruskalRun defaultStart goal = Returned r \/
       findPathGreedy 200 kruskalRun defaultStart goal = Returned r ->
       exists l, path r = Some l /\
                 Walk kruskalRun (numRows kruskalRun) nc defaultStart l goal) /\
    ((5 * (Z.to_nat (numRows kruskalRun) * Z.to_nat nc) + 1 < 200)%nat ->
     (exists r, findPathBFS 200 kruskalRun defaultStart goal = Returned r) /\
     (exists r, findPathDFS 200 kruskalRun defaultStart goal [] = Returned r) /\
     (exists r, findPathGreedy 200 kruskalRun defaultStart goal = Returned r)).
Proof.
  apply (default_search_finds_a_path 2 2 kruskalRun 200 []); [lia | lia |].
  exists 20%nat, someRun, newest. right; left. vm_compute. reflexivity.
Defined.

(** *** Recursive backtracker: what it carves hangs together *)

Lemma half_direction d :
  d ∈ cellDirections ->
  exists e, e ∈ directions /\
    forall r c : Z,
      (r + d.1 / 2, c + d.2 / 2) = move (r, c) e /\
      (r + d.1, c + d.2) = move (move (r, c) e) e.
Proof.
  unfold cellDirections, directions.
  rewrite !elem_of_cons, elem_of_nil.
  intros [->|[->|[->|[->|[]]]]];
    [exists (-1, 0) | exists (1, 0) | exists (0, -1) | exists (0, 1)];
    (split; [rewrite !elem_of_cons; tauto|]);
    intros r c; unfold move; cbn [fst snd]; split; f_equal; try lia;
    change (-2 / 2) with (-1); change (2 / 2) with 1; change (0 / 2) with 0;
    lia.
Qed.

Module BacktrackerLinks.
Import Backtracker.

Definition Ok (gh gw : Z) (root : Coord) (st : State) : Prop :=
  Tree gh gw root (maze st) /\ forall d, d ∈ dirs st -> d ∈ cellDirections.

(** What a call of [carvePath] at a cell that may join the tree does. *)
Definition carves (gh gw : Z) (root : Coord)
    (rec : Z -> Z -> State -> outcome State) : Prop :=
  forall nr nc st st',
    Ok gh gw root st -> GridCell gh gw (nr, nc) ->
    (forall m1, setCell (maze st) nr nc Path = Returned m1 ->
                Tree gh gw root m1) ->
    rec nr nc st = Returned st' ->
    Ok gh gw root st' /\ keepsPaths (maze st) (maze st') /\
    cellAt (maze st') nr nc = Some Path.

Lemma carveEach_links rec gh gw root r c :
  carves gh gw root rec -> GridCell gh gw (r, c) ->
  forall indices st st',
    Ok gh gw root st -> cellAt (maze st) r c = Some Path ->
    carveEach rec gh gw r c indices st = Returned st' ->
    Ok gh gw root st' /\ keepsPaths (maze st) (maze st').
Proof.
  intros Hrec Hcell.
  induction indices as [|i rest IH]; intros st st' Hok Hpath H; simpl in H.
  - injection H as <-. split; [done | apply keepsPaths_refl].
  - destruct (dirs st !! i) as [d|] eqn:Ed.
    2:{ injection H as <-. split; [done | apply keepsPaths_refl]. }
    destruct (isGridCell gh gw (r + d.1) (c + d.2)) eqn:Enext; simpl in H;
      [|by eapply IH].
    destruct (cellIs (maze st) (r + d.1) (c + d.2) Wall); [|by eapply IH].
    apply bind_Returned in H as (maze2 & Hset & H).
    apply bind_Returned in H as (st1 & Hcall & H).
    destruct Hok as [Htree Hdirs].
    apply list_elem_of_lookup_2, Hdirs, half_direction in Ed
      as (e & He & Hmove).
    destruct (Hmove r c) as [Ewall Enew].
    apply (f_equal fst) in Ewall as Ew1. apply (f_equal snd) in Ewall as Ew2.
    apply (f_equal fst) in Enew as En1. apply (f_equal snd) in Enew as En2.
    cbn [fst snd] in Ew1, Ew2, En1, En2.
    rewrite Ew1, Ew2 in Hset. rewrite En1, En2 in Hcall, Enext.
    apply isGridCell_iff in Enext. rewrite <- surjective_pairing in Enext.
    pose proof (setCell_path _ _ _ _ Hset) as [_ Hk2].
    apply Hrec in Hcall as (Hok1 & Hk1 & _); cbn [maze dirs] in *.
    + apply IH in H as [Hok' Hk']; [|done | by apply Hk1, Hk2].
      split; [done|]. eauto using keepsPaths_trans.
    + split; [|done].
      eapply tree_beside; [exact Htree | | exact Hset].
      rewrite <- surjective_pairing.
      by apply (PrimsCells.wall_not_cell gh gw (r, c) e).
    + by rewrite <- surjective_pairing.
    + intros m1 Hm1.
      by apply (tree_carve gh gw root (maze st) maze2 m1 (r, c) e).
Qed.

Lemma carvePath_links gh gw root fuel :
  carves gh gw root (carvePath fuel gh gw).
Proof.
  induction fuel as [|n IH]; intros r c st st' [Htree Hdirs] Hcell Hjoin H;
    [done|].
  cbn [carvePath] in H.
  apply bind_Returned in H as (maze1 & Hset & H).
  pose proof (elem_of_shuffle (dirs st) (rnd st)) as Hsh.
  destruct (shuffle (dirs st) (rnd st)) as [shuffled rnd1].
  cbn [fst] in Hsh.
  pose proof (setCell_path _ _ _ _ Hset) as [Hp Hk].
  apply (carveEach_links _ gh gw root r c IH Hcell) in H as [Hok' Hk'];
    cbn [maze dirs] in *; [| |done].
  - split_and!; [done | by eapply keepsPaths_trans | by apply Hk'].
  - split; [by apply Hjoin|]. intros d Hd. by apply Hdirs, Hsh.
Qed.

End BacktrackerLinks.

Lemma backtracker_tree fuel width height rnd maze :
  1 <= width -> 1 <= height ->
  generateRecursiveBacktrackerMaze fuel width height rnd = Returned maze ->
  exists root,
    Tree (height * 2 + 1) (width * 2 + 1) root maze /\
    passable maze (height * 2 + 1) (width * 2 + 1) root = true.
Proof.
  intros Hw Hh. unfold generateRecursiveBacktrackerMaze. cbv zeta.
  pose proof (randomIndex_lt (Z.to_nat height) rnd ltac:(lia)) as Hi.
  destruct (randomIndex (Z.to_nat height) rnd) as [i rnd1].
  pose proof (randomIndex_lt (Z.to_nat width) rnd1 ltac:(lia)) as Hj.
  destruct (randomIndex (Z.to_nat width) rnd1) as [j rnd2].
  simpl in Hi, Hj.
  intros H. apply bind_Returned in H as (st & Hcarve & H).
  exists (Z.of_nat i * 2 + 1, Z.of_nat j * 2 + 1).
  apply BacktrackerLinks.carvePath_links
    with (root := (Z.of_nat i * 2 + 1, Z.of_nat j * 2 + 1))
    in Hcarve as ([Htree _] & _ & Hroot).
  - pose proof (tree_openEnds _ _ _ _ _ Hw Hh Htree H) as Ht. split; [done|].
    apply shaped_passable; [apply Ht|].
    by apply (openEnds_keeps _ _ _ _ _
                (carving_keepsPaths (Backtracker.maze st))
                (keepsPaths_refl _) H).
  - split; cbn [Backtracker.maze Backtracker.dirs]; [|done].
    apply tree_walls; lia.
  - apply (gridCell_cell width height (Z.of_nat i) (Z.of_nat j)); lia.
  - cbn [Backtracker.maze]. intros m1 Hm1. apply tree_first; [lia | lia | done].
Qed.

(** X17.  In the grid [generateRecursiveBacktrackerMaze] returns for
    [width, height >= 1], the cells that are carved hang together: a walk
    through path cells leads from every carved cell to every other carved
    cell. *)
Theorem backtracker_joins_the_cells_it_carves :
  forall (width height : Z) (fuel : nat) (rnd : Rand) (maze : Grid),
    1 <= width -> 1 <= height ->
    generateRecursiveBacktrackerMaze fuel width height rnd = Returned maze ->
    forall r c r' c',
      0 <= r < height -> 0 <= c < width ->
      0 <= r' < height -> 0 <= c' < width ->
      cellAt maze (r * 2 + 1) (c * 2 + 1) = Some Path ->
      cellAt maze (r' * 2 + 1) (c' * 2 + 1) = Some Path ->
      exists l, Walk maze (height * 2 + 1) (width * 2 + 1)
                  (r * 2 + 1, c * 2 + 1) l (r' * 2 + 1, c' * 2 + 1).
Proof.
  intros width height fuel rnd maze Hw Hh Hgen r c r' c' Hr Hc Hr' Hc' Hp Hq.
  destruct (backtracker_tree _ _ _ _ _ Hw Hh Hgen) as (root & [Hs Hl] & Hroot).
  eapply linked_trans.
  - apply linked_sym; [done|]. apply Hl; [by apply gridCell_cell | done].
  - apply Hl; [by apply gridCell_cell | done].
Qed.

Lemma backtracker_joins_the_cells_it_carves_witness :
  exists l, Walk gappedMaze (3 * 2 + 1) (1 * 2 + 1)
              (0 * 2 + 1, 0 * 2 + 1) l (1 * 2 + 1, 0 * 2 + 1).
Proof.
  apply (backtracker_joins_the_cells_it_carves 1 3 10 aliasingRun gappedMaze);
    [lia | lia | vm_compute; reflexivity | lia | lia | lia | lia
    | reflexivity | reflexivity].
Defined.

(** ** Which generators return *)

(** A write inside a grid of the right shape succeeds. *)
Lemma setCell_returns gh gw maze r c v :
  Shaped gh gw maze -> 0 <= r < gh -> 0 <= c < gw ->
  exists maze', setCell maze r c v = Returned maze'.
Proof.
  intros [Hrows Hall] Hr Hc. unfold setCell, numRows in *.
  replace ((r <? 0) || (c <? 0)) with false
    by (symmetry; apply orb_false_intro; lia).
  destruct (lookup_lt_is_Some_2 maze (Z.to_nat r) ltac:(lia)) as [row Hrow].
  rewrite Hrow.
  destruct (proj1 (Forall_lookup _ _) Hall _ _ Hrow) as [Hl _].
  replace (Z.to_nat c <? length row)%nat with true; [eauto|].
  symmetry. apply Nat.ltb_lt. lia.
Qed.

(** A loop whose body returns and keeps [Inv] returns. *)
Lemma foldM_returns {A B : Type} (f : B -> A -> outcome B) (Inv : B -> Prop)
    (l : list A) :
  (forall b a, Inv b -> a ∈ l ->
               exists b', f b a = Returned b' /\ Inv b') ->
  forall b, Inv b -> exists b', foldM f l b = Returned b' /\ Inv b'.
Proof.
  induction l as [|x l IH]; intros Hf b Hb; simpl; [eauto|].
  destruct (Hf b x Hb) as (b1 & -> & Hb1); [by apply elem_of_cons; left|].
  simpl. apply IH; [|done].
  intros b0 a Hb0 Ha. apply Hf; [done|]. by apply elem_of_cons; right.
Qed.

(** A [while] loop whose body lowers a measure and returns when it leaves
    the loop, returns. *)
Lemma loop_returns {St R : Type} (step : St -> St + outcome R)
    (Inv : St -> Prop) (measure : St -> nat) (Post : R -> Prop) :
  (forall s s', Inv s -> step s = inl s' ->
                Inv s' /\ (measure s' < measure s)%nat) ->
  (forall s o, Inv s -> step s = inr o ->
               exists r, o = Returned r /\ Post r) ->
  forall fuel s, Inv s -> (measure s < fuel)%nat ->
                 exists r, loop step fuel s = Returned r /\ Post r.
Proof.
  intros Hstep Hexit. induction fuel as [|n IH]; intros s Hs Hm; [lia|].
  simpl. destruct (step s) as [s'|o] eqn:E.
  - destruct (Hstep _ _ Hs E) as [Hs' Hlt]. apply IH; [done | lia].
  - destruct (Hexit _ _ Hs E) as (r & -> & Hr). eauto.
Qed.

(** A carving write, with the shape it keeps. *)
Lemma carve_returns gh gw maze r c :
  Shaped gh gw maze -> 0 <= r < gh -> 0 <= c < gw ->
  exists maze', setCell maze r c Path = Returned maze' /\ Shaped gh gw maze'.
Proof.
  intros Hs Hr Hc.
  destruct (setCell_returns gh gw maze r c Path Hs Hr Hc) as [m' H].
  exists m'. split; [done|]. by eapply shaped_carving.
Qed.

Lemma wall_returns gh gw maze r c :
  Shaped gh gw maze -> 0 <= r < gh -> 0 <= c < gw ->
  exists maze', setCell maze r c Wall = Returned maze' /\ Shaped gh gw maze'.
Proof.
  intros Hs Hr Hc.
  destruct (setCell_returns gh gw maze r c Wall Hs Hr Hc) as [m' H].
  exists m'. split; [done|]. by eapply shaped_walling.
Qed.

Lemma openEnds_returns width height maze :
  1 <= width -> 1 <= height ->
  Shaped (height * 2 + 1) (width * 2 + 1) maze ->
  exists maze', openEnds (height * 2 + 1) (width * 2 + 1) maze
                = Returned maze'.
Proof.
  intros Hw Hh Hs. unfold openEnds.
  destruct (carve_returns _ _ maze 1 0 Hs) as (m1 & -> & Hs1); [lia | lia|].
  simpl.
  destruct (carve_returns _ _ m1 (height * 2 + 1 - 2) (width * 2 + 1 - 1) Hs1)
    as (m2 & -> & _); [lia | lia|]. eauto.
Qed.

(** *** Binary tree *)

Lemma binaryTree_returns width height rnd :
  1 <= width -> 1 <= height ->
  exists maze, generateBinaryTreeMaze width height rnd = Returned maze.
Proof.
  intros Hw Hh. unfold generateBinaryTreeMaze. cbv zeta.
  set (gh := height * 2 + 1). set (gw := width * 2 + 1).
  destruct (foldM_returns (BinaryTree.carveRow width)
              (fun st => Shaped gh gw st.1) (BinaryTree.oddIndices height))
    with (b := (newGrid gh gw Wall, rnd)) as ([m rnd'] & -> & Hs).
  - intros st r Hst Hr. apply elem_of_oddIndices in Hr.
    unfold BinaryTree.carveRow.
    apply (foldM_returns _ (fun st => Shaped gh gw st.1)); [|done].
    intros [m1 rnd1] c Hm1 Hc. apply elem_of_oddIndices in Hc.
    cbn [fst] in Hm1. unfold BinaryTree.carveCell.
    destruct (carve_returns gh gw m1 r c Hm1) as (m2 & -> & Hm2);
      [unfold gh; lia | unfold gw; lia|].
    cbn [mbind outcome_mbind outcome_bind].
    destruct (carve_returns gh gw m2 (r - 1) c Hm2) as (m3 & E3 & Hm3);
      [unfold gh; lia | unfold gw; lia|].
    destruct (carve_returns gh gw m2 r (c - 1) Hm2) as (m4 & E4 & Hm4);
      [unfold gh; lia | unfold gw; lia|].
    rewrite E3, E4. cbn [mbind outcome_mbind outcome_bind].
    destruct (r >? 1), (c >? 1); cbn [andb];
      try destruct (randomCoin rnd1) as [[] ?]; eauto.
  - cbn [fst]. apply shaped_newGrid; [unfold gh; lia | unfold gw; lia|].
    by right.
  - cbn [mbind outcome_mbind outcome_bind]. by apply openEnds_returns.
Qed.

(** *** Recursive division *)

Lemma outerWalls_returns gh gw maze :
  1 <= gh -> 1 <= gw -> Shaped gh gw maze ->
  exists maze', Division.outerWalls gh gw maze = Returned maze' /\
                Shaped gh gw maze'.
Proof.
  intros Hh Hw Hs. unfold Division.outerWalls.
  destruct (foldM_returns
              (fun m r => m' ← setCell m r 0 Wall;
                          setCell m' r (gw - 1) Wall)
              (Shaped gh gw) (seqZ 0 gh)) with (b := maze)
    as (m1 & -> & Hs1); [|done|].
  - intros m r Hm Hr. apply elem_of_seqZ in Hr.
    destruct (wall_returns gh gw m r 0 Hm) as (m2 & -> & Hm2); [lia | lia|].
    cbn [mbind outcome_mbind outcome_bind].
    apply wall_returns; [done | lia | lia].
  - cbn [mbind outcome_mbind outcome_bind].
    apply (foldM_returns _ (Shaped gh gw)); [|done].
    intros m c Hm Hc. apply elem_of_seqZ in Hc.
    destruct (wall_returns gh gw m 0 c Hm) as (m2 & -> & Hm2); [lia | lia|].
    cbn [mbind outcome_mbind outcome_bind].
    apply wall_returns; [done | lia | lia].
Qed.

Lemma drawHorizontal_returns gh gw wallRow c1 c2 passageCol maze :
  Shaped gh gw maze -> 0 <= wallRow < gh -> 0 <= c1 -> c2 < gw ->
  exists maze', Division.drawHorizontal wallRow c1 c2 passageCol maze
                = Returned maze' /\ Shaped gh gw maze'.
Proof.
  intros Hs Hr Hc1 Hc2. unfold Division.drawHorizontal.
  apply (foldM_returns _ (Shaped gh gw)); [|done].
  intros m c Hm Hc. apply elem_of_seqZ in Hc. cbv beta.
  destruct (c =? passageCol); [eauto|].
  apply wall_returns; [done | lia | lia].
Qed.

Lemma drawVertical_returns gh gw wallCol r1 r2 passageRow maze :
  Shaped gh gw maze -> 0 <= wallCol < gw -> 0 <= r1 -> r2 < gh ->
  exists maze', Division.drawVertical wallCol r1 r2 passageRow maze
                = Returned maze' /\ Shaped gh gw maze'.
Proof.
  intros Hs Hc Hr1 Hr2. unfold Division.drawVertical.
  apply (foldM_returns _ (Shaped gh gw)); [|done].
  intros m r Hm Hr. apply elem_of_seqZ in Hr. cbv beta.
  destruct (r =? passageRow); [eauto|].
  apply wall_returns; [done | lia | lia].
Qed.

(** Each call of [divide] works on a chamber smaller than the one of its
    caller: fuel beyond the height and the width of the chamber is
    enough. *)
Lemma divide_returns gh gw fuel :
  forall r1 c1 r2 c2 maze rnd,
    Shaped gh gw maze -> 0 <= r1 -> r2 < gh -> 0 <= c1 -> c2 < gw ->
    (Z.to_nat (r2 - r1) + Z.to_nat (c2 - c1) < fuel)%nat ->
    exists maze' rnd',
      Division.divide fuel r1 c1 r2 c2 maze rnd = Returned (maze', rnd') /\
      Shaped gh gw maze'.
Proof.
  induction fuel as [|n IH]; intros r1 c1 r2 c2 maze rnd Hs Hr1 Hr2 Hc1 Hc2 Hf;
    [lia|].
  cbn [Division.divide].
  destruct ((r2 - r1 <? 4) || (c2 - c1 <? 4)) eqn:Eg; [eauto|].
  apply orb_false_elim in Eg as [Egr Egc]. apply Z.ltb_ge in Egr, Egc.
  assert (Hdr : 2 <= (r2 - r1) / 2 /\ 2 * ((r2 - r1) / 2) <= r2 - r1)
    by (Z.to_euclidean_division_equations; lia).
  assert (Hdc : 2 <= (c2 - c1) / 2 /\ 2 * ((c2 - c1) / 2) <= c2 - c1)
    by (Z.to_euclidean_division_equations; lia).
  destruct (if r2 - r1 >? c2 - c1 then (true, rnd)
            else if r2 - r1 =? c2 - c1 then randomCoin rnd else (false, rnd))
    as [[] rnd1].
  - pose proof (randomIndex_lt (Z.to_nat ((r2 - r1) / 2)) rnd1 ltac:(lia))
      as Hi.
    destruct (randomIndex (Z.to_nat ((r2 - r1) / 2)) rnd1) as [i rnd2].
    destruct (randomIndex (Z.to_nat ((c2 - c1) / 2 + 1)) rnd2) as [j rnd3].
    cbn [fst] in Hi.
    destruct (drawHorizontal_returns gh gw (r1 + 1 + 2 * Z.of_nat i) c1 c2
                (c1 + 2 * Z.of_nat j) maze Hs) as (m1 & -> & Hs1);
      [lia | lia | lia|].
    cbn [mbind outcome_mbind outcome_bind].
    destruct (IH r1 c1 (r1 + 1 + 2 * Z.of_nat i - 1) c2 m1 rnd3 Hs1)
      as (m2 & rnd4 & -> & Hs2); [lia..|].
    cbn [mbind outcome_mbind outcome_bind].
    apply IH; [done | lia..].
  - pose proof (randomIndex_lt (Z.to_nat ((c2 - c1) / 2)) rnd1 ltac:(lia))
      as Hi.
    destruct (randomIndex (Z.to_nat ((c2 - c1) / 2)) rnd1) as [i rnd2].
    destruct (randomIndex (Z.to_nat ((r2 - r1) / 2 + 1)) rnd2) as [j rnd3].
    cbn [fst] in Hi.
    destruct (drawVertical_returns gh gw (c1 + 1 + 2 * Z.of_nat i) r1 r2
                (r1 + 2 * Z.of_nat j) maze Hs) as (m1 & -> & Hs1);
      [lia | lia | lia|].
    cbn [mbind outcome_mbind outcome_bind].
    destruct (IH r1 c1 r2 (c1 + 1 + 2 * Z.of_nat i - 1) m1 rnd3 Hs1)
      as (m2 & rnd4 & -> & Hs2); [lia..|].
    cbn [mbind outcome_mbind outcome_bind].
    apply IH; [done | lia..].
Qed.

Lemma division_returns fuel width height rnd :
  1 <= width -> 1 <= height ->
  (Z.to_nat (2 * height) + Z.to_nat (2 * width) < fuel)%nat ->
  exists maze, generateRecursiveDivisionMaze fuel width height rnd
               = Returned maze.
Proof.
  intros Hw Hh Hf. unfold generateRecursiveDivisionMaze. cbv zeta.
  destruct (outerWalls_returns (height * 2 + 1) (width * 2 + 1)
              (newGrid (height * 2 + 1) (width * 2 + 1) Path))
    as (m0 & -> & Hs0); [lia | lia | |].
  { apply shaped_newGrid; [lia | lia | by left]. }
  cbn [mbind outcome_mbind outcome_bind].
  destruct (divide_returns _ _ fuel 1 1 (height * 2 + 1 - 2)
              (width * 2 + 1 - 2) m0 rnd Hs0)
    as (m1 & rnd' & -> & Hs1); [lia..|].
  cbn [mbind outcome_mbind outcome_bind]. by apply openEnds_returns.
Qed.

(** *** Growing tree *)

Module GrowingTreeReturns.
Import GrowingTree GrowingTreeFacts.

Record Inv (width height : Z) (st : State) : Prop := {
  inv_shaped : Shaped (height * 2 + 1) (width * 2 + 1) (maze st);
  inv_active : forall p, p ∈ activeCells st -> isCell width height p = true
}.

(** Twice the cells not visited yet, and the active cells: every round
    either visits a cell or drops an active one. *)
Definition measure (width height : Z) (st : State) : nat :=
  2 * size (universe height width ∖ visitedCells st) + length (activeCells st).

Lemma cell_bounds width height p :
  isCell width height p = true ->
  0 <= (cellToGrid p).1 < height * 2 + 1 /\
  0 <= (cellToGrid p).2 < width * 2 + 1.
Proof.
  intros H. apply isCell_valid in H as [? ?]. unfold cellToGrid. simpl. lia.
Qed.

Lemma growingTree_step_progress method width height st st' :
  Inv width height st -> step method width height st = inl st' ->
  Inv width height st' /\
  (measure width height st' < measure width height st)%nat.
Proof.
  intros [Hs Hact]. unfold step, measure.
  destruct (activeCells st) as [|a0 rest] eqn:Eact; [done|].
  destruct (match method with
            | newest => _ | oldest => _ | random => _ end)
    as [cellIndex rnd1].
  destruct ((a0 :: rest) !! cellIndex) as [cur|] eqn:Ecur; [|done].
  destruct (filter _ (map (move cur) directions)) as [|n0 ns] eqn:Eun.
  - intros [= <-]. cbn [maze activeCells visitedCells]. split.
    + split; cbn [maze activeCells]; [done|].
      intros p Hp. apply Hact. by apply list_elem_of_delete_inv in Hp.
    + pose proof (lookup_lt_Some _ _ _ Ecur) as Hlt.
      rewrite length_delete by eauto. simpl in *. lia.
  - destruct (randomIndex (length (n0 :: ns)) rnd1) as [k rnd2].
    destruct ((n0 :: ns) !! k) as [next|] eqn:Enext; [|done].
    destruct (_ ≫= _) as [m2| |] eqn:Em; try done.
    intros [= <-]. cbn [maze activeCells visitedCells].
    apply bind_Returned in Em as (m1 & H1 & H2).
    apply list_elem_of_lookup_2 in Enext. rewrite <- Eun in Enext.
    apply list_elem_of_filter in Enext as [[Hcell Hfresh] _].
    split.
    + split; cbn [maze activeCells].
      * eapply shaped_carving; [|exact H2]. by eapply shaped_carving.
      * change (a0 :: rest ++ [next]) with ((a0 :: rest) ++ [next]).
        intros p Hp. apply elem_of_app in Hp as [Hp|Hp]; [by apply Hact|].
        by apply list_elem_of_singleton in Hp as ->.
    + pose proof (size_unmarked (universe height width) (visitedCells st) next)
        as Hlt.
      change (a0 :: rest ++ [next]) with ((a0 :: rest) ++ [next]).
      rewrite length_app. simpl length.
      assert (next ∈ universe height width).
      { apply elem_of_universe. by apply isCell_valid in Hcell. }
      specialize (Hlt ltac:(done) Hfresh). lia.
Qed.

Lemma growingTree_step_returns method width height st o :
  Inv width height st -> step method width height st = inr o ->
  exists m, o = Returned m /\ Shaped (height * 2 + 1) (width * 2 + 1) m.
Proof.
  intros [Hs Hact]. unfold step.
  destruct (activeCells st) as [|a0 rest] eqn:Eact; [intros [= <-]; eauto|].
  assert (Hidx : forall rnd0,
            (let (cellIndex, _) :=
               match method with
               | newest => ((length (a0 :: rest) - 1)%nat, rnd0)
               | oldest => (O, rnd0)
               | random => randomIndex (length (a0 :: rest)) rnd0
               end in cellIndex < length (a0 :: rest))%nat).
  { intros rnd0. destruct method; [simpl; lia | simpl; lia |].
    pose proof (randomIndex_lt (length (a0 :: rest)) rnd0 ltac:(simpl; lia)).
    by destruct (randomIndex _ _). }
  specialize (Hidx (rnd st)).
  destruct (match method with
            | newest => _ | oldest => _ | random => _ end)
    as [cellIndex rnd1].
  destruct (lookup_lt_is_Some_2 _ _ Hidx) as [cur Ecur]. rewrite Ecur.
  destruct (filter _ (map (move cur) directions)) as [|n0 ns] eqn:Eun; [done|].
  pose proof (randomIndex_lt (length (n0 :: ns)) rnd1 ltac:(simpl; lia)) as Hk.
  destruct (randomIndex (length (n0 :: ns)) rnd1) as [k rnd2]. cbn [fst] in Hk.
  destruct (lookup_lt_is_Some_2 _ _ Hk) as [next Enext]. rewrite Enext.
  apply list_elem_of_lookup_2 in Enext. rewrite <- Eun in Enext.
  apply list_elem_of_filter in Enext as [[Hnc _] Hmv].
  apply list_elem_of_fmap in Hmv as (d & -> & Hd).
  assert (Hcur : isCell width height cur = true).
  { apply Hact. by eapply list_elem_of_lookup_2. }
  pose proof (cell_bounds _ _ _ Hcur) as [Hb1 Hb2].
  pose proof (cell_bounds _ _ _ Hnc) as [Hb3 Hb4].
  destruct (carve_returns _ _ (maze st)
              (((cellToGrid cur).1 + (cellToGrid (move cur d)).1) / 2)
              (((cellToGrid cur).2 + (cellToGrid (move cur d)).2) / 2) Hs)
    as (m1 & -> & Hs1);
    [Z.to_euclidean_division_equations; lia
    | Z.to_euclidean_division_equations; lia|].
  cbn [mbind outcome_mbind outcome_bind].
  destruct (carve_returns _ _ m1 (cellToGrid (move cur d)).1
              (cellToGrid (move cur d)).2 Hs1) as (m2 & -> & Hs2);
    [done | done|].
  done.
Qed.

End GrowingTreeReturns.

Lemma growingTree_returns fuel width height method rnd :
  1 <= width -> 1 <= height ->
  (2 * (Z.to_nat height * Z.to_nat width) + 1 < fuel)%nat ->
  exists maze,
    generateGrowingTreeMaze fuel width height method rnd = Returned maze.
Proof.
  intros Hw Hh Hf. unfold generateGrowingTreeMaze. cbv zeta.
  pose proof (randomIndex_lt (Z.to_nat height) rnd ltac:(lia)) as Hi.
  destruct (randomIndex (Z.to_nat height) rnd) as [i rnd1].
  pose proof (randomIndex_lt (Z.to_nat width) rnd1 ltac:(lia)) as Hj.
  destruct (randomIndex (Z.to_nat width) rnd1) as [j rnd2].
  cbn [fst] in Hi, Hj.
  destruct (carve_returns (height * 2 + 1) (width * 2 + 1)
              (newGrid (height * 2 + 1) (width * 2 + 1) Wall)
              (cellToGrid (Z.of_nat i, Z.of_nat j)).1
              (cellToGrid (Z.of_nat i, Z.of_nat j)).2)
    as (m1 & -> & Hs1); [| unfold cellToGrid; simpl; lia..|].
  { apply shaped_newGrid; [lia | lia | by right]. }
  cbn [mbind outcome_mbind outcome_bind].
  destruct (loop_returns (GrowingTree.step method width height)
              (GrowingTreeReturns.Inv width height)
              (GrowingTreeReturns.measure width height)
              (Shaped (height * 2 + 1) (width * 2 + 1)))
    with (fuel := fuel)
         (s := GrowingTree.mkState m1 [(Z.of_nat i, Z.of_nat j)]
                 {[(Z.of_nat i, Z.of_nat j)]} rnd2)
    as (m2 & -> & Hs2).
  - intros s s'. apply GrowingTreeReturns.growingTree_step_progress.
  - intros s o. apply GrowingTreeReturns.growingTree_step_returns.
  - split; cbn [GrowingTree.maze GrowingTree.activeCells]; [done|].
    intros p Hp. apply list_elem_of_singleton in Hp as ->.
    unfold GrowingTree.isCell. simpl.
    rewrite !andb_true_iff, !Z.geb_le, !Z.ltb_lt. lia.
  - unfold GrowingTreeReturns.measure.
    cbn [GrowingTree.visitedCells GrowingTree.activeCells].
    assert (size (universe height width ∖ {[(Z.of_nat i, Z.of_nat j)]})
            <= size (universe height width))%nat
      by (apply subseteq_size; intros x Hx;
          by apply elem_of_difference in Hx as [? _]).
    rewrite size_universe in *. simpl length. lia.
  - cbn [mbind outcome_mbind outcome_bind]. by apply openEnds_returns.
Qed.

(** *** Randomized Kruskal *)

Lemma length_insertAt {A} (i : nat) (x : A) (l : list A) :
  length (insertAt i x l) = S (length l).
Proof.
  revert i. induction l as [|y l IH]; intros [|i]; simpl; try done.
  by rewrite IH.
Qed.

Lemma length_shuffleInto {A} (l acc : list A) rnd :
  length (shuffleInto l acc rnd).1 = (length l + length acc)%nat.
Proof.
  revert acc rnd. induction l as [|x l IH]; intros acc rnd; simpl; [done|].
  destruct (randomIndex (S (length acc)) rnd) as [i rnd'].
  rewrite IH, length_insertAt. lia.
Qed.

Lemma length_shuffle {A} (l : list A) rnd :
  length (shuffle l rnd).1 = length l.
Proof. unfold shuffle. rewrite length_shuffleInto. simpl. lia. Qed.

Lemma length_allWalls width height :
  1 <= width -> 1 <= height ->
  (length (Kruskal.allWalls width height)
   <= 2 * (Z.to_nat height * Z.to_nat width))%nat.
Proof.
  intros Hw Hh. unfold Kruskal.allWalls. rewrite length_app.
  rewrite (length_bind_const _ (Z.to_nat (width - 1))), length_seqZ.
  2:{ intros r. rewrite (length_bind_const _ 1%nat), length_seqZ; [lia|done]. }
  rewrite (length_bind_const _ (Z.to_nat width)), length_seqZ.
  2:{ intros r. rewrite (length_bind_const _ 1%nat), length_seqZ; [lia|done]. }
  nia.
Qed.

Module KruskalReturns.
Import Kruskal.

Section Forest.
Variable (N : nat).

(** The parent pointers climb along a rank [rho] bounded by [K]: following
    them ends at a root within [K] steps. *)
Definition Climbing (rho : nat -> nat) (K : nat) (parent : list Z) : Prop :=
  length parent = N /\
  forall (i : nat) (p : Z),
    parent !! i = Some p ->
    0 <= p < Z.of_nat N /\ (rho i <= K)%nat /\
    (p <> Z.of_nat i -> (rho i < rho (Z.to_nat p))%nat).

Definition isRoot (parent : list Z) (x : Z) : Prop :=
  0 <= x /\ parent !! Z.to_nat x = Some x.

Lemma findSet_returns rho K fuel :
  forall parent i,
    Climbing rho K parent -> 0 <= i < Z.of_nat N ->
    (K - rho (Z.to_nat i) < fuel)%nat ->
    exists root parent',
      findSetByIndex fuel parent i = Returned (root, parent') /\
      Climbing rho K parent' /\ isRoot parent' root /\
      0 <= root < Z.of_nat N /\
      (rho (Z.to_nat i) <= rho (Z.to_nat root))%nat /\
      forall x, isRoot parent x -> isRoot parent' x.
Proof.
  induction fuel as [|n IH]; intros parent i Hc Hi Hf; [lia|].
  cbn [findSetByIndex].
  replace (i <? 0) with false by (symmetry; apply Z.ltb_ge; lia).
  destruct Hc as [Hlen Hc].
  destruct (lookup_lt_is_Some_2 parent (Z.to_nat i) ltac:(lia)) as [p Hp].
  rewrite Hp. destruct (Hc _ _ Hp) as (Hpr & HiK & Hup).
  rewrite Z2Nat.id in Hup by lia.
  destruct (p =? i) eqn:Epi.
  - apply Z.eqb_eq in Epi as ->. exists i, parent.
    split_and!; try done; try lia. split; [lia | done].
  - apply Z.eqb_neq in Epi. specialize (Hup Epi).
    destruct (Hc _ _ Hp) as (_ & _ & _).
    destruct (IH parent p) as (root & parent0 & -> & [Hlen0 Hc0] & Hroot & Hr
                               & Hle & Hkeep); [done | lia | |].
    { assert (rho (Z.to_nat p) <= K)%nat; [|lia].
      destruct (lookup_lt_is_Some_2 parent (Z.to_nat p) ltac:(lia)) as [q Hq].
      by destruct (Hc _ _ Hq) as (_ & ? & _). }
    cbn [mbind outcome_mbind outcome_bind].
    exists root, (<[Z.to_nat i := root]> parent0).
    assert (Hne : root <> i) by (intros ->; lia).
    split_and!; try done; try lia.
    + split; [by rewrite length_insert|]. intros x q Hq.
      destruct (decide (x = Z.to_nat i)) as [->|Hx].
      * apply list_lookup_insert_Some in Hq as [(_ & <- & _)|[? _]]; [|done].
        split_and!; [lia | lia | done | intros _; lia].
      * rewrite list_lookup_insert_ne in Hq by done. by apply Hc0.
    + destruct Hroot as [? Hroot]. split; [done|].
      rewrite list_lookup_insert_ne by lia. done.
    + intros x Hx. destruct (Hkeep x Hx) as [? Hx0]. split; [done|].
      destruct Hx as [_ Hx].
      rewrite list_lookup_insert_ne; [done|]. intros E.
      apply Z2Nat.inj in E; [|lia..]. subst x. congruence.
Qed.

(** Hanging the root [a] under the root [b]. *)
Lemma climbing_link rho K parent a b :
  Climbing rho K parent -> isRoot parent a -> isRoot parent b -> a <> b ->
  exists rho', Climbing rho' (S K) (<[Z.to_nat a := b]> parent).
Proof.
  intros [Hlen Hc] [Ha0 Ha] [Hb0 Hb] Hab.
  exists (fun x => if decide (x = Z.to_nat b)
                   then Nat.max (rho x) (S (rho (Z.to_nat a))) else rho x).
  assert (Hnat : Z.to_nat a <> Z.to_nat b).
  { intros E. apply Z2Nat.inj in E; lia. }
  split; [by rewrite length_insert|]. intros x q Hq.
  destruct (decide (x = Z.to_nat a)) as [->|Hx].
  - apply list_lookup_insert_Some in Hq as [(_ & <- & _)|[? _]]; [|done].
    destruct (Hc _ _ Hb) as (Hbr & HbK & _).
    destruct (Hc _ _ Ha) as (_ & HaK & _).
    rewrite decide_False by done. rewrite decide_True by done.
    split_and!; [lia | lia | lia | intros _; lia].
  - rewrite list_lookup_insert_ne in Hq by done.
    destruct (Hc _ _ Hq) as (Hqr & HxK & Hup).
    destruct (Hc _ _ Ha) as (_ & HaK & _).
    split; [done|]. destruct (decide (x = Z.to_nat b)) as [->|Hxb].
    + rewrite Hb in Hq. injection Hq as <-. split; [lia|].
      intros E. rewrite Z2Nat.id in E by lia. done.
    + split; [lia|]. intros E. specialize (Hup E).
      destruct (decide (Z.to_nat q = Z.to_nat b)); lia.
Qed.

Lemma climbing_more rho K parent :
  Climbing rho K parent -> Climbing rho (S K) parent.
Proof.
  intros [Hlen Hc]. split; [done|]. intros i p Hp.
  destruct (Hc _ _ Hp) as (? & ? & ?). split_and!; [lia | lia | lia | done].
Qed.

Lemma union_returns rho K fuel parent rank i j :
  Climbing rho K parent -> 0 <= i < Z.of_nat N -> 0 <= j < Z.of_nat N ->
  (K < fuel)%nat ->
  exists parent' rank' rho',
    unionSetsByIndex fuel parent rank i j = Returned (parent', rank') /\
    Climbing rho' (S K) parent'.
Proof.
  intros Hc Hi Hj Hf. unfold unionSetsByIndex.
  destruct (findSet_returns rho K fuel parent i Hc Hi ltac:(lia))
    as (rootI & parent1 & -> & Hc1 & HrI & _ & _ & Hkeep1).
  cbn [mbind outcome_mbind outcome_bind].
  destruct (findSet_returns rho K fuel parent1 j Hc1 Hj ltac:(lia))
    as (rootJ & parent2 & -> & Hc2 & HrJ & _ & _ & Hkeep2).
  cbn [mbind outcome_mbind outcome_bind].
  apply Hkeep2 in HrI.
  destruct (rootI =? rootJ) eqn:E.
  { exists parent2, rank, rho. split; [done|]. by apply climbing_more. }
  apply Z.eqb_neq in E.
  destruct (climbing_link rho K parent2 rootI rootJ Hc2 HrI HrJ E)
    as [rho1 H1].
  destruct (climbing_link rho K parent2 rootJ rootI Hc2 HrJ HrI
              ltac:(congruence)) as [rho2 H2].
  destruct (_ <? _); [eauto|]. destruct (_ <? _); eauto.
Qed.

End Forest.

Lemma processWall_returns width height fuel rho K maze parent rank wall :
  1 <= width -> 1 <= height ->
  Shaped (height * 2 + 1) (width * 2 + 1) maze ->
  Climbing (Z.to_nat (height * width)) rho K parent ->
  wall ∈ allWalls width height -> (K < fuel)%nat ->
  exists maze' parent' rank' rho',
    processWall fuel (maze, parent, rank) wall
    = Returned (maze', parent', rank') /\
    Shaped (height * 2 + 1) (width * 2 + 1) maze' /\
    Climbing (Z.to_nat (height * width)) rho' (S K) parent'.
Proof.
  intros Hw Hh Hs Hc Hwall Hf.
  destruct (KruskalLinks.allWalls_sides width height Hw wall Hwall)
    as (Hi1 & Hi2 & _).
  pose proof (allWalls_Inner _ _ _ Hwall) as [Hr Hcc].
  assert (HN : Z.of_nat (Z.to_nat (height * width)) = height * width) by nia.
  unfold processWall.
  destruct (findSet_returns _ rho K fuel parent (index1 wall) Hc
              ltac:(lia) ltac:(lia))
    as (root1 & parent1 & -> & Hc1 & _ & _ & _ & _).
  cbn [mbind outcome_mbind outcome_bind].
  destruct (findSet_returns _ rho K fuel parent1 (index2 wall) Hc1
              ltac:(lia) ltac:(lia))
    as (root2 & parent2 & -> & Hc2 & _ & _ & _ & _).
  cbn [mbind outcome_mbind outcome_bind].
  destruct (root1 =? root2).
  { exists maze, parent2, rank, rho. split_and!; try done.
    by apply climbing_more. }
  destruct (carve_returns _ _ maze (wallPos wall).1 (wallPos wall).2 Hs)
    as (m1 & -> & Hs1); [lia | lia|].
  cbn [mbind outcome_mbind outcome_bind].
  destruct (union_returns _ rho K fuel parent2 rank (index1 wall)
              (index2 wall) Hc2 ltac:(lia) ltac:(lia) Hf)
    as (parent3 & rank1 & rho' & -> & Hc3).
  cbn [mbind outcome_mbind outcome_bind]. eauto 10.
Qed.

Lemma walls_return width height fuel walls :
  1 <= width -> 1 <= height ->
  (forall wall, wall ∈ walls -> wall ∈ allWalls width height) ->
  forall K rho maze parent rank,
    Shaped (height * 2 + 1) (width * 2 + 1) maze ->
    Climbing (Z.to_nat (height * width)) rho K parent ->
    (K + length walls <= fuel)%nat ->
    exists st',
      foldM (processWall fuel) walls (maze, parent, rank) = Returned st' /\
      Shaped (height * 2 + 1) (width * 2 + 1) st'.1.1.
Proof.
  intros Hw Hh. induction walls as [|wall walls IH];
    intros Hsub K rho maze parent rank Hs Hc Hf; cbn [foldM].
  - eauto.
  - simpl in Hf.
    destruct (processWall_returns width height fuel rho K maze parent rank
                wall Hw Hh Hs Hc)
      as (m1 & p1 & rk1 & rho1 & -> & Hs1 & Hc1);
      [apply Hsub; by apply elem_of_cons; left | lia|].
    cbn [mbind outcome_mbind outcome_bind].
    apply (IH ltac:(intros w Hw0; apply Hsub; by apply elem_of_cons; right)
             (S K) rho1); [done | done | lia].
Qed.

End KruskalReturns.

Lemma kruskal_returns fuel width height rnd :
  1 <= width -> 1 <= height ->
  (2 * (Z.to_nat height * Z.to_nat width) < fuel)%nat ->
  exists maze, generateKruskalsMaze fuel width height rnd = Returned maze.
Proof.
  intros Hw Hh Hf. unfold generateKruskalsMaze. cbv zeta.
  set (gh := height * 2 + 1). set (gw := width * 2 + 1).
  assert (Hcells : exists m1,
            Kruskal.carveCells width height (newGrid gh gw Wall)
            = Returned m1 /\ Shaped gh gw m1).
  { unfold Kruskal.carveCells.
    apply (foldM_returns _ (Shaped gh gw)).
    - intros m r Hm Hr. apply elem_of_seqZ in Hr.
      apply (foldM_returns _ (Shaped gh gw)); [|done].
      intros m0 c Hm0 Hc. apply elem_of_seqZ in Hc.
      apply carve_returns; [done | unfold gh; lia | unfold gw; lia].
    - apply shaped_newGrid; [unfold gh; lia | unfold gw; lia | by right]. }
  destruct Hcells as (m1 & -> & Hs1).
  cbn [mbind outcome_mbind outcome_bind].
  pose proof (elem_of_shuffle (Kruskal.allWalls width height) rnd) as Hsh.
  pose proof (length_shuffle (Kruskal.allWalls width height) rnd) as Hlen.
  destruct (shuffle (Kruskal.allWalls width height) rnd) as [walls rnd'].
  cbn [fst] in Hsh, Hlen.
  pose proof (length_allWalls width height Hw Hh) as Hall.
  destruct (KruskalReturns.walls_return width height fuel walls Hw Hh
              ltac:(intros w Hw0; by apply Hsh) O (fun _ => O) m1
              (seqZ 0 (height * width))
              (replicate (Z.to_nat (height * width)) 0) Hs1)
    as ([[m2 p2] rk2] & -> & Hs2); [|lia|].
  - split; [by rewrite length_seqZ|]. intros i p Hp.
    apply lookup_seqZ in Hp as [-> Hi]. split_and!; [lia | nia | done | lia].
  - cbn [mbind outcome_mbind outcome_bind]. by apply openEnds_returns.
Qed.

(** *** Randomized Prim *)

(** The cells still to carve. *)
Definition uncarved (width height : Z) (m : Grid) : gset Coord :=
  filter (fun p => cellAt m p.1 p.2 <> Some Path) (gridCells width height).

Lemma uncarved_keeps width height m m' :
  keepsPaths m m' ->
  (size (uncarved width height m') <= size (uncarved width height m))%nat.
Proof.
  intros Hk. apply subseteq_size. intros p. unfold uncarved.
  rewrite !elem_of_filter. intros [Hp Hg]. split; [|done].
  intros Hold. by apply Hp, Hk.
Qed.

Lemma uncarved_carved width height m m' p :
  keepsPaths m m' -> GridCell (height * 2 + 1) (width * 2 + 1) p ->
  cellAt m p.1 p.2 <> Some Path -> cellAt m' p.1 p.2 = Some Path ->
  (size (uncarved width height m') < size (uncarved width height m))%nat.
Proof.
  intros Hk Hp Hwall Hpath. apply subset_size. split.
  - intros q. unfold uncarved. rewrite !elem_of_filter.
    intros [Hq Hg]. split; [|done]. intros Hold. by apply Hq, Hk.
  - intros Hsub. specialize (Hsub p). unfold uncarved in Hsub.
    rewrite !elem_of_filter in Hsub. destruct Hsub as [Hno _]; [|done].
    split; [done|]. apply isGridCell_gridCells. apply isGridCell_iff.
    by rewrite <- surjective_pairing.
Qed.

Module PrimsReturns.
Import Prims.

(** Five times the cells still to carve, and the walls on the list: a
    round either discards a wall or carves a cell and lists at most four
    walls. *)
Definition measure (width height : Z) (st : State) : nat :=
  5 * size (uncarved width height (maze st)) + length (walls st).

Record Inv (gh gw : Z) (st : State) : Prop := {
  inv_shaped : Shaped gh gw (maze st);
  inv_walls : Forall (fun w => Inner gh gw w.1 w.2) (walls st)
}.

Lemma pushWalls_length gh gw dedupe cell maze walls :
  (length (pushWalls gh gw dedupe cell maze walls) <= length walls + 4)%nat.
Proof.
  unfold pushWalls, directions. cbn [fold_left].
  repeat match goal with
         | |- context [if ?b then _ else _] =>
             destruct b; rewrite ?length_app; cbn [length]
         end; lia.
Qed.

Lemma carve_progress width height st wall fresh idx rnd1 st' :
  Inv (height * 2 + 1) (width * 2 + 1) st ->
  is_Some (walls st !! idx) ->
  GridCell (height * 2 + 1) (width * 2 + 1) fresh ->
  cellIs (maze st) fresh.1 fresh.2 Wall = true ->
  carve (height * 2 + 1) (width * 2 + 1) (maze st) wall fresh
    (delete idx (walls st)) rnd1 = inl st' ->
  Inv (height * 2 + 1) (width * 2 + 1) st' /\
  (measure width height st' < measure width height st)%nat.
Proof.
  intros [Hs Hw] Hidx Hfresh Hwall. unfold carve.
  destruct (m1 ← setCell (maze st) wall.1 wall.2 Path;
            setCell m1 fresh.1 fresh.2 Path) as [m2| |] eqn:Em; try done.
  intros [= <-]. apply bind_Returned in Em as (m1 & H1 & H2).
  pose proof (carve_two _ _ _ _ _ _ _ H1 H2) as (Hk & _ & Hn & _).
  split.
  - split; cbn [maze walls].
    + eapply shaped_carving; [|exact H2]. by eapply shaped_carving.
    + apply PrimsFacts.pushWalls_Inner. by apply Forall_delete.
  - unfold measure. cbn [maze walls].
    pose proof (pushWalls_length (height * 2 + 1) (width * 2 + 1) true fresh
                  m2 (delete idx (walls st))) as Hlen.
    rewrite length_delete in Hlen by done.
    destruct Hidx as [w0 Hidx]. apply lookup_lt_Some in Hidx.
    assert (size (uncarved width height m2)
            < size (uncarved width height (maze st)))%nat; [|lia].
    apply (uncarved_carved width height (maze st) m2 fresh); try done.
    apply cellIs_iff in Hwall. rewrite Hwall. discriminate.
Qed.

Lemma prims_step_progress width height st st' :
  Inv (height * 2 + 1) (width * 2 + 1) st ->
  step (height * 2 + 1) (width * 2 + 1) st = inl st' ->
  Inv (height * 2 + 1) (width * 2 + 1) st' /\
  (measure width height st' < measure width height st)%nat.
Proof.
  intros Hinv. pose proof Hinv as [Hs Hw]. unfold step.
  destruct (walls st) as [|w0 ws] eqn:Ews; [done|].
  rewrite <- Ews in Hw |- *.
  destruct (randomIndex (length (walls st)) (rnd st)) as [idx rnd1].
  destruct (walls st !! idx) as [wall|] eqn:Ewall; [|done].
  assert (Hdrop : Inv (height * 2 + 1) (width * 2 + 1)
                    (mkState (maze st) (delete idx (walls st)) rnd1) /\
                  (measure width height
                     (mkState (maze st) (delete idx (walls st)) rnd1)
                   < measure width height st)%nat).
  { split; [split; cbn [maze walls]; [done | by apply Forall_delete]|].
    unfold measure. cbn [maze walls]. rewrite length_delete by eauto.
    apply lookup_lt_Some in Ewall. lia. }
  destruct (flankingCells _ _ wall) as [|c1 [|c2 more]] eqn:Ef;
    try (by intros [= <-]).
  assert (Hc1 : GridCell (height * 2 + 1) (width * 2 + 1) c1).
  { apply (PrimsCells.flanking_cells _ _ wall c1). rewrite Ef.
    by apply elem_of_cons; left. }
  assert (Hc2 : GridCell (height * 2 + 1) (width * 2 + 1) c2).
  { apply (PrimsCells.flanking_cells _ _ wall c2). rewrite Ef.
    apply elem_of_cons; right. by apply elem_of_cons; left. }
  destruct (cellIs (maze st) c1.1 c1.2 Path
            && cellIs (maze st) c2.1 c2.2 Wall) eqn:E1.
  { apply andb_true_iff in E1 as [_ Eb].
    by apply (carve_progress width height st wall c2 idx rnd1 st'). }
  destruct (cellIs (maze st) c1.1 c1.2 Wall
            && cellIs (maze st) c2.1 c2.2 Path) eqn:E2.
  { apply andb_true_iff in E2 as [Ea _].
    by apply (carve_progress width height st wall c1 idx rnd1 st'). }
  by intros [= <-].
Qed.

Lemma carve_continues gh gw maze wall fresh walls1 rnd1 :
  Shaped gh gw maze -> Inner gh gw wall.1 wall.2 -> GridCell gh gw fresh ->
  exists st', carve gh gw maze wall fresh walls1 rnd1 = inl st'.
Proof.
  intros Hs [? ?] (? & ? & _). unfold carve.
  destruct (carve_returns gh gw maze wall.1 wall.2 Hs) as (m1 & -> & Hs1);
    [lia | lia|].
  cbn [mbind outcome_mbind outcome_bind].
  destruct (carve_returns gh gw m1 fresh.1 fresh.2 Hs1) as (m2 & -> & _);
    [lia | lia|].
  eauto.
Qed.

Lemma prims_step_returns gh gw st o :
  Inv gh gw st -> step gh gw st = inr o ->
  exists m, o = Returned m /\ Shaped gh gw m.
Proof.
  intros [Hs Hw]. unfold step.
  destruct (walls st) as [|w0 ws] eqn:Ews; [intros [= <-]; eauto|].
  rewrite <- Ews in Hw |- *.
  pose proof (randomIndex_lt (length (walls st)) (rnd st)
                ltac:(rewrite Ews; simpl; lia)) as Hidx.
  destruct (randomIndex (length (walls st)) (rnd st)) as [idx rnd1].
  cbn [fst] in Hidx.
  destruct (lookup_lt_is_Some_2 _ _ Hidx) as [wall Ewall]. rewrite Ewall.
  assert (Hwall : Inner gh gw wall.1 wall.2)
    by (by eapply (proj1 (Forall_lookup _ _) Hw)).
  destruct (flankingCells gh gw wall) as [|c1 [|c2 more]] eqn:Ef; try done.
  assert (Hc1 : GridCell gh gw c1).
  { apply (PrimsCells.flanking_cells _ _ wall c1). rewrite Ef.
    by apply elem_of_cons; left. }
  assert (Hc2 : GridCell gh gw c2).
  { apply (PrimsCells.flanking_cells _ _ wall c2). rewrite Ef.
    apply elem_of_cons; right. by apply elem_of_cons; left. }
  destruct (_ && _).
  { by destruct (carve_continues gh gw (maze st) wall c2
                   (delete idx (walls st)) rnd1 Hs Hwall Hc2) as [st' ->]. }
  destruct (_ && _); [|done].
  by destruct (carve_continues gh gw (maze st) wall c1
                 (delete idx (walls st)) rnd1 Hs Hwall Hc1) as [st' ->].
Qed.

End PrimsReturns.

Lemma prims_returns fuel width height rnd :
  1 <= width -> 1 <= height ->
  (5 * (Z.to_nat height * Z.to_nat width) + 4 < fuel)%nat ->
  exists maze, generatePrimsMaze fuel width height rnd = Returned maze.
Proof.
  intros Hw Hh Hf. unfold generatePrimsMaze. cbv zeta.
  pose proof (randomIndex_lt (Z.to_nat height) rnd ltac:(lia)) as Hi.
  destruct (randomIndex (Z.to_nat height) rnd) as [i rnd1].
  pose proof (randomIndex_lt (Z.to_nat width) rnd1 ltac:(lia)) as Hj.
  destruct (randomIndex (Z.to_nat width) rnd1) as [j rnd2].
  cbn [fst] in Hi, Hj.
  destruct (carve_returns (height * 2 + 1) (width * 2 + 1)
              (newGrid (height * 2 + 1) (width * 2 + 1) Wall)
              (Z.of_nat i * 2 + 1) (Z.of_nat j * 2 + 1))
    as (m1 & -> & Hs1); [|lia..|].
  { apply shaped_newGrid; [lia | lia | by right]. }
  cbn [mbind outcome_mbind outcome_bind].
  destruct (loop_returns (Prims.step (height * 2 + 1) (width * 2 + 1))
              (PrimsReturns.Inv (height * 2 + 1) (width * 2 + 1))
              (PrimsReturns.measure width height)
              (Shaped (height * 2 + 1) (width * 2 + 1)))
    with (fuel := fuel)
         (s := Prims.mkState m1
                 (Prims.pushWalls (height * 2 + 1) (width * 2 + 1) false
                    (Z.of_nat i * 2 + 1, Z.of_nat j * 2 + 1) m1 []) rnd2)
    as (m2 & -> & Hs2).
  - intros s s'. apply PrimsReturns.prims_step_progress.
  - intros s o. apply PrimsReturns.prims_step_returns.
  - split; cbn [Prims.maze Prims.walls]; [done|].
    by apply PrimsFacts.pushWalls_Inner.
  - unfold PrimsReturns.measure. cbn [Prims.maze Prims.walls].
    pose proof (PrimsReturns.pushWalls_length (height * 2 + 1)
                  (width * 2 + 1) false
                  (Z.of_nat i * 2 + 1, Z.of_nat j * 2 + 1) m1 []) as Hlen.
    assert (size (uncarved width height m1)
            <= size (gridCells width height))%nat.
    { apply subseteq_size. intros p Hp. unfold uncarved in Hp.
      by apply elem_of_filter in Hp as [_ ?]. }
    rewrite size_gridCells in *. simpl length in Hlen. lia.
  - cbn [mbind outcome_mbind outcome_bind]. by apply openEnds_returns.
Qed.

(** *** Recursive backtracker *)

Module BacktrackerReturns.
Import Backtracker.

Section Maze.
Variables (width height : Z).
#[local] Abbreviation gh := (height * 2 + 1).
#[local] Abbreviation gw := (width * 2 + 1).

(** What a call of [carvePath] on a cell not carved yet does, when at most
    [n] cells are left to carve. *)
Definition returns (n : nat) (rec : Z -> Z -> State -> outcome State)
  : Prop :=
  forall nr nc st,
    Shaped gh gw (maze st) -> GridCell gh gw (nr, nc) ->
    cellAt (maze st) nr nc <> Some Path ->
    (size (uncarved width height (maze st)) <= n)%nat ->
    exists st', rec nr nc st = Returned st' /\ Shaped gh gw (maze st') /\
                keepsPaths (maze st) (maze st').

Lemma carveEach_returns n rec r c :
  returns n rec -> GridCell gh gw (r, c) ->
  forall indices st,
    Shaped gh gw (maze st) -> cellAt (maze st) r c = Some Path ->
    (size (uncarved width height (maze st)) <= n)%nat ->
    exists st', carveEach rec gh gw r c indices st = Returned st' /\
                Shaped gh gw (maze st') /\ keepsPaths (maze st) (maze st').
Proof.
  intros Hrec Hcell.
  induction indices as [|i rest IH]; intros st Hs Hpath Hn; cbn [carveEach].
  - exists st. split_and!; [done | done | apply keepsPaths_refl].
  - destruct (dirs st !! i) as [d|].
    2:{ exists st. split_and!; [done | done | apply keepsPaths_refl]. }
    destruct (isGridCell gh gw (r + d.1) (c + d.2)) eqn:Enext; cbn [andb];
      [|by apply IH].
    destruct (cellIs (maze st) (r + d.1) (c + d.2) Wall) eqn:Ewall;
      [|by apply IH].
    apply isGridCell_iff in Enext. apply cellIs_iff in Ewall.
    assert (Hin : Inner gh gw (r + d.1 / 2) (c + d.2 / 2)).
    { apply Inner_half_move.
      - destruct Hcell as (? & ? & _). by split.
      - destruct Enext as (? & ? & _). by split. }
    destruct (carve_returns gh gw (maze st) (r + d.1 / 2) (c + d.2 / 2) Hs)
      as (maze2 & Hset & Hs2); [destruct Hin; lia..|].
    rewrite Hset. cbn [mbind outcome_mbind outcome_bind].
    pose proof (setCell_path _ _ _ _ Hset) as [_ Hk2].
    destruct (Hrec (r + d.1) (c + d.2) (mkState maze2 (dirs st) (rnd st)))
      as (st1 & -> & Hs1 & Hk1); cbn [maze]; [done | done | |  |].
    { rewrite (cellAt_setCell _ _ _ _ _ _ _ Hset).
      case_bool_decide as E; [|by rewrite Ewall].
      exfalso. destruct E as [E1 E2].
      destruct Hcell as (_ & _ & Hr & Hc), Enext as (_ & _ & Hr' & Hc').
      cbn [fst snd] in *.
      assert (d.1 = 0 /\ d.2 = 0) as [E3 E4]
        by (Z.to_euclidean_division_equations; lia).
      rewrite E3, E4, !Z.add_0_r, Hpath in Ewall. discriminate. }
    { pose proof (uncarved_keeps width height _ _ Hk2). lia. }
    cbn [mbind outcome_mbind outcome_bind]. cbn [maze] in Hk1.
    destruct (IH st1 Hs1) as (st' & -> & Hs' & Hk').
    + by apply Hk1, Hk2.
    + pose proof (uncarved_keeps width height _ _ Hk2).
      pose proof (uncarved_keeps width height _ _ Hk1). lia.
    + exists st'. split_and!; [done | done |].
      eauto using keepsPaths_trans.
Qed.

Lemma carvePath_returns fuel : returns fuel (carvePath fuel gh gw).
Proof.
  induction fuel as [|n IH]; intros r c st Hs Hcell Hwall Hn.
  - exfalso.
    assert (Hin : (r, c) ∈ uncarved width height (maze st)).
    { unfold uncarved. apply elem_of_filter. split; [done|].
      apply isGridCell_gridCells. by apply isGridCell_iff. }
    assert (size (uncarved width height (maze st)) <> 0)%nat; [|lia].
    intros E. apply size_empty_inv in E. by apply E in Hin.
  - cbn [carvePath].
    destruct (carve_returns gh gw (maze st) r c Hs) as (maze1 & Hset & Hs1);
      [destruct Hcell as (? & ? & _); cbn [fst snd] in *; lia..|].
    rewrite Hset. cbn [mbind outcome_mbind outcome_bind].
    pose proof (setCell_path _ _ _ _ Hset) as [Hp Hk].
    destruct (shuffle (dirs st) (rnd st)) as [shuffled rnd1].
    destruct (carveEach_returns n (carvePath n gh gw) r c IH Hcell
                (seq 0 (length shuffled)) (mkState maze1 shuffled rnd1))
      as (st' & -> & Hs' & Hk'); cbn [maze]; [done | done | |].
    + pose proof (uncarved_carved width height (maze st) maze1 (r, c) Hk
                    Hcell Hwall Hp). lia.
    + exists st'. split_and!; [done | done |].
      cbn [maze] in Hk'. eauto using keepsPaths_trans.
Qed.

End Maze.
End BacktrackerReturns.

Lemma backtracker_returns fuel width height rnd :
  1 <= width -> 1 <= height ->
  (Z.to_nat height * Z.to_nat width <= fuel)%nat ->
  exists maze,
    generateRecursiveBacktrackerMaze fuel width height rnd = Returned maze.
Proof.
  intros Hw Hh Hf. unfold generateRecursiveBacktrackerMaze. cbv zeta.
  pose proof (randomIndex_lt (Z.to_nat height) rnd ltac:(lia)) as Hi.
  destruct (randomIndex (Z.to_nat height) rnd) as [i rnd1].
  pose proof (randomIndex_lt (Z.to_nat width) rnd1 ltac:(lia)) as Hj.
  destruct (randomIndex (Z.to_nat width) rnd1) as [j rnd2].
  cbn [fst] in Hi, Hj.
  destruct (BacktrackerReturns.carvePath_returns width height fuel
              (Z.of_nat i * 2 + 1) (Z.of_nat j * 2 + 1)
              (Backtracker.mkState
                 (newGrid (height * 2 + 1) (width * 2 + 1) Wall)
                 cellDirections rnd2))
    as (st & -> & Hs & _); cbn [Backtracker.maze].
  - apply shaped_newGrid; [lia | lia | by right].
  - apply (gridCell_cell width height (Z.of_nat i) (Z.of_nat j)); lia.
  - rewrite cellAt_newGrid by lia. discriminate.
  - assert (size (uncarved width height
                    (newGrid (height * 2 + 1) (width * 2 + 1) Wall))
            <= size (gridCells width height))%nat.
    { apply subseteq_size. intros p Hp. unfold uncarved in Hp.
      by apply elem_of_filter in Hp as [_ ?]. }
    rewrite size_gridCells in *. lia.
  - cbn [mbind outcome_mbind outcome_bind]. by apply openEnds_returns.
Qed.

(** X18.  For [width, height >= 1] and whatever the random choices,
    [generatePrimsMaze], [generateKruskalsMaze], [generateBinaryTreeMaze]
    and [generateGrowingTreeMaze] return a grid: no write falls outside the
    matrix, no list is read past its end, and the loops end within a
    number of rounds linear in the number of cells. *)
Theorem growing_generators_return :
  forall (width height : Z) (fuel : nat) (rnd : Rand) (method : Method),
    1 <= width -> 1 <= height ->
    (5 * (Z.to_nat height * Z.to_nat width) + 4 < fuel)%nat ->
    (exists maze, generatePrimsMaze fuel width height rnd = Returned maze) /\
    (exists maze, generateKruskalsMaze fuel width height rnd = Returned maze) /\
    (exists maze, generateBinaryTreeMaze width height rnd = Returned maze) /\
    (exists maze,
       generateGrowingTreeMaze fuel width height method rnd = Returned maze).
Proof.
  intros width height fuel rnd method Hw Hh Hf. split_and!.
  - by apply prims_returns.
  - apply kruskal_returns; [done | done | lia].
  - by apply binaryTree_returns.
  - apply growingTree_returns; [done | done | lia].
Qed.

Lemma growing_generators_return_witness :
  (exists maze, generatePrimsMaze 30 2 2 someRun = Returned maze) /\
  (exists maze, generateKruskalsMaze 30 2 2 someRun = Returned maze) /\
  (exists maze, generateBinaryTreeMaze 2 2 someRun = Returned maze) /\
  (exists maze, generateGrowingTreeMaze 30 2 2 oldest someRun = Returned maze).
Proof.
  apply (growing_generators_return 2 2 30 someRun oldest); [lia | lia|].
  simpl. lia.
Defined.

(** X19.  For [width, height >= 1] and whatever the random choices,
    [generateRecursiveDivisionMaze] and [generateRecursiveBacktrackerMaze]
    return a grid: the recursion of [divide] is no deeper than the height
    and the width of the grid together, that of [carvePath] no deeper than
    the number of cells, and no write falls outside the matrix. *)
Theorem recursive_generators_return :
  forall (width height : Z) (fuel : nat) (rnd : Rand),
    1 <= width -> 1 <= height ->
    (2 * Z.to_nat height + 2 * Z.to_nat width
     + Z.to_nat height * Z.to_nat width < fuel)%nat ->
    (exists maze,
       generateRecursiveDivisionMaze fuel width height rnd = Returned maze) /\
    (exists maze,
       generateRecursiveBacktrackerMaze fuel width height rnd = Returned maze).
Proof.
  intros width height fuel rnd Hw Hh Hf. split.
  - apply division_returns; [done | done | lia].
  - apply backtracker_returns; [done | done | lia].
Qed.

Lemma recursive_generators_return_witness :
  (exists maze,
     generateRecursiveDivisionMaze 20 2 2 someRun = Returned maze) /\
  (exists maze,
     generateRecursiveBacktrackerMaze 20 2 2 someRun = Returned maze).
Proof.
  apply (recursive_generators_return 2 2 20 someRun); [lia | lia|].
  simpl. lia.
Defined.

(** ** One route only *)

(** A maze in which two walks between the same two positions that pass no
    position twice are the same walk. *)
Definition Unique (maze : Grid) (gh gw : Z) : Prop :=
  forall s t l1 l2,
    passable maze gh gw s = true ->
    Walk maze gh gw s l1 t -> Walk maze gh gw s l2 t ->
    NoDup l1 -> NoDup l2 -> l1 = l2.

Lemma Walk_keeps maze maze' gh gw s l t :
  (forall p, passable maze gh gw p = true -> passable maze' gh gw p = true) ->
  Walk maze gh gw s l t -> Walk maze' gh gw s l t.
Proof.
  intros Hk H. induction H as [|l b d _ IH Hd Hp]; [constructor|].
  apply Walk_move; auto.
Qed.

Lemma Walk_passable maze gh gw s l t :
  passable maze gh gw s = true -> Walk maze gh gw s l t ->
  forall x, x ∈ l -> passable maze gh gw x = true.
Proof.
  intros Hs H. induction H as [|l b d _ IH Hd Hp]; intros x Hx.
  - by apply list_elem_of_singleton in Hx as ->.
  - apply elem_of_app in Hx as [Hx|Hx]; [by apply IH|].
    by apply list_elem_of_singleton in Hx as ->.
Qed.

Lemma Walk_end maze gh gw s l t : Walk maze gh gw s l t -> t ∈ l.
Proof.
  intros H. apply Walk_last in H. rewrite last_lookup in H.
  by apply list_elem_of_lookup_2 in H.
Qed.

Lemma Walk_begin maze gh gw s l t : Walk maze gh gw s l t -> s ∈ l.
Proof. intros H. apply Walk_first in H as [l' ->]. by apply elem_of_cons; left. Qed.

Lemma Walk_linked maze gh gw s l t :
  Walk maze gh gw s l t -> linked maze gh gw s t.
Proof. intros H. by exists l. Qed.

Section Added.
Variables (maze maze' : Grid) (gh gw : Z) (v : Coord).

(** [maze'] is [maze] with the position [v] opened. *)
Hypothesis Hopened : forall p,
  passable maze' gh gw p = true <-> p = v \/ passable maze gh gw p = true.

Lemma Walk_avoid s l t :
  Walk maze' gh gw s l t -> v ∉ l -> Walk maze gh gw s l t.
Proof.
  intros H. induction H as [|l b d _ IH Hd Hp]; intros Hv; [constructor|].
  apply not_elem_of_app in Hv as [Hv1 Hv2].
  apply Walk_move; [by apply IH | done |].
  apply Hopened in Hp as [E|Hp]; [|done].
  exfalso. apply Hv2. by apply list_elem_of_singleton.
Qed.

Lemma Walk_opened s l t : Walk maze gh gw s l t -> Walk maze' gh gw s l t.
Proof. apply Walk_keeps. intros p Hp. apply Hopened. by right. Qed.

(** A walk through [v], cut at [v]. *)
Lemma Walk_split s l t :
  Walk maze' gh gw s l t -> NoDup l -> v ∈ l ->
  exists pre post,
    l = pre ++ v :: post /\
    (pre = [] /\ s = v \/
     exists d, d ∈ directions /\ Walk maze gh gw s pre (move v d)) /\
    (post = [] /\ t = v \/
     exists d, d ∈ directions /\ passable maze gh gw (move v d) = true /\
               Walk maze gh gw (move v d) post t).
Proof.
  intros H. induction H as [|l b d H IH Hd Hp]; intros Hnd Hv.
  - apply list_elem_of_singleton in Hv as ->. exists [], []. auto.
  - apply NoDup_app in Hnd as (Hnd & Hdis & _).
    destruct (decide (v ∈ l)) as [Hin|Hout].
    + destruct (IH Hnd Hin) as (pre & post & -> & Hpre & Hpost).
      assert (Hne : move b d <> v).
      { intros E. apply (Hdis v Hin). rewrite <- E.
        by apply list_elem_of_singleton. }
      assert (Hold : passable maze gh gw (move b d) = true).
      { by apply Hopened in Hp as [?|?]. }
      exists pre, (post ++ [move b d]). split_and!.
      * by rewrite <- app_assoc.
      * done.
      * right. destruct Hpost as [[-> ->]|(e & He & Hpe & Hw)].
        -- exists d. split_and!; [done | done | constructor].
        -- exists e. split_and!; [done | done | by constructor].
    + apply elem_of_app in Hv as [Hv|Hv]; [done|].
      apply list_elem_of_singleton in Hv.
      exists l, []. split_and!.
      * by rewrite Hv.
      * right. exists (opposite d). split; [by apply opposite_direction|].
        rewrite Hv, move_opposite. by apply Walk_avoid.
      * left. by rewrite Hv.
Qed.

(** The open neighbours of [v] are joined to each other only through
    [v]. *)
Hypothesis Hapart : forall d1 d2,
  d1 ∈ directions -> d2 ∈ directions ->
  passable maze gh gw (move v d1) = true ->
  passable maze gh gw (move v d2) = true ->
  linked maze gh gw (move v d1) (move v d2) -> d1 = d2.

Lemma unique_opened : Unique maze gh gw -> Unique maze' gh gw.
Proof.
  intros Hu s t l1 l2 Hs H1 H2 Hn1 Hn2.
  assert (Hside : forall l, Walk maze' gh gw s l t -> NoDup l -> v ∈ l ->
            exists pre post,
              l = pre ++ v :: post /\ (v ∉ pre) /\ (v ∉ post) /\
              (pre = [] /\ s = v \/
               s <> v /\ exists d, d ∈ directions /\
                 passable maze gh gw (move v d) = true /\
                 Walk maze gh gw s pre (move v d)) /\
              (post = [] /\ t = v \/
               t <> v /\ exists d, d ∈ directions /\
                 passable maze gh gw (move v d) = true /\
                 Walk maze gh gw (move v d) post t)).
  { intros l Hl Hn Hv.
    destruct (Walk_split s l t Hl Hn Hv) as (pre & post & -> & Hpre & Hpost).
    apply NoDup_app in Hn as (_ & Hdis & Hn).
    apply NoDup_cons in Hn as [Hvp _].
    assert (Hvpre : v ∉ pre).
    { intros Hin. apply (Hdis v Hin). by apply elem_of_cons; left. }
    exists pre, post. split_and!; try done.
    - destruct Hpre as [?|(d & Hd & Hw)]; [by left|]. right.
      assert (Hsv : s <> v).
      { intros ->. apply Hvpre. by eapply Walk_begin. }
      split; [done|]. exists d. split_and!; [done | | done].
      eapply Walk_passable; [|exact Hw | by eapply Walk_end].
      by apply Hopened in Hs as [?|?].
    - destruct Hpost as [?|(d & Hd & Hp & Hw)]; [by left|]. right.
      split; [|by eauto].
      intros ->. apply Hvp. by eapply Walk_end. }
  assert (Hold : s <> v -> passable maze gh gw s = true).
  { intros Hne. by apply Hopened in Hs as [?|?]. }
  destruct (decide (v ∈ l1)) as [Hv1|Hv1], (decide (v ∈ l2)) as [Hv2|Hv2].
  - (* both pass [v] *)
    destruct (Hside l1 H1 Hn1 Hv1)
      as (pre1 & post1 & -> & Hp1 & Hq1 & Hpre1 & Hpost1).
    destruct (Hside l2 H2 Hn2 Hv2)
      as (pre2 & post2 & -> & Hp2 & Hq2 & Hpre2 & Hpost2).
    apply NoDup_app in Hn1 as (Hnp1 & _ & Hn1), Hn2 as (Hnp2 & _ & Hn2).
    apply NoDup_cons in Hn1 as [_ Hnq1], Hn2 as [_ Hnq2].
    assert (pre1 = pre2) as ->.
    { destruct Hpre1 as [[-> Es]|(Hsv & d1 & Hd1 & Hpd1 & Hw1)],
               Hpre2 as [[-> Es']|(Hsv' & d2 & Hd2 & Hpd2 & Hw2)]; try done.
      assert (d1 = d2) as ->.
      { apply Hapart; try done. eapply linked_trans; [|by eexists].
        apply linked_sym; [by apply Hold | by eexists]. }
      apply (Hu s (move v d2)); auto. }
    assert (post1 = post2) as ->; [|done].
    destruct Hpost1 as [[-> Et]|(Htv & d1 & Hd1 & Hpd1 & Hw1)],
             Hpost2 as [[-> Et']|(Htv' & d2 & Hd2 & Hpd2 & Hw2)]; try done.
    assert (d1 = d2) as ->.
    { apply Hapart; try done. eapply linked_trans; [by eexists|].
      apply linked_sym; [done | by eexists]. }
    apply (Hu (move v d2) t); auto.
  - (* only the first *)
    exfalso.
    assert (Hsv : s <> v) by (intros ->; apply Hv2; by eapply Walk_begin).
    assert (Htv : t <> v) by (intros ->; apply Hv2; by eapply Walk_end).
    destruct (Hside l1 H1 Hn1 Hv1)
      as (pre1 & post1 & -> & Hp1 & Hq1 & Hpre1 & Hpost1).
    destruct Hpre1 as [[_ ?]|(_ & d1 & Hd1 & Hpd1 & Hw1)]; [done|].
    destruct Hpost1 as [[_ ?]|(_ & d2 & Hd2 & Hpd2 & Hw2)]; [done|].
    assert (d1 = d2) as ->.
    { apply Hapart; try done.
      eapply linked_trans;
        [apply linked_sym; [by apply Hold | by eexists]|].
      eapply linked_trans; [exists l2; by apply Walk_avoid|].
      apply linked_sym; [done | by eexists]. }
    apply NoDup_app in Hn1 as (_ & Hdis & _).
    apply (Hdis (move v d2)); [by eapply Walk_end|].
    apply elem_of_cons; right. by eapply Walk_begin.
  - (* only the second *)
    exfalso.
    assert (Hsv : s <> v) by (intros ->; apply Hv1; by eapply Walk_begin).
    assert (Htv : t <> v) by (intros ->; apply Hv1; by eapply Walk_end).
    destruct (Hside l2 H2 Hn2 Hv2)
      as (pre1 & post1 & -> & Hp1 & Hq1 & Hpre1 & Hpost1).
    destruct Hpre1 as [[_ ?]|(_ & d1 & Hd1 & Hpd1 & Hw1)]; [done|].
    destruct Hpost1 as [[_ ?]|(_ & d2 & Hd2 & Hpd2 & Hw2)]; [done|].
    assert (d1 = d2) as ->.
    { apply Hapart; try done.
      eapply linked_trans;
        [apply linked_sym; [by apply Hold | by eexists]|].
      eapply linked_trans; [exists l1; by apply Walk_avoid|].
      apply linked_sym; [done | by eexists]. }
    apply NoDup_app in Hn2 as (_ & Hdis & _).
    apply (Hdis (move v d2)); [by eapply Walk_end|].
    apply elem_of_cons; right. by eapply Walk_begin.
  - (* neither *)
    apply (Hu s t); auto using Walk_avoid.
    apply Hold. intros ->. apply Hv1. by eapply Walk_begin.
Qed.

End Added.

(** ** As many passages as a spanning tree *)

(** The positions of the grid that hold a path. *)
Definition paths (gh gw : Z) (maze : Grid) : gset Coord :=
  filter (fun p => cellAt maze p.1 p.2 = Some Path) (universe gh gw).

Lemma elem_of_paths gh gw maze p :
  Shaped gh gw maze ->
  p ∈ paths gh gw maze <-> cellAt maze p.1 p.2 = Some Path.
Proof.
  intros Hs. unfold paths. rewrite elem_of_filter, elem_of_universe.
  split; [by intros [? _]|]. intros H. split; [done|].
  pose proof (shaped_passable gh gw maze p Hs H) as Hp.
  unfold passable in Hp.
  rewrite !andb_true_iff, !Z.geb_le, !Z.ltb_lt in Hp. lia.
Qed.

(** What one write of a path adds. *)
Lemma paths_setCell gh gw maze r c maze' :
  Shaped gh gw maze -> setCell maze r c Path = Returned maze' ->
  paths gh gw maze' = {[ (r, c) ]} ∪ paths gh gw maze.
Proof.
  intros Hs H.
  assert (Hs' : Shaped gh gw maze') by (by eapply shaped_carving).
  apply set_eq. intros p.
  rewrite elem_of_union, elem_of_singleton, !elem_of_paths by done.
  rewrite (cellAt_setCell _ _ _ _ _ _ _ H).
  destruct p as [r' c']. simpl. rewrite bool_decide_pair.
  case_bool_decide; split; auto. by intros [?|?].
Qed.

Lemma size_paths_fresh gh gw maze r c maze' :
  Shaped gh gw maze -> setCell maze r c Path = Returned maze' ->
  cellAt maze r c <> Some Path ->
  size (paths gh gw maze') = S (size (paths gh gw maze)).
Proof.
  intros Hs H Hno. rewrite (paths_setCell gh gw maze r c maze' Hs H).
  rewrite size_union, size_singleton; [done|].
  intros p Hp1 Hp2. apply elem_of_singleton in Hp1 as ->.
  by apply (elem_of_paths gh gw maze _ Hs) in Hp2.
Qed.

Lemma size_paths_again gh gw maze r c maze' :
  Shaped gh gw maze -> setCell maze r c Path = Returned maze' ->
  cellAt maze r c = Some Path ->
  size (paths gh gw maze') = size (paths gh gw maze).
Proof.
  intros Hs H Hyes. rewrite (paths_setCell gh gw maze r c maze' Hs H).
  f_equal. apply set_eq. intros p.
  rewrite elem_of_union, elem_of_singleton. split; [|auto].
  intros [->|?]; [|done]. by apply (elem_of_paths gh gw maze _ Hs).
Qed.

Lemma paths_newGrid gh gw : paths gh gw (newGrid gh gw Wall) = ∅.
Proof.
  apply set_eq. intros p. unfold paths.
  rewrite elem_of_filter, elem_of_universe. split; [|set_solver].
  intros [H [Hr Hc]]. by rewrite cellAt_newGrid in H.
Qed.

(** The cells still to carve, after one write. *)
Lemma uncarved_setCell width height maze r c maze' :
  setCell maze r c Path = Returned maze' ->
  uncarved width height maze'
  = uncarved width height maze ∖ {[ (r, c) ]}.
Proof.
  intros H. apply set_eq. intros p. unfold uncarved.
  rewrite elem_of_difference, !elem_of_filter, elem_of_singleton.
  rewrite (cellAt_setCell _ _ _ _ _ _ _ H).
  destruct p as [r' c']. simpl. rewrite bool_decide_pair.
  case_bool_decide; split; tauto.
Qed.

Lemma size_uncarved_cell width height maze r c maze' :
  setCell maze r c Path = Returned maze' ->
  GridCell (height * 2 + 1) (width * 2 + 1) (r, c) ->
  cellAt maze r c <> Some Path ->
  size (uncarved width height maze) = S (size (uncarved width height maze')).
Proof.
  intros H Hcell Hno. rewrite (uncarved_setCell _ _ _ _ _ _ H).
  assert (Hin : (r, c) ∈ uncarved width height maze).
  { unfold uncarved. apply elem_of_filter. split; [done|].
    apply isGridCell_gridCells. by apply isGridCell_iff. }
  rewrite size_difference by (by apply singleton_subseteq_l).
  rewrite size_singleton.
  assert (size (uncarved width height maze) <> 0%nat); [|lia].
  intros E. apply size_empty_inv in E. by apply E in Hin.
Qed.

Lemma size_uncarved_other width height maze r c maze' :
  setCell maze r c Path = Returned maze' ->
  ~ GridCell (height * 2 + 1) (width * 2 + 1) (r, c) ->
  uncarved width height maze' = uncarved width height maze.
Proof.
  intros H Hno. rewrite (uncarved_setCell _ _ _ _ _ _ H).
  apply set_eq. intros p. rewrite elem_of_difference, elem_of_singleton.
  split; [by intros [? _]|]. intros Hp. split; [done|]. intros ->.
  apply Hno. unfold uncarved in Hp. apply elem_of_filter in Hp as [_ Hp].
  by apply WilsonLinks.gridCells_GridCell in Hp.
Qed.

Lemma uncarved_newGrid width height :
  uncarved width height (newGrid (height * 2 + 1) (width * 2 + 1) Wall)
  = gridCells width height.
Proof.
  apply set_eq. intros p. unfold uncarved. rewrite elem_of_filter.
  split; [by intros [_ ?]|]. intros Hp. split; [|done].
  apply WilsonLinks.gridCells_GridCell in Hp as (Hr & Hc & _).
  rewrite cellAt_newGrid by lia. discriminate.
Qed.

Lemma uncarved_allCarved width height maze :
  allCarved width height maze -> uncarved width height maze = ∅.
Proof.
  intros Hall. apply set_eq. intros p. unfold uncarved.
  rewrite elem_of_filter, elem_of_gridCells. split; [|set_solver].
  intros [Hno ([r c] & -> & Hu)]. apply elem_of_universe in Hu.
  exfalso. apply Hno. unfold cellToGrid. cbn [fst snd] in *.
  apply Hall; lia.
Qed.

(** The grid while it is carved: the ring is wall, a passage open between
    two cells has both of them carved, the positions with two even
    coordinates are never opened, there is one route only, and the paths,
    twice the cells still to carve and [n] make twice the cells.  With [n]
    at one the paths number what a spanning tree of the carved cells
    has. *)
Record Balanced (n : nat) (width height : Z) (maze : Grid) : Prop := {
  balanced_shaped : Shaped (height * 2 + 1) (width * 2 + 1) maze;
  balanced_sealed : Sealed (height * 2 + 1) (width * 2 + 1) maze;
  balanced_passage : forall p d,
    GridCell (height * 2 + 1) (width * 2 + 1) p -> d ∈ directions ->
    GridCell (height * 2 + 1) (width * 2 + 1) (move (move p d) d) ->
    cellAt maze (move p d).1 (move p d).2 = Some Path ->
    cellAt maze p.1 p.2 = Some Path /\
    cellAt maze (move (move p d) d).1 (move (move p d) d).2 = Some Path;
  balanced_pillars : forall r c,
    Z.rem r 2 = 0 -> Z.rem c 2 = 0 -> cellAt maze r c <> Some Path;
  balanced_unique : Unique maze (height * 2 + 1) (width * 2 + 1);
  balanced_count :
    (size (paths (height * 2 + 1) (width * 2 + 1) maze)
     + 2 * size (uncarved width height maze) + n
     = 2 * (Z.to_nat height * Z.to_nat width))%nat
}.

Lemma gridCell_inner gh gw p : GridCell gh gw p -> Inner gh gw p.1 p.2.
Proof. intros (Hr & Hc & _). by split. Qed.

Lemma between_Inner gh gw p d :
  GridCell gh gw p -> GridCell gh gw (move (move p d) d) ->
  Inner gh gw (move p d).1 (move p d).2.
Proof.
  intros Hp Hq. pose proof (PrimsCells.between_inner _ _ p d Hp Hq) as Hin.
  unfold isInner in Hin.
  rewrite !andb_true_iff, !Z.gtb_lt, !Z.ltb_lt in Hin. unfold Inner. lia.
Qed.

(** The cells on the two sides of a position between two cells. *)
Lemma wall_sides gh gw cur d p e :
  GridCell gh gw cur -> d ∈ directions ->
  GridCell gh gw p -> e ∈ directions -> move p e = move cur d ->
  (p = cur /\ e = d) \/ (p = move (move cur d) d /\ e = opposite d).
Proof.
  destruct p as [r c], cur as [r0 c0].
  intros (_ & _ & Hr1 & Hc1) Hd (_ & _ & Hr2 & Hc2) He.
  unfold directions in Hd, He.
  rewrite !elem_of_cons, elem_of_nil in Hd, He. unfold move, opposite.
  cbn [fst snd] in *.
  destruct Hd as [->|[->|[->|[->|[]]]]];
    destruct He as [->|[->|[->|[->|[]]]]]; cbn [fst snd] in *;
    intros [= E1 E2];
    first [ left; split; f_equal; lia
          | right; split; f_equal; lia
          | exfalso; Z.to_euclidean_division_equations; lia ].
Qed.

(** What one write opens. *)
Lemma opened_setCell gh gw maze r c maze' :
  Shaped gh gw maze -> setCell maze r c Path = Returned maze' ->
  forall p, passable maze' gh gw p = true <->
            p = (r, c) \/ passable maze gh gw p = true.
Proof.
  intros Hs H p.
  assert (Hs' : Shaped gh gw maze') by (by eapply shaped_carving).
  pose proof (setCell_path _ _ _ _ H) as [Hp Hk].
  split.
  - intros Hpass. destruct (decide (p = (r, c))) as [|Hne]; [by left|].
    right. pose proof (passable_path _ _ _ _ Hpass) as Hpath.
    rewrite (cellAt_setCell _ _ _ _ _ _ _ H) in Hpath.
    rewrite bool_decide_eq_false_2 in Hpath; [by apply shaped_passable|].
    intros [E1 E2]. apply Hne. by rewrite (surjective_pairing p), E1, E2.
  - intros [->|Hpass]; [by apply shaped_passable|].
    by eapply keepsPaths_passable.
Qed.

Lemma opened_at gh gw maze v maze' :
  Shaped gh gw maze -> setCell maze v.1 v.2 Path = Returned maze' ->
  forall p, passable maze' gh gw p = true <->
            p = v \/ passable maze gh gw p = true.
Proof. destruct v as [r c]. apply opened_setCell. Qed.

(** A position none of whose neighbours is open is joined to nothing. *)
Lemma linked_closed maze gh gw x p :
  (forall d, d ∈ directions -> passable maze gh gw (move p d) = false) ->
  passable maze gh gw x = true -> linked maze gh gw x p -> x = p.
Proof.
  intros Hclosed Hx [l H]. pose proof (Walk_passable _ _ _ _ _ _ Hx H) as Hall.
  destruct H as [|l b d H Hd Hp]; [done|]. exfalso.
  assert (Hb : passable maze gh gw b = true).
  { apply Hall. apply elem_of_app. left. by eapply Walk_end. }
  rewrite <- (move_opposite b d) in Hb.
  rewrite Hclosed in Hb; [done | by apply opposite_direction].
Qed.

Section Neighbours.
Variables (width height : Z) (maze : Grid).
#[local] Abbreviation gh := (height * 2 + 1).
#[local] Abbreviation gw := (width * 2 + 1).
Hypothesis Hsealed : Sealed gh gw maze.
Hypothesis Hpassage : forall p d,
  GridCell gh gw p -> d ∈ directions ->
  GridCell gh gw (move (move p d) d) ->
  cellAt maze (move p d).1 (move p d).2 = Some Path ->
  cellAt maze p.1 p.2 = Some Path /\
  cellAt maze (move (move p d) d).1 (move (move p d) d).2 = Some Path.
Hypothesis Hpillars : forall r c,
  Z.rem r 2 = 0 -> Z.rem c 2 = 0 -> cellAt maze r c <> Some Path.

(** Around a cell that is not carved nothing is open. *)
Lemma cell_closed p d :
  GridCell gh gw p -> cellAt maze p.1 p.2 <> Some Path ->
  d ∈ directions -> passable maze gh gw (move p d) = false.
Proof.
  intros Hp Hno Hd.
  destruct (passable maze gh gw (move p d)) eqn:Hpass; [|done]. exfalso.
  apply passable_path in Hpass.
  destruct (isGridCell gh gw (move (move p d) d).1 (move (move p d) d).2)
    eqn:Hq.
  - apply isGridCell_iff in Hq. rewrite <- surjective_pairing in Hq.
    by destruct (Hpassage p d Hp Hd Hq Hpass).
  - rewrite Hsealed in Hpass; [done|].
    apply not_true_iff_false in Hq. rewrite isGridCell_iff in Hq.
    destruct p as [r c]. destruct Hp as (Hr & Hc & Hr2 & Hc2).
    unfold directions in Hd. rewrite !elem_of_cons, elem_of_nil in Hd.
    unfold GridCell, onRing, move in *. cbn [fst snd] in *.
    destruct Hd as [->|[->|[->|[->|[]]]]]; cbn [fst snd] in *;
      Z.to_euclidean_division_equations; lia.
Qed.

(** Around a position between two cells only the two cells can be open. *)
Lemma wall_open_sides cur d e :
  GridCell gh gw cur -> d ∈ directions -> e ∈ directions ->
  passable maze gh gw (move (move cur d) e) = true ->
  move (move cur d) e = cur \/ move (move cur d) e = move (move cur d) d.
Proof.
  intros Hcur Hd He Hpass. apply passable_path in Hpass.
  destruct cur as [r c]. destruct Hcur as (_ & _ & Hr2 & Hc2).
  unfold directions in Hd, He. rewrite !elem_of_cons, elem_of_nil in Hd, He.
  unfold move in *. cbn [fst snd] in *.
  destruct Hd as [->|[->|[->|[->|[]]]]];
    destruct He as [->|[->|[->|[->|[]]]]]; cbn [fst snd] in *;
    first [ left; f_equal; lia
          | right; f_equal; lia
          | exfalso; apply (Hpillars _ _) in Hpass; [done | |];
            Z.to_euclidean_division_equations; lia ].
Qed.

End Neighbours.

Lemma move_inj (p : Coord) d e : move p d = move p e -> d = e.
Proof.
  destruct p, d, e. unfold move. cbn [fst snd]. intros [=]. f_equal; lia.
Qed.

(** The grid of walls. *)
Lemma balanced_walls width height :
  0 <= width -> 0 <= height ->
  Balanced 0 width height
    (newGrid (height * 2 + 1) (width * 2 + 1) Wall).
Proof.
  intros Hw Hh.
  assert (Hwall : forall p,
            passable (newGrid (height * 2 + 1) (width * 2 + 1) Wall)
              (height * 2 + 1) (width * 2 + 1) p = false).
  { intros p. destruct (passable _ _ _ p) eqn:E; [|done].
    pose proof (passable_path _ _ _ _ E) as Hp. unfold passable in E.
    rewrite !andb_true_iff, !Z.geb_le, !Z.ltb_lt in E.
    rewrite cellAt_newGrid in Hp by lia. discriminate. }
  split.
  - apply shaped_newGrid; [lia | lia | by right].
  - apply sealed_newGrid.
  - intros p d Hp Hd Hq Hpath. exfalso.
    pose proof (between_Inner _ _ p d Hp Hq) as Hin. unfold Inner in Hin.
    rewrite cellAt_newGrid in Hpath by lia. discriminate.
  - intros r c _ _ Hpath.
    assert (Hs0 : Shaped (height * 2 + 1) (width * 2 + 1)
                    (newGrid (height * 2 + 1) (width * 2 + 1) Wall))
      by (apply shaped_newGrid; [lia | lia | by right]).
    pose proof (shaped_passable _ _ _ (r, c) Hs0 Hpath) as E.
    by rewrite Hwall in E.
  - intros s t l1 l2 Hs. by rewrite Hwall in Hs.
  - rewrite paths_newGrid, size_empty, uncarved_newGrid, size_gridCells. lia.
Qed.

(** A cell carved with no passage to it: one part more. *)
Lemma balanced_alone n width height maze p maze' :
  Balanced n width height maze ->
  GridCell (height * 2 + 1) (width * 2 + 1) p ->
  cellAt maze p.1 p.2 <> Some Path ->
  setCell maze p.1 p.2 Path = Returned maze' ->
  Balanced (S n) width height maze'.
Proof.
  intros [Hs Hseal Hpass Hpil Huni Hcount] Hp Hno H.
  pose proof (setCell_path _ _ _ _ H) as [_ Hk].
  split.
  - by eapply shaped_carving.
  - eapply sealed_setCell_inner; [exact Hseal | by apply gridCell_inner
                                 | exact H].
  - intros q d Hq Hd Hq'. rewrite (cellAt_setCell _ _ _ _ _ _ _ H).
    case_bool_decide as E.
    + exfalso. apply (PrimsCells.wall_not_cell _ _ q d Hq Hd).
      destruct E as [E1 E2].
      by rewrite (surjective_pairing (move q d)), E1, E2,
        <- surjective_pairing.
    + intros Hold. destruct (Hpass q d Hq Hd Hq' Hold). split; by apply Hk.
  - intros r c Hr Hc. rewrite (cellAt_setCell _ _ _ _ _ _ _ H).
    case_bool_decide as E; [|by apply Hpil].
    exfalso. destruct E as [-> ->]. destruct Hp as (_ & _ & Hr' & _).
    rewrite Hr in Hr'. done.
  - apply (unique_opened maze maze' _ _ p); [| |done].
    + by apply opened_at.
    + intros d1 d2 Hd1 _ Hp1.
      by rewrite (cell_closed width height maze Hseal Hpass p d1) in Hp1.
  - rewrite (size_paths_fresh _ _ _ _ _ _ Hs H Hno).
    pose proof (size_uncarved_cell width height _ p.1 p.2 _ H) as Hu.
    rewrite <- surjective_pairing in Hu. specialize (Hu Hp Hno). lia.
Qed.

(** The first cell carved into a grid of walls. *)
Lemma perfect_first width height s maze :
  GridCell (height * 2 + 1) (width * 2 + 1) s ->
  setCell (newGrid (height * 2 + 1) (width * 2 + 1) Wall) s.1 s.2 Path
  = Returned maze ->
  Balanced 1 width height maze.
Proof.
  intros Hs H.
  apply (balanced_alone 0 width height
           (newGrid (height * 2 + 1) (width * 2 + 1) Wall) s maze); try done.
  - destruct Hs as (? & ? & _). apply balanced_walls; lia.
  - destruct Hs as (? & ? & _). rewrite cellAt_newGrid by lia. discriminate.
Qed.

(** A path written where one is already. *)
Lemma balanced_again n width height maze r c maze' :
  Balanced n width height maze ->
  cellAt maze r c = Some Path ->
  setCell maze r c Path = Returned maze' ->
  Balanced n width height maze'.
Proof.
  intros [Hs Hseal Hpass Hpil Huni Hcount] Hyes H.
  assert (Hsame : forall r' c', cellAt maze' r' c' = cellAt maze r' c').
  { intros r' c'. rewrite (cellAt_setCell _ _ _ _ _ _ _ H).
    case_bool_decide as E; [|done]. by destruct E as [-> ->]. }
  assert (Hpassable : forall p, passable maze' (height * 2 + 1)
                                  (width * 2 + 1) p
                                = passable maze (height * 2 + 1)
                                    (width * 2 + 1) p).
  { intros p. unfold passable, cellIs. by rewrite Hsame. }
  split.
  - by eapply shaped_carving.
  - intros r' c' Hring. rewrite Hsame. by apply Hseal.
  - intros q d Hq Hd Hq'. rewrite !Hsame. by apply Hpass.
  - intros r' c'. rewrite Hsame. apply Hpil.
  - intros s t l1 l2 Hst H1 H2. rewrite Hpassable in Hst.
    apply (Huni s t); [done | |];
      (eapply Walk_keeps; [|eassumption]); intros q; by rewrite Hpassable.
  - rewrite (size_paths_again _ _ _ _ _ _ Hs H Hyes).
    replace (uncarved width height maze') with (uncarved width height maze);
      [done|].
    apply set_eq. intros p. unfold uncarved.
    by rewrite !elem_of_filter, Hsame.
Qed.

(** A passage opened between two carved cells that nothing joined: one
    part less. *)
Lemma balanced_join n width height maze cur d maze' :
  Balanced (S n) width height maze ->
  GridCell (height * 2 + 1) (width * 2 + 1) cur -> d ∈ directions ->
  GridCell (height * 2 + 1) (width * 2 + 1) (move (move cur d) d) ->
  cellAt maze cur.1 cur.2 = Some Path ->
  cellAt maze (move (move cur d) d).1 (move (move cur d) d).2 = Some Path ->
  cellAt maze (move cur d).1 (move cur d).2 <> Some Path ->
  ~ linked maze (height * 2 + 1) (width * 2 + 1) cur (move (move cur d) d) ->
  setCell maze (move cur d).1 (move cur d).2 Path = Returned maze' ->
  Balanced n width height maze'.
Proof.
  intros [Hs Hseal Hpass Hpil Huni Hcount] Hcur Hd Hnext Hpath Hpath' Hno
    Hapart H.
  pose proof (setCell_path _ _ _ _ H) as [_ Hk].
  assert (Hnw : ~ GridCell (height * 2 + 1) (width * 2 + 1) (move cur d))
    by (by apply PrimsCells.wall_not_cell).
  split.
  - by eapply shaped_carving.
  - eapply sealed_setCell_inner;
      [exact Hseal | by apply (between_Inner _ _ cur d) | exact H].
  - intros q e Hq He Hq'. rewrite (cellAt_setCell _ _ _ _ _ _ _ H).
    case_bool_decide as E.
    + intros _. destruct E as [E1 E2].
      assert (Hmv : move q e = move cur d).
      { by rewrite (surjective_pairing (move q e)), E1, E2,
          <- surjective_pairing. }
      destruct (wall_sides _ _ cur d q e Hcur Hd Hq He Hmv) as [[-> ->]|[-> ->]].
      * split; by apply Hk.
      * rewrite move_opposite, move_opposite. split; by apply Hk.
    + intros Hold. destruct (Hpass q e Hq He Hq' Hold). split; by apply Hk.
  - intros r c Hr Hc. rewrite (cellAt_setCell _ _ _ _ _ _ _ H).
    case_bool_decide as E; [|by apply Hpil].
    exfalso. destruct E as [-> ->].
    destruct cur as [r0 c0]. destruct Hcur as (_ & _ & Hr2 & Hc2).
    unfold directions in Hd. rewrite !elem_of_cons, elem_of_nil in Hd.
    unfold move in *. cbn [fst snd] in *.
    destruct Hd as [->|[->|[->|[->|[]]]]]; cbn [fst snd] in *;
      Z.to_euclidean_division_equations; lia.
  - apply (unique_opened maze maze' _ _ (move cur d)); [| |done].
    + by apply opened_at.
    + intros d1 d2 Hd1 Hd2 Hp1 Hp2 Hl.
      destruct (wall_open_sides width height maze Hpil cur d d1 Hcur Hd Hd1 Hp1)
        as [E1|E1],
        (wall_open_sides width height maze Hpil cur d d2 Hcur Hd Hd2 Hp2)
        as [E2|E2].
      * apply (move_inj (move cur d)). congruence.
      * exfalso. apply Hapart. by rewrite E1, E2 in Hl.
      * exfalso. apply Hapart. rewrite E1, E2 in Hl.
        apply linked_sym; [|done]. by rewrite <- E1.
      * apply (move_inj (move cur d)). congruence.
  - rewrite (size_paths_fresh _ _ _ _ _ _ Hs H Hno).
    rewrite (size_uncarved_other _ _ _ _ _ _ H)
      by (by rewrite <- surjective_pairing).
    lia.
Qed.

(** A passage opened from a carved cell towards a cell not yet carved. *)
Lemma unique_stub width height maze cur d maze' :
  Shaped (height * 2 + 1) (width * 2 + 1) maze ->
  (forall r c, Z.rem r 2 = 0 -> Z.rem c 2 = 0 ->
               cellAt maze r c <> Some Path) ->
  Unique maze (height * 2 + 1) (width * 2 + 1) ->
  GridCell (height * 2 + 1) (width * 2 + 1) cur -> d ∈ directions ->
  cellAt maze (move (move cur d) d).1 (move (move cur d) d).2 <> Some Path ->
  setCell maze (move cur d).1 (move cur d).2 Path = Returned maze' ->
  Unique maze' (height * 2 + 1) (width * 2 + 1).
Proof.
  intros Hs Hpil Huni Hcur Hd Hfresh H.
  apply (unique_opened maze maze' _ _ (move cur d)); [| |done].
  - by apply opened_at.
  - intros d1 d2 Hd1 Hd2 Hp1 Hp2 _.
    destruct (wall_open_sides width height maze Hpil cur d d1 Hcur Hd Hd1 Hp1)
      as [E1|E1],
      (wall_open_sides width height maze Hpil cur d d2 Hcur Hd Hd2 Hp2)
      as [E2|E2].
    + apply (move_inj (move cur d)). congruence.
    + exfalso. apply Hfresh.
      apply (passable_path _ (height * 2 + 1) (width * 2 + 1)).
      by rewrite <- E2.
    + exfalso. apply Hfresh.
      apply (passable_path _ (height * 2 + 1) (width * 2 + 1)).
      by rewrite <- E1.
    + apply (move_inj (move cur d)). congruence.
Qed.

(** A new cell carved next to a carved one with the passage between them,
    in either order of the two writes. *)
Lemma balanced_grow n width height maze cur d m1 m2 :
  Balanced n width height maze ->
  GridCell (height * 2 + 1) (width * 2 + 1) cur -> d ∈ directions ->
  GridCell (height * 2 + 1) (width * 2 + 1) (move (move cur d) d) ->
  cellAt maze cur.1 cur.2 = Some Path ->
  cellAt maze (move (move cur d) d).1 (move (move cur d) d).2 <> Some Path ->
  (setCell maze (move cur d).1 (move cur d).2 Path = Returned m1 /\
   setCell m1 (move (move cur d) d).1 (move (move cur d) d).2 Path
   = Returned m2) \/
  (setCell maze (move (move cur d) d).1 (move (move cur d) d).2 Path
   = Returned m1 /\
   setCell m1 (move cur d).1 (move cur d).2 Path = Returned m2) ->
  Balanced n width height m2.
Proof.
  intros Hbal Hcur Hd Hnext Hpath Hfresh Hwrites.
  assert (Hnw : ~ GridCell (height * 2 + 1) (width * 2 + 1) (move cur d))
    by (by apply PrimsCells.wall_not_cell).
  assert (Hwall : cellAt maze (move cur d).1 (move cur d).2 <> Some Path).
  { intros E. by destruct (balanced_passage _ _ _ _ Hbal cur d Hcur Hd Hnext E). }
  destruct Hwrites as [[H1 H2]|[H1 H2]].
  - (* the passage, then the cell: a path leading nowhere in between *)
    assert (Hno1 : cellAt m1 (move (move cur d) d).1 (move (move cur d) d).2
                   <> Some Path).
    { rewrite (cellAt_setCell _ _ _ _ _ _ _ H1). case_bool_decide as E; [|done].
      exfalso. apply Hnw. destruct E as [E1 E2].
      by rewrite (surjective_pairing (move cur d)), <- E1, <- E2,
        <- surjective_pairing. }
    pose proof (setCell_path _ _ _ _ H1) as [Hw1 Hk1].
    pose proof (setCell_path _ _ _ _ H2) as [Hn2 Hk2].
    destruct Hbal as [Hs Hseal Hpass Hpil Huni Hcount].
    assert (Hs1 : Shaped (height * 2 + 1) (width * 2 + 1) m1)
      by (by eapply shaped_carving).
    assert (Hpil1 : forall r c, Z.rem r 2 = 0 -> Z.rem c 2 = 0 ->
                                cellAt m1 r c <> Some Path).
    { intros r c Hr Hc. rewrite (cellAt_setCell _ _ _ _ _ _ _ H1).
      case_bool_decide as E; [|by apply Hpil].
      exfalso. destruct E as [-> ->].
      destruct cur as [r0 c0]. destruct Hcur as (_ & _ & Hr2 & Hc2).
      unfold directions in Hd. rewrite !elem_of_cons, elem_of_nil in Hd.
      unfold move in *. cbn [fst snd] in *.
      destruct Hd as [->|[->|[->|[->|[]]]]]; cbn [fst snd] in *;
        Z.to_euclidean_division_equations; lia. }
    assert (Huni1 : Unique m1 (height * 2 + 1) (width * 2 + 1))
      by (by apply (unique_stub width height maze cur d m1)).
    split.
    + by eapply shaped_carving.
    + eapply sealed_setCell_inner; [|by apply gridCell_inner|exact H2].
      eapply sealed_setCell_inner;
        [exact Hseal|by apply (between_Inner _ _ cur d)|exact H1].
    + intros q e Hq He Hq'. rewrite (cellAt_setCell _ _ _ _ _ _ _ H2).
      case_bool_decide as E.
      { exfalso. apply (PrimsCells.wall_not_cell _ _ q e Hq He).
        destruct E as [E1 E2].
        by rewrite (surjective_pairing (move q e)), E1, E2,
          <- surjective_pairing. }
      rewrite (cellAt_setCell _ _ _ _ _ _ _ H1).
      case_bool_decide as E'.
      * intros _. destruct E' as [E1 E2].
        assert (Hmv : move q e = move cur d).
        { by rewrite (surjective_pairing (move q e)), E1, E2,
            <- surjective_pairing. }
        destruct (wall_sides _ _ cur d q e Hcur Hd Hq He Hmv)
          as [[-> ->]|[-> ->]].
        -- split; [by apply Hk2, Hk1 | done].
        -- rewrite move_opposite, move_opposite.
           split; [done | by apply Hk2, Hk1].
      * intros Hold. destruct (Hpass q e Hq He Hq' Hold).
        split; by apply Hk2, Hk1.
    + intros r c Hr Hc. rewrite (cellAt_setCell _ _ _ _ _ _ _ H2).
      case_bool_decide as E; [|by apply Hpil1].
      exfalso. destruct E as [-> ->]. destruct Hnext as (_ & _ & Hr' & _).
      rewrite Hr in Hr'. done.
    + apply (unique_opened m1 m2 _ _ (move (move cur d) d)); [| |done].
      * by apply opened_at.
      * intros d1 d2 Hd1 Hd2 Hp1 Hp2 _.
        assert (Hback : forall e, e ∈ directions ->
                  passable m1 (height * 2 + 1) (width * 2 + 1)
                    (move (move (move cur d) d) e) = true ->
                  e = opposite d).
        { intros e He Hpe.
          apply (opened_at _ _ _ _ _ Hs H1) in Hpe as [E|Hpe].
          - apply (move_inj (move (move cur d) d)). by rewrite move_opposite.
          - by rewrite (cell_closed width height maze Hseal Hpass
                          (move (move cur d) d) e) in Hpe. }
        by rewrite (Hback d1 Hd1 Hp1), (Hback d2 Hd2 Hp2).
    + rewrite (size_paths_fresh _ _ _ _ _ _ Hs1 H2 Hno1).
      rewrite (size_paths_fresh _ _ _ _ _ _ Hs H1 Hwall).
      pose proof (size_uncarved_cell width height _ _ _ _ H2) as Hu.
      rewrite <- surjective_pairing in Hu. specialize (Hu Hnext Hno1).
      rewrite (size_uncarved_other _ _ _ _ _ _ H1) in Hu
        by (by rewrite <- surjective_pairing).
      lia.
  - (* the cell, then the passage *)
    pose proof (balanced_alone n _ _ _ _ _ Hbal Hnext Hfresh H1) as Hbal1.
    apply (balanced_join n width height m1 cur d m2); try done.
    + by apply (proj2 (setCell_path _ _ _ _ H1)).
    + by apply (proj1 (setCell_path _ _ _ _ H1)).
    + rewrite (cellAt_setCell _ _ _ _ _ _ _ H1). case_bool_decide as E; [|done].
      exfalso. apply Hnw. destruct E as [E1 E2].
      by rewrite (surjective_pairing (move cur d)), E1, E2,
        <- surjective_pairing.
    + intros Hl.
      assert (E : cur = move (move cur d) d).
      { apply (linked_closed m1 (height * 2 + 1) (width * 2 + 1)); [| |done].
        - intros e He.
          destruct (passable m1 _ _ (move (move (move cur d) d) e)) eqn:Hpe;
            [|done].
          apply (opened_at _ _ _ _ _ (balanced_shaped _ _ _ _ Hbal) H1)
            in Hpe as [E|Hpe].
          + by apply move_ne in E.
          + by rewrite (cell_closed width height maze
                          (balanced_sealed _ _ _ _ Hbal)
                          (balanced_passage _ _ _ _ Hbal)
                          (move (move cur d) d) e) in Hpe.
        - apply shaped_passable; [apply Hbal1|].
          by apply (proj2 (setCell_path _ _ _ _ H1)). }
      apply Hfresh. by rewrite <- E.
Qed.

(** With the two ends opened: the paths and twice the cells left uncarved
    make twice the cells plus one. *)
Lemma balanced_openEnds width height maze maze' :
  1 <= width -> 1 <= height ->
  Balanced 1 width height maze ->
  openEnds (height * 2 + 1) (width * 2 + 1) maze = Returned maze' ->
  (size (paths (height * 2 + 1) (width * 2 + 1) maze')
   + 2 * size (uncarved width height maze')
   = 2 * (Z.to_nat height * Z.to_nat width) + 1)%nat.
Proof.
  intros Hw Hh [Hs Hseal _ _ _ Hcount] H. unfold openEnds in H.
  apply bind_Returned in H as (m1 & H1 & H2).
  rewrite (size_uncarved_other _ _ _ _ _ _ H2)
    by (unfold GridCell; simpl; lia).
  rewrite (size_uncarved_other _ _ _ _ _ _ H1)
    by (unfold GridCell; simpl; lia).
  assert (Hs1 : Shaped (height * 2 + 1) (width * 2 + 1) m1)
    by (by eapply shaped_carving).
  rewrite (size_paths_fresh _ _ _ _ _ _ Hs1 H2).
  - rewrite (size_paths_fresh _ _ _ _ _ _ Hs H1); [lia|].
    rewrite Hseal; [discriminate|]. unfold onRing. lia.
  - rewrite (cellAt_setCell _ _ _ _ _ _ _ H1).
    rewrite bool_decide_eq_false_2 by lia.
    rewrite Hseal; [discriminate|]. unfold onRing. lia.
Qed.

(** With every cell carved as well: twice the cells plus one paths. *)
Lemma perfect_whole width height maze maze' :
  1 <= width -> 1 <= height ->
  Balanced 1 width height maze ->
  openEnds (height * 2 + 1) (width * 2 + 1) maze = Returned maze' ->
  allCarved width height maze' ->
  size (paths (height * 2 + 1) (width * 2 + 1) maze')
  = (2 * (Z.to_nat height * Z.to_nat width) + 1)%nat.
Proof.
  intros Hw Hh Hbal H Hall.
  pose proof (balanced_openEnds _ _ _ _ Hw Hh Hbal H) as Hcount.
  rewrite (uncarved_allCarved _ _ _ Hall), size_empty in Hcount. lia.
Qed.

(** An opening in the ring has one neighbour inside. *)
Lemma unique_opening gh gw maze r c maze' :
  Shaped gh gw maze -> Unique maze gh gw ->
  (forall d1 d2, d1 ∈ directions -> d2 ∈ directions ->
                 passable maze gh gw (move (r, c) d1) = true ->
                 passable maze gh gw (move (r, c) d2) = true -> d1 = d2) ->
  setCell maze r c Path = Returned maze' -> Unique maze' gh gw.
Proof.
  intros Hs Hu Hone H.
  apply (unique_opened maze maze' gh gw (r, c)); [| |done].
  - by apply opened_setCell.
  - intros d1 d2 Hd1 Hd2 Hp1 Hp2 _. by apply Hone.
Qed.

(** The two ends opened: still one route only. *)
Lemma unique_openEnds width height maze maze' :
  1 <= width -> 1 <= height ->
  Balanced 1 width height maze ->
  openEnds (height * 2 + 1) (width * 2 + 1) maze = Returned maze' ->
  Unique maze' (height * 2 + 1) (width * 2 + 1).
Proof.
  intros Hw Hh [Hs Hseal _ _ Hu _] H. unfold openEnds in H.
  apply bind_Returned in H as (m1 & H1 & H2).
  assert (Hs1 : Shaped (height * 2 + 1) (width * 2 + 1) m1)
    by (by eapply shaped_carving).
  assert (Hring : forall (m : Grid) r c,
            Sealed (height * 2 + 1) (width * 2 + 1) m ->
            passable m (height * 2 + 1) (width * 2 + 1) (r, c) = true ->
            Inner (height * 2 + 1) (width * 2 + 1) r c).
  { intros m r c Hm Hp. pose proof (passable_path _ _ _ _ Hp) as Hpath.
    unfold passable in Hp. cbn [fst snd] in *.
    rewrite !andb_true_iff, !Z.geb_le, !Z.ltb_lt in Hp.
    destruct (decide (Inner (height * 2 + 1) (width * 2 + 1) r c))
      as [|Hout]; [done|].
    rewrite Hm in Hpath; [done|]. unfold onRing, Inner in *. lia. }
  assert (Hone : forall (m : Grid) r c,
            (forall d, d ∈ directions ->
                       passable m (height * 2 + 1) (width * 2 + 1)
                         (move (r, c) d) = true ->
                       Inner (height * 2 + 1) (width * 2 + 1)
                         (move (r, c) d).1 (move (r, c) d).2) ->
            c = 0 \/ c = width * 2 + 1 - 1 ->
            forall d1 d2, d1 ∈ directions -> d2 ∈ directions ->
              passable m (height * 2 + 1) (width * 2 + 1) (move (r, c) d1)
              = true ->
              passable m (height * 2 + 1) (width * 2 + 1) (move (r, c) d2)
              = true -> d1 = d2).
  { intros m r c Hin Hc d1 d2 Hd1 Hd2 Hp1 Hp2.
    pose proof (Hin d1 Hd1 Hp1) as Hi1. pose proof (Hin d2 Hd2 Hp2) as Hi2.
    unfold directions in Hd1, Hd2.
    rewrite !elem_of_cons, elem_of_nil in Hd1, Hd2.
    unfold Inner, move in Hi1, Hi2. cbn [fst snd] in Hi1, Hi2.
    destruct Hd1 as [->|[->|[->|[->|[]]]]];
      destruct Hd2 as [->|[->|[->|[->|[]]]]]; cbn [fst snd] in *;
      try done; lia. }
  apply (unique_opening _ _ m1 (height * 2 + 1 - 2) (width * 2 + 1 - 1)
           maze' Hs1); [| |exact H2].
  - apply (unique_opening _ _ maze 1 0 m1 Hs Hu); [|exact H1].
    apply Hone; [|by left]. intros d Hd Hp.
    destruct (move (1, 0) d) as [r c] eqn:E. by apply (Hring maze).
  - apply Hone; [|by right]. intros d Hd Hp.
    apply (opened_setCell _ _ _ _ _ _ Hs H1) in Hp as [E|Hp].
    + exfalso. unfold directions in Hd.
      rewrite !elem_of_cons, elem_of_nil in Hd. unfold move in E.
      cbn [fst snd] in E.
      destruct Hd as [->|[->|[->|[->|[]]]]]; cbn [fst snd] in E;
        injection E as E1 E2; lia.
    + destruct (move (height * 2 + 1 - 2, width * 2 + 1 - 1) d) as [r c] eqn:E.
      by apply (Hring maze).
Qed.

(** Two cells found around one position lie on opposite sides of it. *)
Lemma flanking_opposite gh gw wall d1 d2 :
  d1 ∈ directions -> d2 ∈ directions ->
  GridCell gh gw (move wall d1) -> GridCell gh gw (move wall d2) ->
  move wall d1 <> move wall d2 -> d2 = opposite d1.
Proof.
  destruct wall as [r c]. unfold directions.
  rewrite !elem_of_cons, !elem_of_nil. unfold GridCell, move, opposite.
  intros [->|[->|[->|[->|[]]]]] [->|[->|[->|[->|[]]]]];
    cbn [fst snd]; intros (_ & _ & Hr1 & Hc1) (_ & _ & Hr2 & Hc2) Hne;
    try done; exfalso; Z.to_euclidean_division_equations; lia.
Qed.

(** *** Randomized Prim *)

Module PrimsPerfect.
Import Prims.

Lemma prims_carve_perfect width height maze wall fresh other walls1 rnd1 st' :
  Balanced 1 width height maze ->
  other ∈ flankingCells (height * 2 + 1) (width * 2 + 1) wall ->
  fresh ∈ flankingCells (height * 2 + 1) (width * 2 + 1) wall ->
  cellAt maze other.1 other.2 = Some Path ->
  cellAt maze fresh.1 fresh.2 <> Some Path ->
  carve (height * 2 + 1) (width * 2 + 1) maze wall fresh walls1 rnd1
  = inl st' ->
  Balanced 1 width height (Prims.maze st').
Proof.
  intros Hperf Hother Hfresh Hpath Hno. unfold carve.
  destruct (m1 ← setCell maze wall.1 wall.2 Path;
            setCell m1 fresh.1 fresh.2 Path) as [m2| |] eqn:Em; try done.
  intros [= <-]. cbn [Prims.maze].
  apply bind_Returned in Em as (m1 & H1 & H2).
  apply PrimsLinks.flanking_moves in Hother as [Hoc (d1 & Hd1 & Eo)].
  apply PrimsLinks.flanking_moves in Hfresh as [Hfc (d2 & Hd2 & Ef)].
  assert (Hd : d2 = opposite d1).
  { apply (flanking_opposite (height * 2 + 1) (width * 2 + 1) wall);
      try done; congruence. }
  assert (Hwall : move other d2 = wall)
    by (by rewrite Eo, Hd, move_opposite).
  apply (balanced_grow 1 width height maze other d2 m1 m2); try done.
  - by rewrite Hwall, <- Ef.
  - by rewrite Hwall, <- Ef.
  - left. by rewrite Hwall, <- Ef.
Qed.

Lemma prims_step_perfect width height st st' :
  Balanced 1 width height (maze st) ->
  step (height * 2 + 1) (width * 2 + 1) st = inl st' ->
  Balanced 1 width height (maze st').
Proof.
  intros Hperf. unfold step.
  destruct (walls st) as [|w0 ws] eqn:Ews; [done|]. rewrite <- Ews.
  destruct (randomIndex _ _) as [idx rnd1].
  destruct (walls st !! idx) as [wall|] eqn:Ewall; [|done].
  destruct (flankingCells _ _ wall) as [|c1 [|c2 more]] eqn:Ef;
    try (by intros [= <-]).
  assert (H1 : c1 ∈ flankingCells (height * 2 + 1) (width * 2 + 1) wall)
    by (rewrite Ef; apply elem_of_cons; by left).
  assert (H2 : c2 ∈ flankingCells (height * 2 + 1) (width * 2 + 1) wall).
  { rewrite Ef. apply elem_of_cons; right. apply elem_of_cons; by left. }
  destruct (cellIs (maze st) c1.1 c1.2 Path
            && cellIs (maze st) c2.1 c2.2 Wall) eqn:E1.
  { apply andb_true_iff in E1 as [Ea Eb].
    apply cellIs_iff in Ea. apply cellIs_iff in Eb.
    apply (prims_carve_perfect width height (maze st) wall c2 c1);
      try done. rewrite Eb. discriminate. }
  destruct (cellIs (maze st) c1.1 c1.2 Wall
            && cellIs (maze st) c2.1 c2.2 Path) eqn:E2.
  { apply andb_true_iff in E2 as [Ea Eb].
    apply cellIs_iff in Ea. apply cellIs_iff in Eb.
    apply (prims_carve_perfect width height (maze st) wall c1 c2);
      try done. rewrite Ea. discriminate. }
  by intros [= <-].
Qed.

End PrimsPerfect.

Lemma prims_balanced fuel width height rnd maze :
  1 <= width -> 1 <= height ->
  generatePrimsMaze fuel width height rnd = Returned maze ->
  exists maze2,
    Balanced 1 width height maze2 /\
    openEnds (height * 2 + 1) (width * 2 + 1) maze2 = Returned maze.
Proof.
  intros Hw Hh Hgen.
  revert Hgen. unfold generatePrimsMaze. cbv zeta.
  pose proof (randomIndex_lt (Z.to_nat height) rnd ltac:(lia)) as Hi.
  destruct (randomIndex (Z.to_nat height) rnd) as [i rnd1].
  pose proof (randomIndex_lt (Z.to_nat width) rnd1 ltac:(lia)) as Hj.
  destruct (randomIndex (Z.to_nat width) rnd1) as [j rnd2].
  simpl in Hi, Hj.
  intros H. apply bind_Returned in H as (maze1 & Hset & H).
  apply bind_Returned in H as (maze2 & Hloop & H).
  exists maze2. split; [|done]. clear H.
  revert maze2 Hloop.
  apply (loop_invariant _ (fun st => Balanced 1 width height (Prims.maze st))).
  - intros s s'. apply PrimsPerfect.prims_step_perfect.
  - intros s r Ht Hs. by apply PrimsCells.prims_step_done in Hs as [_ ->].
  - cbn [Prims.maze].
    apply (perfect_first width height
             (Z.of_nat i * 2 + 1, Z.of_nat j * 2 + 1)); [|exact Hset].
    apply gridCell_cell; lia.
Qed.

Lemma prims_perfect fuel width height rnd maze :
  1 <= width -> 1 <= height ->
  generatePrimsMaze fuel width height rnd = Returned maze ->
  size (paths (height * 2 + 1) (width * 2 + 1) maze)
  = (2 * (Z.to_nat height * Z.to_nat width) + 1)%nat.
Proof.
  intros Hw Hh Hgen.
  pose proof (prims_allCarved _ _ _ _ _ Hw Hh Hgen) as Hall.
  destruct (prims_balanced _ _ _ _ _ Hw Hh Hgen) as (maze2 & Hbal & H).
  by apply (perfect_whole width height maze2 maze).
Qed.

Lemma prims_unique fuel width height rnd maze :
  1 <= width -> 1 <= height ->
  generatePrimsMaze fuel width height rnd = Returned maze ->
  Unique maze (height * 2 + 1) (width * 2 + 1).
Proof.
  intros Hw Hh Hgen.
  destruct (prims_balanced _ _ _ _ _ Hw Hh Hgen) as (maze2 & Hbal & H).
  by apply (unique_openEnds width height maze2 maze).
Qed.

(** *** Growing tree *)

Module GrowingTreePerfect.
Import GrowingTree GrowingTreeFacts.

Record Inv (width height : Z) (st : State) : Prop := {
  inv_perfect : Balanced 1 width height (maze st);
  inv_active : forall p,
    p ∈ activeCells st ->
    isCell width height p = true /\
    cellAt (maze st) (cellToGrid p).1 (cellToGrid p).2 = Some Path;
  inv_visited : forall p,
    isCell width height p = true ->
    cellAt (maze st) (cellToGrid p).1 (cellToGrid p).2 = Some Path ->
    p ∈ visitedCells st
}.

Lemma growingTree_step_perfect method width height st st' :
  Inv width height st -> step method width height st = inl st' ->
  Inv width height st'.
Proof.
  intros [Hperf Hact Hvis]. unfold step.
  destruct (activeCells st) as [|a0 rest] eqn:Eact; [done|].
  destruct (match method with
            | newest => _ | oldest => _ | random => _ end)
    as [cellIndex rnd1].
  destruct ((a0 :: rest) !! cellIndex) as [cur|] eqn:Ecur; [|done].
  apply list_elem_of_lookup_2 in Ecur.
  destruct (Hact cur Ecur) as [Hcell Hpath].
  destruct (filter _ (map (move cur) directions)) as [|n0 ns] eqn:Eun.
  - intros [= <-]. split; simpl; [done| |done].
    intros p Hp. apply Hact. by apply list_elem_of_delete_inv in Hp.
  - destruct (randomIndex (length (n0 :: ns)) rnd1) as [k rnd2].
    destruct ((n0 :: ns) !! k) as [next|] eqn:Enext; [|done].
    destruct (_ ≫= _) as [m2| |] eqn:Em; try done.
    intros [= <-].
    apply bind_Returned in Em as (m1 & H1 & H2).
    apply list_elem_of_lookup_2 in Enext. rewrite <- Eun in Enext.
    apply list_elem_of_filter in Enext as [[Hnc Hfresh] Hmv].
    apply list_elem_of_fmap in Hmv as (d & -> & Hd).
    pose proof (halfway cur d Hd) as Hmid.
    apply (f_equal fst) in Hmid as Hmid1. apply (f_equal snd) in Hmid as Hmid2.
    cbn [fst snd] in Hmid1, Hmid2. rewrite Hmid1, Hmid2 in H1.
    rewrite move_twice_cell in H2.
    pose proof (carve_two _ _ _ _ _ _ _ H1 H2) as (Hk & _ & Hn & Hnew).
    pose proof (isCell_GridCell _ _ _ Hcell) as Hcg.
    pose proof (isCell_GridCell _ _ _ Hnc) as Hng.
    rewrite move_twice_cell in Hng.
    split; cbn [maze activeCells visitedCells].
    + apply (balanced_grow 1 width height (maze st) (cellToGrid cur) d m1 m2);
        try done; [|by left].
      intros E. apply Hfresh, Hvis; [done|]. by rewrite move_twice_cell.
    + change (a0 :: rest ++ [move cur d]) with ((a0 :: rest) ++ [move cur d]).
      intros p Hp. apply elem_of_app in Hp as [Hp|Hp].
      * destruct (Hact p Hp) as [? ?]. split; [done|]. by apply Hk.
      * apply list_elem_of_singleton in Hp as ->.
        by rewrite move_twice_cell.
    + intros p Hp Hpp. apply elem_of_union.
      destruct (Hnew _ _ Hpp) as [Hold|[E|E]].
      * right. by apply Hvis.
      * exfalso.
        apply (PrimsCells.wall_not_cell _ _ (cellToGrid cur) d Hcg Hd).
        rewrite (surjective_pairing (move (cellToGrid cur) d)), <- E.
        rewrite <- surjective_pairing. by apply isCell_GridCell.
      * left. apply elem_of_singleton.
        rewrite <- surjective_pairing, <- move_twice_cell in E.
        destruct p as [pr pc], (move cur d) as [qr qc].
        unfold cellToGrid in E. cbn [fst snd] in E.
        injection E as E1 E2. f_equal; lia.
Qed.

Lemma growingTree_exit_perfect method width height st maze' :
  Inv width height st ->
  step method width height st = inr (Returned maze') ->
  Balanced 1 width height maze'.
Proof.
  intros [Hperf Hact Hvis]. unfold step.
  destruct (activeCells st) as [|a0 rest] eqn:Eact; [by intros [= <-]|].
  destruct (match method with
            | newest => _ | oldest => _ | random => _ end)
    as [cellIndex rnd1].
  destruct (_ !! cellIndex) as [cur|]; [|done].
  destruct (filter _ _) as [|n0 ns]; [done|].
  destruct (randomIndex _ _) as [k rnd2].
  destruct (_ !! k) as [next|]; [|done].
  by destruct (_ ≫= _).
Qed.

End GrowingTreePerfect.

Lemma growingTree_balanced fuel width height method rnd maze :
  1 <= width -> 1 <= height ->
  generateGrowingTreeMaze fuel width height method rnd = Returned maze ->
  exists maze2,
    Balanced 1 width height maze2 /\
    openEnds (height * 2 + 1) (width * 2 + 1) maze2 = Returned maze.
Proof.
  intros Hw Hh Hgen.
  revert Hgen. unfold generateGrowingTreeMaze. cbv zeta.
  pose proof (randomIndex_lt (Z.to_nat height) rnd ltac:(lia)) as Hi.
  destruct (randomIndex (Z.to_nat height) rnd) as [i rnd1].
  pose proof (randomIndex_lt (Z.to_nat width) rnd1 ltac:(lia)) as Hj.
  destruct (randomIndex (Z.to_nat width) rnd1) as [j rnd2].
  simpl in Hi, Hj.
  intros H. apply bind_Returned in H as (maze1 & Hset & H).
  apply bind_Returned in H as (maze2 & Hloop & H).
  exists maze2. split; [|done]. clear H.
  revert maze2 Hloop.
  apply (loop_invariant _ (GrowingTreePerfect.Inv width height)).
  - intros s s'. apply GrowingTreePerfect.growingTree_step_perfect.
  - intros s r. apply GrowingTreePerfect.growingTree_exit_perfect.
  - split; cbn [GrowingTree.maze GrowingTree.activeCells
                GrowingTree.visitedCells].
    + apply (perfect_first width height
               (Z.of_nat i * 2 + 1, Z.of_nat j * 2 + 1)); [|exact Hset].
      apply gridCell_cell; lia.
    + intros p Hp. apply list_elem_of_singleton in Hp as ->. split.
      * unfold GrowingTree.isCell. simpl.
        rewrite !andb_true_iff, !Z.geb_le, !Z.ltb_lt. lia.
      * by apply setCell_path in Hset as [Hc _].
    + intros [pr pc] Hp. rewrite (cellAt_setCell _ _ _ _ _ _ _ Hset).
      unfold cellToGrid. cbn [fst snd]. case_bool_decide as E.
      * intros _. apply elem_of_singleton. f_equal; lia.
      * apply GrowingTreeFacts.isCell_valid in Hp as [Hr Hc].
        cbn [fst snd] in Hr, Hc. rewrite cellAt_newGrid by lia. discriminate.
Qed.

Lemma growingTree_perfect fuel width height method rnd maze :
  1 <= width -> 1 <= height ->
  generateGrowingTreeMaze fuel width height method rnd = Returned maze ->
  size (paths (height * 2 + 1) (width * 2 + 1) maze)
  = (2 * (Z.to_nat height * Z.to_nat width) + 1)%nat.
Proof.
  intros Hw Hh Hgen.
  pose proof (growingTree_allCarved _ _ _ _ _ _ Hw Hh Hgen) as Hall.
  destruct (growingTree_balanced _ _ _ _ _ _ Hw Hh Hgen) as (maze2 & Hbal & H).
  by apply (perfect_whole width height maze2 maze).
Qed.

Lemma growingTree_unique fuel width height method rnd maze :
  1 <= width -> 1 <= height ->
  generateGrowingTreeMaze fuel width height method rnd = Returned maze ->
  Unique maze (height * 2 + 1) (width * 2 + 1).
Proof.
  intros Hw Hh Hgen.
  destruct (growingTree_balanced _ _ _ _ _ _ Hw Hh Hgen) as (maze2 & Hbal & H).
  by apply (unique_openEnds width height maze2 maze).
Qed.

(** *** Aldous-Broder *)

Module AldousBroderPerfect.
Import AldousBroder.

Record Inv (width height : Z) (st : State) : Prop := {
  inv_cells : AldousBroderCells.Inv width height st;
  inv_perfect : Balanced 1 width height (maze st);
  inv_current : GridCell (height * 2 + 1) (width * 2 + 1) (current st);
  inv_here : cellAt (maze st) (current st).1 (current st).2 = Some Path;
  inv_visited : forall p,
    GridCell (height * 2 + 1) (width * 2 + 1) p ->
    cellAt (maze st) p.1 p.2 = Some Path -> gridToCell p ∈ visitedCells st
}.

Lemma aldousBroder_step_perfect width height st st' :
  Inv width height st ->
  step (height * 2 + 1) (width * 2 + 1) (width * height) st = inl st' ->
  Inv width height st'.
Proof.
  intros [Hcells Hperf Hcur Hhere Hvis] Hstep.
  pose proof (AldousBroderCells.aldousBroder_step_cells _ _ _ _ Hcells Hstep)
    as Hcells'.
  revert Hstep. unfold step.
  destruct (_ <? _); [|done].
  destruct (randomIndex _ _) as [k rnd3].
  destruct (cellDirections !! k) as [d|] eqn:Ed; [|done].
  apply list_elem_of_lookup_2, cell_direction in Ed as (e & He & Hmove).
  destruct (Hmove (current st)) as [Hnext Hmid].
  destruct (isGridCell _ _ _ _) eqn:Ecell; [|by intros [= <-]].
  destruct (isGridCell_cell width height _ _ Ecell) as [Hu Hround].
  apply isGridCell_iff in Ecell.
  rewrite <- surjective_pairing in Ecell, Hround.
  case_bool_decide as Hin.
  - intros [= <-]. split; cbn [maze current visitedCells]; try done.
    destruct Hcells as [_ _ Hcarved]. specialize (Hcarved _ Hin).
    by rewrite Hround in Hcarved.
  - destruct (_ ≫= _) as [m2| |] eqn:Em; try done.
    intros [= <-].
    apply bind_Returned in Em as (m1 & H1 & H2).
    apply (f_equal fst) in Hmid as Hmid1. apply (f_equal snd) in Hmid as Hmid2.
    cbn [fst snd] in Hmid1, Hmid2. rewrite Hmid1, Hmid2 in H1.
    rewrite Hnext in H2, Ecell, Hcells', Hin |- *.
    pose proof (carve_two _ _ _ _ _ _ _ H1 H2) as (Hk & _ & Hn & Hnew).
    split; cbn [maze current visitedCells]; try done.
    + apply (balanced_grow 1 width height (maze st) (current st) e m1 m2);
        try done; [|by left].
      intros E. by apply Hin, Hvis.
    + intros p Hp Hpp. apply elem_of_union.
      destruct (Hnew _ _ Hpp) as [Hold|[E|E]].
      * right. by apply Hvis.
      * exfalso.
        apply (PrimsCells.wall_not_cell _ _ (current st) e Hcur He).
        by rewrite (surjective_pairing (move (current st) e)), <- E,
          <- surjective_pairing.
      * left. apply elem_of_singleton.
        by rewrite (surjective_pairing p), E, <- surjective_pairing.
Qed.

Lemma aldousBroder_exit_perfect width height st maze' :
  Inv width height st ->
  step (height * 2 + 1) (width * 2 + 1) (width * height) st
  = inr (Returned maze') ->
  Balanced 1 width height maze'.
Proof.
  intros [_ Hperf _ _ _]. unfold step.
  destruct (_ <? _); [|by intros [= <-]].
  destruct (randomIndex _ _) as [k rnd3].
  destruct (cellDirections !! k) as [d|]; [|done].
  destruct (isGridCell _ _ _ _); [|done].
  case_bool_decide; [done|]. by destruct (_ ≫= _).
Qed.

End AldousBroderPerfect.

Lemma aldousBroder_balanced fuel width height rnd maze :
  1 <= width -> 1 <= height ->
  generateAldousBroderMaze fuel width height rnd = Returned maze ->
  exists maze2,
    Balanced 1 width height maze2 /\
    openEnds (height * 2 + 1) (width * 2 + 1) maze2 = Returned maze.
Proof.
  intros Hw Hh Hgen.
  revert Hgen. unfold generateAldousBroderMaze. cbv zeta.
  pose proof (randomIndex_lt (Z.to_nat height) rnd ltac:(lia)) as Hi.
  destruct (randomIndex (Z.to_nat height) rnd) as [i rnd1].
  pose proof (randomIndex_lt (Z.to_nat width) rnd1 ltac:(lia)) as Hj.
  destruct (randomIndex (Z.to_nat width) rnd1) as [j rnd2].
  simpl in Hi, Hj.
  intros H. apply bind_Returned in H as (maze1 & Hset & H).
  apply bind_Returned in H as (maze2 & Hloop & H).
  exists maze2. split; [|done]. clear H.
  revert maze2 Hloop.
  assert (Hstart : GridCell (height * 2 + 1) (width * 2 + 1)
                     (cellToGrid (Z.of_nat i, Z.of_nat j))).
  { apply (gridCell_cell width height (Z.of_nat i) (Z.of_nat j)); lia. }
  apply (loop_invariant _ (AldousBroderPerfect.Inv width height)).
  - intros s s'. apply AldousBroderPerfect.aldousBroder_step_perfect.
  - intros s r. apply AldousBroderPerfect.aldousBroder_exit_perfect.
  - pose proof (setCell_path _ _ _ _ Hset) as [Hc _].
    split; cbn [AldousBroder.maze AldousBroder.current
                AldousBroder.visitedCells].
    + split; cbn [AldousBroder.maze AldousBroder.visitedCells
                    AldousBroder.cellsVisitedCount].
      * intros p Hp. apply elem_of_singleton in Hp as ->.
        apply elem_of_universe. simpl. lia.
      * by rewrite size_singleton.
      * intros p Hp. by apply elem_of_singleton in Hp as ->.
    + by apply (perfect_first width height
                  (cellToGrid (Z.of_nat i, Z.of_nat j))).
    + exact Hstart.
    + exact Hc.
    + intros [pr pc] (Hr & Hc' & _).
      rewrite (cellAt_setCell _ _ _ _ _ _ _ Hset).
      cbn [fst snd] in *. case_bool_decide as E.
      * intros _. apply elem_of_singleton. destruct E as [-> ->].
        unfold gridToCell, cellToGrid. cbn [fst snd].
        f_equal; Z.to_euclidean_division_equations; lia.
      * rewrite cellAt_newGrid by lia. discriminate.
Qed.

Lemma aldousBroder_perfect fuel width height rnd maze :
  1 <= width -> 1 <= height ->
  generateAldousBroderMaze fuel width height rnd = Returned maze ->
  size (paths (height * 2 + 1) (width * 2 + 1) maze)
  = (2 * (Z.to_nat height * Z.to_nat width) + 1)%nat.
Proof.
  intros Hw Hh Hgen.
  pose proof (aldousBroder_allCarved _ _ _ _ _ Hw Hh Hgen) as Hall.
  destruct (aldousBroder_balanced _ _ _ _ _ Hw Hh Hgen) as (maze2 & Hbal & H).
  by apply (perfect_whole width height maze2 maze).
Qed.

Lemma aldousBroder_unique fuel width height rnd maze :
  1 <= width -> 1 <= height ->
  generateAldousBroderMaze fuel width height rnd = Returned maze ->
  Unique maze (height * 2 + 1) (width * 2 + 1).
Proof.
  intros Hw Hh Hgen.
  destruct (aldousBroder_balanced _ _ _ _ _ Hw Hh Hgen) as (maze2 & Hbal & H).
  by apply (unique_openEnds width height maze2 maze).
Qed.

(** *** Binary tree *)

Module BinaryTreePerfect.
Import BinaryTree.

(** The cells the two loops have still to run over hold a wall. *)
Definition ahead (width height : Z) (i k : nat) (m : Grid) : Prop :=
  forall r c, 0 <= c < width -> 0 <= r < height ->
              Z.of_nat i < r \/ (r = Z.of_nat i /\ Z.of_nat k <= c) ->
              cellAt m (r * 2 + 1) (c * 2 + 1) <> Some Path.

Record Inv (width height : Z) (i k : nat) (st : Grid * Rand) : Prop := {
  inv_new : i = O -> k = O ->
            st.1 = newGrid (height * 2 + 1) (width * 2 + 1) Wall;
  inv_perfect : i <> O \/ k <> O -> Balanced 1 width height st.1;
  inv_done : BinaryTreeLinks.done width i k st.1;
  inv_ahead : ahead width height i k st.1
}.

Lemma binaryTree_cell_perfect width height i k st st' :
  Z.of_nat i < height -> Z.of_nat k < width ->
  Inv width height i k st ->
  carveCell (Z.of_nat i * 2 + 1) st (Z.of_nat k * 2 + 1) = Returned st' ->
  Inv width height i (S k) st'.
Proof.
  intros Hi Hk [Hnew Hperf Hdone Hahead] Hcell.
  assert (Hhere : GridCell (height * 2 + 1) (width * 2 + 1)
                    (Z.of_nat i * 2 + 1, Z.of_nat k * 2 + 1))
    by (apply gridCell_cell; lia).
  split.
  - done.
  - intros _. revert Hcell. destruct st as [m rnd]. unfold carveCell.
    intros H. apply bind_Returned in H as (m1 & H1 & H).
    cbn [fst] in *.
    assert (Hup : forall m2,
              0 < Z.of_nat i ->
              setCell m1 (Z.of_nat i * 2 + 1 - 1) (Z.of_nat k * 2 + 1) Path
              = Returned m2 -> Balanced 1 width height m2).
    { intros m2 Hpos H2.
      assert (Hcur : GridCell (height * 2 + 1) (width * 2 + 1)
                       ((Z.of_nat i - 1) * 2 + 1, Z.of_nat k * 2 + 1))
        by (apply gridCell_cell; lia).
      apply (balanced_grow 1 width height m
               ((Z.of_nat i - 1) * 2 + 1, Z.of_nat k * 2 + 1) (1, 0) m1 m2);
        unfold move; cbn [fst snd].
      - apply Hperf. lia.
      - exact Hcur.
      - unfold directions. rewrite !elem_of_cons. tauto.
      - by replace ((Z.of_nat i - 1) * 2 + 1 + 1 + 1) with (Z.of_nat i * 2 + 1)
          by lia; replace (Z.of_nat k * 2 + 1 + 0 + 0)
          with (Z.of_nat k * 2 + 1) by lia.
      - apply Hdone; lia.
      - replace ((Z.of_nat i - 1) * 2 + 1 + 1 + 1) with (Z.of_nat i * 2 + 1)
          by lia; replace (Z.of_nat k * 2 + 1 + 0 + 0)
          with (Z.of_nat k * 2 + 1) by lia.
        apply Hahead; lia.
      - right.
        replace ((Z.of_nat i - 1) * 2 + 1 + 1 + 1) with (Z.of_nat i * 2 + 1)
          by lia.
        replace ((Z.of_nat i - 1) * 2 + 1 + 1) with (Z.of_nat i * 2 + 1 - 1)
          by lia.
        replace (Z.of_nat k * 2 + 1 + 0 + 0) with (Z.of_nat k * 2 + 1) by lia.
        replace (Z.of_nat k * 2 + 1 + 0) with (Z.of_nat k * 2 + 1) by lia.
        done. }
    assert (Hleft : forall m2,
              0 < Z.of_nat k ->
              setCell m1 (Z.of_nat i * 2 + 1) (Z.of_nat k * 2 + 1 - 1) Path
              = Returned m2 -> Balanced 1 width height m2).
    { intros m2 Hpos H2.
      assert (Hcur : GridCell (height * 2 + 1) (width * 2 + 1)
                       (Z.of_nat i * 2 + 1, (Z.of_nat k - 1) * 2 + 1))
        by (apply gridCell_cell; lia).
      apply (balanced_grow 1 width height m
               (Z.of_nat i * 2 + 1, (Z.of_nat k - 1) * 2 + 1) (0, 1) m1 m2);
        unfold move; cbn [fst snd].
      - apply Hperf. lia.
      - exact Hcur.
      - unfold directions. rewrite !elem_of_cons. tauto.
      - by replace ((Z.of_nat k - 1) * 2 + 1 + 1 + 1) with (Z.of_nat k * 2 + 1)
          by lia; replace (Z.of_nat i * 2 + 1 + 0 + 0)
          with (Z.of_nat i * 2 + 1) by lia.
      - apply Hdone; lia.
      - replace ((Z.of_nat k - 1) * 2 + 1 + 1 + 1) with (Z.of_nat k * 2 + 1)
          by lia; replace (Z.of_nat i * 2 + 1 + 0 + 0)
          with (Z.of_nat i * 2 + 1) by lia.
        apply Hahead; lia.
      - right.
        replace ((Z.of_nat k - 1) * 2 + 1 + 1 + 1) with (Z.of_nat k * 2 + 1)
          by lia.
        replace ((Z.of_nat k - 1) * 2 + 1 + 1) with (Z.of_nat k * 2 + 1 - 1)
          by lia.
        replace (Z.of_nat i * 2 + 1 + 0 + 0) with (Z.of_nat i * 2 + 1) by lia.
        replace (Z.of_nat i * 2 + 1 + 0) with (Z.of_nat i * 2 + 1) by lia.
        done. }
    destruct (Z.gtb_spec (Z.of_nat i * 2 + 1) 1) as [Er|Er],
             (Z.gtb_spec (Z.of_nat k * 2 + 1) 1) as [Ec|Ec]; simpl in H;
      try destruct (randomCoin rnd) as [[] ?];
      inv_outcome; subst st'; simpl;
      try (apply Hup; [lia | assumption]);
      try (apply Hleft; [lia | assumption]);
      (assert (i = O) as -> by lia); (assert (k = O) as -> by lia);
      rewrite Hnew in H1 by done;
      by apply (perfect_first width height
                  (Z.of_nat 0 * 2 + 1, Z.of_nat 0 * 2 + 1)).
  - apply binaryTree_cell_carved in Hcell as [Hc Hkeep].
    intros r c Hcw [Hr|[-> Hck]].
    + apply Hkeep, Hdone; [done | by left].
    + destruct (decide (c = Z.of_nat k)) as [->|Hne]; [done|].
      apply Hkeep, Hdone; [done | right; lia].
  - intros r c Hc Hr Hpos.
    assert (Hsame : cellAt st'.1 (r * 2 + 1) (c * 2 + 1)
                    = cellAt st.1 (r * 2 + 1) (c * 2 + 1)).
    { revert Hcell. destruct st as [m rnd]. unfold carveCell.
      intros H. apply bind_Returned in H as (m1 & H1 & H).
      cbn [fst].
      assert (H0 : cellAt m1 (r * 2 + 1) (c * 2 + 1)
                   = cellAt m (r * 2 + 1) (c * 2 + 1)).
      { rewrite (cellAt_setCell _ _ _ _ _ _ _ H1).
        by rewrite bool_decide_eq_false_2 by lia. }
      rewrite <- H0.
      destruct (Z.of_nat i * 2 + 1 >? 1), (Z.of_nat k * 2 + 1 >? 1);
        simpl in H;
        try destruct (randomCoin rnd) as [[] ?];
        inv_outcome; subst st'; simpl; try done;
        match goal with
        | Hs : setCell m1 _ _ Path = Returned _ |- _ =>
            rewrite (cellAt_setCell _ _ _ _ _ _ _ Hs);
            by rewrite bool_decide_eq_false_2 by lia
        end. }
    rewrite Hsame. apply Hahead; [done | done | lia].
Qed.

Lemma binaryTree_row_perfect width height i st st' :
  1 <= width -> Z.of_nat i < height ->
  Inv width height i O st ->
  carveRow width st (Z.of_nat i * 2 + 1) = Returned st' ->
  Inv width height (S i) O st'.
Proof.
  intros Hw Hi Hinv Hrow. unfold carveRow in Hrow.
  apply (foldM_counted _ (Inv width height i)) in Hrow; [| |done].
  - pose proof (oddIndices_length width ltac:(lia)) as Hlen.
    destruct Hrow as [Hnew Hperf Hdone Hahead]. split.
    + done.
    + intros _. apply Hperf. right. lia.
    + intros r c Hc Hr. apply Hdone; [done|]. lia.
    + intros r c Hc Hr Hpos. apply Hahead; [done | done | lia].
  - intros k a b b' Ha Hb Hcell.
    apply oddIndices_lookup in Ha as [-> Hk].
    by apply (binaryTree_cell_perfect width height i k b b').
Qed.

End BinaryTreePerfect.

Lemma binaryTree_balanced width height rnd maze :
  1 <= width -> 1 <= height ->
  generateBinaryTreeMaze width height rnd = Returned maze ->
  exists maze2,
    Balanced 1 width height maze2 /\
    openEnds (height * 2 + 1) (width * 2 + 1) maze2 = Returned maze.
Proof.
  intros Hw Hh Hgen.
  revert Hgen. unfold generateBinaryTreeMaze. cbv zeta. intros H.
  apply bind_Returned in H as ([m rnd'] & Hfold & H).
  exists m. split; [|done].
  apply (foldM_counted _ (fun i => BinaryTreePerfect.Inv width height i O))
    in Hfold.
  - pose proof (oddIndices_length height ltac:(lia)) as Hlen.
    apply Hfold. left. lia.
  - intros i a b b' Ha Hb Hrow.
    apply oddIndices_lookup in Ha as [-> Hi].
    by apply (BinaryTreePerfect.binaryTree_row_perfect width height i b b').
  - split; cbn [fst].
    + done.
    + intros [?|?]; done.
    + intros r c Hc [?|[? ?]]; lia.
    + intros r c Hc Hr _. rewrite cellAt_newGrid by lia. discriminate.
Qed.

Lemma binaryTree_perfect width height rnd maze :
  1 <= width -> 1 <= height ->
  generateBinaryTreeMaze width height rnd = Returned maze ->
  size (paths (height * 2 + 1) (width * 2 + 1) maze)
  = (2 * (Z.to_nat height * Z.to_nat width) + 1)%nat.
Proof.
  intros Hw Hh Hgen.
  pose proof (binaryTree_allCarved _ _ _ _ Hgen) as Hall.
  destruct (binaryTree_balanced _ _ _ _ Hw Hh Hgen) as (maze2 & Hbal & H).
  by apply (perfect_whole width height maze2 maze).
Qed.

Lemma binaryTree_unique width height rnd maze :
  1 <= width -> 1 <= height ->
  generateBinaryTreeMaze width height rnd = Returned maze ->
  Unique maze (height * 2 + 1) (width * 2 + 1).
Proof.
  intros Hw Hh Hgen.
  destruct (binaryTree_balanced _ _ _ _ Hw Hh Hgen) as (maze2 & Hbal & H).
  by apply (unique_openEnds width height maze2 maze).
Qed.

(** *** Wilson's algorithm *)

Module WilsonPerfect.
Import Wilson.

(** The cell the walk starts from is not visited. *)
Lemma pick_fresh width height visited fuel rnd p :
  loop (pickStep width height visited) fuel rnd = Returned p ->
  p.1 ∉ visited.
Proof.
  revert p. apply (loop_invariant _ (fun _ => True)); [done | | done].
  intros rnd0 p _. unfold pickStep.
  destruct (randomIndex (Z.to_nat height) rnd0) as [i rnd1].
  destruct (randomIndex (Z.to_nat width) rnd1) as [j rnd2].
  case_bool_decide; [done|]. by intros [= <-].
Qed.

(** The walk has no cell twice, and only its last cell can be visited. *)
Record Erased (visited : gset Coord) (w : Walk) : Prop := {
  erased_nodup : NoDup (walk w);
  erased_seen : forall p, p ∈ walk w -> p ∈ pathVisited w;
  erased_fresh : forall p, p ∈ walk w -> p ∉ visited \/ p = current w
}.

Lemma walkStep_erased gh gw startCell visited w w' :
  WilsonLinks.Walking gh gw startCell w -> Erased visited w ->
  walkStep gh gw visited w = inl w' -> Erased visited w'.
Proof.
  intros [_ _ _ _ Hseen] [Hnd Hin Hfresh]. unfold walkStep.
  case_bool_decide as Hcur; [done|].
  assert (Hall : forall p, p ∈ walk w -> p ∉ visited).
  { intros p Hp. destruct (Hfresh p Hp) as [?| ->]; done. }
  destruct (randomIndex (length cellDirections) (rnd w)) as [k rnd1].
  destruct (cellDirections !! k) as [d|]; [|done].
  destruct (isGridCell _ _ _ _).
  2:{ intros [= <-]. by split. }
  case_bool_decide as Hnext; intros [= <-]; split;
    cbn [walk current pathVisited].
  - rewrite <- (take_drop (Z.to_nat (findIndex (move (current w) d) (walk w)
                                     + 1)) (walk w)) in Hnd.
    by apply NoDup_app in Hnd as (? & _ & _).
  - intros p Hp. apply elem_of_difference. split.
    + apply Hin. by apply (subseteq_take _ _ _ Hp).
    + rewrite elem_of_list_to_set.
      rewrite <- (take_drop (Z.to_nat (findIndex (move (current w) d) (walk w)
                                       + 1)) (walk w)) in Hnd.
      apply NoDup_app in Hnd as (_ & Hdis & _). by apply Hdis.
  - intros p Hp. left. apply Hall. by apply (subseteq_take _ _ _ Hp).
  - apply NoDup_app. split_and!; [done | | apply NoDup_singleton].
    intros p Hp Hp'. apply list_elem_of_singleton in Hp' as ->.
    by apply Hnext, Hin.
  - intros p Hp. apply elem_of_union.
    apply elem_of_app in Hp as [Hp|Hp]; [right; by apply Hin|].
    left. apply list_elem_of_singleton in Hp as ->. by apply elem_of_singleton.
  - intros p Hp. apply elem_of_app in Hp as [Hp|Hp]; [left; by apply Hall|].
    right. by apply list_elem_of_singleton in Hp.
Qed.

(** What is joined to a cell just carved next to [cur]: the passage to it
    and what was joined to [cur]. *)
Lemma grown_apart n width height maze cur d m1 m2 x :
  Balanced n width height maze ->
  GridCell (height * 2 + 1) (width * 2 + 1) cur -> d ∈ directions ->
  GridCell (height * 2 + 1) (width * 2 + 1) (move (move cur d) d) ->
  cellAt maze (move (move cur d) d).1 (move (move cur d) d).2 <> Some Path ->
  setCell maze (move (move cur d) d).1 (move (move cur d) d).2 Path
  = Returned m1 ->
  setCell m1 (move cur d).1 (move cur d).2 Path = Returned m2 ->
  linked m2 (height * 2 + 1) (width * 2 + 1) (move (move cur d) d) x ->
  x = move (move cur d) d \/ x = move cur d \/
  linked maze (height * 2 + 1) (width * 2 + 1) cur x.
Proof.
  intros [Hs Hseal Hpass Hpil _ _] Hcur Hd Hnext Hfresh H1 H2 [l Hl].
  assert (Hs1 : Shaped (height * 2 + 1) (width * 2 + 1) m1)
    by (by eapply shaped_carving).
  apply (Walk_closed m2 (height * 2 + 1) (width * 2 + 1)
           (fun x => x = move (move cur d) d \/ x = move cur d \/
                     linked maze (height * 2 + 1) (width * 2 + 1) cur x)
           (move (move cur d) d) l x); [|exact Hl|by left].
  intros y e Hy He Hp.
  apply (opened_at _ _ _ _ _ Hs1 H2) in Hp as [Hp|Hp]; [by right; left|].
  apply (opened_at _ _ _ _ _ Hs H1) in Hp as [Hp|Hp]; [by left|].
  destruct Hy as [->|[->|Hy]].
  - by rewrite (cell_closed width height maze Hseal Hpass
                  (move (move cur d) d) e) in Hp.
  - destruct (wall_open_sides width height maze Hpil cur d e Hcur Hd He Hp)
      as [->| ->]; [right; right; apply linked_refl | by left].
  - right; right. by apply linked_move.
Qed.

(** Carving the walk from the cell [q] carved last, in a grid where the
    cells of the walk carved so far make a part of their own: the last
    cell of the walk, carved before, joins the two parts. *)
Lemma carveWalk_balanced width height (Old : Coord -> Prop) cells :
  forall q m v m' v',
    carveWalk (Some q) cells (m, v) = Returned (m', v') ->
    Balanced 2 width height m ->
    chain (height * 2 + 1) (width * 2 + 1) (q :: cells) ->
    NoDup (q :: cells) ->
    Forall (GridCell (height * 2 + 1) (width * 2 + 1)) cells ->
    cellAt m q.1 q.2 = Some Path ->
    (exists t, last cells = Some t /\ cellAt m t.1 t.2 = Some Path /\
               forall p, p ∈ cells -> p <> t ->
                         cellAt m p.1 p.2 <> Some Path) ->
    (forall d, d ∈ directions ->
               cellAt m (move q d).1 (move q d).2 = Some Path ->
               move (move q d) d ∉ cells) ->
    (forall x, Old x -> cellAt m x.1 x.2 = Some Path) ->
    (forall t, last cells = Some t -> Old t) ->
    (forall x, linked m (height * 2 + 1) (width * 2 + 1) q x -> ~ Old x) ->
    Balanced 1 width height m'.
Proof.
  induction cells as [|p rest IH];
    intros q m v m' v' H Hbal Hch Hnd Hcells Hq (t & Hlast & Ht & Hnew) Hside
      Hop Hot Hcomp;
    [done|].
  cbn [carveWalk] in H.
  apply bind_Returned in H as (m1 & H1 & H).
  apply bind_Returned in H as (m2 & H2 & H).
  destruct (Hch 0%nat q p eq_refl eq_refl) as [Hqc (e & He & Ep)].
  pose proof (midpoint q e) as Hmid. rewrite <- Ep in Hmid.
  apply (f_equal fst) in Hmid as Hmid1. apply (f_equal snd) in Hmid as Hmid2.
  cbn [fst snd] in Hmid1, Hmid2. rewrite Hmid1, Hmid2 in H2.
  apply NoDup_cons in Hnd as [Hqn Hnd].
  apply Forall_cons in Hcells as [Hpc Hcells].
  assert (Hnw : ~ GridCell (height * 2 + 1) (width * 2 + 1) (move q e))
    by (by apply PrimsCells.wall_not_cell).
  pose proof (carve_two _ _ _ _ _ _ _ H1 H2) as (Hk & Hp2 & _ & Honly).
  destruct rest as [|p' rest'].
  - (* the cell carved before *)
    simpl in H. injection H as <- _.
    pose proof (Hot t Hlast) as Holdt. injection Hlast as <-.
    pose proof (setCell_path _ _ _ _ H1) as [_ Hk1].
    apply (balanced_join 1 width height m1 q e m2); try done.
    + by apply (balanced_again 2 width height m p.1 p.2).
    + by rewrite <- Ep.
    + by apply Hk1.
    + rewrite <- Ep. by apply (setCell_path _ _ _ _ H1).
    + rewrite (cellAt_setCell _ _ _ _ _ _ _ H1).
      case_bool_decide as E.
      * exfalso. apply Hnw. destruct E as [E1 E2].
        by rewrite (surjective_pairing (move q e)), E1, E2,
          <- surjective_pairing.
      * intros Hw. apply (Hside e He Hw). rewrite <- Ep.
        by apply list_elem_of_singleton.
    + rewrite <- Ep. intros Hl. apply (Hcomp p); [|done].
      eapply linked_keeps; [|exact Hl]. intros x Hx.
      apply (opened_at _ _ _ _ _ (balanced_shaped _ _ _ _ Hbal) H1) in Hx
        as [->|Hx]; [|done].
      apply shaped_passable; [apply Hbal | done].
  - (* a new cell *)
    rewrite last_cons_cons in Hlast.
    assert (Htin : t ∈ p' :: rest').
    { rewrite last_lookup in Hlast. by apply list_elem_of_lookup_2 in Hlast. }
    apply NoDup_cons in Hnd as Hnd'. destruct Hnd' as [Hpn _].
    assert (Hpt : p <> t) by (by intros ->).
    assert (Hpw : cellAt m p.1 p.2 <> Some Path).
    { apply Hnew; [by apply elem_of_cons; left | done]. }
    assert (Hbal2 : Balanced 2 width height m2).
    { apply (balanced_grow 2 width height m q e m1 m2); try done.
      - by rewrite <- Ep.
      - by rewrite <- Ep.
      - right. by rewrite <- Ep. }
    apply (IH p m2 _ m' v' H Hbal2).
    + by eapply chain_tail.
    + done.
    + done.
    + done.
    + exists t. split_and!; [done | by apply Hk |].
      intros x Hx Hxt Hpath.
      destruct (Honly _ _ Hpath) as [Hold|[E|E]].
      * apply (Hnew x); [by apply elem_of_cons; right | done | done].
      * apply Hpn.
        by rewrite (surjective_pairing p), <- E, <- surjective_pairing.
      * apply Hnw.
        rewrite (surjective_pairing (move q e)), <- E, <- surjective_pairing.
        by apply (proj1 (Forall_forall _ _) Hcells).
    + intros d Hd Hpath Hin.
      assert (Hy : GridCell (height * 2 + 1) (width * 2 + 1)
                     (move (move p d) d))
        by (by apply (proj1 (Forall_forall _ _) Hcells)).
      destruct (Honly _ _ Hpath) as [Hold|[E|E]].
      * by destruct (balanced_passage _ _ _ _ Hbal p d Hpc Hd Hy Hold).
      * apply (PrimsCells.wall_not_cell _ _ p d Hpc Hd).
        by rewrite (surjective_pairing (move p d)), E, <- surjective_pairing.
      * assert (Hmv : move p d = move q e).
        { by rewrite (surjective_pairing (move p d)), E,
            <- surjective_pairing. }
        destruct (wall_sides _ _ q e p d Hqc He Hpc Hd Hmv)
          as [[E1 _]|[_ ->]].
        -- apply Hqn. rewrite <- E1. by apply elem_of_cons; left.
        -- apply Hqn. apply elem_of_cons; right.
           by rewrite Ep, !move_opposite in Hin.
    + intros x Hx. by apply Hk, Hop.
    + intros t' Ht'. apply Hot. by rewrite last_cons_cons.
    + intros x Hx Hox.
      rewrite Ep in H1, Hx, Hpw, Hpc.
      destruct (grown_apart 2 width height m q e m1 m2 x Hbal Hqc He
                  Hpc Hpw H1 H2 Hx) as [->|[->|Hlx]].
      * by apply Hpw, Hop.
      * apply Hop in Hox.
        by destruct (balanced_passage _ _ _ _ Hbal q e Hqc He Hpc Hox).
      * by apply (Hcomp x).
Qed.

Record Inv (width height : Z) (st : State) : Prop := {
  inv_cells : WilsonCells.Inv width height st;
  inv_balanced : Balanced 1 width height (maze st);
  inv_visited : forall p,
    GridCell (height * 2 + 1) (width * 2 + 1) p ->
    cellAt (maze st) p.1 p.2 = Some Path -> p ∈ visitedCells st
}.

Lemma wilson_step_perfect fuel width height st st' :
  1 <= width -> 1 <= height ->
  Inv width height st ->
  step fuel width height (height * 2 + 1) (width * 2 + 1) st = inl st' ->
  Inv width height st'.
Proof.
  intros Hw Hh [Hcells Hbal Hvis] Hstep.
  pose proof (WilsonCells.wilson_step_cells _ _ _ _ _ Hw Hh Hcells Hstep)
    as Hcells'.
  revert Hstep. unfold step.
  destruct (_ <? _); [|done].
  destruct (loop (pickStep _ _ _) _ _) as [[startCell rnd1]| |] eqn:Epick;
    try done.
  destruct (loop (walkStep _ _ _) _ _) as [w| |] eqn:Ewalk; try done.
  destruct (carveWalk None (walk w) _) as [[maze' visited']| |] eqn:Ec;
    try done.
  intros [= <-]. cbn [maze visitedCells] in *.
  pose proof (pick_fresh _ _ _ _ _ _ Epick) as Hfresh. simpl in Hfresh.
  apply WilsonCells.pick_cell in Epick; [|done..]. simpl in Epick.
  pose proof (WilsonCells.walk_cells width height _ _
                (mkWalk [startCell] {[startCell]} startCell rnd1) _
                (proj2 (Forall_singleton
                          (fun p => p ∈ gridCells width height) startCell)
                   Epick) Ewalk) as Hgrid.
  cbn [walk] in Hgrid.
  apply WilsonLinks.gridCells_GridCell in Epick.
  set (gh := height * 2 + 1) in *. set (gw := width * 2 + 1) in *.
  assert (Hend : forall w0,
            loop (walkStep gh gw (visitedCells st)) fuel
              (mkWalk [startCell] {[startCell]} startCell rnd1) = Returned w0 ->
            (WilsonLinks.Walking gh gw startCell w0 /\
             Erased (visitedCells st) w0) /\
            current w0 ∈ visitedCells st).
  { apply (loop_invariant _
             (fun w0 => WilsonLinks.Walking gh gw startCell w0 /\
                        Erased (visitedCells st) w0)).
    - intros w0 w1 [Hw0 He0] Hs. split.
      + by eapply WilsonLinks.walkStep_walking.
      + by eapply walkStep_erased.
    - intros w0 w1 Hw0. unfold walkStep.
      case_bool_decide; [by intros [= <-]|].
      destruct (randomIndex _ _) as [k rnd2].
      destruct (cellDirections !! k) as [d|]; [|done].
      destruct (isGridCell _ _ _ _); [|done]. by case_bool_decide.
    - split; split; cbn [walk current pathVisited]; try done.
      + by exists [].
      + intros p Hp. apply elem_of_singleton in Hp as ->.
        by apply list_elem_of_singleton.
      + apply NoDup_singleton.
      + intros p Hp. apply list_elem_of_singleton in Hp as ->.
        by apply elem_of_singleton.
      + intros p Hp. right. by apply list_elem_of_singleton in Hp. }
  destruct (Hend w Ewalk)
    as [[[[rest Hhead] Hchain Hlast Hcell _] [Hnd _ Hnew]] Hstop].
  clear Hend.
  rewrite Hhead in Ec, Hchain, Hlast, Hnd, Hnew, Hgrid.
  cbn [carveWalk] in Ec.
  apply bind_Returned in Ec as (m1 & H1 & Ec). simpl in Ec.
  pose proof (setCell_path _ _ _ _ H1) as [Hp1 Hk1].
  assert (Hsw : cellAt (maze st) startCell.1 startCell.2 <> Some Path).
  { intros E. by apply Hfresh, Hvis. }
  assert (Hbal1 : Balanced 2 width height m1)
    by (by apply (balanced_alone 1 width height (maze st) startCell)).
  assert (Hcg : Forall (GridCell gh gw) rest).
  { apply Forall_cons in Hgrid as [_ Hgrid].
    eapply Forall_impl; [exact Hgrid|].
    intros p. apply WilsonLinks.gridCells_GridCell. }
  assert (Hrest : last rest = Some (current w)).
  { apply (last_cons_Some_ne startCell); [|done].
    intros E. apply Hfresh. by rewrite E. }
  assert (Hold : forall r c, cellAt m1 r c = Some Path ->
                             (r, c) <> startCell ->
                             cellAt (maze st) r c = Some Path).
  { intros r c. rewrite (cellAt_setCell _ _ _ _ _ _ _ H1).
    case_bool_decide as E; [|done]. intros _ Hne. exfalso. apply Hne.
    destruct E as [-> ->]. by destruct startCell. }
  split; cbn [maze visitedCells].
  - done.
  - apply (carveWalk_balanced width height
             (fun x => cellAt (maze st) x.1 x.2 = Some Path)
             rest startCell m1 _ maze' visited'
             Ec Hbal1 Hchain Hnd Hcg Hp1).
    3:{ intros x Hx. by apply Hk1. }
    3:{ intros t Ht. rewrite Hrest in Ht. injection Ht as <-.
        by apply Hcells. }
    3:{ intros x Hx Hox.
        assert (Hxs : x = startCell).
        { apply (linked_closed m1 gh gw).
          - intros d Hd.
            destruct (passable m1 gh gw (move startCell d)) eqn:Hpd; [|done].
            apply (opened_at _ _ _ _ _ (balanced_shaped _ _ _ _ Hbal) H1)
              in Hpd as [E|Hpd]; [by apply move_ne in E|].
            by rewrite (cell_closed width height (maze st)
                          (balanced_sealed _ _ _ _ Hbal)
                          (balanced_passage _ _ _ _ Hbal) startCell d) in Hpd.
          - eapply linked_passable; [|exact Hx].
            apply shaped_passable; [apply Hbal1 | done].
          - apply linked_sym; [|done].
            apply shaped_passable; [apply Hbal1 | done]. }
        by rewrite Hxs in Hox. }
    + exists (current w). split_and!; [done | |].
      * apply Hk1. by apply Hcells.
      * intros p Hp Hne Hpath.
        assert (Hpg : GridCell gh gw p)
          by (by apply (proj1 (Forall_forall _ _) Hcg)).
        destruct (Hnew p) as [Hno|]; [by apply elem_of_cons; right | | done].
        apply Hno, Hvis; [done|]. apply Hold.
        -- done.
        -- rewrite <- surjective_pairing. intros ->.
           by apply NoDup_cons in Hnd as [? _].
    + intros d Hd Hpath Hin.
      assert (Hy : GridCell gh gw (move (move startCell d) d))
        by (by apply (proj1 (Forall_forall _ _) Hcg)).
      apply Hsw.
      apply (balanced_passage _ _ _ _ Hbal startCell d Epick Hd Hy).
      apply Hold; [done|]. rewrite <- surjective_pairing. intros E.
      apply (PrimsCells.wall_not_cell gh gw startCell d Epick Hd).
      by rewrite E.
  - intros p Hp Hpath.
    assert (Hs1 : Shaped gh gw m1)
      by (eapply shaped_carving; [apply Hbal|done]).
    pose proof (WilsonLinks.carveWalk_links gh gw rest _ _ _ _ _ Ec Hs1 Hchain)
      as [_ Honly].
    pose proof (WilsonCells.carveWalk_cells _ _ _ _ Ec) as (_ & _ & Hv).
    cbn [fst snd] in Hv. apply Hv.
    destruct (Honly p Hp Hpath) as [Hm1|Hin]; [|by left].
    right. apply elem_of_union.
    destruct (decide (p = startCell)) as [->|Hne];
      [left; by apply elem_of_singleton|].
    right. apply Hvis; [done|]. apply Hold; by rewrite <- ?surjective_pairing.
Qed.

Lemma wilson_exit_perfect fuel width height st maze' :
  Inv width height st ->
  step fuel width height (height * 2 + 1) (width * 2 + 1) st
  = inr (Returned maze') ->
  Balanced 1 width height maze'.
Proof.
  intros [_ Hbal _]. unfold step.
  destruct (_ <? _); [|by intros [= <-]].
  destruct (loop (pickStep _ _ _) _ _) as [[startCell rnd1]| |]; try done.
  destruct (loop (walkStep _ _ _) _ _) as [w| |]; try done.
  by destruct (carveWalk None (walk w) _) as [[? ?]| |].
Qed.

End WilsonPerfect.

Lemma wilson_balanced fuel width height rnd maze :
  1 <= width -> 1 <= height ->
  generateWilsonsMaze fuel width height rnd = Returned maze ->
  exists maze2,
    Balanced 1 width height maze2 /\
    openEnds (height * 2 + 1) (width * 2 + 1) maze2 = Returned maze.
Proof.
  intros Hw Hh Hgen.
  revert Hgen. unfold generateWilsonsMaze. cbv zeta.
  pose proof (randomIndex_lt (Z.to_nat height) rnd ltac:(lia)) as Hi.
  destruct (randomIndex (Z.to_nat height) rnd) as [i rnd1].
  pose proof (randomIndex_lt (Z.to_nat width) rnd1 ltac:(lia)) as Hj.
  destruct (randomIndex (Z.to_nat width) rnd1) as [j rnd2].
  simpl in Hi, Hj.
  intros H. apply bind_Returned in H as (maze1 & Hset & H).
  apply bind_Returned in H as (maze2 & Hloop & H).
  exists maze2. split; [|done]. clear H.
  revert maze2 Hloop.
  apply (loop_invariant _ (WilsonPerfect.Inv width height)).
  - intros s s'. by apply WilsonPerfect.wilson_step_perfect.
  - intros s r. apply WilsonPerfect.wilson_exit_perfect.
  - pose proof (setCell_path _ _ _ _ Hset) as [Hc _].
    split; cbn [Wilson.maze Wilson.visitedCells].
    + split; cbn [Wilson.maze Wilson.visitedCells].
      * intros p Hp. apply elem_of_singleton in Hp as ->.
        apply elem_of_gridCells. exists (Z.of_nat i, Z.of_nat j).
        split; [done|]. apply elem_of_universe. simpl. lia.
      * intros p Hp. by apply elem_of_singleton in Hp as ->.
    + apply (perfect_first width height
               (cellToGrid (Z.of_nat i, Z.of_nat j))); [|exact Hset].
      apply (gridCell_cell width height (Z.of_nat i) (Z.of_nat j)); lia.
    + intros [pr pc] (Hr & Hc' & _).
      rewrite (cellAt_setCell _ _ _ _ _ _ _ Hset).
      cbn [fst snd] in *. case_bool_decide as E.
      * intros _. apply elem_of_singleton. by destruct E as [-> ->].
      * rewrite cellAt_newGrid by lia. discriminate.
Qed.

Lemma wilson_perfect fuel width height rnd maze :
  1 <= width -> 1 <= height ->
  generateWilsonsMaze fuel width height rnd = Returned maze ->
  size (paths (height * 2 + 1) (width * 2 + 1) maze)
  = (2 * (Z.to_nat height * Z.to_nat width) + 1)%nat.
Proof.
  intros Hw Hh Hgen.
  pose proof (wilson_allCarved _ _ _ _ _ Hw Hh Hgen) as Hall.
  destruct (wilson_balanced _ _ _ _ _ Hw Hh Hgen) as (maze2 & Hbal & H).
  by apply (perfect_whole width height maze2 maze).
Qed.

Lemma wilson_unique fuel width height rnd maze :
  1 <= width -> 1 <= height ->
  generateWilsonsMaze fuel width height rnd = Returned maze ->
  Unique maze (height * 2 + 1) (width * 2 + 1).
Proof.
  intros Hw Hh Hgen.
  destruct (wilson_balanced _ _ _ _ _ Hw Hh Hgen) as (maze2 & Hbal & H).
  by apply (unique_openEnds width height maze2 maze).
Qed.

(** *** Randomized Kruskal *)

(** What a passage opened between the cells [a] and [b] joins: what was
    joined, and what was joined to [a] with what was joined to [b]. *)
Lemma joined_apart width height maze a d maze' x y :
  Shaped (height * 2 + 1) (width * 2 + 1) maze ->
  (forall r c, Z.rem r 2 = 0 -> Z.rem c 2 = 0 ->
               cellAt maze r c <> Some Path) ->
  GridCell (height * 2 + 1) (width * 2 + 1) a -> d ∈ directions ->
  passable maze (height * 2 + 1) (width * 2 + 1) a = true ->
  passable maze (height * 2 + 1) (width * 2 + 1) (move (move a d) d) = true ->
  setCell maze (move a d).1 (move a d).2 Path = Returned maze' ->
  passable maze (height * 2 + 1) (width * 2 + 1) x = true ->
  linked maze' (height * 2 + 1) (width * 2 + 1) x y ->
  (y = move a d /\
   (linked maze (height * 2 + 1) (width * 2 + 1) x a \/
    linked maze (height * 2 + 1) (width * 2 + 1) x (move (move a d) d))) \/
  linked maze (height * 2 + 1) (width * 2 + 1) x y \/
  (linked maze (height * 2 + 1) (width * 2 + 1) x a /\
   linked maze (height * 2 + 1) (width * 2 + 1) (move (move a d) d) y) \/
  (linked maze (height * 2 + 1) (width * 2 + 1) x (move (move a d) d) /\
   linked maze (height * 2 + 1) (width * 2 + 1) a y).
Proof.
  intros Hs Hpil Ha Hd Hpa Hpb H Hx [l Hl].
  set (gh := height * 2 + 1) in *. set (gw := width * 2 + 1) in *.
  set (b := move (move a d) d) in *.
  apply (Walk_closed maze' gh gw
           (fun y => (y = move a d /\ (linked maze gh gw x a \/
                                       linked maze gh gw x b)) \/
                     linked maze gh gw x y \/
                     (linked maze gh gw x a /\ linked maze gh gw b y) \/
                     (linked maze gh gw x b /\ linked maze gh gw a y))
           x l y); [|exact Hl|right; left; apply linked_refl].
  intros z e Hz He Hp.
  assert (Hside : forall e', e' ∈ directions ->
            passable maze gh gw (move (move a d) e') = true ->
            move (move a d) e' = a \/ move (move a d) e' = b).
  { intros e' He' Hp'.
    by apply (wall_open_sides width height maze Hpil a d e'). }
  apply (opened_at _ _ _ _ _ Hs H) in Hp as [Hp|Hp].
  - (* onto the passage *)
    left. split; [done|].
    assert (Ez : z = move (move a d) (opposite e))
      by (by rewrite <- Hp, move_opposite).
    assert (Hzp : passable maze gh gw z = true).
    { destruct Hz as [[-> _]|[Hz|[[_ Hz]|[_ Hz]]]].
      - by apply move_ne in Hp.
      - by apply (linked_passable _ _ _ x).
      - by apply (linked_passable _ _ _ b).
      - by apply (linked_passable _ _ _ a). }
    rewrite Ez in Hzp.
    destruct (Hside _ (opposite_direction _ He) Hzp) as [E|E];
      rewrite <- Ez in E.
    + destruct Hz as [[Hz _]|[Hz|[[Hz _]|[Hz _]]]].
      * exfalso. apply (PrimsCells.wall_not_cell gh gw a d Ha Hd).
        by rewrite <- Hz, E.
      * left. by rewrite <- E.
      * by left.
      * by right.
    + destruct Hz as [[Hz _]|[Hz|[[Hz _]|[Hz _]]]].
      * exfalso. rewrite E in Hz. by apply move_ne in Hz.
      * right. by rewrite <- E.
      * by left.
      * by right.
  - destruct Hz as [[-> Hz]|[Hz|[[Hz1 Hz2]|[Hz1 Hz2]]]].
    + destruct (Hside e He Hp) as [->| ->].
      * destruct Hz as [Hz|Hz]; [by right; left|].
        right; right; right. split; [done | apply linked_refl].
      * destruct Hz as [Hz|Hz]; [|by right; left].
        right; right; left. split; [done | apply linked_refl].
    + right; left. by apply linked_move.
    + right; right; left. split; [done | by apply linked_move].
    + right; right; right. split; [done | by apply linked_move].
Qed.

Module KruskalPerfect.
Import Kruskal.

(** Following the parents from [i] ends at the root [r]. *)
Inductive Reaches (parent : list Z) : Z -> Z -> Prop :=
  | reaches_root r :
      0 <= r -> parent !! Z.to_nat r = Some r -> Reaches parent r r
  | reaches_step i p r :
      0 <= i -> parent !! Z.to_nat i = Some p -> p <> i ->
      Reaches parent p r -> Reaches parent i r.

Lemma reaches_is_root parent i r :
  Reaches parent i r -> 0 <= r /\ parent !! Z.to_nat r = Some r.
Proof. induction 1; auto. Qed.

Lemma reaches_unique parent i r r' :
  Reaches parent i r -> Reaches parent i r' -> r = r'.
Proof.
  intros H. revert r'. induction H as [r Hr Hp|i p r Hi Hp Hne H IH];
    intros r' H'; inversion H' as [? ? Hp'|? p' ? ? Hp' Hne' H'']; subst.
  - done.
  - congruence.
  - congruence.
  - apply IH. congruence.
Qed.

(** What path compression keeps: where every index ends, and which indices
    are roots. *)
Definition Keeps (parent parent' : list Z) : Prop :=
  (forall x r, Reaches parent x r -> Reaches parent' x r) /\
  (forall x, 0 <= x -> parent' !! Z.to_nat x = Some x ->
             parent !! Z.to_nat x = Some x) /\
  length parent' = length parent.

Lemma keeps_refl parent : Keeps parent parent.
Proof. by split_and!. Qed.

Lemma keeps_trans p1 p2 p3 : Keeps p1 p2 -> Keeps p2 p3 -> Keeps p1 p3.
Proof.
  intros (Ha & Hb & Hc) (Ha' & Hb' & Hc'). split_and!; [auto | auto | lia].
Qed.

Lemma reaches_compress parent i root :
  0 <= i -> Reaches parent i root -> parent !! Z.to_nat i <> Some i ->
  forall x r, Reaches parent x r ->
              Reaches (<[Z.to_nat i := root]> parent) x r.
Proof.
  intros Hi Hroot Hnot x0 r1 H.
  destruct (reaches_is_root _ _ _ Hroot) as [Hr0 Hr].
  assert (Hne : root <> i) by (intros ->; done).
  assert (Hrr : Reaches (<[Z.to_nat i := root]> parent) root root).
  { apply reaches_root; [done|].
    rewrite list_lookup_insert_ne by lia. done. }
  induction H as [r Hr' Hp|x p r Hx Hp Hpx H IH].
  - apply reaches_root; [done|].
    rewrite list_lookup_insert_ne; [done|]. intros E.
    assert (r = i) as -> by lia. done.
  - destruct (decide (x = i)) as [->|Hxi].
    + assert (r = root) as ->.
      { eapply reaches_unique; [|exact Hroot]. by eapply reaches_step. }
      apply (reaches_step _ i root root); [done | | done | done].
      apply list_lookup_insert_Some. left. split_and!; [done | done |].
      by apply lookup_lt_Some in Hp.
    + apply (reaches_step _ x p r); [done | | done | done].
      rewrite list_lookup_insert_ne by lia. done.
Qed.

Lemma findSet_reaches fuel :
  forall parent i root parent',
    findSetByIndex fuel parent i = Returned (root, parent') ->
    Reaches parent i root /\ Keeps parent parent'.
Proof.
  induction fuel as [|n IH]; intros parent i root parent' H; [done|].
  cbn [findSetByIndex] in H.
  destruct (i <? 0) eqn:Ei; [done|]. apply Z.ltb_ge in Ei.
  destruct (parent !! Z.to_nat i) as [p|] eqn:Ep; [|done].
  destruct (p =? i) eqn:Epi.
  - apply Z.eqb_eq in Epi as ->. injection H as <- <-.
    split; [by apply reaches_root | apply keeps_refl].
  - apply Z.eqb_neq in Epi.
    apply bind_Returned in H as ([root0 parent0] & Hrec & H).
    injection H as <- <-.
    destruct (IH _ _ _ _ Hrec) as (Hreach & Hk1 & Hk2 & Hk3).
    assert (Hnot : parent0 !! Z.to_nat i <> Some i).
    { intros E. apply Hk2 in E; [|done]. congruence. }
    assert (Hi0 : Reaches parent0 i root0).
    { apply Hk1. by eapply reaches_step. }
    split; [by eapply reaches_step|]. split_and!.
    + intros x r Hx. apply reaches_compress; auto.
    + intros x Hx Hl.
      apply list_lookup_insert_Some in Hl as [(E & E2 & _)|[Hne Hl]].
      * assert (x = i) as -> by lia. subst root0.
        destruct (reaches_is_root _ _ _ Hi0) as [_ Hr]. done.
      * by apply Hk2.
    + by rewrite length_insert.
Qed.

(** The roots. *)
Definition roots (parent : list Z) : gset Z :=
  filter (fun x => parent !! Z.to_nat x = Some x)
    (list_to_set (seqZ 0 (Z.of_nat (length parent))) : gset Z).

Lemma elem_of_roots parent x :
  x ∈ roots parent <-> 0 <= x /\ parent !! Z.to_nat x = Some x.
Proof.
  unfold roots. rewrite elem_of_filter, elem_of_list_to_set, elem_of_seqZ.
  split; [intros [? ?]; split; [lia | done]|].
  intros [Hx Hp]. split; [done|]. apply lookup_lt_Some in Hp. lia.
Qed.

Lemma roots_keeps parent parent' :
  Keeps parent parent' -> roots parent' = roots parent.
Proof.
  intros (Ha & Hb & _). apply set_eq. intros x. rewrite !elem_of_roots.
  split; intros [Hx Hp]; split; try done; [by apply Hb|].
  by apply (reaches_is_root parent' x x), Ha, reaches_root.
Qed.

(** Hanging the root [a] under the root [b]. *)
Lemma reaches_link parent a b :
  0 <= a -> parent !! Z.to_nat a = Some a ->
  0 <= b -> parent !! Z.to_nat b = Some b -> a <> b ->
  forall x r, Reaches parent x r ->
              Reaches (<[Z.to_nat a := b]> parent) x
                (if decide (r = a) then b else r).
Proof.
  intros Ha Hpa Hb Hpb Hab x0 r1 H.
  assert (Hbb : Reaches (<[Z.to_nat a := b]> parent) b b).
  { apply reaches_root; [done|]. by rewrite list_lookup_insert_ne by lia. }
  induction H as [r Hr Hp|x p r Hx Hp Hpx H IH].
  - destruct (decide (r = a)) as [->|Hne].
    + apply (reaches_step _ a b b); [done | | done | done].
      apply list_lookup_insert_Some. left. split_and!; [done | done |].
      by apply lookup_lt_Some in Hpa.
    + apply reaches_root; [done|]. by rewrite list_lookup_insert_ne by lia.
  - apply (reaches_step _ x p); [done | | done | done].
    rewrite list_lookup_insert_ne; [done|]. intros E.
    assert (x = a) as -> by lia. congruence.
Qed.

Lemma roots_link parent a b :
  0 <= a -> parent !! Z.to_nat a = Some a -> a <> b ->
  roots (<[Z.to_nat a := b]> parent) = roots parent ∖ {[a]}.
Proof.
  intros Ha Hpa Hab. apply set_eq. intros x.
  rewrite elem_of_difference, !elem_of_roots, elem_of_singleton.
  destruct (decide (x = a)) as [->|Hne].
  - split; [|tauto]. intros [_ Hl].
    apply list_lookup_insert_Some in Hl as [(_ & E & _)|[E _]]; congruence.
  - split.
    + intros [Hx Hl]. destruct (decide (0 <= x)); [|lia].
      rewrite list_lookup_insert_ne in Hl by lia. done.
    + intros [[Hx Hl] _]. split; [done|].
      by rewrite list_lookup_insert_ne by lia.
Qed.

(** Two indices of one set. *)
Definition SameSet (parent : list Z) (i j : Z) : Prop :=
  exists r, Reaches parent i r /\ Reaches parent j r.

Lemma sameSet_sym parent i j : SameSet parent i j -> SameSet parent j i.
Proof. intros (r & Hi & Hj). by exists r. Qed.

Lemma sameSet_trans parent i j k :
  SameSet parent i j -> SameSet parent j k -> SameSet parent i k.
Proof.
  intros (r & Hi & Hj) (r' & Hj' & Hk).
  rewrite <- (reaches_unique _ _ _ _ Hj Hj') in Hk. by exists r.
Qed.

(** What a union does, between two indices of different sets. *)
Lemma union_reaches fuel parent rank i j ri rj parent' rank' :
  unionSetsByIndex fuel parent rank i j = Returned (parent', rank') ->
  Reaches parent i ri -> Reaches parent j rj -> ri <> rj ->
  exists a b,
    ((a = ri /\ b = rj) \/ (a = rj /\ b = ri)) /\
    a ∈ roots parent /\
    roots parent' = roots parent ∖ {[a]} /\
    length parent' = length parent /\
    forall x r, Reaches parent x r ->
                Reaches parent' x (if decide (r = a) then b else r).
Proof.
  intros H Hi Hj Hne. unfold unionSetsByIndex in H.
  apply bind_Returned in H as ([rootI parent1] & H1 & H).
  apply bind_Returned in H as ([rootJ parent2] & H2 & H).
  destruct (findSet_reaches _ _ _ _ _ H1) as [HrI Hk1].
  destruct (findSet_reaches _ _ _ _ _ H2) as [HrJ Hk2].
  assert (rootI = ri) as -> by (by eapply reaches_unique).
  assert (rootJ = rj) as ->.
  { eapply reaches_unique; [exact HrJ|]. by apply Hk1. }
  pose proof (keeps_trans _ _ _ Hk1 Hk2) as Hk.
  destruct (reaches_is_root _ _ _ (proj1 Hk _ _ Hi)) as [Hi0 Hir].
  destruct (reaches_is_root _ _ _ (proj1 Hk _ _ Hj)) as [Hj0 Hjr].
  assert (Hleft : exists a b,
            ((a = ri /\ b = rj) \/ (a = rj /\ b = ri)) /\
            a ∈ roots parent /\
            roots (<[Z.to_nat rj := ri]> parent2) = roots parent ∖ {[a]} /\
            length (<[Z.to_nat rj := ri]> parent2) = length parent /\
            forall x r, Reaches parent x r ->
                        Reaches (<[Z.to_nat rj := ri]> parent2) x
                          (if decide (r = a) then b else r)).
  { exists rj, ri. split_and!; [by right | | | |].
    - rewrite <- (roots_keeps _ _ Hk). by apply elem_of_roots.
    - rewrite <- (roots_keeps _ _ Hk). apply roots_link; auto.
    - rewrite length_insert. apply Hk.
    - intros x r Hx. apply reaches_link; auto. by apply Hk. }
  destruct (ri =? rj) eqn:E; [apply Z.eqb_eq in E; done|].
  destruct (_ <? _).
  { injection H as <- <-. exists ri, rj. split_and!; [by left | | | |].
    - rewrite <- (roots_keeps _ _ Hk). by apply elem_of_roots.
    - rewrite <- (roots_keeps _ _ Hk). apply roots_link; auto.
    - rewrite length_insert. apply Hk.
    - intros x r Hx. apply reaches_link; auto. by apply Hk. }
  destruct (_ <? _); by injection H as <- <-.
Qed.

Section Maze.
Variables (width height : Z).
Hypotheses (Hwidth : 1 <= width) (Hheight : 1 <= height).
#[local] Abbreviation gh := (height * 2 + 1).
#[local] Abbreviation gw := (width * 2 + 1).

Lemma cellOf_gridCell i :
  0 <= i < height * width -> GridCell gh gw (cellOf width i).
Proof.
  intros Hi. destruct (index_cell width height i ltac:(lia) Hi).
  by apply gridCell_cell.
Qed.

(** A position of the wall list belongs to one wall. *)
Lemma allWalls_pos wall wall' :
  wall ∈ allWalls width height -> wall' ∈ allWalls width height ->
  wallPos wall = wallPos wall' -> wall = wall'.
Proof.
  unfold allWalls. intros H H'.
  apply elem_of_app in H as [H|H];
    apply list_elem_of_bind in H as (r & H & Hr);
    apply list_elem_of_bind in H as (c & H & Hc);
    apply list_elem_of_singleton in H as ->;
    apply elem_of_app in H' as [H'|H'];
    apply list_elem_of_bind in H' as (r' & H' & Hr');
    apply list_elem_of_bind in H' as (c' & H' & Hc');
    apply list_elem_of_singleton in H' as ->;
    cbn [wallPos]; intros [= E1 E2]; try lia.
  - by assert (r = r') as -> by lia; assert (c = c') as -> by lia.
  - by assert (r = r') as -> by lia; assert (c = c') as -> by lia.
Qed.

Record Inv (st : Grid * list Z * list Z) : Prop := {
  inv_carved : allCarved width height st.1.1;
  inv_balanced : Balanced (size (roots st.1.2)) width height st.1.1;
  inv_length : length st.1.2 = Z.to_nat (height * width);
  inv_total : forall i, 0 <= i < height * width ->
                        exists r, Reaches st.1.2 i r;
  inv_open : forall wall,
    wall ∈ allWalls width height ->
    cellAt st.1.1 (wallPos wall).1 (wallPos wall).2 = Some Path ->
    SameSet st.1.2 (index1 wall) (index2 wall);
  inv_apart : forall i j,
    0 <= i < height * width -> 0 <= j < height * width ->
    linked st.1.1 gh gw (cellOf width i) (cellOf width j) ->
    SameSet st.1.2 i j
}.

Definition settled (wall : WallEntry) (st : Grid * list Z * list Z) : Prop :=
  SameSet st.1.2 (index1 wall) (index2 wall).

Lemma processWall_perfect fuel st wall st' :
  Inv st -> wall ∈ allWalls width height ->
  processWall fuel st wall = Returned st' ->
  Inv st' /\ settled wall st' /\ forall w, settled w st -> settled w st'.
Proof.
  destruct st as [[maze parent] rank].
  intros [Hall Hbal Hlen Htotal Hopen Hapart] Hwall H.
  unfold settled in *. cbn [fst snd] in *.
  destruct (KruskalLinks.allWalls_sides width height Hwidth wall Hwall)
    as (Hi1 & Hi2 & e & He & Hpos & Hnext).
  unfold processWall in H.
  apply bind_Returned in H as ([root1 parent1] & H1 & H).
  apply bind_Returned in H as ([root2 parent2] & H2 & H).
  destruct (findSet_reaches _ _ _ _ _ H1) as [Hr1 Hk1].
  destruct (findSet_reaches _ _ _ _ _ H2) as [Hr2 Hk2].
  pose proof (keeps_trans _ _ _ Hk1 Hk2) as Hk.
  assert (Hr1' : Reaches parent2 (index1 wall) root1) by (by apply Hk).
  assert (Hr2' : Reaches parent2 (index2 wall) root2) by (by apply Hk2).
  destruct (root1 =? root2) eqn:Eroot.
  - apply Z.eqb_eq in Eroot as <-. injection H as <-. cbn [fst snd].
    split_and!.
    + split; cbn [fst snd].
      * done.
      * by rewrite (roots_keeps _ _ Hk).
      * destruct Hk as (_ & _ & ->). done.
      * intros i Hi. destruct (Htotal i Hi) as [r Hr]. exists r.
        by apply Hk.
      * intros w Hw Hp. destruct (Hopen w Hw Hp) as (r & Ha & Hb).
        exists r. split; by apply Hk.
      * intros i j Hi Hj Hl. destruct (Hapart i j Hi Hj Hl) as (r & Ha & Hb).
        exists r. split; by apply Hk.
    + by exists root1.
    + intros w (r & Ha & Hb). exists r. split; by apply Hk.
  - apply Z.eqb_neq in Eroot.
    apply bind_Returned in H as (maze1 & Hset & H).
    apply bind_Returned in H as ([parent3 rank1] & Hunion & H).
    injection H as <-. cbn [fst snd].
    pose proof (setCell_path _ _ _ _ Hset) as [Hw Hkp].
    destruct (union_reaches _ _ _ _ _ _ _ _ _ Hunion Hr1' Hr2' Eroot)
      as (a & b & Hab & Ha & Hroots & Hlen3 & Hmap).
    assert (Hsame : forall x y, SameSet parent x y -> SameSet parent3 x y).
    { intros x y (r & Hx & Hy). exists (if decide (r = a) then b else r).
      split; by apply Hmap, Hk. }
    assert (Hnew : SameSet parent3 (index1 wall) (index2 wall)).
    { exists b. split.
      - replace b with (if decide (root1 = a) then b else root1);
          [by apply Hmap|]. destruct (decide (root1 = a)); [done|].
        by destruct Hab as [[-> ->]|[-> ->]].
      - replace b with (if decide (root2 = a) then b else root2);
          [by apply Hmap|]. destruct (decide (root2 = a)); [done|].
        by destruct Hab as [[-> ->]|[-> ->]]. }
    assert (Hno : cellAt maze (wallPos wall).1 (wallPos wall).2 <> Some Path).
    { intros Hp. destruct (Hopen wall Hwall Hp) as (r & Hx & Hy).
      apply Eroot. transitivity r.
      - eapply reaches_unique; [exact Hr1'|]. by apply Hk.
      - eapply reaches_unique; [|exact Hr2']. by apply Hk. }
    split_and!; [|done|intros w; apply Hsame].
    split; cbn [fst snd].
    + by eapply carving_allCarved.
    + rewrite Hroots, size_difference by (by apply singleton_subseteq_l).
      rewrite size_singleton.
      assert (Hpos' : size (roots parent2) <> 0%nat).
      { intros E. apply size_empty_inv in E. by apply E in Ha. }
      rewrite <- (roots_keeps _ _ Hk) in Hbal.
      destruct (size (roots parent2)) as [|n] eqn:En; [done|].
      replace (S n - 1)%nat with n by lia.
      destruct (index_cell width height (index1 wall) ltac:(lia) Hi1).
      destruct (index_cell width height (index2 wall) ltac:(lia) Hi2).
      rewrite Hpos in Hset, Hno.
      apply (balanced_join n width height maze (cellOf width (index1 wall))
               e maze1 Hbal); try done.
      * by apply cellOf_gridCell.
      * rewrite <- Hpos, <- Hnext. by apply cellOf_gridCell.
      * by apply Hall.
      * rewrite <- Hpos, <- Hnext. by apply Hall.
      * rewrite <- Hpos, <- Hnext. intros Hl.
        destruct (Hapart _ _ Hi1 Hi2 Hl) as (r & Hx & Hy).
        apply Eroot. transitivity r.
        -- eapply reaches_unique; [exact Hr1'|]. by apply Hk.
        -- eapply reaches_unique; [|exact Hr2']. by apply Hk.
    + rewrite Hlen3. destruct Hk as (_ & _ & ->). done.
    + intros i Hi. destruct (Htotal i Hi) as [r Hr].
      exists (if decide (r = a) then b else r). by apply Hmap, Hk.
    + intros w Hw' Hp.
      rewrite (cellAt_setCell _ _ _ _ _ _ _ Hset) in Hp.
      case_bool_decide as E.
      * destruct E as [E1 E2].
        assert (w = wall) as ->; [|done].
        apply allWalls_pos; [done | done |].
        by rewrite (surjective_pairing (wallPos w)), E1, E2,
          <- surjective_pairing.
      * by apply Hsame, Hopen.
    + intros i j Hi Hj Hl.
      assert (Hcell : forall k, 0 <= k < height * width ->
                passable maze gh gw (cellOf width k) = true).
      { intros k Hk'. apply shaped_passable; [apply Hbal|].
        destruct (index_cell width height k ltac:(lia) Hk'). by apply Hall. }
      rewrite Hpos in Hset.
      assert (Hb : move (move (cellOf width (index1 wall)) e) e
                   = cellOf width (index2 wall)) by (by rewrite <- Hpos).
      destruct (joined_apart width height maze (cellOf width (index1 wall)) e
                  maze1 (cellOf width i) (cellOf width j)
                  (balanced_shaped _ _ _ _ Hbal)
                  (balanced_pillars _ _ _ _ Hbal)
                  (cellOf_gridCell _ Hi1) He (Hcell _ Hi1)
                  ltac:(rewrite Hb; by apply Hcell) Hset (Hcell _ Hi) Hl)
        as [[Ey _]|[Hij|[[Hia Hbj]|[Hib Haj]]]].
      * exfalso.
        apply (PrimsCells.wall_not_cell gh gw (cellOf width (index1 wall)) e
                 (cellOf_gridCell _ Hi1) He).
        rewrite <- Ey. by apply cellOf_gridCell.
      * by apply Hsame, Hapart.
      * rewrite Hb in Hbj.
        eapply sameSet_trans; [apply Hsame, Hapart; [| |exact Hia]; done|].
        eapply sameSet_trans; [exact Hnew|].
        by apply Hsame, Hapart.
      * rewrite Hb in Hib.
        eapply sameSet_trans; [apply Hsame, Hapart; [| |exact Hib]; done|].
        eapply sameSet_trans; [apply sameSet_sym; exact Hnew|].
        by apply Hsame, Hapart.
Qed.

(** The first double loop carves the cells and nothing else. *)
Lemma carveCells_only maze1 :
  carveCells width height (newGrid gh gw Wall) = Returned maze1 ->
  Shaped gh gw maze1 /\
  forall r c, cellAt maze1 r c = Some Path -> GridCell gh gw (r, c).
Proof.
  intros H. unfold carveCells in H.
  eapply (foldM_invariant _
            (fun m => Shaped gh gw m /\
                      forall r c, cellAt m r c = Some Path ->
                                  GridCell gh gw (r, c)));
    [| |exact H].
  - intros m r m' Hm Hr Hrow. apply elem_of_seqZ in Hr.
    eapply (foldM_invariant _
              (fun m => Shaped gh gw m /\
                        forall r c, cellAt m r c = Some Path ->
                                    GridCell gh gw (r, c)));
      [| exact Hm |exact Hrow].
    intros m0 c m0' [Hs0 Hm0] Hc Hset. apply elem_of_seqZ in Hc.
    split; [by eapply shaped_carving|].
    intros r' c'. rewrite (cellAt_setCell _ _ _ _ _ _ _ Hset).
    case_bool_decide as E; [|by apply Hm0].
    intros _. destruct E as [-> ->]. apply gridCell_cell; lia.
  - assert (Hs0 : Shaped gh gw (newGrid gh gw Wall))
      by (apply shaped_newGrid; [lia | lia | by right]).
    split; [done|]. intros r c Hp. exfalso.
    pose proof (shaped_passable gh gw _ (r, c) Hs0 Hp) as Hpass.
    unfold passable in Hpass. cbn [fst snd] in Hpass.
    rewrite !andb_true_iff, !Z.geb_le, !Z.ltb_lt in Hpass.
    rewrite cellAt_newGrid in Hp by lia. discriminate.
Qed.

(** The grid with every cell carved and nothing else: as many parts as
    cells. *)
Lemma carveCells_balanced maze1 :
  carveCells width height (newGrid gh gw Wall) = Returned maze1 ->
  Balanced (Z.to_nat height * Z.to_nat width) width height maze1.
Proof.
  intros H.
  pose proof (kruskal_cells_carved _ _ _ _ H) as Hall.
  destruct (carveCells_only maze1 H) as [Hs Honly]. split.
  - done.
  - intros r c Hring.
    destruct Hring as (Hr & Hc & Hedge).
    destruct (shaped_cellAt gh gw maze1 r c Hs Hr Hc) as [Hp|Hw]; [|done].
    apply Honly in Hp. destruct Hp as (? & ? & _). simpl in *. lia.
  - intros p d Hp Hd Hq Hpath. exfalso.
    apply (PrimsCells.wall_not_cell gh gw p d Hp Hd).
    rewrite (surjective_pairing (move p d)). by apply Honly.
  - intros r c Hr Hc Hpath. apply Honly in Hpath as (_ & _ & Hr' & _).
    cbn [fst] in Hr'. rewrite Hr in Hr'. done.
  - intros s t l1 l2 Hst H1 H2 _ _.
    assert (Hone : forall l, Walk maze1 gh gw s l t -> l = [s]).
    { intros l Hl. destruct Hl as [|l b d Hl Hd Hp]; [done|]. exfalso.
      assert (Hb : GridCell gh gw b).
      { rewrite (surjective_pairing b). apply Honly.
        apply (passable_path _ gh gw).
        eapply Walk_passable; [exact Hst | exact Hl | by eapply Walk_end]. }
      apply (PrimsCells.wall_not_cell gh gw b d Hb Hd).
      rewrite (surjective_pairing (move b d)). apply Honly.
      by apply (passable_path _ gh gw). }
    by rewrite (Hone l1 H1), (Hone l2 H2).
  - rewrite (uncarved_allCarved _ _ _ Hall), size_empty.
    replace (paths gh gw maze1) with (gridCells width height);
      [rewrite size_gridCells; lia|].
    apply set_eq. intros p. rewrite elem_of_paths by done. split.
    + intros Hp. apply elem_of_gridCells in Hp as ([r c] & -> & Hu).
      apply elem_of_universe in Hu. cbn [fst snd] in Hu.
      unfold cellToGrid. cbn [fst snd]. apply Hall; lia.
    + intros Hp. apply isGridCell_gridCells. apply isGridCell_iff.
      by apply Honly.
Qed.

Lemma roots_first :
  size (roots (seqZ 0 (height * width)))
  = (Z.to_nat height * Z.to_nat width)%nat.
Proof.
  replace (roots (seqZ 0 (height * width)))
    with (list_to_set (seqZ 0 (height * width)) : gset Z).
  - rewrite size_list_to_set by apply NoDup_seqZ. rewrite length_seqZ. nia.
  - apply set_eq. intros x.
    rewrite elem_of_roots, elem_of_list_to_set, elem_of_seqZ.
    split.
    + intros Hx. split; [lia|]. apply lookup_seqZ. lia.
    + intros [Hx Hl]. apply lookup_seqZ in Hl. lia.
Qed.

(** With the cells on the two sides of every wall in one set, there is one
    set. *)
Lemma one_root parent :
  (forall i, 0 <= i < height * width -> exists r, Reaches parent i r) ->
  (forall x, x ∈ roots parent -> 0 <= x < height * width) ->
  (forall wall, wall ∈ allWalls width height ->
                SameSet parent (index1 wall) (index2 wall)) ->
  size (roots parent) = 1%nat.
Proof.
  intros Htotal Hrange Hwalls.
  destruct (Htotal 0 ltac:(nia)) as [r0 Hr0].
  assert (Hright : forall r c, 0 <= r < height -> 0 <= c < width - 1 ->
            SameSet parent (r * width + c) (r * width + (c + 1))).
  { intros r c Hr Hcc.
    apply (Hwalls (mkWall (r * 2 + 1, c * 2 + 2) (r * width + c)
                     (r * width + (c + 1)))).
    unfold allWalls. apply elem_of_app. left.
    apply list_elem_of_bind. exists r. split; [|apply elem_of_seqZ; lia].
    apply list_elem_of_bind. exists c. split; [|apply elem_of_seqZ; lia].
    by apply list_elem_of_singleton. }
  assert (Hdown : forall r c, 0 <= r < height - 1 -> 0 <= c < width ->
            SameSet parent (r * width + c) ((r + 1) * width + c)).
  { intros r c Hr Hcc.
    apply (Hwalls (mkWall (r * 2 + 2, c * 2 + 1) (r * width + c)
                     ((r + 1) * width + c))).
    unfold allWalls. apply elem_of_app. right.
    apply list_elem_of_bind. exists r. split; [|apply elem_of_seqZ; lia].
    apply list_elem_of_bind. exists c. split; [|apply elem_of_seqZ; lia].
    by apply list_elem_of_singleton. }
  assert (Hfrom : forall x y, SameSet parent x y -> Reaches parent x r0 ->
                              Reaches parent y r0).
  { intros x y (r & Hx & Hy) Hx0.
    by rewrite <- (reaches_unique _ _ _ _ Hx Hx0). }
  assert (Hback : forall x y, SameSet parent x y -> Reaches parent y r0 ->
                              Reaches parent x r0).
  { intros x y (r & Hx & Hy) Hy0.
    by rewrite <- (reaches_unique _ _ _ _ Hy Hy0). }
  assert (Hall : forall t, GrowingTree.isCell width height t = true ->
                   GrowingTree.isCell width height t = true /\
                   Reaches parent (t.1 * width + t.2) r0).
  { apply (cells_connected width height
             (fun p => GrowingTree.isCell width height p = true /\
                       Reaches parent (p.1 * width + p.2) r0) (0, 0)).
    - split; [|done]. unfold GrowingTree.isCell. simpl.
      rewrite !andb_true_iff, !Z.geb_le, !Z.ltb_lt. lia.
    - unfold GrowingTree.isCell. simpl.
      rewrite !andb_true_iff, !Z.geb_le, !Z.ltb_lt. lia.
    - intros [r c] d [Hcell Hp] Hd Hq. split; [done|].
      apply GrowingTreeFacts.isCell_valid in Hq as [Hqr Hqc].
      apply GrowingTreeFacts.isCell_valid in Hcell as [Hpr Hpc].
      unfold directions in Hd. rewrite !elem_of_cons, elem_of_nil in Hd.
      unfold move in *. cbn [fst snd] in *.
      destruct Hd as [->|[->|[->|[->|[]]]]]; cbn [fst snd] in *.
      + apply (Hback _ (r * width + c)); [|done].
        replace (r * width + c) with ((r + -1 + 1) * width + (c + 0)) by lia.
        apply Hdown; lia.
      + apply (Hfrom (r * width + c)); [|done].
        replace (c + 0) with c by lia. apply Hdown; lia.
      + apply (Hback _ (r * width + c)); [|done].
        replace (r * width + c) with ((r + 0) * width + (c + -1 + 1)) by lia.
        apply Hright; lia.
      + apply (Hfrom (r * width + c)); [|done].
        replace (r + 0) with r by lia. apply Hright; lia. }
  replace (roots parent) with ({[r0]} : gset Z); [apply size_singleton|].
  apply set_eq. intros x. rewrite elem_of_singleton. split.
  - intros ->. apply elem_of_roots. by eapply reaches_is_root.
  - intros Hx. pose proof (Hrange x Hx) as Hxr.
    apply elem_of_roots in Hx as [Hx0 Hxp].
    destruct (index_cell width height x ltac:(lia) Hxr) as [Hd Hm].
    destruct (Hall (x / width, x `mod` width)) as [_ Hreach].
    { unfold GrowingTree.isCell. cbn [fst snd].
      rewrite !andb_true_iff, !Z.geb_le, !Z.ltb_lt. lia. }
    cbn [fst snd] in Hreach.
    replace (x / width * width + x `mod` width) with x in Hreach
      by (rewrite (Z.div_mod x width) at 1; lia).
    eapply reaches_unique; [|exact Hreach]. by apply reaches_root.
Qed.

End Maze.
End KruskalPerfect.

Lemma kruskal_balanced fuel width height rnd maze :
  1 <= width -> 1 <= height ->
  generateKruskalsMaze fuel width height rnd = Returned maze ->
  exists maze2,
    Balanced 1 width height maze2 /\
    openEnds (height * 2 + 1) (width * 2 + 1) maze2 = Returned maze.
Proof.
  intros Hw Hh Hgen.
  revert Hgen. unfold generateKruskalsMaze. cbv zeta. intros H.
  apply bind_Returned in H as (maze1 & Hcells & H).
  pose proof (elem_of_shuffle (Kruskal.allWalls width height) rnd) as Hsh.
  destruct (shuffle (Kruskal.allWalls width height) rnd) as [walls rnd'].
  cbn [fst] in Hsh.
  apply bind_Returned in H as ([[maze2 parent] rank] & Hfold & H).
  exists maze2. split; [|done]. clear H.
  apply (foldM_settles _ (KruskalPerfect.Inv width height)
           (KruskalPerfect.settled)) in Hfold as [Hinv Hsettled].
  - destruct Hinv as [Hc Hbal Hlen Htotal Hopen _]. cbn [fst snd] in *.
    rewrite (KruskalPerfect.one_root width height Hw Hh parent) in Hbal;
      try done.
    + intros x Hx. apply KruskalPerfect.elem_of_roots in Hx as [Hx Hl].
      apply lookup_lt_Some in Hl. lia.
    + intros wall Hwall. apply (Hsettled wall). by apply Hsh.
  - intros st wall st' Hinv Hwall.
    apply KruskalPerfect.processWall_perfect; [done | done | done |].
    by apply Hsh.
  - destruct (KruskalPerfect.carveCells_only width height Hw Hh maze1 Hcells)
      as [Hs1 Honly].
    split; cbn [fst snd].
    + by eapply kruskal_cells_carved.
    + rewrite KruskalPerfect.roots_first by done.
      by apply KruskalPerfect.carveCells_balanced.
    + rewrite length_seqZ. lia.
    + intros i Hi. exists i. apply KruskalPerfect.reaches_root; [lia|].
      apply lookup_seqZ. lia.
    + intros wall Hwall Hp. exfalso.
      destruct (KruskalLinks.allWalls_sides width height Hw wall Hwall)
        as (Hi1 & _ & e & He & Hpos & _).
      apply (PrimsCells.wall_not_cell (height * 2 + 1) (width * 2 + 1)
               (cellOf width (Kruskal.index1 wall)) e);
        [by apply KruskalPerfect.cellOf_gridCell | done |].
      rewrite <- Hpos, (surjective_pairing (Kruskal.wallPos wall)).
      by apply Honly.
    + intros i j Hi Hj Hl.
      assert (Hcell : forall k, 0 <= k < height * width ->
                passable maze1 (height * 2 + 1) (width * 2 + 1)
                  (cellOf width k) = true).
      { intros k Hk. apply shaped_passable; [done|].
        destruct (index_cell width height k ltac:(lia) Hk).
        by apply (kruskal_cells_carved _ _ _ _ Hcells). }
      assert (E : cellOf width i = cellOf width j).
      { apply (linked_closed maze1 (height * 2 + 1) (width * 2 + 1));
          [|by apply Hcell|done].
        intros d Hd.
        destruct (passable maze1 _ _ (move (cellOf width j) d)) eqn:Hp; [|done].
        exfalso.
        apply (PrimsCells.wall_not_cell (height * 2 + 1) (width * 2 + 1)
                 (cellOf width j) d);
          [by apply KruskalPerfect.cellOf_gridCell | done |].
        rewrite (surjective_pairing (move (cellOf width j) d)).
        apply Honly. by apply (passable_path _ _ _ _ Hp). }
      assert (i = j) as ->.
      { unfold cellOf in E. injection E as E1 E2.
        rewrite (Z.div_mod i width), (Z.div_mod j width) by lia.
        assert (i / width = j / width) as -> by lia.
        assert (i `mod` width = j `mod` width) as -> by lia. done. }
      exists j. split; apply KruskalPerfect.reaches_root; try lia;
        apply lookup_seqZ; lia.
Qed.

Lemma kruskal_perfect fuel width height rnd maze :
  1 <= width -> 1 <= height ->
  generateKruskalsMaze fuel width height rnd = Returned maze ->
  size (paths (height * 2 + 1) (width * 2 + 1) maze)
  = (2 * (Z.to_nat height * Z.to_nat width) + 1)%nat.
Proof.
  intros Hw Hh Hgen.
  pose proof (kruskal_allCarved _ _ _ _ _ Hgen) as Hall.
  destruct (kruskal_balanced _ _ _ _ _ Hw Hh Hgen) as (maze2 & Hbal & H).
  by apply (perfect_whole width height maze2 maze).
Qed.

Lemma kruskal_unique fuel width height rnd maze :
  1 <= width -> 1 <= height ->
  generateKruskalsMaze fuel width height rnd = Returned maze ->
  Unique maze (height * 2 + 1) (width * 2 + 1).
Proof.
  intros Hw Hh Hgen.
  destruct (kruskal_balanced _ _ _ _ _ Hw Hh Hgen) as (maze2 & Hbal & H).
  by apply (unique_openEnds width height maze2 maze).
Qed.

(** *** Recursive backtracker *)

Module BacktrackerPerfect.
Import Backtracker.

(** What a call of [carvePath] does at a cell that, carved, keeps the
    count. *)
Definition carves (width height : Z)
    (rec : Z -> Z -> State -> outcome State) : Prop :=
  forall nr nc st st',
    GridCell (height * 2 + 1) (width * 2 + 1) (nr, nc) ->
    (forall d, d ∈ dirs st -> d ∈ cellDirections) ->
    (forall m1, setCell (maze st) nr nc Path = Returned m1 ->
                Balanced 1 width height m1) ->
    rec nr nc st = Returned st' ->
    Balanced 1 width height (maze st') /\
    (forall d, d ∈ dirs st' -> d ∈ cellDirections) /\
    keepsPaths (maze st) (maze st').

Lemma carveEach_perfect rec width height r c :
  carves width height rec ->
  GridCell (height * 2 + 1) (width * 2 + 1) (r, c) ->
  forall indices st st',
    Balanced 1 width height (maze st) ->
    (forall d, d ∈ dirs st -> d ∈ cellDirections) ->
    cellAt (maze st) r c = Some Path ->
    carveEach rec (height * 2 + 1) (width * 2 + 1) r c indices st
    = Returned st' ->
    Balanced 1 width height (maze st') /\
    (forall d, d ∈ dirs st' -> d ∈ cellDirections) /\
    keepsPaths (maze st) (maze st').
Proof.
  intros Hrec Hcell.
  induction indices as [|i rest IH]; intros st st' Hbal Hdirs Hpath H;
    simpl in H.
  - injection H as <-. split_and!; [done | done | apply keepsPaths_refl].
  - destruct (dirs st !! i) as [d|] eqn:Ed.
    2:{ injection H as <-. split_and!; [done | done | apply keepsPaths_refl]. }
    destruct (isGridCell _ _ (r + d.1) (c + d.2)) eqn:Enext; simpl in H;
      [|by eapply IH].
    destruct (cellIs (maze st) (r + d.1) (c + d.2) Wall) eqn:Ewall;
      [|by eapply IH].
    apply bind_Returned in H as (maze2 & Hset & H).
    apply bind_Returned in H as (st1 & Hcall & H).
    apply list_elem_of_lookup_2, Hdirs, half_direction in Ed
      as (e & He & Hmove).
    destruct (Hmove r c) as [Ew En].
    apply (f_equal fst) in Ew as Ew1. apply (f_equal snd) in Ew as Ew2.
    apply (f_equal fst) in En as En1. apply (f_equal snd) in En as En2.
    cbn [fst snd] in Ew1, Ew2, En1, En2.
    rewrite Ew1, Ew2 in Hset. rewrite En1, En2 in Hcall, Enext, Ewall.
    apply isGridCell_iff in Enext. rewrite <- surjective_pairing in Enext.
    apply cellIs_iff in Ewall.
    pose proof (setCell_path _ _ _ _ Hset) as [_ Hk2].
    apply Hrec in Hcall as (Hbal1 & Hdirs1 & Hk1); cbn [maze dirs] in *.
    + apply IH in H as (Hbal' & Hdirs' & Hk');
        [|done | done | by apply Hk1, Hk2].
      split_and!; [done | done |]. eauto using keepsPaths_trans.
    + by rewrite <- surjective_pairing.
    + done.
    + intros m1 Hm1.
      apply (balanced_grow 1 width height (maze st) (r, c) e maze2 m1);
        try done; [|by left].
      rewrite Ewall. discriminate.
Qed.

Lemma carvePath_perfect width height fuel :
  carves width height (carvePath fuel (height * 2 + 1) (width * 2 + 1)).
Proof.
  induction fuel as [|n IH]; intros r c st st' Hcell Hdirs Hjoin H; [done|].
  cbn [carvePath] in H.
  apply bind_Returned in H as (maze1 & Hset & H).
  pose proof (elem_of_shuffle (dirs st) (rnd st)) as Hsh.
  destruct (shuffle (dirs st) (rnd st)) as [shuffled rnd1].
  cbn [fst] in Hsh.
  pose proof (setCell_path _ _ _ _ Hset) as [Hp Hk].
  apply (carveEach_perfect _ width height r c IH Hcell) in H
    as (Hbal' & Hdirs' & Hk'); cbn [maze dirs] in *.
  - split_and!; [done | done | by eapply keepsPaths_trans].
  - by apply Hjoin.
  - intros d Hd. by apply Hdirs, Hsh.
  - done.
Qed.

End BacktrackerPerfect.

Lemma backtracker_balanced fuel width height rnd maze :
  1 <= width -> 1 <= height ->
  generateRecursiveBacktrackerMaze fuel width height rnd = Returned maze ->
  exists maze2,
    Balanced 1 width height maze2 /\
    openEnds (height * 2 + 1) (width * 2 + 1) maze2 = Returned maze.
Proof.
  intros Hw Hh. unfold generateRecursiveBacktrackerMaze. cbv zeta.
  pose proof (randomIndex_lt (Z.to_nat height) rnd ltac:(lia)) as Hi.
  destruct (randomIndex (Z.to_nat height) rnd) as [i rnd1].
  pose proof (randomIndex_lt (Z.to_nat width) rnd1 ltac:(lia)) as Hj.
  destruct (randomIndex (Z.to_nat width) rnd1) as [j rnd2].
  simpl in Hi, Hj.
  intros H. apply bind_Returned in H as (st & Hcarve & H).
  assert (Hstart : GridCell (height * 2 + 1) (width * 2 + 1)
                     (Z.of_nat i * 2 + 1, Z.of_nat j * 2 + 1))
    by (apply gridCell_cell; lia).
  exists (Backtracker.maze st). split; [|done].
  apply BacktrackerPerfect.carvePath_perfect in Hcarve as (Hbal & _ & _).
  - done.
  - done.
  - done.
  - cbn [Backtracker.maze]. intros m1 Hm1.
    by apply (perfect_first width height
                (Z.of_nat i * 2 + 1, Z.of_nat j * 2 + 1)).
Qed.

Lemma backtracker_perfect fuel width height rnd maze :
  1 <= width -> 1 <= height ->
  generateRecursiveBacktrackerMaze fuel width height rnd = Returned maze ->
  (size (paths (height * 2 + 1) (width * 2 + 1) maze)
   + 2 * size (uncarved width height maze)
   = 2 * (Z.to_nat height * Z.to_nat width) + 1)%nat.
Proof.
  intros Hw Hh Hgen.
  destruct (backtracker_balanced _ _ _ _ _ Hw Hh Hgen) as (maze2 & Hbal & H).
  by apply (balanced_openEnds width height maze2 maze).
Qed.

Lemma backtracker_unique fuel width height rnd maze :
  1 <= width -> 1 <= height ->
  generateRecursiveBacktrackerMaze fuel width height rnd = Returned maze ->
  Unique maze (height * 2 + 1) (width * 2 + 1).
Proof.
  intros Hw Hh Hgen.
  destruct (backtracker_balanced _ _ _ _ _ Hw Hh Hgen) as (maze2 & Hbal & H).
  by apply (unique_openEnds width height maze2 maze).
Qed.

(** X20.  The grid returned by [generatePrimsMaze], [generateKruskalsMaze],
    [generateBinaryTreeMaze] or [generateGrowingTreeMaze] for
    [width, height >= 1] holds exactly [2 * width * height + 1] paths: the
    [width * height] cells, the two openings in the ring, and
    [width * height - 1] passages between cells, as many as a spanning
    tree of the cells has. *)
Theorem growing_generators_make_perfect_mazes :
  forall (width height : Z) (fuel : nat) (rnd : Rand) (method : Method)
         (maze : Grid),
    1 <= width -> 1 <= height ->
    generatePrimsMaze fuel width height rnd = Returned maze \/
    generateKruskalsMaze fuel width height rnd = Returned maze \/
    generateBinaryTreeMaze width height rnd = Returned maze \/
    generateGrowingTreeMaze fuel width height method rnd = Returned maze ->
    size (paths (height * 2 + 1) (width * 2 + 1) maze)
    = (2 * (Z.to_nat height * Z.to_nat width) + 1)%nat.
Proof.
  intros width height fuel rnd method maze Hw Hh [H|[H|[H|H]]].
  - by apply (prims_perfect fuel width height rnd maze).
  - by apply (kruskal_perfect fuel width height rnd maze).
  - by apply (binaryTree_perfect width height rnd maze).
  - by apply (growingTree_perfect fuel width height method rnd maze).
Qed.

Lemma growing_generators_make_perfect_mazes_witness :
  size (paths (2 * 2 + 1) (2 * 2 + 1) kruskalRun)
  = (2 * (Z.to_nat 2 * Z.to_nat 2) + 1)%nat.
Proof.
  apply (growing_generators_make_perfect_mazes 2 2 20 someRun newest
           kruskalRun);
    [lia | lia | right; left; vm_compute; reflexivity].
Defined.

(** X21.  The same count for the grid returned by [generateWilsonsMaze] or
    [generateAldousBroderMaze] for [width, height >= 1]: exactly
    [2 * width * height + 1] paths, so [width * height - 1] passages
    between the cells. *)
Theorem walking_generators_make_perfect_mazes :
  forall (width height : Z) (fuel : nat) (rnd : Rand) (maze : Grid),
    1 <= width -> 1 <= height ->
    generateWilsonsMaze fuel width height rnd = Returned maze \/
    generateAldousBroderMaze fuel width height rnd = Returned maze ->
    size (paths (height * 2 + 1) (width * 2 + 1) maze)
    = (2 * (Z.to_nat height * Z.to_nat width) + 1)%nat.
Proof.
  intros width height fuel rnd maze Hw Hh [H|H].
  - by apply (wilson_perfect fuel width height rnd maze).
  - by apply (aldousBroder_perfect fuel width height rnd maze).
Qed.

Lemma walking_generators_make_perfect_mazes_witness :
  size (paths (2 * 2 + 1) (2 * 2 + 1) kruskalRun)
  = (2 * (Z.to_nat 2 * Z.to_nat 2) + 1)%nat.
Proof.
  apply (walking_generators_make_perfect_mazes 2 2 20 someRun kruskalRun);
    [lia | lia | left; vm_compute; reflexivity].
Defined.

(** X22.  In the grid returned by [generateRecursiveBacktrackerMaze] for
    [width, height >= 1], the paths and twice the cells left uncarved make
    [2 * width * height + 1]: between the cells that are carved there is
    one passage less than there are such cells. *)
Theorem backtracker_carves_a_tree :
  forall (width height : Z) (fuel : nat) (rnd : Rand) (maze : Grid),
    1 <= width -> 1 <= height ->
    generateRecursiveBacktrackerMaze fuel width height rnd = Returned maze ->
    (size (paths (height * 2 + 1) (width * 2 + 1) maze)
     + 2 * size (uncarved width height maze)
     = 2 * (Z.to_nat height * Z.to_nat width) + 1)%nat.
Proof.
  intros width height fuel rnd maze Hw Hh H.
  by apply (backtracker_perfect fuel width height rnd maze).
Qed.

Lemma backtracker_carves_a_tree_witness :
  (size (paths (3 * 2 + 1) (1 * 2 + 1) gappedMaze)
   + 2 * size (uncarved 1 3 gappedMaze)
   = 2 * (Z.to_nat 3 * Z.to_nat 1) + 1)%nat.
Proof.
  apply (backtracker_carves_a_tree 1 3 10 aliasingRun gappedMaze);
    [lia | lia | vm_compute; reflexivity].
Defined.

(** ** A returned path passes no cell twice *)

(** The cells the reconstruction loop collects: a cell, its parent, the
    parent of its parent, up to a cell with none. *)
Inductive Ancestry (pm : gmap Coord (option Coord))
  : option Coord -> list Coord -> Prop :=
  | ancestry_none : Ancestry pm None []
  | ancestry_cell c l :
      Ancestry pm (parentOf pm c) l -> Ancestry pm (Some c) (c :: l).

Lemma reconstruct_ancestry pm fuel :
  forall cur acc p,
    reconstructPath fuel pm cur acc = Returned p ->
    exists l, p = acc ++ l /\ Ancestry pm cur l.
Proof.
  induction fuel as [|n IH]; intros [c|] acc p H; simpl in H.
  - done.
  - injection H as <-. exists []. split; [by rewrite app_nil_r | constructor].
  - apply IH in H as (l & -> & Hl). exists (c :: l).
    split; [by rewrite <- app_assoc | by constructor].
  - injection H as <-. exists []. split; [by rewrite app_nil_r | constructor].
Qed.

Lemma ancestry_unique pm cur l1 l2 :
  Ancestry pm cur l1 -> Ancestry pm cur l2 -> l1 = l2.
Proof.
  intros H. revert l2. induction H as [|c l H IH]; intros l2 H2;
    inversion H2; subst; [done|]. f_equal. by apply IH.
Qed.

(** The ancestry of a cell of an ancestry is the rest of it. *)
Lemma ancestry_rest pm cur l x :
  Ancestry pm cur l -> x ∈ l ->
  exists k, Ancestry pm (Some x) (drop k l).
Proof.
  intros H. induction H as [|c l H IH]; intros Hx.
  - by apply elem_of_nil in Hx.
  - apply elem_of_cons in Hx as [->|Hx].
    + exists 0%nat. by constructor.
    + destruct (IH Hx) as [k Hk]. by exists (S k).
Qed.

Lemma ancestry_nodup pm cur l : Ancestry pm cur l -> NoDup l.
Proof.
  intros H. induction H as [|c l H IH]; constructor; [|done].
  intros Hc.
  destruct (ancestry_rest pm _ l c H Hc) as [k Hk].
  pose proof (ancestry_unique pm _ _ _ Hk (ancestry_cell pm c l H)) as E.
  apply (f_equal length) in E. rewrite length_drop in E. simpl in E. lia.
Qed.

(** A path that the reconstruction loop built. *)
Definition reconstructed (r : PathResult) : Prop :=
  forall l, path r = Some l ->
            exists fuel pm c p,
              reconstructPath fuel pm (Some c) [] = Returned p /\ l = rev p.

Lemma reconstructed_nodup r l :
  reconstructed r -> path r = Some l -> NoDup l.
Proof.
  intros Hr Hl. destruct (Hr l Hl) as (fuel & pm & c & p & Hp & ->).
  apply reconstruct_ancestry in Hp as (l' & -> & Hl').
  apply NoDup_ListNoDup, List.NoDup_rev, NoDup_ListNoDup. by eapply ancestry_nodup.
Qed.

Lemma reconstructed_none order : reconstructed (mkResult None order).
Proof. by intros l. Qed.

Lemma reconstructed_map fuel pm c order tr t :
  outcome_map (fun p => mkTraced (mkResult (Some (rev p)) order) tr)
    (reconstructPath fuel pm (Some c) []) = Returned t ->
  reconstructed (result t).
Proof.
  intros H. apply outcome_map_Returned in H as (p & Hp & ->).
  intros l [= <-]. by exists fuel, pm, c, p.
Qed.

Lemma bfs_reconstructed fuel maze start goal t :
  BFS.findPathTraced fuel maze start goal = Returned t ->
  reconstructed (result t).
Proof.
  unfold BFS.findPathTraced. destruct (numCols maze) as [nc|]; [|done].
  cbv zeta. destruct (_ || _).
  - intros [= <-]. apply reconstructed_none.
  - intros Hrun.
    eapply (loop_invariant _ (fun _ => True)
              (fun t => reconstructed (result t))); [done | | done | exact Hrun].
    intros s r _. unfold BFS.step.
    destruct (BFS.queue s) as [|cur rest].
    + intros [= <-]. apply reconstructed_none.
    + destruct (_ && _); [|done]. intros H. injection H as H.
      by eapply reconstructed_map.
Qed.

Lemma dfs_reconstructed fuel maze start goal rnd t :
  DFS.findPathTraced fuel maze start goal rnd = Returned t ->
  reconstructed (result t).
Proof.
  unfold DFS.findPathTraced. destruct (numCols maze) as [nc|]; [|done].
  cbv zeta. destruct (_ || _).
  - intros [= <-]. apply reconstructed_none.
  - intros Hrun.
    eapply (loop_invariant _ (fun _ => True)
              (fun t => reconstructed (result t))); [done | | done | exact Hrun].
    intros s r _. unfold DFS.step, DFS.finish.
    destruct (last (DFS.stack s)) as [cur|].
    + destruct (_ && _); [|by destruct (shuffle _ _)]. intros H. injection H as H.
      by eapply reconstructed_map.
    + intros [= <-]. apply reconstructed_none.
Qed.

Lemma astar_reconstructed fuel maze start goal t :
  AStar.findPathTraced fuel maze start goal = Returned t ->
  reconstructed (result t).
Proof.
  unfold AStar.findPathTraced. destruct (numCols maze) as [nc|]; [|done].
  cbv zeta. destruct (_ || _).
  - intros [= <-]. apply reconstructed_none.
  - intros Hrun.
    eapply (loop_invariant _ (fun _ => True)
              (fun t => reconstructed (result t))); [done | | done | exact Hrun].
    intros s r _. unfold AStar.step.
    destruct (sortByKey AStar.fCost (AStar.openSet s)) as [|e rest].
    + intros [= <-]. apply reconstructed_none.
    + case_bool_decide; [done|]. destruct (_ && _); [|done].
      intros Hx. injection Hx as Hx.
      by eapply reconstructed_map.
Qed.

Lemma greedy_reconstructed fuel maze start goal t :
  Greedy.findPathTraced fuel maze start goal = Returned t ->
  reconstructed (result t).
Proof.
  unfold Greedy.findPathTraced. destruct (numCols maze) as [nc|]; [|done].
  cbv zeta. destruct (_ || _).
  - intros [= <-]. apply reconstructed_none.
  - intros Hrun.
    eapply (loop_invariant _ (fun _ => True)
              (fun t => reconstructed (result t))); [done | | done | exact Hrun].
    intros s r _. unfold Greedy.step.
    destruct (sortByKey Greedy.hCost (Greedy.openSet s)) as [|e rest].
    + intros [= <-]. apply reconstructed_none.
    + case_bool_decide; [done|]. destruct (_ && _); [|done].
      intros Hx. injection Hx as Hx.
      by eapply reconstructed_map.
Qed.

Lemma search_reconstructed maze start goal fuel rnd r :
  findPathBFS fuel maze start goal = Returned r \/
  findPathDFS fuel maze start goal rnd = Returned r \/
  findPathAStar fuel maze start goal = Returned r \/
  findPathGreedy fuel maze start goal = Returned r ->
  reconstructed r.
Proof.
  intros [H|[H|[H|H]]]; apply outcome_map_Returned in H as (t & H & ->).
  - by eapply bfs_reconstructed.
  - by eapply dfs_reconstructed.
  - by eapply astar_reconstructed.
  - by eapply greedy_reconstructed.
Qed.

(** A search that returns a path was given valid endpoints. *)
Lemma search_valid maze nc start goal fuel rnd r l :
  numCols maze = Some nc ->
  findPathBFS fuel maze start goal = Returned r \/
  findPathDFS fuel maze start goal rnd = Returned r \/
  findPathAStar fuel maze start goal = Returned r \/
  findPathGreedy fuel maze start goal = Returned r ->
  path r = Some l ->
  invalidEndpoint maze (numRows maze) nc start = false.
Proof.
  intros Hnc Hrun Hl.
  destruct (invalidEndpoint maze (numRows maze) nc start) eqn:E; [|done].
  exfalso. destruct Hrun as [H|[H|[H|H]]];
    apply outcome_map_Returned in H as (t & H & ->);
    [unfold BFS.findPathTraced in H | unfold DFS.findPathTraced in H
    |unfold AStar.findPathTraced in H | unfold Greedy.findPathTraced in H];
    rewrite Hnc in H; cbv zeta in H; rewrite E in H; simpl in H;
    by injection H as <-.
Qed.

(** An endpoint that passes the guard of a matrix of paths and walls is a
    path inside it. *)
Lemma valid_passable gh gw maze p :
  Shaped gh gw maze -> invalidEndpoint maze gh gw p = false ->
  passable maze gh gw p = true.
Proof.
  intros Hs H. unfold invalidEndpoint in H.
  repeat (apply orb_false_elim in H as [H ?]).
  assert (Hr : 0 <= p.1 < gh) by lia. assert (Hc : 0 <= p.2 < gw) by lia.
  destruct (shaped_cellAt gh gw maze p.1 p.2 Hs Hr Hc) as [Hp|Hp].
  - by apply shaped_passable.
  - apply cellIs_iff in Hp. congruence.
Qed.

Lemma search_walk maze nc start goal fuel rnd r l :
  numCols maze = Some nc ->
  findPathBFS fuel maze start goal = Returned r \/
  findPathDFS fuel maze start goal rnd = Returned r \/
  findPathAStar fuel maze start goal = Returned r \/
  findPathGreedy fuel maze start goal = Returned r ->
  path r = Some l ->
  Walk maze (numRows maze) nc start l goal.
Proof.
  intros Hnc Hrun Hl.
  assert (Hs : soundResult maze (numRows maze) nc start goal r).
  { destruct Hrun as [H|[H|[H|H]]];
      eauto using bfs_sound, dfs_sound, astar_sound, greedy_sound. }
  by apply Hs.
Qed.

(** Where there is one route only, a search returns it. *)
Lemma search_only_route maze nc start goal fuel rnd r l :
  numCols maze = Some nc ->
  Shaped (numRows maze) nc maze ->
  Unique maze (numRows maze) nc ->
  findPathBFS fuel maze start goal = Returned r \/
  findPathDFS fuel maze start goal rnd = Returned r \/
  findPathAStar fuel maze start goal = Returned r \/
  findPathGreedy fuel maze start goal = Returned r ->
  path r = Some l ->
  forall l', Walk maze (numRows maze) nc start l' goal -> NoDup l' -> l' = l.
Proof.
  intros Hnc Hs Hu Hrun Hl l' Hwalk Hnd.
  apply (Hu start goal l' l); [| done | | done |].
  - apply valid_passable; [done|]. by eapply search_valid.
  - by eapply search_walk.
  - eapply reconstructed_nodup; [|exact Hl]. by eapply search_reconstructed.
Qed.

(** The generators whose passages never close a cycle. *)
Lemma tree_generators_unique width height fuel rnd method maze :
  1 <= width -> 1 <= height ->
  generateRecursiveBacktrackerMaze fuel width height rnd = Returned maze \/
  generatePrimsMaze fuel width height rnd = Returned maze \/
  generateKruskalsMaze fuel width height rnd = Returned maze \/
  generateBinaryTreeMaze width height rnd = Returned maze \/
  generateWilsonsMaze fuel width height rnd = Returned maze \/
  generateAldousBroderMaze fuel width height rnd = Returned maze \/
  generateGrowingTreeMaze fuel width height method rnd = Returned maze ->
  Unique maze (height * 2 + 1) (width * 2 + 1).
Proof.
  intros Hw Hh [H|[H|[H|[H|[H|[H|H]]]]]].
  - by apply (backtracker_unique fuel width height rnd maze).
  - by apply (prims_unique fuel width height rnd maze).
  - by apply (kruskal_unique fuel width height rnd maze).
  - by apply (binaryTree_unique width height rnd maze).
  - by apply (wilson_unique fuel width height rnd maze).
  - by apply (aldousBroder_unique fuel width height rnd maze).
  - by apply (growingTree_unique fuel width height method rnd maze).
Qed.

Lemma tree_generators_generated width height fuel rnd method maze :
  generateRecursiveBacktrackerMaze fuel width height rnd = Returned maze \/
  generatePrimsMaze fuel width height rnd = Returned maze \/
  generateKruskalsMaze fuel width height rnd = Returned maze \/
  generateBinaryTreeMaze width height rnd = Returned maze \/
  generateWilsonsMaze fuel width height rnd = Returned maze \/
  generateAldousBroderMaze fuel width height rnd = Returned maze \/
  generateGrowingTreeMaze fuel width height method rnd = Returned maze ->
  generated width height maze.
Proof. intros H. exists fuel, rnd, method. tauto. Qed.

(** X23.  A path returned by [findPathBFS], [findPathDFS], [findPathAStar]
    or [findPathGreedy] passes no cell twice, on every matrix, for all
    endpoints and random choices: the loop that follows the parents back
    from the end would not stop if it met a cell a second time. *)
Theorem returned_path_has_no_repeated_cell :
  forall (maze : Grid) (start goal : Coord) (fuel : nat) (rnd : Rand)
         (r : PathResult) (l : list Coord),
    findPathBFS fuel maze start goal = Returned r \/
    findPathDFS fuel maze start goal rnd = Returned r \/
    findPathAStar fuel maze start goal = Returned r \/
    findPathGreedy fuel maze start goal = Returned r ->
    path r = Some l ->
    NoDup l.
Proof.
  intros maze start goal fuel rnd r l Hrun Hl.
  eapply reconstructed_nodup; [|exact Hl]. by eapply search_reconstructed.
Qed.

Lemma returned_path_has_no_repeated_cell_witness :
  NoDup [(0, 0); (1, 0); (1, 1); (0, 1); (0, 2); (0, 3); (1, 3)].
Proof.
  apply (returned_path_has_no_repeated_cell zigzag (0, 0) (1, 3) 20 []
           (mkResult
              (Some [(0, 0); (1, 0); (1, 1); (0, 1); (0, 2); (0, 3); (1, 3)])
              [(0, 0); (1, 0); (1, 1); (0, 1); (0, 2); (0, 3); (1, 3)]));
    [right; right; right; vm_compute; reflexivity | reflexivity].
Defined.

(** X24.  In the grid returned by [generatePrimsMaze],
    [generateKruskalsMaze], [generateBinaryTreeMaze] or
    [generateGrowingTreeMaze] for [width, height >= 1] there is one route
    only between two positions: two walks through paths of the grid that
    start at the same path, end at the same position and pass no position
    twice are the same walk.  The passages close no cycle. *)
Theorem growing_generators_leave_one_route :
  forall (width height : Z) (fuel : nat) (rnd : Rand) (method : Method)
         (maze : Grid),
    1 <= width -> 1 <= height ->
    generatePrimsMaze fuel width height rnd = Returned maze \/
    generateKruskalsMaze fuel width height rnd = Returned maze \/
    generateBinaryTreeMaze width height rnd = Returned maze \/
    generateGrowingTreeMaze fuel width height method rnd = Returned maze ->
    Unique maze (height * 2 + 1) (width * 2 + 1).
Proof.
  intros width height fuel rnd method maze Hw Hh [H|[H|[H|H]]].
  - by apply (prims_unique fuel width height rnd maze).
  - by apply (kruskal_unique fuel width height rnd maze).
  - by apply (binaryTree_unique width height rnd maze).
  - by apply (growingTree_unique fuel width height method rnd maze).
Qed.

Lemma growing_generators_leave_one_route_witness :
  Unique kruskalRun (2 * 2 + 1) (2 * 2 + 1).
Proof.
  apply (growing_generators_leave_one_route 2 2 20 someRun newest
           kruskalRun);
    [lia | lia | right; left; vm_compute; reflexivity].
Defined.

(** X25.  The same for the grid returned by [generateWilsonsMaze],
    [generateAldousBroderMaze] or [generateRecursiveBacktrackerMaze] for
    [width, height >= 1]: one route only between two positions.  For the
    backtracker this holds also on the runs that leave cells uncarved. *)
Theorem walking_generators_leave_one_route :
  forall (width height : Z) (fuel : nat) (rnd : Rand) (maze : Grid),
    1 <= width -> 1 <= height ->
    generateWilsonsMaze fuel width height rnd = Returned maze \/
    generateAldousBroderMaze fuel width height rnd = Returned maze \/
    generateRecursiveBacktrackerMaze fuel width height rnd = Returned maze ->
    Unique maze (height * 2 + 1) (width * 2 + 1).
Proof.
  intros width height fuel rnd maze Hw Hh [H|[H|H]].
  - by apply (wilson_unique fuel width height rnd maze).
  - by apply (aldousBroder_unique fuel width height rnd maze).
  - by apply (backtracker_unique fuel width height rnd maze).
Qed.

Lemma walking_generators_leave_one_route_witness :
  Unique gappedMaze (3 * 2 + 1) (1 * 2 + 1).
Proof.
  apply (walking_generators_leave_one_route 1 3 10 aliasingRun gappedMaze);
    [lia | lia | right; right; vm_compute; reflexivity].
Defined.

(** X26.  In a matrix of paths and walls with one route only between two
    positions, the path that [findPathBFS], [findPathDFS], [findPathAStar]
    or [findPathGreedy] returns is that route: every walk from start to
    end through paths of the matrix that passes no position twice is the
    returned path. *)
Theorem search_returns_the_only_route :
  forall (maze : Grid) (nc : Z) (start goal : Coord) (fuel : nat)
         (rnd : Rand) (r : PathResult) (l : list Coord),
    numCols maze = Some nc ->
    Shaped (numRows maze) nc maze ->
    Unique maze (numRows maze) nc ->
    findPathBFS fuel maze start goal = Returned r \/
    findPathDFS fuel maze start goal rnd = Returned r \/
    findPathAStar fuel maze start goal = Returned r \/
    findPathGreedy fuel maze start goal = Returned r ->
    path r = Some l ->
    forall l', Walk maze (numRows maze) nc start l' goal -> NoDup l' ->
               l' = l.
Proof.
  intros maze nc start goal fuel rnd r l. apply search_only_route.
Qed.

Lemma kruskalRun_shaped : Shaped (2 * 2 + 1) (2 * 2 + 1) kruskalRun.
Proof.
  apply generated_shaped; [lia | lia | exact kruskalRun_generated].
Qed.

Lemma kruskalRun_unique : Unique kruskalRun (2 * 2 + 1) (2 * 2 + 1).
Proof.
  apply (kruskal_unique 20 2 2 someRun); [lia | lia |].
  vm_compute. reflexivity.
Qed.

Lemma search_returns_the_only_route_witness :
  Shaped (numRows kruskalRun) 5 kruskalRun /\
  Unique kruskalRun (numRows kruskalRun) 5 /\
  forall l',
    Walk kruskalRun (numRows kruskalRun) 5 (1, 0) l' (3, 4) -> NoDup l' ->
    l' = [(1, 0); (1, 1); (2, 1); (3, 1); (3, 2); (3, 3); (3, 4)].
Proof.
  split; [exact kruskalRun_shaped|]. split; [exact kruskalRun_unique|].
  apply (search_returns_the_only_route kruskalRun 5 (1, 0) (3, 4) 40 []
           (mkResult
              (Some [(1, 0); (1, 1); (2, 1); (3, 1); (3, 2); (3, 3); (3, 4)])
              [(1, 0); (1, 1); (2, 1); (3, 1); (3, 2); (3, 3); (3, 4)])
           _ eq_refl kruskalRun_shaped kruskalRun_unique);
    [right; right; left; vm_compute; reflexivity | reflexivity].
Defined.

(** X27.  On a grid returned for [width, height >= 1] by any generator but
    recursive division, two calls of [findPathBFS], [findPathDFS],
    [findPathAStar] or [findPathGreedy] with the same endpoints that each
    return a path return the same path, whatever the random choices: there
    [findPathDFS], [findPathAStar] and [findPathGreedy] return the shortest
    path that [findPathBFS] returns. *)
Theorem searches_agree_on_tree_mazes :
  forall (width height : Z) (fuel : nat) (rnd : Rand) (method : Method)
         (maze : Grid) (start goal : Coord) (fuel1 fuel2 : nat)
         (rnd1 rnd2 : Rand) (r1 r2 : PathResult) (l1 l2 : list Coord),
    1 <= width -> 1 <= height ->
    generateRecursiveBacktrackerMaze fuel width height rnd = Returned maze \/
    generatePrimsMaze fuel width height rnd = Returned maze \/
    generateKruskalsMaze fuel width height rnd = Returned maze \/
    generateBinaryTreeMaze width height rnd = Returned maze \/
    generateWilsonsMaze fuel width height rnd = Returned maze \/
    generateAldousBroderMaze fuel width height rnd = Returned maze \/
    generateGrowingTreeMaze fuel width height method rnd = Returned maze ->
    findPathBFS fuel1 maze start goal = Returned r1 \/
    findPathDFS fuel1 maze start goal rnd1 = Returned r1 \/
    findPathAStar fuel1 maze start goal = Returned r1 \/
    findPathGreedy fuel1 maze start goal = Returned r1 ->
    findPathBFS fuel2 maze start goal = Returned r2 \/
    findPathDFS fuel2 maze start goal rnd2 = Returned r2 \/
    findPathAStar fuel2 maze start goal = Returned r2 \/
    findPathGreedy fuel2 maze start goal = Returned r2 ->
    path r1 = Some l1 -> path r2 = Some l2 ->
    l1 = l2.
Proof.
  intros width height fuel rnd method maze start goal fuel1 fuel2 rnd1 rnd2
    r1 r2 l1 l2 Hw Hh Hgen Hrun1 Hrun2 Hl1 Hl2.
  pose proof (tree_generators_unique _ _ _ _ _ _ Hw Hh Hgen) as Hu.
  pose proof (generated_shaped _ _ _ Hw Hh
                (tree_generators_generated _ _ _ _ _ _ Hgen)) as Hs.
  assert (Hnc : numCols maze = Some (width * 2 + 1))
    by (eapply shaped_numCols; [|exact Hs]; lia).
  assert (Hnr : numRows maze = height * 2 + 1) by apply Hs.
  rewrite <- Hnr in Hs, Hu.
  apply (search_only_route maze _ start goal fuel2 rnd2 r2 l2 Hnc Hs Hu
           Hrun2 Hl2).
  - exact (search_walk maze _ start goal fuel1 rnd1 r1 l1 Hnc Hrun1 Hl1).
  - apply (reconstructed_nodup r1 l1); [|exact Hl1].
    exact (search_reconstructed maze start goal fuel1 rnd1 r1 Hrun1).
Qed.

Lemma searches_agree_on_tree_mazes_witness :
  [(1, 0); (1, 1); (2, 1); (3, 1); (3, 2); (3, 3); (3, 4)]
  = [(1, 0); (1, 1); (2, 1); (3, 1); (3, 2); (3, 3); (3, 4)].
Proof.
  apply (searches_agree_on_tree_mazes 2 2 20 someRun newest kruskalRun
           (1, 0) (3, 4) 40 40 [] []
           (mkResult
              (Some [(1, 0); (1, 1); (2, 1); (3, 1); (3, 2); (3, 3); (3, 4)])
              [(1, 0); (1, 1); (2, 1); (3, 1); (3, 2); (3, 3); (3, 4)])
           (mkResult
              (Some [(1, 0); (1, 1); (2, 1); (3, 1); (3, 2); (3, 3); (3, 4)])
              [(1, 0); (1, 1); (2, 1); (3, 1); (3, 2); (3, 3); (2, 3); (3, 4);
               (1, 3)]));
    [lia | lia | right; right; left; vm_compute; reflexivity
    | right; right; left; vm_compute; reflexivity
    | left; vm_compute; reflexivity | reflexivity | reflexivity].
Defined.
